(* ===== verification/_CoqProject ===== *)
-Q . S2P
Prelude.v
GoLib.v
Stats.v
HttpParse.v
Kernel.v
Loader.v
Tracker.v
Interleaving.v
Connections.v
Json.v
Routes.v
Url.v
Mirror.v
Agent.v
Float64.v
Rounding.v
Server.v
Transport.v
JsonText.v
FloatText.v
Apigee.v
Ewp.v
Report.v
InFlight.v
Parity.v
Bodies.v
Log.v
Pipeline.v
