(* ===== verification/Prelude.v ===== *)
(** * mirror-agent: a verification development

    The repository shadows the traffic of an API gateway. A TC program
    ([kernel/mirror.bpf.c]) copies the payload of every TCP segment to the
    gateway's port into a ring buffer; the agent ([mirror-agent/]) decodes the
    records, reassembles HTTP/1.x requests per connection and replays each one
    to the new gateway; two simulators ([apigee-sim/], [ewp-sim/]) stand for
    the old and the new gateway, and the second one reports whether the
    migration may be cut over. This library models these programs and proves
    what they do right, and where they do not do what they mean to.

    ** How the parts map to the code

    - [Prelude], [GoLib], [Json], [Url], [Float64], [Rounding], [Server],
      [Transport], [JsonText], [FloatText]: the language and its standard library,
      as far as the program uses it. Byte strings, 64-bit wrap-around, slices and
      run-time panics ([outcome]); [strings], [strconv], [http.Header]; the
      decoder of [encoding/json] and its encoder; [net/url]; binary64 arithmetic,
      its rounding, and the text of its values; [net/http]'s multiplexer,
      redirects and [map] bodies, and what of a request its client and server
      carry over the wire ([arrives]).
    - [Kernel]: [mirror_ingress] over its three BPF maps ([bpf_maps]) and the
      memory layout of [struct pkt_event] ([encode_event]).
    - [Loader] ([loader.go]): [decode_record] is the body of [ReadEvents];
      [NewLoader] and [Close] are sequences of library calls; what they leave
      behind ([held]: collection, reader, port, filter, queueing discipline) is
      [do_calls], failures of any call included.
    - [HttpParse] (second half of [tracker.go]): [parseOneRequest],
      [parseHTTPRequests], the two packet heuristics; the relation [parses] is
      the fuel-free specification of the request loop, and the class
      [BufferParser] is what the tracker relies on.
    - [Tracker] (first half of [tracker.go]): the stream table, [Feed] as its
      two critical sections [feed_enter] and [feed_leave], the reaper.
      [Interleaving]: [tracker_step], in which clock, reaper and [Feed]
      interleave, and [timed_step], which adds the reaper's ticker.
      [Connections]: the specification of both, a machine without buffers,
      offsets, locks or clock that keeps one byte string per connection.
    - [Routes] ([routes.go]) and [Mirror] ([mirror.go]): the route table, the
      shadow request, the checks and the timeout of its client ([doSend], over an
      arbitrary [network], which may stay silent), the counting of answers, the
      log snippets.
    - [Stats] ([stats.go]): the eleven atomic counters.
    - [Agent] ([main.go]): start-up and shutdown; [agent_step], the running
      agent: the steps of the tracker, one goroutine per request that resolves
      its route, sends, waits as long as [doSend] takes ([flight]) and counts
      ([send_step]), and the signal.
    - [Apigee] and [Ewp]: every handler of the simulators; for [Ewp] also the
      validation report with the values of its page ([report_page]), about which
      [Report] proves what it counts. [InFlight] has [ewp_step], in which the
      handlers interleave at their accesses to shared variables. [Parity]
      compares the two simulators. [Bodies]: their responses as
      text, and what a JSON reader gets from it.
    - [Log]: the messages all of them log, the text and the lines these make in
      the agent's log, and the main programs of the simulators.
    - [Pipeline]: everything composed, from the packets to the report.

    ** What the theorems show

    - End to end: the segments of well-formed requests, mixed with any other
      traffic, come out of the tracker as exactly those requests, however they
      are cut and however the read loop interleaves with the reaper, as long as
      the connection is not forgotten ([Pipeline.capture_to_requests]), and once
      replayed they are counted by EWP's report, each one once, under its own
      method and path and in every interleaving of EWP's goroutines
      ([Pipeline.traffic_reaches_report]). It is composed of the hook's events,
      the record round trip ([Loader.ring_buffer_roundtrip]), the read loop
      ([Loader.ReadEvents_delivers]), the parser round trip
      ([HttpParse.parse_wire]), incremental parsing
      ([HttpParse.parse_incremental]), reassembly
      ([Connections.interleaved_reassembly]), the construction of the shadow
      request ([Mirror], [Url]) and the completeness of EWP's log
      ([InFlight.system_complete]).
    - Refinement: the tracker is simulated by its specification
      ([Connections.tracker_refines_connections]).
    - Accounting: the hook's counters ([Kernel.capture_accounting]), the
      agent's ([Agent.agent_conservation]) and EWP's ([InFlight.ewp_counters]), in
      every reachable state; the text of the log has at least as many lines with
      the tag of a counter as that counts, and no more unless logged fields
      contain line breaks ([Log.log_accounts]).
    - Safety: where panics can and cannot come from
      ([HttpParse.parse_panics_iff], [Tracker.Feed_panics_only_in_parser],
      [Apigee.serve_panics_iff], [Agent.agent_dies_only_in_parser]), the reaper
      race ([Interleaving.feed_prompt_safe], [Interleaving.feed_race_reachable]), the
      shape of the stream table ([Interleaving.tracker_well_formed]), resources at
      start-up and shutdown, and what stays behind ([Loader.NewLoader_resources],
      [Loader.filter_after_port], [Agent.startup_ready]).
    - Liveness: while the agent runs, the timeout of its client settles every
      captured request, under every schedule and whatever the network does, and
      by when ([Agent.requests_settle]); and no abandoned stream stays
      longer than twenty-five seconds ([Interleaving.idle_streams_reaped]).
    - Routing and replay: first-match routing, loading of tables, the exact
      headers and the host of the shadow request ([Routes], [Mirror]).
    - The report: its totals, the window of the log, the exactness of the
      readiness flag in float arithmetic, the threshold
      ([Report.ready_iff_all_passed], [Report.config_put]), and that the gate can
      never close ([InFlight.readiness_gate_vacuous]).
    - Texts: the JSON encoder and decoder agree on every document
      ([JsonText.first_value_print]) and on every number
      ([FloatText.format_float_denotes]), the page of the report says what the
      report says ([Bodies.report_page_readable]), and a posted object comes back
      with the members the handler added ([Bodies.posted_object_returned]).
    - Limits, stated as theorems: chunked bodies
      ([HttpParse.chunked_body_desync]), binary bodies in several
      segments, malformed streams, request targets that escape the configured
      host, identifiers that are not unique, requests a signal drops
      ([Agent.signal_drops_requests]), log lines a client writes
      ([Log.log_line_forged]).

    ** Bounds and fuel

    [parse_loop] gets one unit more than the length of the buffer, and every
    iteration consumes a byte ([HttpParse.parse_loop_refines]). The JSON parser
    gets [json_fuel], more than twice the length of its text
    ([Json.first_value_fuel]: more never matters). Decimal printing has twenty
    digits, enough for 64 bits. [split] and the trimming functions use the
    length of their argument. Counters wrap at 64 bits; float64 rounds every
    operation to nearest even, with subnormals and overflow. A float is printed
    with the fewest digits that read back as it; seventeen always do
    ([FloatText.literal17_denotes]), and six steps find the decimal point
    ([FloatText.point_of_spec]).

    ** What is not modelled

    The network, the eBPF and netlink libraries and the BPF helpers, which are
    arguments of the definitions with their documented behaviour as hypotheses.
    [Transport.arrives] leaves out proxies, HTTP versions above 1.1 and requests
    with an [Expect] field, and takes the header limit of the server without the
    4096 bytes it adds to it. The texts of library errors, the time stamps of log
    entries and the [%q] form, which are arguments, and the prefixes of the
    simulators' log lines; case mapping
    outside ASCII; the package [flag] and the listening sockets; scripts and
    container files. The EWP simulator is
    modelled as if it imported [strings], which it uses. *)

From Stdlib Require Import ZArith Lia.
From Stdlib.Strings Require Byte.
From Stdlib Require String.
From stdpp Require Export base option list countable strings gmap.

(** ** Bytes and Go strings *)

Abbreviation byte := Byte.byte.

#[export] Instance byte_eq_dec : EqDecision byte := Byte.byte_eq_dec.

#[export] Program Instance byte_countable : Countable byte :=
  inj_countable Byte.to_N Byte.of_N _.
Next Obligation. apply Byte.of_to_N. Qed.

#[export] Instance byte_inhabited : Inhabited byte := populate Byte.x00.

(** A Go [string] and the contents of a Go byte slice are both a finite
    sequence of bytes. *)
Abbreviation bytes := (list byte).

(** The numeric value of a byte. *)
Definition bz (b : byte) : Z := Z.of_N (Byte.to_N b).

(** The byte with a given value, modulo 256. *)
Definition zb (z : Z) : byte :=
  default Byte.x00 (Byte.of_N (Z.to_N (z mod 256))).

(** String literals as byte sequences. *)
Definition str (s : string) : bytes := String.list_byte_of_string s.

Definition CR : byte := Byte.x0d.
Definition LF : byte := Byte.x0a.
Definition TAB : byte := Byte.x09.
Definition SP : byte := Byte.x20.
Definition SLASH : byte := Byte.x2f.
Definition COLON : byte := Byte.x3a.
Definition DQUOTE : byte := Byte.x22.
Definition CRLF : bytes := [CR; LF].

(** A literal in which the apostrophe stands for the double quote, to write
    JSON texts. *)
Definition qstr (s : string) : bytes :=
  (λ b, if decide (b = Byte.x27) then DQUOTE else b) <$> str s.

Lemma bz_range b : (0 ≤ bz b < 256)%Z.
Proof. unfold bz. pose proof (Byte.to_N_bounded b). lia. Qed.

Lemma zb_bz b : zb (bz b) = b.
Proof.
  unfold zb. rewrite Z.mod_small by apply bz_range.
  unfold bz. by rewrite N2Z.id, Byte.of_to_N.
Qed.

Lemma bz_zb z : bz (zb z) = (z mod 256)%Z.
Proof.
  unfold zb, bz. pose proof (Z.mod_pos_bound z 256 ltac:(lia)) as Hz.
  destruct (Byte.of_N (Z.to_N (z mod 256))) as [b|] eqn:E; simpl.
  - apply Byte.to_of_N in E. lia.
  - apply Byte.of_N_None_iff in E. lia.
Qed.

#[export] Instance bz_inj : Inj (=) (=) bz.
Proof. intros x y E. by rewrite <- (zb_bz x), E, zb_bz. Qed.

(** ** Machine integers

    Go's [int] and [int64] are 64-bit two's complement; arithmetic wraps. *)

Definition wrap64 (z : Z) : Z := ((z + 2^63) mod 2^64 - 2^63)%Z.
Definition u16 (z : Z) : Z := (z mod 2^16)%Z.
Definition u32 (z : Z) : Z := (z mod 2^32)%Z.
Definition u64 (z : Z) : Z := (z mod 2^64)%Z.

Definition in_int64 (z : Z) : Prop := (-2^63 ≤ z < 2^63)%Z.

Lemma wrap64_range z : in_int64 (wrap64 z).
Proof.
  unfold in_int64, wrap64.
  pose proof (Z.mod_pos_bound (z + 2^63) (2^64) ltac:(lia)). lia.
Qed.

Lemma wrap64_small z : in_int64 z → wrap64 z = z.
Proof. unfold in_int64, wrap64. intros H. rewrite Z.mod_small; lia. Qed.

Lemma wrap64_add_l a b : wrap64 (wrap64 a + b) = wrap64 (a + b).
Proof.
  unfold wrap64. f_equal.
  replace ((a + 2 ^ 63) mod 2 ^ 64 - 2 ^ 63 + b + 2 ^ 63)%Z
    with ((a + 2 ^ 63) mod 2 ^ 64 + b)%Z by lia.
  rewrite Zplus_mod_idemp_l. f_equal. lia.
Qed.

Lemma wrap64_add_r a b : wrap64 (a + wrap64 b) = wrap64 (a + b).
Proof. rewrite Z.add_comm, wrap64_add_l. f_equal. lia. Qed.

Lemma wrap64_wrap64 z : wrap64 (wrap64 z) = wrap64 z.
Proof. apply wrap64_small, wrap64_range. Qed.

Lemma u64_add_l a b : u64 (u64 a + b) = u64 (a + b).
Proof. apply Zplus_mod_idemp_l. Qed.

Lemma u64_add_r a b : u64 (a + u64 b) = u64 (a + b).
Proof. apply Zplus_mod_idemp_r. Qed.

(** ** Outcomes of Go code: a value, or a run-time panic *)

Inductive panic :=
  | MakeSliceLen      (* makeslice: len out of range *)
  | SliceBounds       (* slice bounds out of range *)
  | NilDeref          (* invalid memory address or nil pointer dereference *)
  | NilMapWrite.      (* assignment to entry in nil map *)

Inductive outcome (A : Type) :=
  | Ret (a : A)
  | Panic (p : panic).
Arguments Ret {A} a.
Arguments Panic {A} p.

#[export] Instance panic_eq_dec : EqDecision panic.
Proof. solve_decision. Defined.

#[export] Instance outcome_eq_dec `{EqDecision A} : EqDecision (outcome A).
Proof. solve_decision. Defined.

#[export] Instance outcome_ret : MRet outcome := λ A a, Ret a.
#[export] Instance outcome_bind : MBind outcome := λ A B f m,
  match m with Ret a => f a | Panic p => Panic p end.
#[export] Instance outcome_fmap : FMap outcome := λ A B f m,
  match m with Ret a => Ret (f a) | Panic p => Panic p end.

Lemma outcome_bind_Ret {A B} (f : A → outcome B) m b :
  m ≫= f = Ret b ↔ ∃ a, m = Ret a ∧ f a = Ret b.
Proof. destruct m; naive_solver. Qed.

(** ** Go slices *)

(** The largest slice [make] can allocate on linux/amd64. *)
Definition maxAlloc : Z := (2^48)%Z.

Definition len (s : bytes) : Z := Z.of_nat (length s).

(** [make([]byte, n)] *)
Definition makeslice (n : Z) : outcome bytes :=
  if decide (0 ≤ n ≤ maxAlloc)%Z then Ret (replicate (Z.to_nat n) Byte.x00)
  else Panic MakeSliceLen.

(** [s[lo:hi]] of a slice whose capacity is its length. *)
Definition slice (s : bytes) (lo hi : Z) : outcome bytes :=
  if decide (0 ≤ lo ≤ hi ∧ hi ≤ len s)%Z
  then Ret (take (Z.to_nat (hi - lo)) (drop (Z.to_nat lo) s))
  else Panic SliceBounds.

(** [copy(dst, src)]: the new contents of [dst]. *)
Definition copy (dst src : bytes) : bytes :=
  take (length dst) src ++ drop (length src) dst.

Lemma length_copy dst src : length (copy dst src) = length dst.
Proof. unfold copy. rewrite length_app, length_take, length_drop. lia. Qed.

Lemma copy_exact dst src : length dst = length src → copy dst src = src.
Proof.
  intros E. unfold copy. rewrite E, firstn_all, <- E, drop_all. apply app_nil_r.
Qed.

Lemma len_app a b : len (a ++ b) = (len a + len b)%Z.
Proof. unfold len. rewrite length_app. lia. Qed.

Lemma len_nonneg s : (0 ≤ len s)%Z.
Proof. unfold len. lia. Qed.

Lemma makeslice_Ret n s :
  makeslice n = Ret s ↔
    (0 ≤ n ≤ maxAlloc)%Z ∧ s = replicate (Z.to_nat n) Byte.x00.
Proof. unfold makeslice. case_decide; naive_solver. Qed.

Lemma slice_Ret s lo hi r :
  slice s lo hi = Ret r ↔
    (0 ≤ lo ≤ hi ∧ hi ≤ len s)%Z ∧
    r = take (Z.to_nat (hi - lo)) (drop (Z.to_nat lo) s).
Proof. unfold slice. case_decide; naive_solver. Qed.

Lemma slice_to_end d c :
  (0 ≤ c ≤ len d)%Z → slice d c (len d) = Ret (drop (Z.to_nat c) d).
Proof.
  intros Hc. apply slice_Ret. split; [lia|]. unfold len in *.
  symmetry. apply take_ge. rewrite length_drop. lia.
Qed.

(** Slicing within the first part of a concatenation ignores the rest. *)
Lemma slice_app s t lo hi :
  (hi ≤ len s)%Z → slice (s ++ t) lo hi = slice s lo hi.
Proof.
  intros Hhi. unfold slice, len in *. rewrite length_app.
  repeat case_decide; try lia; [|done].
  f_equal. rewrite drop_app, take_app_le; [done|].
  rewrite length_drop. lia.
Qed.

Lemma slice_middle a b c :
  slice (a ++ b ++ c) (len a) (len a + len b) = Ret b.
Proof.
  apply slice_Ret. unfold len. rewrite !length_app. split; [lia|].
  rewrite Nat2Z.id, drop_app_length.
  replace (Z.to_nat _) with (length b) by lia.
  by rewrite take_app_length.
Qed.

(** ** Generic lemmas and automation *)

Create HintDb gomodel.
Create Rewrite HintDb wrap64.
#[export] Hint Resolve bz_range wrap64_range len_nonneg : gomodel.
#[export] Hint Rewrite wrap64_add_l wrap64_add_r wrap64_wrap64 : wrap64.

(** Induction on the length of a list. *)
Lemma list_len_ind {A} (P : list A → Prop) :
  (∀ l, (∀ l', length l' < length l → P l') → P l) → ∀ l, P l.
Proof.
  intros H l. remember (length l) as n eqn:E. revert l E.
  induction n as [n IH] using lt_wf_ind. intros l ->.
  apply H. intros l' Hl. by eapply IH.
Qed.

(** Split a hypothesis [x ← m; f x = Ret b] into its steps. *)
Ltac inv_bind H :=
  let a := fresh "a" in
  let Ha := fresh "Ha" in
  apply outcome_bind_Ret in H; destruct H as (a & Ha & H).

(** Close a decidable closed goal by evaluation. *)
Ltac by_compute := apply (bool_decide_unpack _); vm_compute; exact I.

(** Case analysis on the innermost [if]/[match] of the goal or a hypothesis. *)
Ltac cases := repeat (case_match || case_decide); simplify_eq/=.

(** ** Reachability for step relations *)

Section reach.
Context {St : Type} (init : St → Prop) (step : St → St → Prop).

Inductive reachable : St → Prop :=
  | reach_init s : init s → reachable s
  | reach_step s s' : reachable s → step s s' → reachable s'.

(** Rule induction: a predicate that holds initially and is preserved by
    every step from a reachable state is an invariant. *)
Lemma reachable_invariant (I : St → Prop) :
  (∀ s, init s → I s) →
  (∀ s s', reachable s → I s → step s s' → I s') →
  ∀ s, reachable s → I s.
Proof. intros Hi Hs s Hr. induction Hr; eauto. Qed.
End reach.

(** ** Traces and simulation

    [trace step s ls s']: steps with the labels [ls], in order, lead from [s]
    to [s']. *)

Section trace.
Context {St L : Type} (step : St → L → St → Prop).

Inductive trace (s : St) : list L → St → Prop :=
  | trace_nil : trace s [] s
  | trace_snoc ls s' l s'' : trace s ls s' → step s' l s'' → trace s (ls ++ [l]) s''.

Lemma trace_app s ls s' ls' s'' :
  trace s ls s' → trace s' ls' s'' → trace s (ls ++ ls') s''.
Proof.
  intros H. induction 1 as [|ls' s1 l s2 _ IH Hs]; [by rewrite app_nil_r|].
  rewrite (assoc_L (++)). by eapply trace_snoc.
Qed.

Lemma trace_one s l s' : step s l s' → trace s [l] s'.
Proof. intros H. apply (trace_snoc s [] s l s'); [constructor|done]. Qed.

Lemma trace_reachable (init : St → Prop) s ls s' :
  init s → trace s ls s' → reachable init (λ s s', ∃ l, step s l s') s'.
Proof.
  intros Hi. induction 1 as [|ls s1 l s2 _ IH Hs]; [by apply reach_init|].
  eapply reach_step; [done|by exists l].
Qed.
End trace.

(** A relation that every concrete step follows with an abstract step of the
    same label carries whole traces over. *)
Lemma simulation {C A L} (cstep : C → L → C → Prop) (astep : A → L → A → Prop)
    (R : C → A → Prop) :
  (∀ c a l c', R c a → cstep c l c' → ∃ a', astep a l a' ∧ R c' a') →
  ∀ c a ls c', R c a → trace cstep c ls c' → ∃ a', trace astep a ls a' ∧ R c' a'.
Proof.
  intros Hsim c a ls c' HR. induction 1 as [|ls c1 l c2 _ IH Hs]; [by exists a; split; [constructor|]|].
  destruct IH as (a1 & Ha1 & HR1). destruct (Hsim _ _ _ _ HR1 Hs) as (a2 & Ha2 & HR2).
  exists a2. split; [by eapply trace_snoc|done].
Qed.

(** ** Inevitability

    [inevitable step P s]: whatever steps are taken from [s], a state in which
    [P] holds is reached, and the run is never stuck before. *)

Section inevitable.
Context {St : Type} (step : St → St → Prop).

Inductive inevitable (P : St → Prop) (s : St) : Prop :=
  | inevitable_now : P s → inevitable P s
  | inevitable_next :
      (∃ s', step s s') → (∀ s', step s s' → inevitable P s') → inevitable P s.

Lemma inevitable_weaken (P Q : St → Prop) s :
  (∀ s, P s → Q s) → inevitable P s → inevitable Q s.
Proof.
  intros HPQ. induction 1 as [s HP|s He _ IH]; [left; auto|right; auto].
Qed.

(** A measure that every step decreases under an invariant. *)
Lemma inevitable_measure (I P : St → Prop) (m : St → nat) :
  (∀ s, I s → P s ∨ (∃ s', step s s')) →
  (∀ s s', I s → step s s' → I s' ∧ m s' < m s) →
  ∀ s, I s → inevitable (λ s, I s ∧ P s) s.
Proof.
  intros Hp Hd s. remember (m s) as n eqn:E. revert s E.
  induction n as [n IH] using lt_wf_ind. intros s -> HI.
  destruct (Hp s HI) as [HP|He]; [by left|]. right; [done|].
  intros s' Hs. destruct (Hd s s' HI Hs) as [HI' Hlt]. by eapply IH.
Qed.
End inevitable.
