(* ===== verification/GoLib.v ===== *)
(** * The Go standard library functions the program calls

    Models of the functions of [bytes], [strings], [strconv],
    [net/textproto] and [net/http] the sources under [src/] use, with the
    lemmas the components need: searching, splitting, trimming, integer
    parsing and header maps. *)

From Stdlib Require Import ZArith Lia.
From S2P Require Import Prelude.

(** ** Searching: [bytes.HasPrefix], [strings.Index], [bytes.Index] *)

Fixpoint has_prefix (s p : bytes) {struct p} : bool :=
  match p, s with
  | [], _ => true
  | b :: p', c :: s' => bool_decide (b = c) && has_prefix s' p'
  | _ :: _, [] => false
  end.

(** The position of the first occurrence of [sep] in [s]; Go returns -1
    where this is [None]. *)
Fixpoint index (s sep : bytes) : option nat :=
  if has_prefix s sep then Some 0
  else match s with
       | [] => None
       | _ :: s' => S <$> index s' sep
       end.

Lemma has_prefix_spec s p : has_prefix s p = true ↔ p `prefix_of` s.
Proof.
  revert s. induction p as [|b p IH]; intros s; simpl.
  - split; [intros _; apply prefix_nil | done].
  - destruct s as [|c s].
    + split; [discriminate|]. intros [k Hk]. discriminate.
    + rewrite andb_true_iff, bool_decide_eq_true, IH. split.
      * intros [-> H]. by apply prefix_cons.
      * intros [k Hk]. simplify_eq/=. split; [done|]. by exists k.
Qed.

Lemma has_prefix_app s p t : has_prefix s p = true → has_prefix (s ++ t) p = true.
Proof. rewrite !has_prefix_spec. intros. by apply prefix_app_r. Qed.

Lemma has_prefix_self p t : has_prefix (p ++ t) p = true.
Proof. apply has_prefix_spec. by exists t. Qed.

(** A prefix test on enough bytes ignores what follows. *)
Lemma has_prefix_app_long s p t :
  length p ≤ length s → has_prefix (s ++ t) p = has_prefix s p.
Proof.
  revert s. induction p as [|b p IH]; intros [|c s] Hl; simpl in *; try done; try lia.
  by rewrite IH by lia.
Qed.

Lemma index_Some_split s sep i :
  index s sep = Some i →
  s = take i s ++ sep ++ drop (i + length sep) s ∧ i + length sep ≤ length s.
Proof.
  revert i. induction s as [|c s IH]; intros i; cbn [index].
  - destruct (has_prefix [] sep) eqn:E; [|done]. intros [= <-].
    apply has_prefix_spec in E. apply prefix_nil_inv in E as ->. simpl. done.
  - destruct (has_prefix (c :: s) sep) eqn:E.
    + intros [= <-]. apply has_prefix_spec in E as [k Hk]. rewrite Hk. simpl.
      rewrite drop_app_length, length_app. split; [done|lia].
    + intros (j & Hj & ->)%fmap_Some. destruct (IH _ Hj) as [Hs Hl]. simpl.
      split; [by f_equal | lia].
Qed.

(** The first occurrence stays the first when bytes are appended. *)
Lemma index_app_stable s sep t i :
  index s sep = Some i → index (s ++ t) sep = Some i.
Proof.
  revert i. induction s as [|c s IH]; intros i.
  - cbn [index]. destruct (has_prefix [] sep) eqn:E; [|done]. intros [= <-].
    apply has_prefix_spec, prefix_nil_inv in E as ->. by destruct t.
  - cbn [index app]. destruct (has_prefix (c :: s) sep) eqn:E.
    + intros [= <-]. by rewrite (has_prefix_app (c :: s) sep t E : has_prefix (c :: s ++ t) sep = true).
    + intros (j & Hj & ->)%fmap_Some.
      destruct (has_prefix (c :: s ++ t) sep) eqn:E'.
      * exfalso. change (c :: s ++ t) with ((c :: s) ++ t) in E'.
        rewrite has_prefix_app_long in E'; [congruence|].
        apply index_Some_split in Hj as [_ ?]. simpl. lia.
      * by rewrite (IH _ Hj).
Qed.

Lemma index_cons_ne c s b sep :
  c ≠ b → index (c :: s) (b :: sep) = S <$> index s (b :: sep).
Proof. intros H. cbn [index has_prefix]. by rewrite bool_decide_eq_false_2. Qed.

(** Bytes that cannot start the separator are skipped. *)
Lemma index_skip a s b sep :
  b ∉ a → index (a ++ s) (b :: sep) = (λ i, length a + i) <$> index s (b :: sep).
Proof.
  induction a as [|c a IH]; intros Ha.
  - cbn [app length]. by destruct (index s (b :: sep)).
  - apply not_elem_of_cons in Ha as [Hc Ha].
    rewrite <- app_comm_cons, index_cons_ne, IH by done.
    by destruct (index s (b :: sep)).
Qed.

Lemma index_absent a b sep : b ∉ a → index a (b :: sep) = None.
Proof.
  intros Ha. rewrite <- (app_nil_r a), index_skip by done. done.
Qed.

Lemma index_hit a b sep t :
  b ∉ a → index (a ++ b :: sep ++ t) (b :: sep) = Some (length a).
Proof.
  intros Ha. rewrite index_skip by done.
  assert (index (b :: sep ++ t) (b :: sep) = Some 0) as ->.
  { cbn [index]. change (b :: sep ++ t) with ((b :: sep) ++ t).
    by rewrite has_prefix_self. }
  simpl. by rewrite Nat.add_0_r.
Qed.

(** ** [strings.Split] and [strings.SplitN]

    [genSplit s sep n] cuts at most [n - 1] times; [strings.Split] passes the
    number of occurrences plus one, of which the length of [s] is a bound. *)

Fixpoint gen_split (cuts : nat) (s sep : bytes) : list bytes :=
  match cuts with
  | 0 => [s]
  | S cuts' =>
      match index s sep with
      | None => [s]
      | Some m => take m s :: gen_split cuts' (drop (m + length sep) s) sep
      end
  end.

Definition split (s sep : bytes) : list bytes := gen_split (length s) s sep.
Definition splitN (s sep : bytes) (n : nat) : list bytes := gen_split (n - 1) s sep.

(** [strings.Join] *)
Fixpoint join (sep : bytes) (l : list bytes) : bytes :=
  match l with
  | [] => []
  | [x] => x
  | x :: l' => x ++ sep ++ join sep l'
  end.

Lemma gen_split_nonempty cuts s sep : gen_split cuts s sep ≠ [].
Proof. destruct cuts; simpl; [done|]. by destruct (index s sep). Qed.

(** Splitting loses nothing. *)
Lemma join_gen_split cuts s sep : join sep (gen_split cuts s sep) = s.
Proof.
  revert s. induction cuts as [|cuts IH]; intros s; cbn [gen_split]; [done|].
  destruct (index s sep) as [m|] eqn:E; [|done].
  apply index_Some_split in E as [E _].
  specialize (IH (drop (m + length sep) s)).
  destruct (gen_split cuts _ _) as [|y l] eqn:E'.
  - by apply gen_split_nonempty in E'.
  - cbn [join] in *. rewrite IH. by rewrite <- E.
Qed.

(** Splitting undoes joining when no piece holds the separator's first byte. *)
Lemma gen_split_join cuts b sep l :
  l ≠ [] → Forall (λ x, b ∉ x) l → length l ≤ S cuts →
  gen_split cuts (join (b :: sep) l) (b :: sep) = l.
Proof.
  revert cuts. induction l as [|x l IH]; intros cuts Hne Hf Hlen; [done|].
  apply Forall_cons in Hf as [Hx Hf].
  destruct l as [|y l].
  - simpl. destruct cuts; cbn [gen_split]; [done|]. by rewrite index_absent.
  - destruct cuts as [|cuts]; [simpl in Hlen; lia|].
    change (join (b :: sep) (x :: y :: l))
      with (x ++ (b :: sep) ++ join (b :: sep) (y :: l)).
    cbn [gen_split]. rewrite <- app_comm_cons, index_hit by done.
    rewrite take_app_length. f_equal.
    rewrite drop_app_add', app_comm_cons, drop_app_length by done.
    apply IH; [done|done|simpl in *; lia].
Qed.

Lemma length_join b sep l :
  length l ≤ S (length (join (b :: sep) l)).
Proof.
  induction l as [|x [|y l] IH]; [simpl; lia..|].
  change (join (b :: sep) (x :: y :: l))
    with (x ++ (b :: sep) ++ join (b :: sep) (y :: l)).
  rewrite !length_app. simpl in *. lia.
Qed.

Lemma split_join b sep l :
  l ≠ [] → Forall (λ x, b ∉ x) l →
  split (join (b :: sep) l) (b :: sep) = l.
Proof.
  intros Hne Hf. destruct l as [|x [|y l]]; [done| |].
  - rewrite Forall_singleton in Hf. cbn [join].
    unfold split. destruct (length x); cbn [gen_split]; [done|].
    by rewrite index_absent.
  - apply gen_split_join; [done|done|].
    change (join (b :: sep) (x :: y :: l))
      with (x ++ (b :: sep) ++ join (b :: sep) (y :: l)).
    pose proof (length_join b sep (y :: l)).
    rewrite !length_app. simpl in *. lia.
Qed.

(** No piece of a full split holds the separator. *)
Lemma split_length_bound cuts s sep : length (gen_split cuts s sep) ≤ S cuts.
Proof.
  revert s. induction cuts as [|cuts IH]; intros s; simpl; [done|].
  destruct (index s sep); simpl; [|lia]. specialize (IH (drop (n + length sep) s)). lia.
Qed.

(** ** [strings.TrimSpace], [strings.TrimRight], [strings.ToLower] *)

(** The UTF-8 encodings of the runes [unicode.IsSpace] accepts. *)
Definition space_runes : list bytes :=
  ((λ z, [zb z]) <$> [0x09; 0x0a; 0x0b; 0x0c; 0x0d; 0x20]%Z) ++
  ((λ z, [zb 0xc2; zb z]) <$> [0x85; 0xa0]%Z) ++
  [[zb 0xe1; zb 0x9a; zb 0x80]] ++
  ((λ z, [zb 0xe2; zb 0x80; zb z]) <$>
     [0x80; 0x81; 0x82; 0x83; 0x84; 0x85; 0x86; 0x87; 0x88; 0x89; 0x8a;
      0xa8; 0xa9; 0xaf]%Z) ++
  [[zb 0xe2; zb 0x81; zb 0x9f]; [zb 0xe3; zb 0x80; zb 0x80]].

(** Remove, [fuel] times at most, a leading element of [runes]. *)
Fixpoint trim_runes (fuel : nat) (runes : list bytes) (s : bytes) : bytes :=
  match fuel with
  | 0 => s
  | S fuel' =>
      match List.find (has_prefix s) runes with
      | Some r => trim_runes fuel' runes (drop (length r) s)
      | None => s
      end
  end.

Definition trim_left (s : bytes) : bytes := trim_runes (length s) space_runes s.

Definition trim_right (s : bytes) : bytes :=
  reverse (trim_runes (length s) (reverse <$> space_runes) (reverse s)).

(** [strings.TrimSpace] *)
Definition trim_space (s : bytes) : bytes := trim_right (trim_left s).

Lemma trim_space_cons_SP s : trim_space (SP :: s) = trim_space s.
Proof. done. Qed.

Lemma trim_space_nil : trim_space [] = [].
Proof. done. Qed.

(** [strings.TrimRight(s, cut)] for a one-byte cutset. *)
Fixpoint trim_right_byte (b : byte) (s : bytes) : bytes :=
  match s with
  | [] => []
  | c :: s' =>
      match trim_right_byte b s' with
      | [] => if decide (c = b) then [] else [c]
      | r => c :: r
      end
  end.

Lemma trim_right_byte_last b s c : last (trim_right_byte b s) = Some c → c ≠ b.
Proof.
  induction s as [|d s IH]; [done|]. simpl.
  destruct (trim_right_byte b s) as [|e r] eqn:E.
  - case_decide; [done|]. naive_solver.
  - intros H. apply IH. by rewrite <- H.
Qed.

Lemma trim_right_byte_spec b s :
  ∃ n, s = trim_right_byte b s ++ replicate n b.
Proof.
  induction s as [|d s [n IH]]; [by exists 0|]. simpl.
  destruct (trim_right_byte b s) as [|e r].
  - simpl in IH. case_decide; subst; [by exists (S n)|by exists n].
  - exists n. simpl in *. by rewrite IH at 1.
Qed.

Definition is_upper (b : byte) : bool := bool_decide (0x41 ≤ bz b ≤ 0x5a)%Z.
Definition is_lower (b : byte) : bool := bool_decide (0x61 ≤ bz b ≤ 0x7a)%Z.
Definition is_digit (b : byte) : bool := bool_decide (0x30 ≤ bz b ≤ 0x39)%Z.

Definition lower_byte (b : byte) : byte := if is_upper b then zb (bz b + 32) else b.
Definition upper_byte (b : byte) : byte := if is_lower b then zb (bz b - 32) else b.

(** [strings.ToLower] as far as a comparison with an ASCII word can see it:
    ASCII letters are lowered, the two runes outside ASCII whose lower case
    is an ASCII letter (KELVIN SIGN and LATIN CAPITAL I WITH DOT ABOVE) become
    that letter, and every other non-ASCII byte stays non-ASCII. *)
Fixpoint to_lower (s : bytes) : bytes :=
  match s with
  | Byte.xe2 :: Byte.x84 :: Byte.xaa :: s' => Byte.x6b :: to_lower s'
  | Byte.xc4 :: Byte.xb0 :: s' => Byte.x69 :: to_lower s'
  | b :: s' => lower_byte b :: to_lower s'
  | [] => []
  end.

(** ** [strconv.Atoi] and [%d] *)

Definition digit_val (b : byte) : Z := (bz b - 0x30)%Z.

Definition digits_val (ds : bytes) : Z :=
  foldl (λ acc b, 10 * acc + digit_val b)%Z 0%Z ds.

(** [strconv.Atoi]; [None] is a syntax or range error. *)
Definition atoi (s : bytes) : option Z :=
  let neg := bool_decide (head s = Some Byte.x2d) in
  let ds := if neg || bool_decide (head s = Some Byte.x2b) then tail s else s in
  if bool_decide (ds = []) || negb (forallb is_digit ds) then None
  else
    let v := (if neg then - digits_val ds else digits_val ds)%Z in
    if decide (in_int64 v) then Some v else None.

Fixpoint dec (fuel : nat) (n : Z) : bytes :=
  match fuel with
  | 0 => []
  | S fuel' =>
      if decide (n < 10)%Z then [zb (0x30 + n)]
      else dec fuel' (n / 10) ++ [zb (0x30 + n mod 10)]
  end.

(** The decimal form of a 64-bit integer: twenty digits are enough. *)
Definition itoa (n : Z) : bytes :=
  if decide (n < 0)%Z then Byte.x2d :: dec 20 (- n) else dec 20 n.

Lemma digits_val_app a b : digits_val (a ++ [b]) = (10 * digits_val a + digit_val b)%Z.
Proof. unfold digits_val. by rewrite foldl_app. Qed.

Lemma digit_byte d :
  (0 ≤ d < 10)%Z → is_digit (zb (0x30 + d)) = true ∧ digit_val (zb (0x30 + d)) = d.
Proof.
  intros Hd. unfold is_digit, digit_val.
  rewrite bz_zb, Z.mod_small by lia. split; [apply bool_decide_eq_true|]; lia.
Qed.

Lemma dec_spec fuel n :
  (0 ≤ n < 10 ^ Z.of_nat (S fuel))%Z →
  dec (S fuel) n ≠ [] ∧ forallb is_digit (dec (S fuel) n) = true ∧
  digits_val (dec (S fuel) n) = n.
Proof.
  revert n. induction fuel as [|fuel IH]; intros n Hn.
  - cbn [dec]. rewrite decide_True by (simpl in Hn; lia).
    destruct (digit_byte n) as [Hd Hv]; [simpl in Hn; lia|].
    split; [done|]. split; [by cbn [forallb]; rewrite Hd|]. cbv [digits_val foldl]. lia.
  - set (k := S fuel) in *. cbn [dec]. case_decide as Hlt.
    { destruct (digit_byte n) as [Hd Hv]; [lia|].
      split; [done|]. split; [by cbn [forallb]; rewrite Hd|]. cbv [digits_val foldl]. lia. }
    assert (0 ≤ n / 10 < 10 ^ Z.of_nat k)%Z as Hq.
    { split; [apply Z.div_pos; lia|]. apply Z.div_lt_upper_bound; [lia|].
      rewrite Nat2Z.inj_succ, Z.pow_succ_r in Hn by lia. lia. }
    destruct (IH _ Hq) as (Hne & Hd & Hv).
    destruct (digit_byte (n mod 10)) as [Hd' Hv']; [apply Z.mod_pos_bound; lia|].
    split; [by destruct (dec k (n / 10))|].
    rewrite forallb_app, Hd, digits_val_app, Hv, Hv'.
    split; [by cbn [forallb]; rewrite Hd'|].
    pose proof (Z.div_mod n 10 ltac:(lia)). lia.
Qed.

Lemma digit_not_sign b : is_digit b = true → b ≠ Byte.x2d ∧ b ≠ Byte.x2b.
Proof.
  unfold is_digit. rewrite bool_decide_eq_true.
  intros H; split; intros ->; vm_compute in H; destruct H; congruence.
Qed.

Lemma atoi_digits ds :
  ds ≠ [] → forallb is_digit ds = true → in_int64 (digits_val ds) →
  atoi ds = Some (digits_val ds).
Proof.
  intros Hne Hd Hr. destruct ds as [|c ds]; [done|].
  pose proof Hd as Hd'. cbn [forallb] in Hd'. apply andb_true_iff in Hd' as [Hc _].
  apply digit_not_sign in Hc as [Hc1 Hc2].
  unfold atoi. cbn [hd_error]. cbv zeta. rewrite !(bool_decide_eq_false_2 (Some c = _)) by congruence.
  cbn [orb]. rewrite bool_decide_eq_false_2, Hd, decide_True by done. done.
Qed.

(** [strconv.Atoi] reads back what [%d] prints, for every 64-bit integer. *)
Lemma atoi_itoa n : in_int64 n → atoi (itoa n) = Some n.
Proof.
  intros Hn. unfold itoa. case_decide as Hneg.
  - destruct (dec_spec 19 (- n)) as (Hne & Hd & Hv).
    { unfold in_int64 in Hn. simpl. lia. }
    unfold atoi. cbn [hd_error tail]. cbv zeta.
    rewrite (bool_decide_eq_true_2 (Some _ = _)) by done. cbn [orb].
    rewrite bool_decide_eq_false_2, Hd, Hv by done. cbn [negb orb].
    rewrite Z.opp_involutive, decide_True by done. done.
  - destruct (dec_spec 19 n) as (Hne & Hd & Hv).
    { unfold in_int64 in Hn. simpl. lia. }
    rewrite <- Hv at 2. apply atoi_digits; [done..|]. by rewrite Hv.
Qed.

Lemma atoi_Some s v : atoi s = Some v → in_int64 v.
Proof.
  unfold atoi. destruct (_ || negb _); [done|]. cbv zeta.
  destruct (decide (in_int64 _)) as [E|]; [|done]. by intros [= <-].
Qed.

Lemma find_prefix_None b s runes :
  Forall (λ r, head r ≠ Some b ∧ r ≠ []) runes →
  List.find (has_prefix (b :: s)) runes = None.
Proof.
  induction 1 as [|r runes [Hr Hne] _ IH]; [done|]. cbn [List.find].
  destruct r as [|c r]; [done|]. cbn [has_prefix].
  rewrite bool_decide_eq_false_2; [done|]. intros ->. by apply Hr.
Qed.

(** A text with a non-space byte at both ends is not trimmed. *)
Lemma trim_space_id b s b' s' :
  b :: s = s' ++ [b'] →
  Forall (λ r, head r ≠ Some b ∧ r ≠ []) space_runes →
  Forall (λ r, head r ≠ Some b' ∧ r ≠ []) (reverse <$> space_runes) →
  trim_space (b :: s) = b :: s.
Proof.
  intros E Hl Hr. unfold trim_space, trim_left. cbn [length trim_runes].
  rewrite find_prefix_None by done. cbv iota.
  rewrite E. unfold trim_right. rewrite reverse_snoc, length_app, Nat.add_comm.
  cbn [length Nat.add trim_runes].
  rewrite find_prefix_None by done.
  by rewrite reverse_cons, reverse_involutive.
Qed.

Lemma digit_not_space b : is_digit b = true →
  Forall (λ r, head r ≠ Some b ∧ r ≠ []) space_runes ∧
  Forall (λ r, head r ≠ Some b ∧ r ≠ []) (reverse <$> space_runes).
Proof.
  intros Hb.
  assert (∀ runes, forallb (λ r, match r with
      | c :: _ => negb (is_digit c) | [] => false end) runes = true →
      Forall (λ r, head r ≠ Some b ∧ r ≠ []) runes) as H.
  { intros runes Hf. apply Forall_forall. intros r Hr.
    rewrite forallb_forall in Hf. specialize (Hf r).
    rewrite <- list_elem_of_In in Hf. specialize (Hf Hr).
    destruct r as [|c r]; [done|]. split; [|done]. intros [= ->].
    by rewrite Hb in Hf. }
  split; apply H; vm_compute; reflexivity.
Qed.

Lemma trim_space_digits ds :
  forallb is_digit ds = true → trim_space ds = ds.
Proof.
  intros Hd. destruct ds as [|b s]; [done|].
  destruct (exists_last (l := b :: s)) as (s' & b' & E); [done|].
  eapply trim_space_id; [exact E|apply digit_not_space..].
  - cbn [forallb] in Hd. by apply andb_true_iff in Hd as [? _].
  - rewrite E, forallb_app in Hd. apply andb_true_iff in Hd as [_ Hd].
    cbn [forallb] in Hd. by apply andb_true_iff in Hd as [? _].
Qed.

(** ** [textproto.CanonicalMIMEHeaderKey] and [http.Header] *)

(** The RFC 7230 token bytes that may occur in a header field name. *)
Definition header_punct : bytes :=
  zb <$> [0x21; 0x23; 0x24; 0x25; 0x26; 0x27; 0x2a; 0x2b; 0x2d; 0x2e; 0x5e;
          0x5f; 0x60; 0x7c; 0x7e]%Z.

Definition valid_header_byte (b : byte) : bool :=
  is_upper b || is_lower b || is_digit b || bool_decide (b ∈ header_punct).

(** Upper case at the start and after each dash, lower case elsewhere. *)
Fixpoint canon_case (upper : bool) (s : bytes) : bytes :=
  match s with
  | [] => []
  | b :: s' =>
      let c := if upper then upper_byte b else lower_byte b in
      c :: canon_case (bool_decide (c = Byte.x2d)) s'
  end.

Definition canonical_key (s : bytes) : bytes :=
  if forallb valid_header_byte s then canon_case true s else s.

(** Every byte has a decidable property as soon as all 256 values do. *)
Lemma all_bytes (P : byte → bool) :
  forallb (λ n, P (zb (Z.of_nat n))) (seq 0 256) = true → ∀ b, P b = true.
Proof.
  rewrite forallb_forall. intros H b.
  specialize (H (Z.to_nat (bz b))). pose proof (bz_range b).
  rewrite Z2Nat.id, zb_bz in H by lia. apply H. apply in_seq. lia.
Qed.

Lemma case_byte_idemp (u : bool) b :
  (if u then upper_byte (upper_byte b) else lower_byte (lower_byte b)) =
  (if u then upper_byte b else lower_byte b).
Proof.
  pose proof (all_bytes (λ b, bool_decide
    ((if u then upper_byte (upper_byte b) else lower_byte (lower_byte b)) =
     (if u then upper_byte b else lower_byte b)))) as H.
  specialize (H ltac:(destruct u; vm_compute; reflexivity) b).
  by apply bool_decide_eq_true in H.
Qed.

Lemma case_byte_valid (u : bool) b :
  valid_header_byte b = true →
  valid_header_byte (if u then upper_byte b else lower_byte b) = true.
Proof.
  intros Hb. pose proof (all_bytes (λ b, implb (valid_header_byte b)
    (valid_header_byte (if u then upper_byte b else lower_byte b)))) as H.
  specialize (H ltac:(destruct u; vm_compute; reflexivity) b). simpl in H.
  by rewrite Hb in H.
Qed.

Lemma canon_case_idemp u s : canon_case u (canon_case u s) = canon_case u s.
Proof.
  revert u. induction s as [|b s IH]; intros u; [done|]. cbn [canon_case].
  pose proof (case_byte_idemp u b) as E.
  destruct u; rewrite !E, IH; done.
Qed.

Lemma canon_case_valid u s :
  forallb valid_header_byte s = true →
  forallb valid_header_byte (canon_case u s) = true.
Proof.
  revert u. induction s as [|b s IH]; intros u; [done|]. cbn [canon_case forallb].
  rewrite !andb_true_iff. intros [Hb Hs]. split; [|by apply IH].
  by apply case_byte_valid.
Qed.

Lemma canonical_key_idemp s : canonical_key (canonical_key s) = canonical_key s.
Proof.
  unfold canonical_key. destruct (forallb valid_header_byte s) eqn:E.
  - rewrite canon_case_valid by done. apply canon_case_idemp.
  - by rewrite E.
Qed.

(** [http.Header]: a map from canonical names to value lists. *)
Abbreviation Header := (gmap bytes (list bytes)).

Definition header_add (h : Header) (k v : bytes) : Header :=
  let ck := canonical_key k in <[ck := default [] (h !! ck) ++ [v]]> h.

Definition header_set (h : Header) (k v : bytes) : Header :=
  <[canonical_key k := [v]]> h.

(** [h.Get(k)]: the first value, or the empty string. *)
Definition header_get (h : Header) (k : bytes) : bytes :=
  match h !! canonical_key k with
  | Some (v :: _) => v
  | _ => []
  end.

Lemma header_get_add_first h k v :
  h !! canonical_key k = None → header_get (header_add h k v) k = v.
Proof. intros E. unfold header_get, header_add. rewrite E. by simplify_map_eq. Qed.

Lemma header_get_add_ne h k k' v :
  canonical_key k ≠ canonical_key k' →
  header_get (header_add h k v) k' = header_get h k'.
Proof. intros E. unfold header_get, header_add. by rewrite lookup_insert_ne. Qed.

Lemma header_get_set h k v : header_get (header_set h k v) k = v.
Proof. unfold header_get, header_set. by simplify_map_eq. Qed.

Lemma header_get_set_ne h k k' v :
  canonical_key k ≠ canonical_key k' →
  header_get (header_set h k v) k' = header_get h k'.
Proof. intros E. unfold header_get, header_set. by rewrite lookup_insert_ne. Qed.

(** ** Little-endian integers: [binary.LittleEndian] *)

Fixpoint le_bytes (n : nat) (z : Z) : bytes :=
  match n with
  | 0 => []
  | S n' => zb z :: le_bytes n' (Z.shiftr z 8)
  end.

Fixpoint le_val (s : bytes) : Z :=
  match s with
  | [] => 0
  | b :: s' => Z.lor (bz b) (Z.shiftl (le_val s') 8)
  end.

Lemma length_le_bytes n z : length (le_bytes n z) = n.
Proof. revert z. induction n; intros z; simpl; auto. Qed.

Lemma lor_shiftl_8 a b :
  (0 ≤ a < 256)%Z → Z.lor a (Z.shiftl b 8) = (a + 256 * b)%Z.
Proof.
  intros Ha. rewrite Z.shiftl_mul_pow2 by lia.
  pose proof (Z.add_lor_land a (b * 2 ^ 8)) as H.
  assert (Z.land a (b * 2 ^ 8) = 0)%Z as E; [|lia].
  apply Z.bits_inj'. intros i Hi. rewrite Z.land_spec, Z.bits_0.
  destruct (decide (i < 8)%Z).
  - rewrite (Z.mul_pow2_bits_low b 8 i) by lia. apply andb_false_r.
  - replace (Z.testbit a i) with false; [done|]. symmetry.
    rewrite <- (Z.mod_small a (2 ^ 8)) by lia.
    by rewrite Z.mod_pow2_bits_high by lia.
Qed.

(** Decoding an encoded integer gives it back modulo its width. *)
Lemma le_val_bytes n z : le_val (le_bytes n z) = (z mod 2 ^ (8 * Z.of_nat n))%Z.
Proof.
  revert z. induction n as [|n IH]; intros z; cbn [le_bytes le_val].
  - by rewrite Z.mod_1_r.
  - rewrite IH, lor_shiftl_8 by apply bz_range. rewrite bz_zb, Z.shiftr_div_pow2 by lia.
    replace (8 * Z.of_nat (S n))%Z with (8 + 8 * Z.of_nat n)%Z by lia.
    rewrite Z.pow_add_r by lia. change (2 ^ 8)%Z with 256%Z.
    by rewrite Z.rem_mul_r by (try apply Z.pow_nonzero; lia).
Qed.

Lemma le_val_range s : (0 ≤ le_val s < 2 ^ (8 * len s))%Z.
Proof.
  unfold len. induction s as [|b s IH]; [simpl; lia|]. cbn [le_val length].
  rewrite lor_shiftl_8 by apply bz_range. pose proof (bz_range b).
  replace (8 * Z.of_nat (S (length s)))%Z with (8 + 8 * Z.of_nat (length s))%Z by lia.
  rewrite Z.pow_add_r by lia. change (2 ^ 8)%Z with 256%Z. nia.
Qed.

(** [time.Second], in nanoseconds. *)
Definition second : Z := 1000000000.

(** [net.IP(b).String()] of a four-byte address. *)
Definition dotted (s : bytes) : bytes :=
  join [Byte.x2e] ((λ b, itoa (bz b)) <$> s).
