(* ===== verification/Stats.v ===== *)
(** * The agent's counters: [mirror-agent/stats.go]

    The global [agentStats] struct of eleven [atomic.Int64] counters. Every
    [Add] is one atomic step, modelled by [add]; the counters wrap at 64 bits. *)

From Stdlib Require Import ZArith Lia.
From S2P Require Import Prelude GoLib.

(** The fields of [agentStats]. *)
Inductive counter :=
  | packetsReceived | packetsDropped
  | streamsReaped | parseErrors | reqsAssembled
  | mirrorsSkipped | mirrorsSent | mirrors2xx | mirrors4xx | mirrors5xx
  | mirrorsError.

#[export] Instance counter_eq_dec : EqDecision counter.
Proof. solve_decision. Defined.

Record agentStats := mkStats {
  c_packetsReceived : Z; c_packetsDropped : Z;
  c_streamsReaped : Z; c_parseErrors : Z; c_reqsAssembled : Z;
  c_mirrorsSkipped : Z; c_mirrorsSent : Z; c_mirrors2xx : Z; c_mirrors4xx : Z;
  c_mirrors5xx : Z; c_mirrorsError : Z
}.

#[export] Instance agentStats_eq_dec : EqDecision agentStats.
Proof. solve_decision. Defined.

(** Go zero-initialises the counters. *)
Definition zero_stats : agentStats := mkStats 0 0 0 0 0 0 0 0 0 0 0.

(** [agentStats.c.Load()] *)
Definition load (c : counter) (st : agentStats) : Z :=
  match c with
  | packetsReceived => c_packetsReceived st
  | packetsDropped => c_packetsDropped st
  | streamsReaped => c_streamsReaped st
  | parseErrors => c_parseErrors st
  | reqsAssembled => c_reqsAssembled st
  | mirrorsSkipped => c_mirrorsSkipped st
  | mirrorsSent => c_mirrorsSent st
  | mirrors2xx => c_mirrors2xx st
  | mirrors4xx => c_mirrors4xx st
  | mirrors5xx => c_mirrors5xx st
  | mirrorsError => c_mirrorsError st
  end.

(** [agentStats.c.Add(n)] *)
Definition add (c : counter) (n : Z) (st : agentStats) : agentStats :=
  let 'mkStats a b d e f g h i j k l := st in
  match c with
  | packetsReceived => mkStats (wrap64 (a + n)) b d e f g h i j k l
  | packetsDropped => mkStats a (wrap64 (b + n)) d e f g h i j k l
  | streamsReaped => mkStats a b (wrap64 (d + n)) e f g h i j k l
  | parseErrors => mkStats a b d (wrap64 (e + n)) f g h i j k l
  | reqsAssembled => mkStats a b d e (wrap64 (f + n)) g h i j k l
  | mirrorsSkipped => mkStats a b d e f (wrap64 (g + n)) h i j k l
  | mirrorsSent => mkStats a b d e f g (wrap64 (h + n)) i j k l
  | mirrors2xx => mkStats a b d e f g h (wrap64 (i + n)) j k l
  | mirrors4xx => mkStats a b d e f g h i (wrap64 (j + n)) k l
  | mirrors5xx => mkStats a b d e f g h i j (wrap64 (k + n)) l
  | mirrorsError => mkStats a b d e f g h i j k (wrap64 (l + n))
  end.

Lemma load_add_eq c n st : load c (add c n st) = wrap64 (load c st + n).
Proof. by destruct st, c. Qed.

Lemma load_add_ne c c' n st : c ≠ c' → load c (add c' n st) = load c st.
Proof. by destruct st, c, c'. Qed.

Lemma load_add c c' n st :
  load c (add c' n st) =
    if decide (c = c') then wrap64 (load c st + n) else load c st.
Proof. case_decide as E; [subst; apply load_add_eq | by apply load_add_ne]. Qed.

(** Counters are determined by what [load] reads. *)
Lemma stats_ext st st' : (∀ c, load c st = load c st') → st = st'.
Proof.
  intros H. destruct st, st'. f_equal;
    [ apply (H packetsReceived) | apply (H packetsDropped)
    | apply (H streamsReaped) | apply (H parseErrors) | apply (H reqsAssembled)
    | apply (H mirrorsSkipped) | apply (H mirrorsSent) | apply (H mirrors2xx)
    | apply (H mirrors4xx) | apply (H mirrors5xx) | apply (H mirrorsError) ].
Qed.

(** Atomic additions commute, so concurrent increments need no order. *)
Lemma add_comm c n c' n' st :
  add c n (add c' n' st) = add c' n' (add c n st).
Proof.
  apply stats_ext. intros d. rewrite !load_add. repeat case_decide; try done.
  rewrite !wrap64_add_l. f_equal. lia.
Qed.

Lemma add_add c n n' st : add c n (add c n' st) = add c (n' + n) st.
Proof.
  apply stats_ext. intros d. rewrite !load_add. case_decide; [|done].
  rewrite wrap64_add_l. f_equal. lia.
Qed.

(** [printStats]: the summary line, from the eleven loads in order. *)
Definition printStats (st : agentStats) : bytes :=
  str "STATS  packets(recv=" ++ itoa (load packetsReceived st) ++
  str " drop=" ++ itoa (load packetsDropped st) ++
  str ")  streams(reaped=" ++ itoa (load streamsReaped st) ++
  str " parseErr=" ++ itoa (load parseErrors st) ++
  str " assembled=" ++ itoa (load reqsAssembled st) ++
  str ")  mirrors(skipped=" ++ itoa (load mirrorsSkipped st) ++
  str " sent=" ++ itoa (load mirrorsSent st) ++
  str " 2xx=" ++ itoa (load mirrors2xx st) ++
  str " 4xx=" ++ itoa (load mirrors4xx st) ++
  str " 5xx=" ++ itoa (load mirrors5xx st) ++
  str " netErr=" ++ itoa (load mirrorsError st) ++ str ")".

Example printStats_zero :
  printStats (add mirrorsSent 4 (add packetsReceived 12 zero_stats)) =
  str "STATS  packets(recv=12 drop=0)  streams(reaped=0 parseErr=0 assembled=0)  mirrors(skipped=0 sent=4 2xx=0 4xx=0 5xx=0 netErr=0)".
Proof. vm_compute. reflexivity. Qed.

#[export] Hint Rewrite load_add_eq : wrap64.
