(* ===== verification/HttpParse.v ===== *)
(** * HTTP/1.x request parsing: the parsing half of [mirror-agent/tracker.go]

    [parseOneRequest], [parseHTTPRequests] and the two packet heuristics, with
    the facts the tracker relies on: a parse result other than "need more
    data" does not change when bytes are appended, a complete request consumes
    at least its four-byte terminator, and the parsing loop terminates. *)

From Stdlib Require Import ZArith Lia.
From S2P Require Import Prelude GoLib Stats.

(** ** Data *)

Record CapturedRequest := mkRequest {
  Method : bytes;
  Path : bytes;
  Headers : Header;
  Body : bytes;
  SrcIP : bytes
}.

#[export] Instance CapturedRequest_eq_dec : EqDecision CapturedRequest.
Proof. solve_decision. Defined.

(** The two errors [parseOneRequest] can return. *)
Inductive parse_error :=
  | EmptyRequest
  | MalformedRequestLine (line : bytes).

#[export] Instance parse_error_eq_dec : EqDecision parse_error.
Proof. solve_decision. Defined.

(** The three shapes of [parseOneRequest]'s results: [(nil, 0, nil)],
    [(nil, 0, err)] and [(req, n, nil)]. *)
Inductive parsed :=
  | NeedMore
  | Malformed (e : parse_error)
  | Complete (req : CapturedRequest) (n : Z).

#[export] Instance parsed_eq_dec : EqDecision parsed.
Proof. solve_decision. Defined.

(** ** Packet heuristics *)

Definition http_methods : list bytes :=
  [str "GET "; str "POST "; str "PUT "; str "DELETE "; str "PATCH ";
   str "HEAD "; str "OPTIONS "].

Definition looksLikeHTTP (data : bytes) : bool :=
  existsb (λ m, has_prefix data m) http_methods.

Definition printable (b : byte) : bool :=
  bool_decide (0x20 ≤ bz b < 0x7f)%Z || bool_decide (b = CR) ||
  bool_decide (b = LF) || bool_decide (b = TAB).

Definition looksLikeContinuation (data : bytes) : bool :=
  let n := length data in
  if decide (n = 0) then false
  else
    let check := if decide (64 < n) then 64 else n in
    let count := length (List.filter printable (take check data)) in
    bool_decide (check * 8 ≤ count * 10).

(** [truncate], used for the error message only. *)
Definition truncate (b : bytes) (n : nat) : bytes :=
  if decide (length b ≤ n) then b else take n b.

(** ** One request *)

Definition header_end : bytes := CRLF ++ CRLF.

(** The header loop: a line without a colon is skipped. *)
Definition add_header_line (h : Header) (line : bytes) : Header :=
  match index line [COLON] with
  | None => h
  | Some idx =>
      header_add h (trim_space (take idx line)) (trim_space (drop (idx + 1) line))
  end.

(** The request line and the header fields of the header section. *)
Definition parse_head (headerSection : bytes)
    : parse_error + (bytes * bytes * Header) :=
  match split headerSection CRLF with
  | [] => inl EmptyRequest
  | line0 :: rest =>
      match splitN line0 [SP] 3 with
      | method :: path :: _ => inr (method, path, foldl add_header_line ∅ rest)
      | _ => inl (MalformedRequestLine line0)
      end
  end.

Definition content_length (headers : Header) : Z :=
  let cl := header_get headers (str "Content-Length") in
  if decide (cl = []) then 0%Z else default 0%Z (atoi (trim_space cl)).

Definition parseOneRequest (data : bytes) : outcome parsed :=
  match index data header_end with
  | None => Ret NeedMore
  | Some headerEnd =>
      match parse_head (take headerEnd data) with
      | inl e => Ret (Malformed e)
      | inr (method, path, headers) =>
          let bodyStart := (Z.of_nat headerEnd + 4)%Z in
          let contentLength := content_length headers in
          let totalLen := wrap64 (bodyStart + contentLength) in
          if decide (len data < totalLen)%Z then Ret NeedMore
          else
            body ← makeslice contentLength;
            src ← slice data bodyStart totalLen;
            Ret (Complete (mkRequest method path headers (copy body src) []) totalLen)
      end
  end.

(** ** All complete requests of a buffer

    The loop runs while requests are complete. [fuel] bounds its iterations;
    [parse_loop_parses] below shows that [S (length data)] is never used up. *)

Fixpoint parse_loop (fuel : nat) (data : bytes) (results : list CapturedRequest)
    (consumed : Z) (st : agentStats)
    : outcome (list CapturedRequest * Z * agentStats) :=
  match fuel with
  | 0 => Ret (results, consumed, st)
  | S fuel' =>
      rest ← slice data consumed (len data);
      r ← parseOneRequest rest;
      match r with
      | Malformed _ => Ret (results, consumed, add parseErrors 1 st)
      | NeedMore => Ret (results, consumed, st)
      | Complete req n =>
          if decide (n = 0)%Z then Ret (results, consumed, st)
          else parse_loop fuel' data (results ++ [req]) (consumed + n) st
      end
  end.

Definition parseHTTPRequests (data : bytes) (st : agentStats)
    : outcome (list CapturedRequest * Z * agentStats) :=
  parse_loop (S (length data)) data [] 0 st.

(** ** Facts about one request *)

(** A result other than "need more data" (panics included) is final: bytes
    that arrive later do not change it. *)
Lemma parseOneRequest_stable data more :
  parseOneRequest data ≠ Ret NeedMore →
  parseOneRequest (data ++ more) = parseOneRequest data.
Proof.
  unfold parseOneRequest. intros H.
  destruct (index data header_end) as [he|] eqn:Ei; [|done].
  rewrite (index_app_stable _ _ more _ Ei).
  apply index_Some_split in Ei as [_ Hle]. change (length header_end) with 4 in Hle.
  rewrite take_app_le by lia.
  destruct (parse_head (take he data)) as [e|[[m p] h]]; [done|].
  set (tot := wrap64 _) in *. cbv zeta in *.
  case_decide as Hlt; [done|].
  rewrite decide_False by (rewrite len_app; pose proof (len_nonneg more); lia).
  destruct (makeslice _); [|done]. cbn [mbind outcome_bind].
  by rewrite slice_app by lia.
Qed.

(** What a complete request says about the buffer it came from. *)
Lemma parseOneRequest_Complete data req n :
  parseOneRequest data = Ret (Complete req n) →
  ∃ he, index data header_end = Some he ∧
    (Z.of_nat he + 4 ≤ n ≤ len data)%Z ∧
    parse_head (take he data) = inr (Method req, Path req, Headers req) ∧
    SrcIP req = [] ∧
    len (Body req) = content_length (Headers req) ∧
    (0 ≤ content_length (Headers req) ≤ maxAlloc)%Z ∧
    n = wrap64 (Z.of_nat he + 4 + content_length (Headers req)).
Proof.
  unfold parseOneRequest. intros H.
  destruct (index data header_end) as [he|] eqn:Ei; [|done].
  destruct (parse_head (take he data)) as [e|[[m p] h]] eqn:Eh; [done|].
  cbv zeta in H. case_decide as Hlt; [done|].
  inv_bind H. inv_bind H. simplify_eq/=.
  apply makeslice_Ret in Ha as [Hcl ->]. apply slice_Ret in Ha0 as [Hs _].
  exists he. repeat split; try lia; try done.
  unfold len. rewrite length_copy, length_replicate. lia.
Qed.

(** A complete request consumes at least the blank line that ends its header
    section, and never more than the buffer holds. *)
Lemma Complete_bounds data req n :
  parseOneRequest data = Ret (Complete req n) → (4 ≤ n ≤ len data)%Z.
Proof. intros (he & _ & ? & _)%parseOneRequest_Complete. lia. Qed.

(** ** The loop, without fuel

    [parses d reqs rest stop]: the requests at the front of [d], the
    unconsumed rest, and why the loop stopped there. *)

Inductive stop :=
  | StopIncomplete
  | StopError (e : parse_error)
  | StopPanic (p : panic).

#[export] Instance stop_eq_dec : EqDecision stop.
Proof. solve_decision. Defined.

Inductive parses : bytes → list CapturedRequest → bytes → stop → Prop :=
  | parses_incomplete d :
      parseOneRequest d = Ret NeedMore → parses d [] d StopIncomplete
  | parses_error d e :
      parseOneRequest d = Ret (Malformed e) → parses d [] d (StopError e)
  | parses_panic d p :
      parseOneRequest d = Panic p → parses d [] d (StopPanic p)
  | parses_request d r n rs rest s :
      parseOneRequest d = Ret (Complete r n) →
      parses (drop (Z.to_nat n) d) rs rest s →
      parses d (r :: rs) rest s.

(** What the loop makes of a stop: the counter it bumps, or the panic. *)
Definition stop_outcome {A} (s : stop) (a : A) (st : agentStats)
    : outcome (A * agentStats) :=
  match s with
  | StopIncomplete => Ret (a, st)
  | StopError _ => Ret (a, add parseErrors 1 st)
  | StopPanic p => Panic p
  end.

Lemma parses_total d : ∃ rs rest s, parses d rs rest s.
Proof.
  induction d as [d IH] using list_len_ind.
  destruct (parseOneRequest d) as [[|e|r n]|p] eqn:E.
  - eexists _, _, _. by apply parses_incomplete.
  - eexists _, _, _. by apply parses_error.
  - pose proof (Complete_bounds _ _ _ E) as Hn. unfold len in Hn.
    destruct (IH (drop (Z.to_nat n) d)) as (rs & rest & s & Hp).
    { rewrite length_drop. lia. }
    eexists _, _, _. by eapply parses_request.
  - eexists _, _, _. by apply parses_panic.
Qed.

Lemma parses_det d rs rest s rs' rest' s' :
  parses d rs rest s → parses d rs' rest' s' → rs = rs' ∧ rest = rest' ∧ s = s'.
Proof.
  intros H. revert rs' rest' s'.
  induction H as [d E|d e E|d p E|d r n rs rest s E _ IH]; intros rs' rest' s' H';
    inversion H' as [? E'|? ? E'|? ? E'|? ? ? ? ? ? E' Hp]; subst;
    rewrite E in E'; simplify_eq; try done.
  by destruct (IH _ _ _ Hp) as (-> & -> & ->).
Qed.

(** The unconsumed rest is a suffix, and parsing it yields nothing new. *)
Lemma parses_rest d rs rest s :
  parses d rs rest s → (∃ k, d = k ++ rest) ∧ parses rest [] rest s.
Proof.
  induction 1 as [| | |d r n rs rest s _ _ [[k Hk] IH]].
  - split; [by exists []|by apply parses_incomplete].
  - split; [by exists []|by apply parses_error].
  - split; [by exists []|by apply parses_panic].
  - split; [|done]. exists (take (Z.to_nat n) d ++ k).
    by rewrite <- (assoc_L (++)), <- Hk, take_drop.
Qed.

(** Parsing can be resumed: requests found in a buffer are found again when it
    grows, and the rest of the work starts from the unconsumed bytes. *)
Lemma parses_app d rs rest s more rs' rest' s' :
  parses d rs rest s → parses (rest ++ more) rs' rest' s' →
  parses (d ++ more) (rs ++ rs') rest' s'.
Proof.
  intros H H'. induction H as [| | |d r n rs rest s E Hp IH]; [done..|].
  cbn [app]. pose proof (Complete_bounds _ _ _ E) as Hn. unfold len in Hn.
  apply parses_request with n.
  - by rewrite parseOneRequest_stable by (by rewrite E).
  - rewrite drop_app_le by lia. by apply IH.
Qed.

(** An error or a panic does not go away when more bytes arrive. *)
Lemma parses_stuck d rest s more :
  parses d [] rest s → s ≠ StopIncomplete → parses (d ++ more) [] (d ++ more) s.
Proof.
  intros H Hs. inversion H as [|? e E|? p E|]; subst; [done| |].
  - apply parses_error. by rewrite parseOneRequest_stable by (by rewrite E).
  - apply parses_panic. by rewrite parseOneRequest_stable by (by rewrite E).
Qed.

Lemma parse_loop_parses fuel data results consumed st rs rest s :
  (0 ≤ consumed ≤ len data)%Z →
  length data - Z.to_nat consumed < fuel →
  parses (drop (Z.to_nat consumed) data) rs rest s →
  parse_loop fuel data results consumed st =
    stop_outcome s (results ++ rs, len data - len rest)%Z st.
Proof.
  revert results consumed rs. induction fuel as [|fuel IH];
    intros results consumed rs Hc Hf Hp; [lia|].
  cbn [parse_loop]. rewrite slice_to_end by done. cbn [mbind outcome_bind].
  assert (len data - len (drop (Z.to_nat consumed) data) = consumed)%Z as El.
  { unfold len in *. rewrite length_drop. lia. }
  inversion Hp as [d E|d e E|d p E|d r n rs' rest' s' E Hp']; subst;
    rewrite E; cbn [mbind outcome_bind stop_outcome]; rewrite ?app_nil_r, ?El; try done.
  pose proof (Complete_bounds _ _ _ E) as Hn. unfold len in Hn, Hc.
  rewrite length_drop in Hn.
  rewrite decide_False by lia.
  rewrite drop_drop, <- Z2Nat.inj_add in Hp' by lia.
  rewrite (IH (results ++ [r]) (consumed + n)%Z rs') by (try unfold len; (lia || done)).
  by rewrite <- (assoc_L (++)).
Qed.

(** The Go loop computes exactly the fuel-free semantics. *)
Lemma parseHTTPRequests_parses data st rs rest s :
  parses data rs rest s →
  parseHTTPRequests data st = stop_outcome s (rs, len data - len rest)%Z st.
Proof.
  intros H. unfold parseHTTPRequests.
  rewrite (parse_loop_parses _ _ _ _ _ rs rest s); [done| | |by rewrite drop_0].
  - pose proof (len_nonneg data). lia.
  - lia.
Qed.

(** ** Requests on the wire *)

(** The text of a request: request line, header fields, blank line, body. *)
Definition header_line (kv : bytes * bytes) : bytes :=
  kv.1 ++ [COLON] ++ [SP] ++ kv.2.

Definition request_line (method path version : bytes) : bytes :=
  method ++ [SP] ++ path ++ [SP] ++ version.

Definition wire_head (method path version : bytes) (hs : list (bytes * bytes)) : bytes :=
  join CRLF (request_line method path version :: (header_line <$> hs)).

Definition wire (method path version : bytes) (hs : list (bytes * bytes))
    (body : bytes) : bytes :=
  wire_head method path version hs ++ header_end ++ body.

(** The header map built from a list of fields. *)
Definition headers_of (hs : list (bytes * bytes)) : Header :=
  foldl (λ h kv, header_add h kv.1 kv.2) ∅ hs.

(** Field names and values that survive the trip: no line break, no colon in
    the name, no surrounding white space. *)
Definition field_ok (kv : bytes * bytes) : Prop :=
  (CR ∉ kv.1) ∧ (COLON ∉ kv.1) ∧ (CR ∉ kv.2) ∧
  trim_space kv.1 = kv.1 ∧ trim_space kv.2 = kv.2.

Definition request_ok (method path version : bytes) (hs : list (bytes * bytes)) : Prop :=
  (SP ∉ method) ∧ (SP ∉ path) ∧
  (CR ∉ method) ∧ (CR ∉ path) ∧ (CR ∉ version) ∧ Forall field_ok hs.

#[export] Instance field_ok_dec kv : Decision (field_ok kv).
Proof. unfold field_ok. apply _. Defined.
#[export] Instance request_ok_dec m p v hs : Decision (request_ok m p v hs).
Proof. unfold request_ok. apply _. Defined.

(** A line break followed by another line is not the blank line. *)
Lemma index_after_break c t :
  c ≠ CR →
  (λ i, S (S i)) <$> index (c :: t) (CR :: [LF; CR; LF]) =
  index (CR :: LF :: c :: t) (CR :: [LF; CR; LF]).
Proof.
  intros Hc. cbn [index has_prefix].
  rewrite !(bool_decide_eq_false_2 (CR = c)), !andb_false_l, !andb_false_r by done.
  by destruct (index t _).
Qed.

(** The blank line is found right after the joined lines. *)
Lemma index_header_end lines more :
  lines ≠ [] → Forall (λ l, l ≠ [] ∧ (CR ∉ l)) lines →
  index (join CRLF lines ++ header_end ++ more) header_end =
    Some (length (join CRLF lines)).
Proof.
  intros Hne Hf. induction Hf as [|x lines [Hx HxCR] Hf IH]; [done|].
  destruct lines as [|y lines].
  - cbn [join]. exact (index_hit x CR [LF; CR; LF] more HxCR).
  - specialize (IH ltac:(done)).
    change (join CRLF (x :: y :: lines)) with (x ++ CRLF ++ join CRLF (y :: lines)).
    set (t := join CRLF (y :: lines)) in *.
    rewrite <- !(assoc_L (++)).
    assert (∃ c t', t = c :: t' ∧ c ≠ CR) as (c & t' & Et & Hc).
    { apply Forall_cons in Hf as [[Hy HyCR] _]. destruct y as [|c y]; [done|].
      apply not_elem_of_cons in HyCR as [? _].
      destruct lines; eexists _, _; (split; [reflexivity|done]). }
    set (T := t ++ header_end ++ more) in *.
    change (index (x ++ CR :: LF :: T) (CR :: [LF; CR; LF]) =
            Some (length (x ++ CRLF ++ t))).
    rewrite index_skip by done.
    assert (index (CR :: LF :: T) (CR :: [LF; CR; LF]) = Some (S (S (length t)))) as ->.
    { assert (T = c :: (t' ++ header_end ++ more)) as ET by (unfold T; by rewrite Et).
      rewrite ET, <- index_after_break, <- ET by done.
      change [CR; LF; CR; LF] with header_end. by rewrite IH. }
    cbn [fmap option_fmap option_map]. rewrite !length_app. done.
Qed.

Lemma header_line_ok kv : field_ok kv → header_line kv ≠ [] ∧ (CR ∉ header_line kv).
Proof.
  intros (H1 & _ & H3 & _). unfold header_line. split; [by destruct kv.1|].
  rewrite !not_elem_of_app, ?list_elem_of_singleton. done.
Qed.

Lemma request_lines_ok m p v hs :
  request_ok m p v hs →
  Forall (λ l, l ≠ [] ∧ (CR ∉ l)) (request_line m p v :: (header_line <$> hs)).
Proof.
  intros (_ & _ & Hm & Hp & Hv & Hf). constructor.
  - unfold request_line. split; [by destruct m|].
    rewrite !not_elem_of_app, ?list_elem_of_singleton. done.
  - apply Forall_fmap. eapply Forall_impl; [done|]. apply header_line_ok.
Qed.

Lemma len_header_end : len header_end = 4%Z.
Proof. done. Qed.

(** The header loop reads back one printed field. *)
Lemma add_header_line_print h kv :
  field_ok kv → add_header_line h (header_line kv) = header_add h kv.1 kv.2.
Proof.
  destruct kv as [k v]. intros (_ & Hk & _ & Tk & Tv). cbn [fst snd] in *.
  unfold add_header_line, header_line. cbn [fst snd].
  rewrite (index_hit k COLON [] (SP :: v) Hk : index (k ++ [COLON] ++ [SP] ++ v) [COLON] = _).
  rewrite take_app_length, Tk. f_equal.
  rewrite drop_app_add' by done. cbn [app drop]. by rewrite trim_space_cons_SP, Tv.
Qed.

Lemma foldl_add_header_lines h hs :
  Forall field_ok hs →
  foldl add_header_line h (header_line <$> hs) =
  foldl (λ h kv, header_add h kv.1 kv.2) h hs.
Proof.
  intros Hf. revert h. induction Hf as [|kv hs Hkv _ IH]; intros h; [done|].
  cbn [fmap list_fmap foldl]. by rewrite add_header_line_print.
Qed.

Lemma split_request_line m p v :
  SP ∉ m → SP ∉ p → splitN (request_line m p v) [SP] 3 = [m; p; v].
Proof.
  intros Hm Hp. unfold splitN, request_line. cbn [Nat.sub gen_split].
  rewrite (index_hit m SP [] (p ++ [SP] ++ v) Hm
           : index (m ++ [SP] ++ p ++ [SP] ++ v) [SP] = _).
  rewrite take_app_length, drop_app_add' by done. cbn [app length]. rewrite skipn_cons, drop_0.
  rewrite (index_hit p SP [] v Hp : index (p ++ SP :: v) [SP] = _).
  rewrite take_app_length, drop_app_add' by done. cbn [length].
  by rewrite skipn_cons, drop_0.
Qed.

(** The header section of a printed request parses to its parts. *)
Lemma parse_head_wire m p v hs :
  request_ok m p v hs → parse_head (wire_head m p v hs) = inr (m, p, headers_of hs).
Proof.
  intros Hok. pose proof (request_lines_ok _ _ _ _ Hok) as Hl.
  destruct Hok as (Hm & Hp & _ & _ & _ & Hf).
  unfold parse_head, wire_head. unfold CRLF at 1 2.
  rewrite split_join; [|done|by eapply Forall_impl; [exact Hl|intros ? [_ ?]]].
  rewrite split_request_line by done. by rewrite foldl_add_header_lines.
Qed.

(** ** Properties *)

(** What is printed is read back, whatever follows. *)
Lemma parseOneRequest_wire method path version hs body more :
  request_ok method path version hs →
  content_length (headers_of hs) = len body →
  (len (wire method path version hs body) ≤ maxAlloc)%Z →
  parseOneRequest (wire method path version hs body ++ more) =
    Ret (Complete (mkRequest method path (headers_of hs) body [])
                  (len (wire method path version hs body))).
Proof.
  intros Hok Hcl Hmax. set (w := wire method path version hs body) in *.
  assert (w = wire_head method path version hs ++ header_end ++ body) as Ew by done.
  set (hd := wire_head method path version hs) in *.
  assert (len w = len hd + 4 + len body)%Z as El by (rewrite Ew, !len_app, len_header_end; lia).
  unfold parseOneRequest.
  assert (index (w ++ more) header_end = Some (length hd)) as ->.
  { rewrite Ew, <- !(assoc_L (++)). apply index_header_end; [done|].
    by apply request_lines_ok. }
  assert (take (length hd) (w ++ more) = hd) as ->.
  { rewrite Ew, <- (assoc_L (++)). apply take_app_length. }
  unfold hd at 1. rewrite parse_head_wire by done. cbv zeta. rewrite Hcl.
  pose proof (len_nonneg body). pose proof (len_nonneg hd). pose proof (len_nonneg more).
  unfold maxAlloc in Hmax. change (Z.of_nat (length hd)) with (len hd).
  rewrite wrap64_small by (unfold in_int64; lia).
  rewrite decide_False by (rewrite len_app; lia).
  unfold makeslice. rewrite decide_True by (unfold maxAlloc; lia).
  cbn [mbind outcome_bind].
  replace (len hd + 4)%Z with (len (hd ++ header_end)) by (rewrite len_app, len_header_end; lia).
  rewrite Ew, <- !(assoc_L (++)), (assoc_L (++) hd), slice_middle.
  cbn [mbind outcome_bind].
  rewrite copy_exact by (rewrite length_replicate; unfold len; lia).
  do 2 f_equal. rewrite (assoc_L (++)), !len_app. lia.
Qed.

(** C5. Round trip: the wire text of a well-formed request, followed by
    anything, parses to exactly that request and consumes exactly its text,
    whenever the [Content-Length] field announces the length of the body. *)
Theorem parse_wire method path version hs body more :
  request_ok method path version hs →
  content_length (headers_of hs) = len body →
  (len (wire method path version hs body) ≤ maxAlloc)%Z →
  parseOneRequest (wire method path version hs body ++ more) =
    Ret (Complete (mkRequest method path (headers_of hs) body [])
                  (len (wire method path version hs body))).
Proof. apply parseOneRequest_wire. Qed.

(** *** Pipelined requests *)

(** A request as its client prints it. *)
Record message := mkMessage {
  m_method : bytes; m_path : bytes; m_version : bytes;
  m_fields : list (bytes * bytes); m_body : bytes
}.

Definition text_of (x : message) : bytes :=
  wire (m_method x) (m_path x) (m_version x) (m_fields x) (m_body x).
Definition captured_as (x : message) : CapturedRequest :=
  mkRequest (m_method x) (m_path x) (headers_of (m_fields x)) (m_body x) [].

(** Well-formed, with a [Content-Length] that announces the body. *)
Definition message_ok (x : message) : Prop :=
  request_ok (m_method x) (m_path x) (m_version x) (m_fields x) ∧
  content_length (headers_of (m_fields x)) = len (m_body x) ∧
  (len (text_of x) ≤ maxAlloc)%Z.

#[export] Instance message_ok_dec x : Decision (message_ok x).
Proof. unfold message_ok. apply _. Defined.

(** The requests of a connection, printed one behind the other. *)
Lemma parses_messages xs :
  Forall message_ok xs →
  parses (concat (text_of <$> xs)) (captured_as <$> xs) [] StopIncomplete.
Proof.
  induction 1 as [|x xs (H1 & H2 & H3) _ IH]; cbn [fmap list_fmap concat].
  { apply parses_incomplete. vm_compute. reflexivity. }
  apply parses_request with (len (text_of x)).
  - by apply parseOneRequest_wire.
  - unfold len. by rewrite Nat2Z.id, drop_app_length.
Qed.

(** A [POST] with a three-byte body and the next request behind it. *)
Definition demo_headers : list (bytes * bytes) :=
  [(str "Host", str "apigee"); (str "content-length", str "3")].

Theorem parse_wire_witness :
  parseOneRequest (wire (str "POST") (str "/a") (str "HTTP/1.1") demo_headers (str "xyz")
                   ++ str "GET /") =
    Ret (Complete (mkRequest (str "POST") (str "/a") (headers_of demo_headers)
                             (str "xyz") []) 56).
Proof.
  apply (parse_wire (str "POST") (str "/a") (str "HTTP/1.1") demo_headers (str "xyz")
           (str "GET /")).
  - by_compute.
  - vm_compute. reflexivity.
  - vm_compute. discriminate.
Defined.

(** C13. Termination and refinement: for every buffer the fuel-free semantics
    has a result, and the loop returns exactly that result, with the fuel
    chosen by [parseHTTPRequests] and with any larger one. *)
Theorem parse_loop_refines data st :
  ∃ rs rest s,
    parses data rs rest s ∧
    parseHTTPRequests data st = stop_outcome s (rs, len data - len rest)%Z st ∧
    ∀ fuel, length data < fuel →
      parse_loop fuel data [] 0 st = parseHTTPRequests data st.
Proof.
  destruct (parses_total data) as (rs & rest & s & Hp).
  exists rs, rest, s. split; [done|].
  pose proof (parseHTTPRequests_parses data st rs rest s Hp) as E.
  split; [done|]. intros fuel Hf. rewrite E.
  apply (parse_loop_parses fuel data [] 0 st rs); [pose proof (len_nonneg data); lia|lia|].
  by rewrite drop_0.
Qed.

Lemma parseHTTPRequests_Ret data st rs c st' :
  parseHTTPRequests data st = Ret (rs, c, st') →
  ∃ rest s, parses data rs rest s ∧ c = (len data - len rest)%Z ∧
    stop_outcome s (rs, c) st = Ret (rs, c, st') ∧
    rest = drop (Z.to_nat c) data.
Proof.
  intros H. destruct (parses_total data) as (rs1 & rest & s & Hp).
  rewrite (parseHTTPRequests_parses _ _ _ _ _ Hp) in H.
  assert (rs1 = rs ∧ c = (len data - len rest)%Z) as [-> ->]
    by (destruct s; by simplify_eq/=).
  exists rest, s. repeat split; try done.
  apply parses_rest in Hp as [[k ->] _]. rewrite len_app. unfold len.
  rewrite Z.add_simpl_r, Nat2Z.id. by rewrite drop_app_length.
Qed.

Lemma content_length_range h : in_int64 (content_length h).
Proof.
  unfold content_length. case_decide; [unfold in_int64; lia|].
  destruct (atoi _) as [v|] eqn:E; [by apply atoi_Some in E|unfold in_int64; simpl; lia].
Qed.

(** C23. When parsing panics. On a buffer that fits in memory, the parser
    panics exactly when the header section is complete and its
    [Content-Length] is negative or so large that the total length overflows
    64 bits. *)
Theorem parse_panics_iff data :
  (len data ≤ maxAlloc)%Z →
  (∃ p, parseOneRequest data = Panic p) ↔
  ∃ he m p h, index data header_end = Some he ∧
    parse_head (take he data) = inr (m, p, h) ∧
    (content_length h < 0 ∨ 2^63 ≤ Z.of_nat he + 4 + content_length h)%Z.
Proof.
  intros Hmax. unfold parseOneRequest.
  destruct (index data header_end) as [he|] eqn:Ei;
    [|split; [by intros [? ?]|by intros (? & ? & ? & ? & ? & _)]].
  destruct (parse_head (take he data)) as [e|[[m p] h]] eqn:Eh;
    [split; [by intros [? ?]|by intros (? & ? & ? & ? & [= <-] & ? & _); congruence]|].
  cbv zeta. pose proof (content_length_range h) as Hr.
  apply index_Some_split in Ei as [_ Hle]. change (length header_end) with 4 in Hle.
  unfold in_int64, maxAlloc, len in *.
  destruct (decide (2^63 ≤ Z.of_nat he + 4 + content_length h)%Z) as [Hbig|Hsmall].
  - (* the sum wraps to a negative number *)
    assert (wrap64 (Z.of_nat he + 4 + content_length h) =
            Z.of_nat he + 4 + content_length h - 2^64)%Z as ->.
    { unfold wrap64. rewrite <- (Z.mod_unique_pos _ _ 1
        (Z.of_nat he + 4 + content_length h + 2^63 - 2^64)); lia. }
    rewrite decide_False by lia.
    unfold makeslice. rewrite decide_False by (unfold maxAlloc; lia).
    split; [intros _; eauto 10|]. intros _. by eexists.
  - rewrite wrap64_small by (unfold in_int64; lia).
    case_decide as Hlt.
    { split; [by intros [? ?]|]. intros (? & ? & ? & ? & [= <-] & Eh' & ?). rewrite Eh in Eh'. simplify_eq. lia. }
    unfold makeslice. case_decide as Hm; cbn [mbind outcome_bind].
    + unfold slice, len. rewrite decide_True by lia. cbn [mbind outcome_bind].
      split; [by intros [? ?]|].
      intros (? & ? & ? & ? & [= <-] & Eh' & ?). rewrite Eh in Eh'. simplify_eq. lia.
    + unfold maxAlloc in Hm. split; [|by eexists].
      intros _. eexists _, _, _, _. split; [done|]. split; [done|]. left. lia.
Qed.

Definition negative_headers : list (bytes * bytes) :=
  [(str "Content-Length", str "-1")].

Definition negative_request : bytes :=
  wire (str "GET") (str "/") (str "HTTP/1.1") negative_headers [].

Theorem parse_panics_iff_witness :
  (len negative_request ≤ maxAlloc)%Z ∧ ∃ p, parseOneRequest negative_request = Panic p.
Proof.
  assert (len negative_request ≤ maxAlloc)%Z as H by (vm_compute; discriminate).
  split; [exact H|].
  apply (proj2 (parse_panics_iff negative_request H)).
  exists 34, (str "GET"), (str "/"), (headers_of negative_headers).
  split; [by_compute|]. split; [by_compute|]. left. by_compute.
Defined.

(** The only panic of the parser is the allocation of the body or the slice
    behind it, never a nil dereference. *)
Lemma parseOneRequest_no_nil d p : parseOneRequest d = Panic p → p ≠ NilDeref.
Proof.
  unfold parseOneRequest. destruct (index _ _); [|done].
  destruct (parse_head _) as [|[[? ?] ?]]; [done|]. cbv zeta. case_decide; [done|].
  unfold makeslice. case_decide; cbn [mbind outcome_bind]; [|by intros [= <-]].
  unfold slice. case_decide; cbn [mbind outcome_bind]; [done|by intros [= <-]].
Qed.

Lemma parses_no_nil d rs rest p : parses d rs rest (StopPanic p) → p ≠ NilDeref.
Proof.
  intros H. remember (StopPanic p) as s eqn:Es. induction H; simplify_eq; [|auto].
  by eapply parseOneRequest_no_nil.
Qed.

Lemma parseHTTPRequests_no_nil d st : parseHTTPRequests d st ≠ Panic NilDeref.
Proof.
  destruct (parses_total d) as (rs & rest & s & Hp).
  rewrite (parseHTTPRequests_parses _ _ _ _ _ Hp).
  destruct s as [|e|p]; [done..|]. apply parses_no_nil in Hp. cbn. congruence.
Qed.

(** A panic of the parser depends on the bytes alone. *)
Lemma parseHTTPRequests_panic d st st0 p :
  parseHTTPRequests d st = Panic p → parseHTTPRequests d st0 = Panic p.
Proof.
  destruct (parses_total d) as (rs & rest & s & Hp).
  rewrite !(parseHTTPRequests_parses _ _ _ _ _ Hp). by destruct s.
Qed.

(** ** The contract the tracker relies on

    What reassembly needs from a buffer parser, independently of how requests
    are recognised. *)
Class BufferParser
    (parse : bytes → agentStats → outcome (list CapturedRequest * Z * agentStats)) := {
  (** it consumes a prefix, and a non-empty one exactly when it finds requests *)
  bp_consumed d st rs c st' :
    parse d st = Ret (rs, c, st') →
    (0 ≤ c ≤ len d)%Z ∧ (rs = [] ↔ c = 0%Z);
  (** work can be resumed from the unconsumed bytes *)
  bp_resume d more st st0 rs c st1 rs' c' st2 :
    parse d st0 = Ret (rs, c, st1) →
    parse (drop (Z.to_nat c) d ++ more) st = Ret (rs', c', st2) →
    parse (d ++ more) st = Ret (rs ++ rs', c + c', st2)%Z;
  (** the results do not depend on the counters *)
  bp_indep d st st0 rs c st' :
    parse d st = Ret (rs, c, st') → ∃ st0', parse d st0 = Ret (rs, c, st0');
  (** what is left over holds no request *)
  bp_rest d st rs c st' st0 :
    parse d st = Ret (rs, c, st') → ∃ st0', parse (drop (Z.to_nat c) d) st0 = Ret ([], 0%Z, st0');
  (** a prefix of a harmless buffer is harmless, and so is what it leaves *)
  bp_prefix d more st st0 r :
    parse (d ++ more) st = Ret r →
    ∃ rs c st' r', parse d st0 = Ret (rs, c, st') ∧
                   parse (drop (Z.to_nat c) d ++ more) st = Ret r';
  (** only the parse-error counter is touched *)
  bp_stats d st rs c st' k :
    parse d st = Ret (rs, c, st') → k ≠ parseErrors → load k st' = load k st
}.

Lemma parses_length d rs rest s :
  parses d rs rest s → length d = length rest ↔ rs = [].
Proof.
  induction 1 as [| | |d r n rs rest s E Hp IH]; [done..|].
  pose proof (Complete_bounds _ _ _ E) as Hn. unfold len in Hn.
  apply parses_rest in Hp as [[k Ek] _]. apply (f_equal length) in Ek.
  rewrite length_drop, length_app in Ek. split; [lia|done].
Qed.

#[export] Instance parseHTTPRequests_parser : BufferParser parseHTTPRequests.
Proof.
  split.
  - intros d st rs c st' (rest & s & Hp & -> & _ & _)%parseHTTPRequests_Ret.
    pose proof (parses_length _ _ _ _ Hp) as Hl.
    apply parses_rest in Hp as [[k ->] _]. rewrite len_app in *.
    pose proof (len_nonneg k). pose proof (len_nonneg rest).
    split; [lia|]. rewrite <- Hl, length_app. unfold len in *. lia.
  - intros d more st st0 rs c st1 rs' c' st2
      (rest & s & Hp & Hc & _ & <-)%parseHTTPRequests_Ret
      (rest' & s' & Hp' & Hc' & Hs' & _)%parseHTTPRequests_Ret.
    rewrite (parseHTTPRequests_parses _ _ _ _ _ (parses_app _ _ _ _ _ _ _ _ Hp Hp')).
    rewrite len_app in *. replace (c + c')%Z with (len d + len more - len rest')%Z by lia.
    destruct s'; by simplify_eq/=.
  - intros d st st0 rs c st' (rest & s & Hp & -> & Hs & _)%parseHTTPRequests_Ret.
    rewrite (parseHTTPRequests_parses _ _ _ _ _ Hp). destruct s; [by eexists..|done].
  - intros d st rs c st' st0 (rest & s & Hp & _ & Hs & <-)%parseHTTPRequests_Ret.
    apply parses_rest in Hp as [_ Hp].
    rewrite (parseHTTPRequests_parses _ _ _ _ _ Hp), Z.sub_diag.
    destruct s; [by eexists..|done].
  - intros d more st st0 [[rs c] st'] H.
    destruct (parses_total d) as (rs1 & rest1 & s1 & Hp).
    destruct (parses_total (rest1 ++ more)) as (rs2 & rest2 & s2 & Hp2).
    rewrite (parseHTTPRequests_parses _ _ _ _ _ (parses_app _ _ _ _ _ _ _ _ Hp Hp2)) in H.
    assert (drop (Z.to_nat (len d - len rest1)) d = rest1) as Ed.
    { apply parses_rest in Hp as [[k ->] _]. rewrite len_app. unfold len.
      rewrite Z.add_simpl_r, Nat2Z.id. apply drop_app_length. }
    assert (∀ q, s1 ≠ StopPanic q) as Hs1.
    { intros q ->. pose proof (parses_rest _ _ _ _ Hp) as [_ Hr].
      eapply (parses_stuck _ _ _ more) in Hr; [|done].
      destruct (parses_det _ _ _ _ _ _ _ Hp2 Hr) as (_ & _ & ->). done. }
    rewrite (parseHTTPRequests_parses _ _ _ _ _ Hp).
    pose proof (parseHTTPRequests_parses (rest1 ++ more) st _ _ _ Hp2) as E2.
    destruct s2 as [|e2|q2]; [| |done]; cbn [stop_outcome] in E2;
      (destruct s1 as [|e|q]; [| |by destruct (Hs1 q)]); cbn [stop_outcome];
      eexists _, _, _, _; (split; [reflexivity|]); by rewrite Ed.
  - intros d st rs c st' k (rest & s & _ & _ & Hs & _)%parseHTTPRequests_Ret Hk.
    destruct s; simplify_eq/=; [done|]. by rewrite load_add_ne.
Qed.

(** C24. Incremental parsing: parsing the bytes left over by a first call
    together with newly arrived bytes finds the same requests, the same
    number of consumed bytes and the same error count as parsing the whole
    input at once. *)
Theorem parse_incremental d more st rs c st1 rs' c' st2 :
  parseHTTPRequests d st = Ret (rs, c, st1) →
  parseHTTPRequests (drop (Z.to_nat c) d ++ more) st = Ret (rs', c', st2) →
  parseHTTPRequests (d ++ more) st = Ret (rs ++ rs', c + c', st2)%Z.
Proof.
  apply bp_resume.
Qed.

(** Two pipelined requests, cut in the middle of the second. *)
Definition demo_get : bytes := wire (str "GET") (str "/b") (str "HTTP/1.1") [] [].

Theorem parse_incremental_witness :
  ∃ r r', parseHTTPRequests ((demo_get ++ take 9 demo_get) ++ drop 9 demo_get) zero_stats =
          Ret ([r] ++ [r'], len demo_get + len demo_get, zero_stats)%Z ∧ r = r'.
Proof.
  eexists _, _. split.
  - apply (parse_incremental (demo_get ++ take 9 demo_get) (drop 9 demo_get) zero_stats
             [_] (len demo_get) zero_stats [_] (len demo_get) zero_stats);
      vm_compute; reflexivity.
  - vm_compute. reflexivity.
Defined.

(** A malformed request is malformed for ever: whatever arrives behind it,
    every later attempt to parse the buffer finds no request, consumes
    nothing and counts one more parse error. *)
Theorem malformed_stuck d e more st :
  parseOneRequest d = Ret (Malformed e) →
  parseHTTPRequests (d ++ more) st = Ret ([], 0%Z, add parseErrors 1 st).
Proof.
  intros E. assert (parses (d ++ more) [] (d ++ more) (StopError e)) as Hp.
  { eapply parses_stuck; [by apply parses_error|done]. }
  rewrite (parseHTTPRequests_parses _ _ _ _ _ Hp). cbn [stop_outcome].
  by rewrite Z.sub_diag.
Qed.

Theorem malformed_stuck_witness :
  parseHTTPRequests ((str "garbage" ++ header_end) ++ demo_get) zero_stats =
    Ret ([], 0%Z, add parseErrors 1 zero_stats).
Proof.
  apply (malformed_stuck _ (MalformedRequestLine (str "garbage"))).
  vm_compute. reflexivity.
Defined.




