(* ===== verification/Kernel.v ===== *)
(** * The capture hook: [kernel/mirror.bpf.c]

    The TC ingress program as a function of its three BPF maps and one packet,
    and the memory layout of the ring-buffer event it submits. The two BPF
    helpers it calls are kernel code: [bpf_ringbuf_reserve] is an argument (the
    slot's uninitialised payload, or [None] when the buffer is full) and
    [bpf_skb_load_bytes] is a variable. *)

From Stdlib Require Import ZArith Lia.
From S2P Require Import Prelude GoLib.

Definition MAX_PAYLOAD_SIZE : Z := 1500.

(** [struct pkt_event] *)
Record pkt_event := mkEvent {
  src_ip : Z;
  dst_ip : Z;
  src_port : Z;
  dst_port : Z;
  payload_len : Z;
  tcp_flags : Z;
  payload : bytes
}.

(** Its bytes in memory, on a little-endian host: fields in declaration order
    without implicit padding, [_pad] at offset 15. *)
Definition encode_event (ev : pkt_event) : bytes :=
  le_bytes 4 (src_ip ev) ++ le_bytes 4 (dst_ip ev) ++
  le_bytes 2 (src_port ev) ++ le_bytes 2 (dst_port ev) ++
  le_bytes 2 (payload_len ev) ++ [zb (tcp_flags ev)] ++ [Byte.x00] ++ payload ev.

(** The values a [struct pkt_event] can hold. *)
Definition event_ok (ev : pkt_event) : Prop :=
  (0 ≤ src_ip ev < 2^32 ∧ 0 ≤ dst_ip ev < 2^32 ∧
   0 ≤ src_port ev < 2^16 ∧ 0 ≤ dst_port ev < 2^16 ∧
   0 ≤ payload_len ev ≤ MAX_PAYLOAD_SIZE ∧ 0 ≤ tcp_flags ev < 2^8 ∧
   len (payload ev) = MAX_PAYLOAD_SIZE)%Z.

(** A packet: its bytes ([skb->len] of them), of which the first [linear] are
    directly accessible between [data] and [data_end]. *)
Record sk_buff := mkSkb { frame : bytes; linear : Z }.

(** The BPF maps: [cfg_target_port[0]], [counters[0]], [counters[1]], and the
    records submitted to [rb], oldest first. *)
Record bpf_maps := mkMaps {
  cfg_target_port : Z;
  matched : Z;
  drops : Z;
  rb : list bytes
}.

Definition byte_at (s : bytes) (i : Z) : Z :=
  bz (default Byte.x00 (s !! Z.to_nat i)).

(** [bpf_ntohs] of the big-endian half-word at an offset. *)
Definition ntohs_at (s : bytes) (i : Z) : Z :=
  Z.lor (Z.shiftl (byte_at s i) 8) (byte_at s (i + 1)).

(** A raw 32-bit field: its four bytes in memory order. *)
Definition word_at (s : bytes) (i : Z) : Z :=
  le_val (take 4 (drop (Z.to_nat i) s)).

Definition bump_matched (m : bpf_maps) : bpf_maps :=
  mkMaps (cfg_target_port m) (u64 (matched m + 1)) (drops m) (rb m).
Definition bump_drops (m : bpf_maps) : bpf_maps :=
  mkMaps (cfg_target_port m) (matched m) (u64 (drops m + 1)) (rb m).
Definition submit (ev : pkt_event) (m : bpf_maps) : bpf_maps :=
  mkMaps (cfg_target_port m) (matched m) (drops m) (rb m ++ [encode_event ev]).

Definition sizeof_ethhdr : Z := 14.
Definition sizeof_iphdr : Z := 20.
Definition sizeof_tcphdr : Z := 20.

(** [iph->ihl * 4] and [tcph->doff * 4] *)
Definition ip_header_len (f : bytes) : Z :=
  (Z.land (byte_at f sizeof_ethhdr) 0xF * 4)%Z.
Definition tcp_offset (f : bytes) : Z := (sizeof_ethhdr + ip_header_len f)%Z.
Definition tcp_header_len (f : bytes) : Z :=
  (Z.land (Z.shiftr (byte_at f (tcp_offset f + 12)) 4) 0xF * 4)%Z.
Definition payload_offset (f : bytes) : Z :=
  (tcp_offset f + tcp_header_len f)%Z.

(** The flag bits, packed as the program packs them. *)
Definition flags_at (f : bytes) : Z :=
  let b := byte_at f (tcp_offset f + 13) in
  let bit i := Z.shiftl (Z.land (Z.shiftr b i) 1) i in
  (Z.lor (Z.lor (Z.lor (Z.lor (bit 0) (bit 1)) (bit 2)) (bit 3)) (bit 4))%Z.

(** The guards before the counter is bumped: an IPv4 TCP packet whose headers
    are accessible and whose destination port is the configured one. *)
Definition matches (port : Z) (skb : sk_buff) : bool :=
  let f := frame skb in
  bool_decide (sizeof_ethhdr ≤ linear skb)%Z &&
  bool_decide (ntohs_at f 12 = 0x0800)%Z &&
  bool_decide (sizeof_ethhdr + sizeof_iphdr ≤ linear skb)%Z &&
  bool_decide (byte_at f (sizeof_ethhdr + 9) = 6)%Z &&
  bool_decide (tcp_offset f + sizeof_tcphdr ≤ linear skb)%Z &&
  bool_decide (ntohs_at f (tcp_offset f + 2) = port).

Section hook.
(** [bpf_skb_load_bytes(skb, offset, to, len)]: the bytes written to [to],
    or [None] for a negative return value. *)
Variable bpf_skb_load_bytes : sk_buff → Z → Z → option bytes.

(** The event filled into a reserved slot whose payload area holds [slot]; a
    failing helper clears the bytes it was asked to write. *)
Definition fill_event (skb : sk_buff) (copy_len : Z) (slot : bytes) : pkt_event :=
  let f := frame skb in
  let ev len pl :=
    mkEvent (word_at f (sizeof_ethhdr + 12)) (word_at f (sizeof_ethhdr + 16))
            (ntohs_at f (tcp_offset f)) (ntohs_at f (tcp_offset f + 2))
            len (flags_at f) pl in
  match bpf_skb_load_bytes skb (payload_offset f) copy_len with
  | Some b => ev (u16 copy_len) (b ++ drop (length b) slot)
  | None => ev 0%Z (replicate (Z.to_nat copy_len) Byte.x00 ++ drop (Z.to_nat copy_len) slot)
  end.

Definition mirror_ingress (m : bpf_maps) (skb : sk_buff) (reserve : option bytes)
    : bpf_maps :=
  if matches (cfg_target_port m) skb then
    let m := bump_matched m in
    let pay_len := (len (frame skb) - payload_offset (frame skb))%Z in
    if decide (pay_len ≤ 0)%Z then m
    else
      let copy_len := if decide (MAX_PAYLOAD_SIZE < pay_len)%Z
                      then MAX_PAYLOAD_SIZE else pay_len in
      match reserve with
      | None => bump_drops m
      | Some slot => submit (fill_event skb copy_len slot) m
      end
  else m.

(** ** Bounds *)

(** Documented behaviour of [bpf_skb_load_bytes]: it writes exactly the
    requested bytes of the packet, or fails. *)
Hypothesis load_bytes_spec : ∀ skb off n b,
  bpf_skb_load_bytes skb off n = Some b →
  b = take (Z.to_nat n) (drop (Z.to_nat off) (frame skb)) ∧ len b = n.

Lemma byte_at_range s i : (0 ≤ byte_at s i < 256)%Z.
Proof. apply bz_range. Qed.

Lemma ntohs_at_range s i : (0 ≤ ntohs_at s i < 2^16)%Z.
Proof.
  unfold ntohs_at. rewrite Z.lor_comm, lor_shiftl_8 by apply byte_at_range.
  pose proof (byte_at_range s i). pose proof (byte_at_range s (i + 1)). lia.
Qed.

Lemma word_at_range s i : (0 ≤ word_at s i < 2^32)%Z.
Proof.
  unfold word_at. pose proof (le_val_range (take 4 (drop (Z.to_nat i) s))) as H.
  assert (2 ^ (8 * len (take 4 (drop (Z.to_nat i) s))) ≤ 2 ^ 32)%Z; [|lia].
  apply Z.pow_le_mono_r; [lia|]. unfold len. rewrite length_take. lia.
Qed.

Lemma flags_at_range f : (0 ≤ flags_at f < 2^8)%Z.
Proof.
  unfold flags_at. generalize (byte_at f (tcp_offset f + 13)) as b. intros b.
  assert (∀ i, Z.land (Z.shiftr b i) 1 = 0 ∨ Z.land (Z.shiftr b i) 1 = 1)%Z as H.
  { intros i. assert (Z.land (Z.shiftr b i) 1 = Z.shiftr b i mod 2)%Z as ->
      by (apply (Z.land_ones _ 1); lia).
    pose proof (Z.mod_pos_bound (Z.shiftr b i) 2 ltac:(lia)). lia. }
  destruct (H 0%Z) as [-> | ->], (H 1%Z) as [-> | ->], (H 2%Z) as [-> | ->],
    (H 3%Z) as [-> | ->], (H 4%Z) as [-> | ->]; vm_compute; intuition discriminate.
Qed.

(** Every event the hook fills fits its struct. *)
Lemma fill_event_ok skb n slot :
  (1 ≤ n ≤ MAX_PAYLOAD_SIZE)%Z → len slot = MAX_PAYLOAD_SIZE →
  event_ok (fill_event skb n slot).
Proof.
  intros Hn Hs. unfold fill_event, event_ok, MAX_PAYLOAD_SIZE in *.
  destruct (bpf_skb_load_bytes _ _ _) as [b|] eqn:E; cbn.
  - apply load_bytes_spec in E as [_ Hb]. unfold u16. rewrite Z.mod_small by lia.
    assert (len (b ++ drop (length b) slot) = 1500%Z).
    { rewrite len_app. unfold len in *. rewrite length_drop. lia. }
    repeat split; try apply word_at_range; try apply ntohs_at_range;
      try apply flags_at_range; lia.
  - assert (len (replicate (Z.to_nat n) Byte.x00 ++ drop (Z.to_nat n) slot) = 1500%Z).
    { rewrite len_app. unfold len in *. rewrite length_replicate, length_drop. lia. }
    repeat split; try apply word_at_range; try apply ntohs_at_range;
      try apply flags_at_range; lia.
Qed.
End hook.

(** ** The hook over a stream of packets *)

Lemma length_encode_event ev :
  len (encode_event ev) = (16 + len (payload ev))%Z.
Proof. unfold encode_event. rewrite !len_app. unfold len. rewrite !length_le_bytes. cbn [length]. lia. Qed.

Section capture.
Variable bpf_skb_load_bytes : sk_buff → Z → Z → option bytes.
Hypothesis load_bytes_spec : ∀ skb off n b,
  bpf_skb_load_bytes skb off n = Some b →
  b = take (Z.to_nat n) (drop (Z.to_nat off) (frame skb)) ∧ len b = n.

(** The packets of a run, each with what [bpf_ringbuf_reserve] answers. *)
Definition capture (m : bpf_maps) (pkts : list (sk_buff * option bytes)) : bpf_maps :=
  foldl (λ m p, mirror_ingress bpf_skb_load_bytes m p.1 p.2) m pkts.

(** Slots of the ring buffer have the size of the payload array. *)
Definition slots_ok (pkts : list (sk_buff * option bytes)) : Prop :=
  Forall (λ p, ∀ slot, p.2 = Some slot → len slot = MAX_PAYLOAD_SIZE) pkts.

Definition is_empty_match (port : Z) (p : sk_buff * option bytes) : bool :=
  matches port p.1 &&
  bool_decide (len (frame p.1) ≤ payload_offset (frame p.1))%Z.

Definition count (f : sk_buff * option bytes → bool)
    (pkts : list (sk_buff * option bytes)) : Z :=
  Z.of_nat (length (List.filter f pkts)).

Lemma count_snoc f pkts p :
  count f (pkts ++ [p]) = (count f pkts + (if f p then 1 else 0))%Z.
Proof.
  unfold count. rewrite List.filter_app, length_app. cbn [List.filter].
  destruct (f p); cbn [length]; lia.
Qed.

(** The four ways one packet is handled. *)
Lemma mirror_ingress_cases m skb r :
  (∀ slot, r = Some slot → len slot = MAX_PAYLOAD_SIZE) →
  let m' := mirror_ingress bpf_skb_load_bytes m skb r in
  let port := cfg_target_port m in
  (matches port skb = false ∧ m' = m) ∨
  (is_empty_match port (skb, r) = true ∧ matches port skb = true ∧
     m' = bump_matched m) ∨
  (is_empty_match port (skb, r) = false ∧ matches port skb = true ∧
     r = None ∧ m' = bump_drops (bump_matched m)) ∨
  (is_empty_match port (skb, r) = false ∧ matches port skb = true ∧
     ∃ n slot, let ev := fill_event bpf_skb_load_bytes skb n slot in
       event_ok ev ∧ m' = submit ev (bump_matched m)).
Proof.
  intros Hr. unfold mirror_ingress, is_empty_match. cbn [fst snd].
  destruct (matches (cfg_target_port m) skb) eqn:E; [right|left; done]. cbn [andb].
  cbv zeta. case_decide as Hp.
  { left. rewrite bool_decide_eq_true_2 by lia. done. }
  rewrite bool_decide_eq_false_2 by lia. right.
  destruct r as [slot|]; [right|left; done]. split; [done|]. split; [done|].
  eexists _, _. split; [|reflexivity].
  apply (fill_event_ok _ load_bytes_spec); [|by apply Hr].
  unfold MAX_PAYLOAD_SIZE in *. case_decide; lia.
Qed.

(** C26. Accounting of the capture hook: over any sequence of packets, the
    first counter is the number of matching packets, every matching packet
    with payload was either submitted or counted as a drop (modulo the
    width of the counters), and every submitted record is the 1516-byte
    encoding of a well-formed event. *)
Theorem capture_accounting port pkts :
  slots_ok pkts →
  let m := capture (mkMaps port 0 0 []) pkts in
  matched m = u64 (count (λ p, matches port p.1) pkts) ∧
  matched m = u64 (Z.of_nat (length (rb m)) + drops m +
                   count (is_empty_match port) pkts) ∧
  Forall (λ r, ∃ ev, event_ok ev ∧ r = encode_event ev ∧ len r = 1516%Z) (rb m) ∧
  cfg_target_port m = port.
Proof.
  intros Hs. cbv zeta. induction pkts as [|[skb r] pkts IH] using rev_ind;
    [by repeat split; constructor|].
  apply Forall_app in Hs as [Hs Hr]. rewrite Forall_singleton in Hr. cbn [snd] in Hr.
  destruct (IH Hs) as (Hm & Hd & Hf & Hp). clear IH.
  unfold capture in *. rewrite foldl_snoc, !count_snoc. cbn [fst snd].
  set (m := foldl _ _ pkts) in *.
  destruct (mirror_ingress_cases m skb r Hr)
    as [[E ->]|[(Ee & E & ->)|[(Ee & E & -> & ->)|(Ee & E & n & slot & Hok & ->)]]];
    rewrite Hp in *; rewrite ?E, ?Ee; cbn [matched drops rb cfg_target_port
      bump_matched bump_drops submit].
  - rewrite Z.add_0_r. unfold is_empty_match at 2. cbn [fst]. rewrite E. cbn [andb].
    by rewrite Z.add_0_r.
  - rewrite Hm at 1. rewrite Hd, !u64_add_l. repeat split; try done; f_equal; lia.
  - rewrite Hm at 1. rewrite Hd, !u64_add_l. repeat split; try done.
    set (c := count (is_empty_match port) pkts).
    replace (Z.of_nat (length (rb m)) + u64 (drops m + 1) + (c + 0))%Z
      with (Z.of_nat (length (rb m)) + c + u64 (drops m + 1))%Z by lia.
    rewrite u64_add_r. f_equal. lia.
  - rewrite Hm at 1. rewrite Hd, !u64_add_l, length_app. cbn [length].
    repeat split; try done; [f_equal; lia|].
    apply Forall_app. split; [done|]. apply Forall_singleton.
    exists (fill_event bpf_skb_load_bytes skb n slot).
    repeat split; try apply Hok.
    rewrite length_encode_event. destruct Hok as (_ & _ & _ & _ & _ & _ & ->).
    done.
Qed.
End capture.

(** A concrete [bpf_skb_load_bytes], and one captured packet: an Ethernet, IP
    and TCP header of 54 bytes to port 9090, followed by the payload. *)
Definition load_bytes_model (skb : sk_buff) (off n : Z) : option bytes :=
  if decide (0 ≤ off ∧ 0 ≤ n ∧ off + n ≤ len (frame skb))%Z
  then Some (take (Z.to_nat n) (drop (Z.to_nat off) (frame skb))) else None.

Lemma load_bytes_model_spec skb off n b :
  load_bytes_model skb off n = Some b →
  b = take (Z.to_nat n) (drop (Z.to_nat off) (frame skb)) ∧ len b = n.
Proof.
  unfold load_bytes_model. case_decide as H; [|done]. intros [= <-].
  split; [done|]. unfold len in *. rewrite length_take, length_drop. lia.
Qed.

Definition demo_frame (body : bytes) : bytes :=
  replicate 12 Byte.x00 ++ (zb <$> [0x08; 0x00]%Z) ++
  (zb <$> [0x45; 0; 0; 0; 0; 0; 0; 0; 64; 6; 0; 0; 172; 28; 0; 3; 172; 28; 0; 10]%Z) ++
  (zb <$> [0xc8; 0x23; 0x23; 0x82; 0; 0; 0; 0; 0; 0; 0; 0; 0x50; 0x18; 0; 0; 0; 0; 0; 0]%Z) ++
  body.

Definition demo_skb (body : bytes) : sk_buff := mkSkb (demo_frame body) 54.
Definition zero_slot : bytes := replicate 1500 Byte.x00.

Definition demo_pkts : list (sk_buff * option bytes) :=
  [(demo_skb (str "GET / HTTP/1.1"), Some zero_slot);
   (demo_skb (str "x"), None); (demo_skb [], None)].

Theorem capture_accounting_witness :
  let m := capture load_bytes_model (mkMaps 9090 0 0 []) demo_pkts in
  matched m = 3%Z ∧ drops m = 1%Z ∧
  matched m = u64 (count (λ p, matches 9090 p.1) demo_pkts) ∧
  matched m = u64 (Z.of_nat (length (rb m)) + drops m +
                   count (is_empty_match 9090) demo_pkts) ∧
  Forall (λ r, ∃ ev, event_ok ev ∧ r = encode_event ev ∧ len r = 1516%Z) (rb m) ∧
  cfg_target_port m = 9090%Z.
Proof.
  split; [vm_compute; reflexivity|]. split; [vm_compute; reflexivity|].
  apply (capture_accounting load_bytes_model load_bytes_model_spec 9090 demo_pkts).
  repeat constructor; cbn [snd]; intros slot; [|discriminate..].
  intros E. injection E as <-. vm_compute. reflexivity.
Defined.
