(* ===== verification/Loader.v ===== *)
(** * The loader: [mirror-agent/loader.go]

    Decoding of ring-buffer records, the read loop, the set-up and tear-down
    of the eBPF objects, and [ipStr]. The eBPF and netlink libraries are third
    party: their results are the fields of [load_env], and what is modelled is
    which of their calls the loader makes, in which order and on which path, and
    what these leave behind ([held]). *)

From Stdlib Require Import ZArith Lia.
From S2P Require Import Prelude GoLib Kernel.

(** ** Records *)

Record PktEvent := mkPkt {
  SrcIP : Z;
  DstIP : Z;
  SrcPort : Z;
  DstPort : Z;
  TCPFlags : Z;
  PayloadLen : Z;
  Payload : bytes
}.

#[export] Instance PktEvent_eq_dec : EqDecision PktEvent.
Proof. solve_decision. Defined.

Definition pktEventHeaderSize : Z := 16.

(** [rec.RawSample[lo:hi]] for constant bounds checked by the caller. *)
Definition field (raw : bytes) (lo n : nat) : bytes := take n (drop lo raw).

(** The zero-initialised payload array. *)
Definition zero_payload : bytes := replicate 1500 Byte.x00.

(** The body of the read loop: [None] is a short record, which is logged and
    skipped. *)
Definition decode_record (raw : bytes) : option PktEvent :=
  if decide (len raw < pktEventHeaderSize)%Z then None
  else
    let plen := le_val (field raw 12 2) in
    let plen := if decide (1500 < plen)%Z then 1500%Z else plen in
    let available := (len raw - pktEventHeaderSize)%Z in
    let copyLen := if decide (available < plen)%Z then available else plen in
    let payload :=
      if decide (0 < copyLen)%Z
      then copy (take (Z.to_nat copyLen) zero_payload) (field raw 16 (Z.to_nat copyLen)) ++
           drop (Z.to_nat copyLen) zero_payload
      else zero_payload in
    Some (mkPkt (le_val (field raw 0 4)) (le_val (field raw 4 4))
                (le_val (field raw 8 2)) (le_val (field raw 10 2))
                (le_val (field raw 14 1)) plen payload).

(** [ReadEvents]: the results of [l.reader.Read] in order, [None] standing for
    an error (the reader was closed), each record handed to [fn]. The result
    is [None] while the loop is still waiting for a record. *)
Fixpoint ReadEvents {W} (fn : PktEvent → W → outcome W) (reads : list (option bytes))
    (w : W) : outcome (W * bool) :=
  match reads with
  | [] => Ret (w, false)
  | None :: _ => Ret (w, true)
  | Some raw :: reads' =>
      match decode_record raw with
      | None => ReadEvents fn reads' w
      | Some ev => w' ← fn ev w; ReadEvents fn reads' w'
      end
  end.

(** [ipStr]: the address is kept in memory order, so its little-endian bytes
    are the dotted components. *)
Definition ipStr (ip : Z) : bytes := dotted (le_bytes 4 ip).

Example ipStr_example : ipStr 0x03001cac = str "172.28.0.3".
Proof. vm_compute. reflexivity. Qed.

(** ** Set-up and tear-down *)

(** The calls that acquire or release something, or configure the hook. *)
Inductive call :=
  | LoadSpec | NewCollection | CloseCollection
  | PutTargetPort (port : Z)
  | NewReader | CloseReader
  | LinkByName (iface : bytes)
  | QdiscAdd (ifindex : Z)
  | FilterAdd (ifindex fd : Z)
  | FilterDel.

#[export] Instance call_eq_dec : EqDecision call.
Proof. solve_decision. Defined.

Inductive load_error :=
  | LoadSpecErr | NewCollectionErr | NoCfgMap | PutErr | NoRbMap | ReaderErr
  | LinkErr (iface : bytes) | NoProgram | FilterErr.

#[export] Instance load_error_eq_dec : EqDecision load_error.
Proof. solve_decision. Defined.

(** What [netlink.QdiscAdd] answers; the second is [os.IsExist]. *)
Inductive qdisc_answer := QdiscAdded | QdiscExists | QdiscFailed.

#[export] Instance qdisc_answer_eq_dec : EqDecision qdisc_answer.
Proof. solve_decision. Defined.

(** What the libraries answer. *)
Record load_env := mkEnv {
  spec_ok : bool;               (* ebpf.LoadCollectionSpec *)
  coll_ok : bool;               (* ebpf.NewCollection *)
  has_cfg_map : bool;           (* coll.Maps["cfg_target_port"] *)
  put_ok : bool;                (* cfgMap.Put *)
  has_rb_map : bool;            (* coll.Maps["rb"] *)
  reader_ok : bool;             (* ringbuf.NewReader *)
  link_index : option Z;        (* netlink.LinkByName *)
  qdisc : qdisc_answer;         (* netlink.QdiscAdd; a failure is ignored *)
  prog_fd : option Z;           (* coll.Programs["mirror_ingress"] *)
  filter_ok : bool;             (* netlink.FilterAdd *)
  filter_del_ok : bool          (* netlink.FilterDel; a failure is logged *)
}.

(** [NewLoader]: the calls made, and the loader (its interface index) or the
    error returned. [uint16(targetPort)] is the caller's conversion. *)
Definition NewLoader (env : load_env) (iface : bytes) (targetPort : Z)
    : list call * (load_error + Z) :=
  let fail (cs : list call) e := (cs, inl e) in
  if negb (spec_ok env) then fail [LoadSpec] LoadSpecErr else
  let t := [LoadSpec; NewCollection] in
  if negb (coll_ok env) then fail t NewCollectionErr else
  if negb (has_cfg_map env) then fail (t ++ [CloseCollection]) NoCfgMap else
  let t := t ++ [PutTargetPort targetPort] in
  if negb (put_ok env) then fail (t ++ [CloseCollection]) PutErr else
  if negb (has_rb_map env) then fail (t ++ [CloseCollection]) NoRbMap else
  let t := t ++ [NewReader] in
  if negb (reader_ok env) then fail (t ++ [CloseCollection]) ReaderErr else
  let t := t ++ [LinkByName iface] in
  match link_index env with
  | None => fail (t ++ [CloseReader; CloseCollection]) (LinkErr iface)
  | Some idx =>
      let t := t ++ [QdiscAdd idx] in
      match prog_fd env with
      | None => fail (t ++ [CloseReader; CloseCollection]) NoProgram
      | Some fd =>
          let t := t ++ [FilterAdd idx fd] in
          if negb (filter_ok env)
          then fail (t ++ [CloseReader; CloseCollection]) FilterErr
          else (t, inr idx)
      end
  end.

(** [Close], after [PrintStats]: a failing [FilterDel] is logged only. *)
Definition Close : list call := [CloseReader; FilterDel; CloseCollection].

(** [PrintStats]: the lines logged, given what [m.Lookup] answers for the two
    keys when the [counters] map exists. *)
Definition PrintStats (counters : option (option Z * option Z)) : list bytes :=
  match counters with
  | None => []
  | Some (c0, c1) =>
      match c0 with Some v => [str "stats: matched_packets=" ++ itoa v] | None => [] end ++
      match c1 with Some v => [str "stats: ringbuf_drops=" ++ itoa v] | None => [] end
  end.

(** ** Decoding *)

Lemma field_app_skip a b lo n :
  length a ≤ lo → field (a ++ b) lo n = field b (lo - length a) n.
Proof. intros H. unfold field. by rewrite drop_app_ge. Qed.

Lemma field_app_here a b n : length a = n → field (a ++ b) 0 n = a.
Proof. intros <-. unfold field. rewrite drop_0. apply take_app_length. Qed.

Lemma le_val_le_bytes_small n z :
  (0 ≤ z < 2 ^ (8 * Z.of_nat n))%Z → le_val (le_bytes n z) = z.
Proof. intros H. rewrite le_val_bytes. by apply Z.mod_small. Qed.

Lemma length_zero_payload : length zero_payload = 1500.
Proof. apply length_replicate. Qed.

(** A decoded event always has a 1500-byte payload array and a payload length
    within it, whatever the record held, so slicing the payload is safe. *)
Definition pkt_ok (ev : PktEvent) : Prop :=
  (0 ≤ PayloadLen ev ≤ 1500 ∧ len (Payload ev) = 1500)%Z.

Lemma decode_record_ok raw ev : decode_record raw = Some ev → pkt_ok ev.
Proof.
  unfold decode_record, pkt_ok. case_decide as Hs; [done|]. cbv zeta.
  pose proof (le_val_range (field raw 12 2)) as Hr.
  set (plen := if decide _ then _ else _). intros [= <-]. cbn [PayloadLen Payload].
  assert (0 ≤ plen ≤ 1500)%Z as Hp by (unfold plen; case_decide; lia).
  split; [done|]. case_decide as Hc; [|done].
  set (cl := if decide (_ < plen)%Z then _ else _) in *.
  assert (cl ≤ 1500)%Z by (unfold cl; case_decide; lia).
  rewrite len_app. unfold len.
  rewrite length_copy, length_take, length_drop, length_zero_payload. lia.
Qed.

(** What the agent sees of a kernel event: bytes of the payload area past the
    payload length read as zero. *)
Definition pkt_of_event (ev : pkt_event) : PktEvent :=
  mkPkt (src_ip ev) (dst_ip ev) (src_port ev) (dst_port ev) (tcp_flags ev)
        (payload_len ev)
        (take (Z.to_nat (payload_len ev)) (payload ev) ++
         drop (Z.to_nat (payload_len ev)) zero_payload).

Section decode_encode.
Context (ev : pkt_event) (Hok : event_ok ev).

(** The header fields sit at the documented offsets. *)
Lemma encode_fields :
  let raw := encode_event ev in
  le_val (field raw 0 4) = src_ip ev ∧ le_val (field raw 4 4) = dst_ip ev ∧
  le_val (field raw 8 2) = src_port ev ∧ le_val (field raw 10 2) = dst_port ev ∧
  le_val (field raw 12 2) = payload_len ev ∧ le_val (field raw 14 1) = tcp_flags ev ∧
  drop 16 raw = payload ev.
Proof.
  destruct Hok as (H1 & H2 & H3 & H4 & H5 & H6 & H7). unfold MAX_PAYLOAD_SIZE in *.
  unfold encode_event. cbv zeta.
  repeat split;
    rewrite ?field_app_skip by (rewrite ?length_le_bytes; cbn; lia);
    rewrite ?length_le_bytes; cbn [Nat.sub].
  1-5: rewrite field_app_here by apply length_le_bytes;
       apply le_val_le_bytes_small; simpl; lia.
  cbv [field]. cbn [skipn app firstn le_val]. rewrite Z.shiftl_0_l, Z.lor_0_r, bz_zb.
  apply Z.mod_small. lia.
Qed.

Lemma decode_encode : decode_record (encode_event ev) = Some (pkt_of_event ev).
Proof.
  pose proof encode_fields as (E1 & E2 & E3 & E4 & E5 & E6 & E7). cbv zeta in *.
  pose proof (length_encode_event ev) as El.
  destruct Hok as (_ & _ & _ & _ & H5 & _ & H7). unfold MAX_PAYLOAD_SIZE in *.
  unfold decode_record, pktEventHeaderSize.
  rewrite E1, E2, E3, E4, E5, E6, El, H7. cbv zeta.
  rewrite decide_False by lia.
  rewrite (decide_False (P := (1500 < payload_len ev)%Z)) by lia.
  rewrite (decide_False (P := (16 + 1500 - 16 < payload_len ev)%Z)) by lia.
  unfold field. rewrite E7. unfold pkt_of_event. do 2 f_equal.
  unfold len in H7. case_decide as Hc.
  - rewrite copy_exact by (rewrite !length_take, length_zero_payload; lia). done.
  - replace (payload_len ev) with 0%Z by lia. done.
Qed.
End decode_encode.

(** C14. The two sides of the ring buffer agree: the Go decoder reads from the
    1516-byte record of a kernel event exactly the event's addresses, ports,
    flags, payload length and payload bytes. *)
Theorem ring_buffer_roundtrip ev :
  event_ok ev →
  decode_record (encode_event ev) = Some (pkt_of_event ev) ∧
  take (Z.to_nat (payload_len ev)) (Payload (pkt_of_event ev)) =
    take (Z.to_nat (payload_len ev)) (payload ev).
Proof.
  intros Hok. split; [by apply decode_encode|].
  destruct Hok as (_ & _ & _ & _ & H5 & _ & H7). unfold MAX_PAYLOAD_SIZE, len in *.
  cbn [Payload pkt_of_event].
  rewrite take_app_le by (rewrite length_take; lia). rewrite take_take. f_equal. lia.
Qed.

Definition demo_event : pkt_event :=
  mkEvent 0x03001cac 0x0a001cac 51235 9090 5 0x18 (str "hello" ++ replicate 1495 Byte.x01).

Theorem ring_buffer_roundtrip_witness :
  decode_record (encode_event demo_event) = Some (pkt_of_event demo_event) ∧
  take 5 (Payload (pkt_of_event demo_event)) = take 5 (payload demo_event).
Proof.
  apply (ring_buffer_roundtrip demo_event). vm_compute. intuition discriminate.
Defined.

(** ** The read loop *)

(** Records handed to the callback: the decodable ones before the first
    error. *)
Fixpoint delivered (reads : list (option bytes)) : list PktEvent :=
  match reads with
  | Some raw :: reads' =>
      match decode_record raw with Some ev => [ev] | None => [] end ++ delivered reads'
  | _ => []
  end.

Lemma delivered_ok reads : Forall pkt_ok (delivered reads).
Proof.
  induction reads as [|[raw|] reads IH]; [constructor| |constructor].
  cbn [delivered]. apply Forall_app. split; [|done].
  destruct (decode_record raw) as [ev|] eqn:E; [|constructor].
  constructor; [by eapply decode_record_ok|constructor].
Qed.

(** Run a callback over a list of events, stopping at a panic. *)
Fixpoint run_events {W} (fn : PktEvent → W → outcome W) (evs : list PktEvent) (w : W)
    : outcome W :=
  match evs with
  | [] => Ret w
  | ev :: evs' => w' ← fn ev w; run_events fn evs' w'
  end.

(** C34. The read loop hands every decodable record to the callback, once and
    in order, skips short records, and ends exactly when the reader reports an
    error. *)
Theorem ReadEvents_delivers {W} (fn : PktEvent → W → outcome W) reads w :
  ReadEvents fn reads w =
    (w' ← run_events fn (delivered reads) w; Ret (w', bool_decide (None ∈ reads))).
Proof.
  revert w. induction reads as [|[raw|] reads IH]; intros w; cbn [ReadEvents delivered].
  - done.
  - assert (bool_decide (None ∈ Some raw :: reads) = bool_decide (None ∈ reads)) as ->.
    { apply bool_decide_ext. rewrite elem_of_cons. naive_solver. }
    destruct (decode_record raw) as [ev|]; [|apply IH].
    cbn [app run_events mbind outcome_bind]. destruct (fn ev w) as [w'|p]; [|done].
    cbn [mbind outcome_bind]. apply IH.
  - cbn [run_events mbind outcome_bind]. rewrite bool_decide_eq_true_2 by set_solver. done.
Qed.

(** ** Resources *)

(** What a sequence of calls leaves behind: the collection and the reader
    open, the target port in its map, the filter attached, the queueing
    discipline on the interface. The map lives as long as the collection or an
    attached filter refers to it. *)
Record held := mkHeld {
  h_coll : bool; h_reader : bool; h_port : option Z; h_filter : bool; h_qdisc : bool
}.

Definition do_call (env : load_env) (h : held) (c : call) : held :=
  let 'mkHeld co re po fi qd := h in
  match c with
  | NewCollection => mkHeld (coll_ok env) re po fi qd
  | CloseCollection => mkHeld false re (if fi then po else None) fi qd
  | PutTargetPort p => mkHeld co re (if put_ok env then Some p else po) fi qd
  | NewReader => mkHeld co (reader_ok env) po fi qd
  | CloseReader => mkHeld co false po fi qd
  | QdiscAdd _ => mkHeld co re po fi (bool_decide (qdisc env ≠ QdiscFailed))
  | FilterAdd _ _ => mkHeld co re po (filter_ok env) qd
  | FilterDel => mkHeld co re po (if filter_del_ok env then false else fi) qd
  | LoadSpec | LinkByName _ => h
  end.

Definition do_calls (env : load_env) : held → list call → held := foldl (do_call env).

(** Before the agent runs; the discipline may be there from an earlier run. *)
Definition untouched_host (env : load_env) : held :=
  mkHeld false false None false (bool_decide (qdisc env = QdiscExists)).

(** Nothing of the agent, but for the discipline if [NewLoader] came to add it. *)
Definition cleaned_up (env : load_env) (calls : list call) : held :=
  let tried := existsb (λ c, match c with QdiscAdd _ => true | _ => false end) calls in
  mkHeld false false None false
    (bool_decide (qdisc env = QdiscExists) || tried && bool_decide (qdisc env = QdiscAdded)).

(** The hook in place. *)
Definition in_place (env : load_env) (port : Z) : held :=
  mkHeld true true (Some port) true (bool_decide (qdisc env ≠ QdiscFailed)).

(** After [Close]: the hook goes on filtering when its filter cannot be removed. *)
Definition closed (env : load_env) (port : Z) : held :=
  let qd := bool_decide (qdisc env ≠ QdiscFailed) in
  if filter_del_ok env then mkHeld false false None false qd
  else mkHeld false false (Some port) true qd.

Definition loader_of (r : list call * (load_error + Z)) : option Z :=
  match r.2 with inl _ => None | inr idx => Some idx end.

(** Case analysis along [NewLoader]: [tac] closes each early return and the
    final success. *)
Ltac loader_cases env tac :=
  destruct env as [sp co cfg put rbm re link qd prog fl del];
  destruct sp; [|solve [tac]]; destruct co; [|solve [tac]];
  destruct cfg; [|solve [tac]]; destruct put; [|solve [tac]];
  destruct rbm; [|solve [tac]]; destruct re; [|solve [tac]];
  destruct link as [idx|]; [|solve [tac]]; destruct prog as [fd|]; [|solve [tac]];
  destruct fl; solve [tac].

(** What set-up and tear-down leave behind. *)
Lemma NewLoader_held env iface port :
  let r := NewLoader env iface port in
  let h := do_calls env (untouched_host env) r.1 in
  match loader_of r with
  | None => h = cleaned_up env r.1
  | Some _ => h = in_place env port ∧ do_calls env h Close = closed env port
  end.
Proof.
  loader_cases env ltac:(destruct qd; first [reflexivity | destruct del; split; reflexivity]).
Qed.

(** C32. Set-up is all or nothing, but for the queueing discipline: when
    [NewLoader] fails, everything it opened is closed and no filter is attached;
    when it succeeds, the collection and the reader are open, the filter is
    attached, the target port is written. [Close] then releases all of it if the
    filter can be removed; if not, the hook stays attached and goes on filtering
    on that port. A discipline that was added is never removed. *)
Theorem NewLoader_resources env iface port :
  let r := NewLoader env iface port in
  let h := do_calls env (untouched_host env) r.1 in
  match loader_of r with
  | None => h = cleaned_up env r.1
  | Some _ => h = in_place env port ∧ do_calls env h Close = closed env port
  end.
Proof. apply NewLoader_held. Qed.

(** C33. The hook never runs with an unset port: at every point of the set-up
    at which the filter is attached, the collection is open and the target
    port has been written. *)
Theorem filter_after_port env iface port k :
  let h := do_calls env (untouched_host env) (take k (NewLoader env iface port).1) in
  h_filter h = true → h_port h = Some port ∧ h_coll h = true.
Proof.
  loader_cases env ltac:(destruct qd; do 10 (destruct k as [|k]; [done|]); done).
Qed.

Theorem filter_after_port_witness :
  let env := mkEnv true true true true true true (Some 2%Z) QdiscFailed (Some 7%Z) true true in
  let h := do_calls env (untouched_host env) (take 7 (NewLoader env (str "eth0") 9090).1) in
  h_port h = Some 9090%Z ∧ h_coll h = true.
Proof. apply filter_after_port. vm_compute. reflexivity. Defined.
