(* ===== verification/Tracker.v ===== *)
(** * TCP stream reassembly: [mirror-agent/tracker.go]

    The stream table, [Feed] with its two critical sections, and the reaper.
    [Feed] releases the mutex while it parses a snapshot of the buffer, so the
    reaper can run in between: [Feed] below is the sequential composition of
    [feed_enter], the parser and [feed_leave]; [Interleaving] interleaves those
    critical sections with the reaper. *)

From Stdlib Require Import ZArith Lia.
From S2P Require Import Prelude GoLib Stats HttpParse Kernel Loader.

(** ** Data *)

Record streamKey := mkKey {
  srcIP : Z; dstIP : Z; srcPort : Z; dstPort : Z
}.

#[export] Instance streamKey_eq_dec : EqDecision streamKey.
Proof. solve_decision. Defined.
#[export] Program Instance streamKey_countable : Countable streamKey :=
  inj_countable (λ k, (srcIP k, dstIP k, srcPort k, dstPort k))
                (λ '(a, b, c, d), Some (mkKey a b c d)) _.
Next Obligation. by intros []. Qed.

(** A stream; [lastSeen] is a reading of the monotonic clock, in nanoseconds. *)
Record stream := mkStream { buf : bytes; lastSeen : Z }.

#[export] Instance stream_eq_dec : EqDecision stream.
Proof. solve_decision. Defined.

Abbreviation streams := (gmap streamKey stream).

(** ** [Feed] *)

Definition key_of (ev : PktEvent) : streamKey :=
  mkKey (SrcIP ev) (DstIP ev) (SrcPort ev) (DstPort ev).

(** [ev.Payload[:ev.PayloadLen]] *)
Definition segment (ev : PktEvent) : outcome bytes :=
  slice (Payload ev) 0 (PayloadLen ev).

Definition accepted (data : bytes) : bool :=
  looksLikeHTTP data || looksLikeContinuation data.

(** Up to the first unlock: [None] is an early return, otherwise the key and
    the snapshot of the buffer. *)
Definition feed_enter (now : Z) (ev : PktEvent) (t : streams) (st : agentStats)
    : outcome (option (streamKey * bytes) * streams * agentStats) :=
  let st := add packetsReceived 1 st in
  if decide (PayloadLen ev = 0)%Z then Ret (None, t, st)
  else
    data ← segment ev;
    if negb (accepted data) then Ret (None, t, add packetsDropped 1 st)
    else
      let key := key_of ev in
      let s := default (mkStream [] 0) (t !! key) in
      let s := mkStream (buf s ++ data) now in
      Ret (Some (key, buf s), <[key := s]> t, st).

(** The second critical section: [t.streams[key]] is looked up again, and a
    stream the reaper removed meanwhile is a nil pointer. *)
Definition feed_leave (key : streamKey) (snapshot : bytes) (consumed : Z) (t : streams)
    : outcome streams :=
  if decide (len snapshot ≤ consumed)%Z then Ret (delete key t)
  else
    remaining ← slice snapshot consumed (len snapshot);
    match t !! key with
    | None => Panic NilDeref
    | Some s => Ret (<[key := mkStream remaining (lastSeen s)]> t)
    end.

(** [reqs[i].SrcIP = ipStr(ev.SrcIP)] *)
Definition set_src (ip : bytes) (r : CapturedRequest) : CapturedRequest :=
  mkRequest (Method r) (Path r) (Headers r) (Body r) ip.

(** Parsing and the second critical section. *)
Definition feed_finish (ev : PktEvent) (key : streamKey) (snapshot : bytes)
    (t : streams) (st : agentStats)
    : outcome (list CapturedRequest * streams * agentStats) :=
  '(reqs, consumed, st) ← parseHTTPRequests snapshot st;
  if decide (0 < length reqs) then
    let reqs := set_src (ipStr (SrcIP ev)) <$> reqs in
    let st := add reqsAssembled (Z.of_nat (length reqs)) st in
    t ← feed_leave key snapshot consumed t;
    Ret (reqs, t, st)
  else Ret (reqs, t, st).

Definition Feed (now : Z) (ev : PktEvent) (t : streams) (st : agentStats)
    : outcome (list CapturedRequest * streams * agentStats) :=
  '(r, t, st) ← feed_enter now ev t st;
  match r with
  | None => Ret ([], t, st)
  | Some (key, snapshot) => feed_finish ev key snapshot t st
  end.

(** ** The reaper *)

Definition stale (cutoff : Z) (s : stream) : bool := bool_decide (lastSeen s < cutoff)%Z.

(** One iteration of the loop over the table; deleting the current entry
    during a [range] is allowed. *)
Definition reap_entry (cutoff : Z) (acc : streams * agentStats) (kv : streamKey * stream)
    : streams * agentStats :=
  if stale cutoff kv.2 then (delete kv.1 acc.1, add streamsReaped 1 acc.2) else acc.

(** One tick: [order] is the order in which the map is ranged over. *)
Definition reap (now : Z) (order : list (streamKey * stream)) (t : streams)
    (st : agentStats) : streams * agentStats :=
  foldl (reap_entry (now - 10 * second)) (t, st) order.

(** ** Reaping is filtering, in any order *)

Definition survivor (cutoff : Z) (s : stream) : option stream :=
  if stale cutoff s then None else Some s.

Lemma reap_fold cutoff order t st :
  NoDup order.*1 →
  (∀ k s, (k, s) ∈ order → t !! k = Some s) →
  (∀ k s, t !! k = Some s → stale cutoff s → (k, s) ∈ order) →
  let r := foldl (reap_entry cutoff) (t, st) order in
  (∀ k, r.1 !! k = t !! k ≫= survivor cutoff) ∧
  wrap64 (load streamsReaped r.2) =
    wrap64 (load streamsReaped st + (Z.of_nat (size t) - Z.of_nat (size r.1))) ∧
  (∀ c, c ≠ streamsReaped → load c r.2 = load c st).
Proof.
  revert t st. induction order as [|[k' s'] order IH]; intros t st Hnd HA HB; cbv zeta.
  - cbn [foldl fst snd]. split; [|split; [f_equal; lia|done]].
    intros k. destruct (t !! k) as [s|] eqn:E; [|done]. cbn [mbind option_bind].
    unfold survivor. destruct (stale cutoff s) eqn:Es; [|done].
    specialize (HB k s E). rewrite Es in HB. set_solver.
  - cbn [fmap list_fmap fst] in Hnd. apply NoDup_cons in Hnd as [Hk' Hnd].
    assert (t !! k' = Some s') as Ek' by (apply HA; left).
    assert (∀ k s, (k, s) ∈ order → k ≠ k') as Hne.
    { intros k s Hs ->. apply Hk', list_elem_of_fmap. by exists (k', s). }
    cbn [foldl]. unfold reap_entry at 2 4 6 8. cbn [fst snd].
    destruct (stale cutoff s') eqn:Es.
    + destruct (IH (delete k' t) (add streamsReaped 1 st)) as (H1 & H2 & H3); [done| | |].
      { intros k s Hs. rewrite lookup_delete_ne by (intros ->; by eapply Hne). apply HA. by right. }
      { intros k s Hs Hst. apply lookup_delete_Some in Hs as [? Hs].
        specialize (HB k s Hs Hst). apply elem_of_cons in HB as [HB|HB]; [by simplify_eq|done]. }
      cbv zeta in *. split; [|split].
      * intros k. rewrite H1. destruct (decide (k = k')) as [->|Hk].
        { rewrite lookup_delete_eq, Ek'. cbn. unfold survivor. by rewrite Es. }
        by rewrite lookup_delete_ne.
      * rewrite H2, load_add_eq, wrap64_add_l. f_equal.
        rewrite map_size_delete, Ek'. assert (size t ≠ 0).
        { intros Hz. apply map_size_empty_inv in Hz. subst. done. }
        lia.
      * intros c Hc. rewrite H3, load_add_ne by done. done.
    + apply IH; [done|intros k s Hs; apply HA; by right|].
      intros k s Hs Hst. specialize (HB k s Hs Hst).
      apply elem_of_cons in HB as [HB|HB]; [|done]. simplify_eq. by rewrite Es in Hst.
Qed.

(** One tick keeps the entries that are not stale. *)
Lemma reap_lookup now order t st :
  order ≡ₚ map_to_list t →
  let '(t', st') := reap now order t st in
  (∀ k, t' !! k =
     s ← t !! k; if decide (lastSeen s < now - 10 * second)%Z then None else Some s) ∧
  wrap64 (load streamsReaped st') =
    wrap64 (load streamsReaped st + (Z.of_nat (size t) - Z.of_nat (size t'))) ∧
  ∀ c, c ≠ streamsReaped → load c st' = load c st.
Proof.
  intros Hp. unfold reap.
  pose proof (reap_fold (now - 10 * second) order t st) as H. cbv zeta in H.
  destruct (foldl _ _ order) as [t' st']. cbn [fst snd] in H.
  destruct H as (H1 & H2 & H3).
  - rewrite Hp. apply NoDup_fst_map_to_list.
  - intros k s. rewrite Hp. apply elem_of_map_to_list.
  - intros k s Hs _. rewrite Hp. by apply elem_of_map_to_list.
  - split; [|done]. intros k. rewrite H1. destruct (t !! k) as [s|]; [|done].
    cbn. unfold survivor, stale. by rewrite <- decide_bool_decide.
Qed.

(** C25. Reaping is independent of Go's random map order: whatever the order
    in which the table is ranged over, exactly the streams whose last segment
    is more than ten seconds old are removed, the others are untouched, and
    each removal is counted once. *)
Theorem reap_spec now order t st :
  order ≡ₚ map_to_list t →
  let '(t', st') := reap now order t st in
  (∀ k, t' !! k =
     s ← t !! k; if decide (lastSeen s < now - 10 * second)%Z then None else Some s) ∧
  wrap64 (load streamsReaped st') =
    wrap64 (load streamsReaped st + (Z.of_nat (size t) - Z.of_nat (size t'))) ∧
  ∀ c, c ≠ streamsReaped → load c st' = load c st.
Proof. apply reap_lookup. Qed.

Definition demo_key : streamKey := mkKey 1 2 3 4.

(** Two streams eleven and nine seconds old. *)
Definition demo_streams : streams :=
  <[demo_key := mkStream (str "GET /") 0]>
    (<[mkKey 5 6 7 8 := mkStream (str "GET /") (2 * second)]> ∅).

Theorem reap_spec_witness :
  let '(t', st') := reap (11 * second) (map_to_list demo_streams) demo_streams zero_stats in
  (∀ k, t' !! k =
     s ← demo_streams !! k;
     if decide (lastSeen s < 11 * second - 10 * second)%Z then None else Some s) ∧
  wrap64 (load streamsReaped st') =
    wrap64 (load streamsReaped zero_stats +
            (Z.of_nat (size demo_streams) - Z.of_nat (size t'))) ∧
  ∀ c, c ≠ streamsReaped → load c st' = load c zero_stats.
Proof. apply (reap_spec (11 * second)). reflexivity. Defined.

(** ** Reassembly *)

(** The unconsumed bytes of a connection; none when it has no stream. *)
Definition buffer_of (t : streams) (k : streamKey) : bytes :=
  default [] (buf <$> t !! k).

(** [Feed] on the events of a list, in order, each at its own time, as the read
    loop calls it. *)
Fixpoint feed_all (evs : list (Z * PktEvent)) (t : streams) (st : agentStats)
    : outcome (list CapturedRequest * streams * agentStats) :=
  match evs with
  | [] => Ret ([], t, st)
  | (now, ev) :: evs' =>
      '(reqs, t, st) ← Feed now ev t st;
      '(reqs', t, st) ← feed_all evs' t st;
      Ret (reqs ++ reqs', t, st)
  end.

(** An event that carries [data] and passes the packet filter. *)
Definition carries (ev : PktEvent) (data : bytes) : Prop :=
  PayloadLen ev ≠ 0%Z ∧ segment ev = Ret data ∧ accepted data = true.

Section reassembly.
Context {P : BufferParser parseHTTPRequests}.

(** One accepted segment: the buffer and the segment are parsed together,
    what is complete is returned and the rest stays buffered. *)
Lemma Feed_accepted now ev data t st rs c st0 st0' :
  carries ev data →
  parseHTTPRequests (buffer_of t (key_of ev) ++ data) st0 = Ret (rs, c, st0') →
  ∃ t' st', Feed now ev t st = Ret (set_src (ipStr (SrcIP ev)) <$> rs, t', st') ∧
    buffer_of t' (key_of ev) = drop (Z.to_nat c) (buffer_of t (key_of ev) ++ data) ∧
    (∀ k, k ≠ key_of ev → t' !! k = t !! k) ∧
    wrap64 (load reqsAssembled st') =
      wrap64 (load reqsAssembled st + Z.of_nat (length rs)).
Proof.
  intros (Hlen & Hseg & Hacc) Hp.
  unfold Feed, feed_enter. rewrite decide_False, Hseg by done.
  cbn [mbind outcome_bind]. rewrite Hacc. cbn [negb mbind outcome_bind buf].
  set (B := buffer_of t (key_of ev)) in *.
  assert (buf (default (mkStream [] 0) (t !! key_of ev)) = B) as ->.
  { unfold B, buffer_of. by destruct (t !! key_of ev). }
  set (t1 := <[_ := _]> t).
  assert (∀ k, k ≠ key_of ev → t1 !! k = t !! k) as Ht1
    by (intros k Hk; by apply lookup_insert_ne).
  set (st1 := add packetsReceived 1 st).
  destruct (bp_indep _ _ st1 _ _ _ Hp) as [st2 Hp2].
  pose proof (bp_stats _ _ _ _ _ reqsAssembled Hp2 ltac:(done)) as Hst.
  destruct (bp_consumed _ _ _ _ _ Hp) as [Hc Hnil].
  unfold feed_finish. rewrite Hp2. cbn [mbind outcome_bind].
  assert (load reqsAssembled st2 = load reqsAssembled st) as Hst2
    by (rewrite Hst; unfold st1; by apply load_add_ne).
  case_decide as Hn.
  - unfold feed_leave. case_decide as Hd; cbn [mbind outcome_bind].
    + eexists _, _. split; [reflexivity|]. split; [|split].
      * unfold buffer_of. rewrite lookup_delete_eq. cbn. symmetry. apply drop_ge.
        unfold len in Hd. lia.
      * intros k Hk. by rewrite lookup_delete_ne, Ht1 by done.
      * by rewrite load_add_eq, wrap64_wrap64, Hst2, length_fmap.
    + rewrite slice_to_end by lia. cbn [mbind outcome_bind].
      unfold t1 at 1. rewrite lookup_insert_eq. cbn [mbind outcome_bind].
      eexists _, _. split; [reflexivity|]. split; [|split].
      * unfold buffer_of. by rewrite lookup_insert_eq.
      * intros k Hk. by rewrite lookup_insert_ne, Ht1 by done.
      * by rewrite load_add_eq, wrap64_wrap64, Hst2, length_fmap.
  - assert (rs = []) as -> by (destruct rs; [done|simpl in Hn; lia]).
    assert (c = 0%Z) as -> by (by apply Hnil).
    eexists _, _. split; [reflexivity|]. split; [|split].
    + unfold buffer_of, t1. by rewrite lookup_insert_eq.
    + done.
    + rewrite Hst2. f_equal. cbn [length]. lia.
Qed.

(** Feeding a connection's segments one by one is parsing their
    concatenation, behind what was already buffered. *)
Lemma feed_all_buffer k evs datas t st rs c st0 st0' stB stB' :
  Forall2 (λ e d, key_of e.2 = k ∧ carries e.2 d) evs datas →
  parseHTTPRequests (buffer_of t k) stB = Ret ([], 0%Z, stB') →
  parseHTTPRequests (buffer_of t k ++ concat datas) st0 = Ret (rs, c, st0') →
  ∃ t' st', feed_all evs t st = Ret (set_src (ipStr (srcIP k)) <$> rs, t', st') ∧
    buffer_of t' k = drop (Z.to_nat c) (buffer_of t k ++ concat datas) ∧
    (∀ k', k' ≠ k → t' !! k' = t !! k') ∧
    wrap64 (load reqsAssembled st') =
      wrap64 (load reqsAssembled st + Z.of_nat (length rs)).
Proof.
  intros HF. revert t st rs c st0 st0' stB stB'.
  induction HF as [|[now ev] d evs datas [Hk Hd] _ IH];
    intros t st rs c st0 st0' stB stB' HB Hp; cbn [concat feed_all] in *.
  - rewrite app_nil_r in *.
    destruct (bp_indep _ _ st0 _ _ _ HB) as [? HB']. rewrite HB' in Hp. simplify_eq.
    eexists _, _. split; [reflexivity|]. split; [done|]. split; [done|].
    f_equal. cbn [length]. lia.
  - cbn [snd] in Hk, Hd. rewrite (assoc_L (++)) in Hp.
    destruct (bp_prefix _ _ _ st0 _ Hp) as (rs1 & c1 & st1 & [[rs2 c2] st2] & Hp1 & Hp2).
    pose proof (bp_resume _ _ _ _ _ _ _ _ _ _ Hp1 Hp2) as Hp12.
    rewrite Hp in Hp12. simplify_eq.
    destruct (Feed_accepted now ev d t st rs1 c1 st0 st1 Hd Hp1)
      as (t1 & st3 & -> & Hbuf & Hfr & Hl).
    cbn [mbind outcome_bind].
    rewrite <- Hbuf in Hp2.
    destruct (bp_rest _ _ _ _ _ stB Hp1) as [stC HC]. rewrite <- Hbuf in HC.
    destruct (IH t1 st3 _ _ _ _ _ _ HC Hp2) as (t' & st' & -> & Hbuf' & Hfr' & Hl').
    cbn [mbind outcome_bind]. eexists _, _.
    split; [by rewrite fmap_app|]. split; [|split].
    + rewrite Hbuf', Hbuf.
      destruct (bp_consumed _ _ _ _ _ Hp1) as [Hc1 _].
      destruct (bp_consumed _ _ _ _ _ Hp2) as [Hc2 _].
      rewrite (assoc_L (++)), Z2Nat.inj_add, <- drop_drop by lia.
      f_equal. symmetry. apply drop_app_le. unfold len in Hc1. lia.
    + intros k' Hk'. by rewrite Hfr', Hfr.
    + rewrite Hl', <- wrap64_add_l, Hl, wrap64_add_l, length_app. f_equal. lia.
Qed.
End reassembly.

(** Reassembly does not depend on segmentation. Feed a connection's
    segments one by one, starting without a stream: if all of them pass the
    packet filter and parsing their concatenation does not panic, the requests
    returned are exactly those of the concatenation, in order and marked with
    the client's address, the bytes left buffered are exactly the unconsumed
    ones, other connections are untouched, and the counter of assembled
    requests grows by the number of requests. *)
Theorem feed_reassembly k evs datas t st rs c st0 st0' :
  t !! k = None →
  Forall2 (λ e d, key_of e.2 = k ∧ carries e.2 d) evs datas →
  parseHTTPRequests (concat datas) st0 = Ret (rs, c, st0') →
  ∃ t' st', feed_all evs t st = Ret (set_src (ipStr (srcIP k)) <$> rs, t', st') ∧
    buffer_of t' k = drop (Z.to_nat c) (concat datas) ∧
    (∀ k', k' ≠ k → t' !! k' = t !! k') ∧
    wrap64 (load reqsAssembled st') =
      wrap64 (load reqsAssembled st + Z.of_nat (length rs)).
Proof.
  intros Hk HF Hp.
  assert (buffer_of t k = []) as E by (unfold buffer_of; by rewrite Hk).
  pose proof (feed_all_buffer k evs datas t st rs c st0 st0' st0 st0 HF) as H.
  rewrite E in H. by apply H.
Qed.

(** An event on [demo_key] carrying [data]. *)
Definition demo_ev (data : bytes) : PktEvent :=
  mkPkt 1 2 3 4 0x18 (len data) (copy zero_payload data).

Definition demo_datas : list bytes :=
  [str "POST /a HTTP/1.1" ++ CRLF ++ str "Content-Le"; str "ngth: 5" ++ header_end ++ str "he";
   str "lloGET /b HTTP/1.1" ++ header_end ++ str "GET"].
Definition demo_evs : list (Z * PktEvent) := (λ d, (7%Z, demo_ev d)) <$> demo_datas.

Definition demo_reqs : list CapturedRequest :=
  [mkRequest (str "POST") (str "/a") (headers_of [(str "Content-Length", str "5")])
     (str "hello") [];
   mkRequest (str "GET") (str "/b") ∅ [] []].

Theorem feed_reassembly_witness :
  ∃ t' st', feed_all demo_evs ∅ zero_stats =
      Ret (set_src (ipStr (srcIP demo_key)) <$> demo_reqs, t', st') ∧
    buffer_of t' demo_key = drop 63 (concat demo_datas) ∧
    (∀ k', k' ≠ demo_key → t' !! k' = (∅ : streams) !! k') ∧
    wrap64 (load reqsAssembled st') =
      wrap64 (load reqsAssembled zero_stats + Z.of_nat (length demo_reqs)).
Proof.
  apply (feed_reassembly demo_key demo_evs demo_datas ∅ zero_stats demo_reqs 63
           zero_stats zero_stats).
  - reflexivity.
  - repeat constructor; by_compute.
  - by_compute.
Defined.

(** A segment that neither starts like a request nor is mostly printable
    is discarded, even in the middle of a request body: the stream is left as
    it was, nothing is returned, and only the drop is counted. *)
Theorem binary_segment_dropped now ev data t st :
  PayloadLen ev ≠ 0%Z → segment ev = Ret data → accepted data = false →
  Feed now ev t st = Ret ([], t, add packetsDropped 1 (add packetsReceived 1 st)).
Proof.
  intros Hl Hs Ha. unfold Feed, feed_enter. rewrite decide_False, Hs by done.
  cbn [mbind outcome_bind]. by rewrite Ha.
Qed.

(** A request whose four-byte body is binary, in one segment and in two. *)
Definition binary_head : bytes :=
  str "POST /a HTTP/1.1" ++ CRLF ++ str "Content-Length: 4" ++ header_end.
Definition binary_body : bytes := replicate 4 (zb 0xff).

Theorem binary_segment_dropped_witness :
  Feed 7 (demo_ev binary_body) (<[demo_key := mkStream binary_head 7]> ∅) zero_stats =
    Ret ([], <[demo_key := mkStream binary_head 7]> ∅,
         add packetsDropped 1 (add packetsReceived 1 zero_stats)).
Proof.
  apply (binary_segment_dropped _ _ binary_body); [by_compute..|].
  vm_compute. reflexivity.
Defined.

(** Multi-segment requests with a binary body are not reassembled: the
    same request is captured when it arrives in one segment and lost when its
    header section and its body arrive in two. *)
Theorem binary_body_not_reassembled :
  (∃ r t' st', feed_all [(7%Z, demo_ev (binary_head ++ binary_body))] ∅ zero_stats =
                 Ret ([r], t', st') ∧ Body r = binary_body) ∧
  (∃ t' st', feed_all [(7%Z, demo_ev binary_head); (7%Z, demo_ev binary_body)] ∅ zero_stats =
               Ret ([], t', st') ∧ buffer_of t' demo_key = binary_head).
Proof.
  split.
  - exists (mkRequest (str "POST") (str "/a") (headers_of [(str "Content-Length", str "4")])
              binary_body (str "1.0.0.0")),
      ∅, (add reqsAssembled 1 (add packetsReceived 1 zero_stats)).
    split; by_compute.
  - exists (<[demo_key := mkStream binary_head 7]> ∅),
      (add packetsDropped 1 (add packetsReceived 2 zero_stats)).
    split; by_compute.
Qed.

(** A malformed stream never recovers and never stops growing: once the
    buffered bytes of a connection are malformed, every accepted segment
    returns nothing, is appended to the buffer, counts a parse error, and
    refreshes the time the reaper looks at. *)
Theorem malformed_stream_grows now ev data t st s e :
  t !! key_of ev = Some s →
  parseOneRequest (buf s) = Ret (Malformed e) →
  carries ev data →
  Feed now ev t st =
    Ret ([], <[key_of ev := mkStream (buf s ++ data) now]> t,
         add parseErrors 1 (add packetsReceived 1 st)).
Proof.
  intros Hs He (Hl & Hseg & Hacc). unfold Feed, feed_enter.
  rewrite decide_False, Hseg by done. cbn [mbind outcome_bind].
  rewrite Hacc, Hs. cbn [negb default buf mbind outcome_bind].
  unfold feed_finish.
  rewrite (parseHTTPRequests_parses _ _ [] (buf s ++ data) (StopError e)); [done|].
  eapply parses_stuck; [by apply parses_error|done].
Qed.

Definition garbage : bytes := str "nonsense" ++ header_end.

Theorem malformed_stream_grows_witness :
  Feed 9 (demo_ev demo_get) (<[demo_key := mkStream garbage 7]> ∅) zero_stats =
    Ret ([], <[demo_key := mkStream (garbage ++ demo_get) 9]>
               (<[demo_key := mkStream garbage 7]> ∅),
         add parseErrors 1 (add packetsReceived 1 zero_stats)).
Proof.
  apply (malformed_stream_grows 9 (demo_ev demo_get) demo_get _ _
           (mkStream garbage 7) (MalformedRequestLine (str "nonsense"))).
  - by_compute.
  - by_compute.
  - repeat split; by_compute.
Defined.

Lemma segment_ok ev : pkt_ok ev → ∃ data, segment ev = Ret data.
Proof.
  intros [Hl Hp]. unfold segment, slice. rewrite decide_True by lia. by eexists.
Qed.

(** Sequential [Feed] is as safe as the parser: for any event the loader
    can deliver, it panics only if the parser panics on the connection's
    buffer extended with the segment; the slicing of the payload, the slicing
    of the snapshot and the second table look-up never do. *)
Theorem Feed_panics_only_in_parser now ev t st p :
  pkt_ok ev → Feed now ev t st = Panic p →
  ∃ data, segment ev = Ret data ∧ accepted data = true ∧
    parseHTTPRequests (buffer_of t (key_of ev) ++ data) (add packetsReceived 1 st) = Panic p.
Proof.
  intros Hok. destruct (segment_ok ev Hok) as [data Hseg].
  unfold Feed, feed_enter. case_decide as Hl; [done|].
  rewrite Hseg. cbn [mbind outcome_bind].
  destruct (accepted data) eqn:Hacc; [|done]. cbn [negb mbind outcome_bind buf].
  assert (buf (default (mkStream [] 0) (t !! key_of ev)) = buffer_of t (key_of ev)) as ->
    by (unfold buffer_of; by destruct (t !! key_of ev)).
  unfold feed_finish.
  destruct (parseHTTPRequests _ _) as [[[rs c] st']|q] eqn:E; cbn [mbind outcome_bind].
  2:{ intros [= ->]. by exists data. }
  case_decide; [|done].
  apply bp_consumed in E as [Hc _]. unfold feed_leave. case_decide; [done|].
  rewrite slice_to_end by lia. cbn [mbind outcome_bind]. by rewrite lookup_insert_eq.
Qed.

Theorem Feed_panics_only_in_parser_witness :
  ∃ data, segment (demo_ev negative_request) = Ret data ∧ accepted data = true ∧
    parseHTTPRequests (buffer_of ∅ demo_key ++ data) (add packetsReceived 1 zero_stats) =
      Panic MakeSliceLen.
Proof.
  apply (Feed_panics_only_in_parser 7 (demo_ev negative_request) ∅ zero_stats).
  - by_compute.
  - by_compute.
Defined.
