(* ===== verification/Interleaving.v ===== *)
(** * The tracker while the reaper runs: [mirror-agent/tracker.go]

    [Feed] in the steps of its two critical sections, interleaved with the
    reaper and the clock; then the reaper's ticker in real time. What can crash
    it, the shape of the stream table, the age of streams, the counters. *)

From Stdlib Require Import ZArith Lia.
From S2P Require Import Prelude GoLib Stats HttpParse Kernel Loader Tracker.

(** ** Interleaving with the reaper

    The state of the tracker while the read loop and the reaper run: the
    table, the clock, and what the read loop's call of [Feed] is doing.
    Between the two critical sections it holds the event, the key, the snapshot
    and the time it took in the first one; a crash remembers the snapshot it
    was working on. *)

Inductive feed_pc :=
  | Idle
  | Unlocked (ev : PktEvent) (key : streamKey) (snapshot : bytes) (entered : Z)
  | Crashed (snapshot : bytes) (p : panic).

Record tracker := mkTracker {
  table : streams;
  counters : agentStats;
  clock : Z;
  pc : feed_pc
}.

(** What a step shows: nothing, the event that was taken, the requests that
    [Feed] returns for a connection, that it panicked, or that the reaper ran
    and which connections it removed. *)
Inductive label :=
  | Quiet
  | Ticked (gone : gset streamKey)
  | Taken (ev : PktEvent)
  | Returned (key : streamKey) (reqs : list CapturedRequest)
  | Died.

(** The counters when [Feed] panics behind its first critical section: the
    requests found are counted before the stream is looked up again. *)
Definition crash_counters (snapshot : bytes) (st : agentStats) : agentStats :=
  match parseHTTPRequests snapshot st with
  | Ret (reqs, _, st) => add reqsAssembled (Z.of_nat (length reqs)) st
  | Panic _ => st
  end.

Section interleaving.
(** A bound on the time the snapshot may take to parse, if any. *)
Context (max_parse : option Z).

Definition in_time (entered now : Z) : Prop :=
  match max_parse with None => True | Some d => (now ≤ entered + d)%Z end.

Inductive tracker_step : tracker → label → tracker → Prop :=
  | step_clock t st now now' c :
      (now ≤ now')%Z →
      tracker_step (mkTracker t st now c) Quiet (mkTracker t st now' c)
  | step_enter t st now ev key snapshot t' st' :
      pkt_ok ev →
      feed_enter now ev t st = Ret (Some (key, snapshot), t', st') →
      tracker_step (mkTracker t st now Idle) (Taken ev)
                   (mkTracker t' st' now (Unlocked ev key snapshot now))
  | step_return t st now ev t' st' :
      pkt_ok ev →
      feed_enter now ev t st = Ret (None, t', st') →
      tracker_step (mkTracker t st now Idle) (Taken ev) (mkTracker t' st' now Idle)
  | step_leave t st now ev key snapshot entered reqs t' st' :
      in_time entered now →
      feed_finish ev key snapshot t st = Ret (reqs, t', st') →
      tracker_step (mkTracker t st now (Unlocked ev key snapshot entered)) (Returned key reqs)
                   (mkTracker t' st' now Idle)
  | step_crash t st now ev key snapshot entered p :
      in_time entered now →
      feed_finish ev key snapshot t st = Panic p →
      tracker_step (mkTracker t st now (Unlocked ev key snapshot entered)) Died
                   (mkTracker t (crash_counters snapshot st) now (Crashed snapshot p))
  | step_reap t st now c order t' st' :
      order ≡ₚ map_to_list t →
      reap now order t st = (t', st') →
      tracker_step (mkTracker t st now c) (Ticked (dom t ∖ dom t')) (mkTracker t' st' now c).

Definition tracker_init (s : tracker) : Prop :=
  table s = ∅ ∧ counters s = zero_stats ∧ pc s = Idle.

Definition tracker_any (s s' : tracker) : Prop := ∃ l, tracker_step s l s'.

Abbreviation tracker_reachable := (reachable tracker_init tracker_any).
End interleaving.

(** What the first critical section does to the table. *)
Lemma feed_enter_Some now ev t st key snapshot t' st' :
  pkt_ok ev → feed_enter now ev t st = Ret (Some (key, snapshot), t', st') →
  t' = <[key := mkStream snapshot now]> t ∧ snapshot ≠ [].
Proof.
  intros [Hl Hp]. unfold feed_enter. case_decide; [done|].
  unfold segment, slice. rewrite decide_True by lia.
  cbn [mbind outcome_bind]. case_match; [done|]. intros ?. simplify_eq. split; [done|].
  set (b := buf _). intros [_ Hd]%app_nil.
  apply (f_equal length) in Hd. rewrite length_take, length_drop in Hd.
  unfold len in *. cbn [length] in Hd. lia.
Qed.

Lemma feed_enter_None now ev t st t' st' :
  feed_enter now ev t st = Ret (None, t', st') → t' = t.
Proof.
  unfold feed_enter. case_decide; [by intros [= <- _]|]. destruct (segment ev); [|done].
  cbn [mbind outcome_bind]. case_match; by intros [= <- _].
Qed.

(** What the second one does: the parser's result decides. *)
Lemma feed_finish_Ret ev key snapshot t st reqs t' st' :
  feed_finish ev key snapshot t st = Ret (reqs, t', st') →
  ∃ rs c st1, parseHTTPRequests snapshot st = Ret (rs, c, st1) ∧
    reqs = set_src (ipStr (SrcIP ev)) <$> rs ∧
    (rs = [] ∧ t' = t ∨
     rs ≠ [] ∧ (len snapshot ≤ c)%Z ∧ t' = delete key t ∨
     rs ≠ [] ∧ (c < len snapshot)%Z ∧
       ∃ s, t !! key = Some s ∧
            t' = <[key := mkStream (drop (Z.to_nat c) snapshot) (lastSeen s)]> t).
Proof.
  unfold feed_finish. destruct (parseHTTPRequests snapshot st) as [[[rs c] st1]|] eqn:Ep; [|done].
  cbn [mbind outcome_bind]. intros H. exists rs, c, st1. split; [done|].
  apply bp_consumed in Ep as [Hc _].
  case_decide as Hn.
  2:{ injection H as <- <- <-. destruct rs; [by auto|cbn in Hn; lia]. }
  assert (rs ≠ []) by (by intros ->; cbn in Hn; lia).
  unfold feed_leave in H. case_decide; cbn [mbind outcome_bind] in H; [simplify_eq; auto 6|].
  rewrite slice_to_end in H by lia. cbn [mbind outcome_bind] in H.
  destruct (t !! key) as [s|] eqn:Es; cbn [mbind outcome_bind] in H; [|done].
  simplify_eq. split; [done|]. right. right. split; [done|]. split; [lia|]. by exists s.
Qed.

(** It panics when the parser does, or when its stream is gone. *)
Lemma feed_finish_Panic ev key snapshot t st p :
  feed_finish ev key snapshot t st = Panic p →
  parseHTTPRequests snapshot st = Panic p ∨ p = NilDeref ∧ t !! key = None.
Proof.
  unfold feed_finish. destruct (parseHTTPRequests snapshot st) as [[[rs c] st1]|] eqn:Ep;
    [|cbn [mbind outcome_bind]; intros [= ->]; by left].
  cbn [mbind outcome_bind]. apply bp_consumed in Ep as [Hc _]. case_decide; [|done].
  unfold feed_leave. case_decide; cbn [mbind outcome_bind]; [done|].
  rewrite slice_to_end by lia. cbn [mbind outcome_bind].
  destruct (t !! key) eqn:Es; cbn [mbind outcome_bind]; [done|]. intros [= <-]. by right.
Qed.

(** While [Feed] is between its critical sections, either its stream is still
    in the table as the first one left it, or more than ten seconds passed. *)
Definition tracker_inv (s : tracker) : Prop :=
  match pc s with
  | Unlocked _ key snapshot entered =>
      (entered ≤ clock s)%Z ∧
      (table s !! key = Some (mkStream snapshot entered) ∨
       (entered + 10 * second < clock s)%Z)
  | _ => True
  end.

Lemma tracker_step_inv d s l s' :
  tracker_inv s → tracker_step d s l s' → tracker_inv s'.
Proof.
  intros HI Hs. unfold tracker_inv in *.
  destruct Hs as [t st now now' c Hle|? ? ? ? ? ? ? ? Hok E| | | |
                  t st now c order t' st' Hp E]; cbn [pc clock table] in *; try done.
  - destruct c; [done| |done]. destruct HI as [? [?|?]]; split; auto; lia.
  - apply feed_enter_Some in E as [-> _]; [|done]. split; [lia|]. left. by rewrite lookup_insert_eq.
  - destruct c as [|ev key snap entered|]; [done| |done].
    destruct HI as [Hle [Ht|Hlate]]; (split; [done|]); [|by right].
    pose proof (reap_lookup now order t st Hp) as H. rewrite E in H.
    destruct H as (H & _ & _). specialize (H key). rewrite Ht in H. cbn in H.
    case_decide; [right; lia|by left].
Qed.

(** A crash in time is a panic of the parser on the snapshot. *)
Definition crash_in_parser (s : tracker) : Prop :=
  match pc s with
  | Crashed snapshot p => parseHTTPRequests snapshot zero_stats = Panic p
  | _ => True
  end.

Lemma tracker_step_crash s l s' :
  tracker_inv s → crash_in_parser s → tracker_step (Some (10 * second)%Z) s l s' →
  crash_in_parser s'.
Proof.
  intros HI HC Hs. unfold crash_in_parser in *.
  destruct Hs as [| | | |t st now ev key snap entered p Hin E|]; cbn [pc] in *; try done.
  apply feed_finish_Panic in E as [E|[-> E]]; [by eapply parseHTTPRequests_panic|].
  unfold tracker_inv, in_time in *. cbn [pc clock table] in HI.
  destruct HI as [_ [Ht|Hlate]]; [congruence|lia].
Qed.

(** No nil dereference in time: if parsing a snapshot never takes more
    than ten seconds, then in every interleaving of the read loop, the reaper
    and the clock [Feed] finds its stream in its second critical section; it
    can only crash because the parser panics on the snapshot itself. *)
Theorem feed_prompt_safe s snapshot p :
  reachable tracker_init (tracker_any (Some (10 * second)%Z)) s →
  pc s = Crashed snapshot p →
  parseHTTPRequests snapshot zero_stats = Panic p ∧ p ≠ NilDeref.
Proof.
  intros Hr Hpc.
  assert (tracker_inv s ∧ crash_in_parser s) as [_ HC].
  { clear Hpc. revert s Hr. apply reachable_invariant.
    - intros s (_ & _ & Hpc). unfold tracker_inv, crash_in_parser. by rewrite Hpc.
    - intros s s' _ [HI HC] [l Hs].
      split; [by eapply tracker_step_inv|by eapply tracker_step_crash]. }
  unfold crash_in_parser in HC. rewrite Hpc in HC. split; [done|].
  intros ->. by apply parseHTTPRequests_no_nil in HC.
Qed.

(** ** Well-formedness of the table *)

(** No complete request is left in a buffer. *)
Definition drained (b : bytes) : Prop :=
  ∃ st, parseHTTPRequests b zero_stats = Ret ([], 0%Z, st).

(** Whether the read loop is about to parse a stream. *)
Definition busy_with (c : feed_pc) (k : streamKey) : Prop :=
  match c with Unlocked _ key _ _ => key = k | _ => False end.

Definition is_crashed (c : feed_pc) : Prop :=
  match c with Crashed _ _ => True | _ => False end.

Definition tracker_wf (s : tracker) : Prop :=
  (∀ k x, table s !! k = Some x →
     buf x ≠ [] ∧ (lastSeen x ≤ clock s)%Z ∧ (drained (buf x) ∨ busy_with (pc s) k)) ∧
  (∀ ev k b t x, pc s = Unlocked ev k b t → table s !! k = Some x → buf x = b).

Lemma drained_nothing b st c st' :
  parseHTTPRequests b st = Ret ([], c, st') → drained b.
Proof.
  intros H. pose proof (bp_consumed _ _ _ _ _ H) as [_ [Hc _]]. rewrite Hc in H by done.
  by destruct (bp_indep _ _ zero_stats _ _ _ H) as [st0 ?]; exists st0.
Qed.

Lemma drained_rest b st rs c st' :
  parseHTTPRequests b st = Ret (rs, c, st') → drained (drop (Z.to_nat c) b).
Proof. intros H. by destruct (bp_rest _ _ _ _ _ zero_stats H) as [st0 ?]; exists st0. Qed.

Lemma tracker_step_wf d s l s' :
  tracker_wf s → tracker_step d s l s' → is_crashed (pc s') ∨ tracker_wf s'.
Proof.
  intros [HA HB] Hs. unfold tracker_wf.
  destruct Hs as [t st now now' c Hle|t st now ev key snap t' st' Hok E
                 |t st now ev t' st' Hok E|t st now ev key snap entered reqs t' st' Hin E
                 |t st now ev key snap entered p Hin E|t st now c order t' st' Hp E];
    cbn [pc clock table is_crashed busy_with] in *; [right|right|right|right|by left|right].
  - split; [|done]. intros k x Hx. destruct (HA k x Hx) as (? & ? & ?). split_and!; [done|lia|done].
  - apply feed_enter_Some in E as [-> Hne]; [|done]. split.
    + intros k x [[<- <-]|[Hk Hx]]%lookup_insert_Some; cbn [buf lastSeen].
      { split_and!; [done|lia|by right]. }
      destruct (HA k x Hx) as (? & ? & [?|[]]). split_and!; [done|lia|by left].
    + intros ? k b ? x [= _ <- <- _]. rewrite lookup_insert_eq. by intros [= <-].
  - apply feed_enter_None in E as ->. by split.
  - apply feed_finish_Ret in E as (rs & c & st1 & Hp & _ & Ht).
    split; [|done]. intros k x Hx.
    assert (∀ y, k ≠ key → t !! k = Some y →
      buf y ≠ [] ∧ (lastSeen y ≤ now)%Z ∧ (drained (buf y) ∨ False)) as Hother.
    { intros y Hk Hy. destruct (HA k y Hy) as (? & ? & [?|?]); [split_and!; auto|congruence]. }
    destruct Ht as [[-> ->]|[(_ & _ & ->)|(_ & Hc & y & Hy & ->)]].
    + destruct (decide (k = key)) as [->|Hk]; [|by apply Hother].
      rewrite (HB _ _ _ _ x eq_refl Hx). destruct (HA key x Hx) as (Hne & ? & _).
      rewrite (HB _ _ _ _ x eq_refl Hx) in Hne.
      split_and!; [done|done|left]. by eapply drained_nothing.
    + apply lookup_delete_Some in Hx as [Hk Hx]. by apply Hother.
    + apply lookup_insert_Some in Hx as [[<- <-]|[Hk Hx]]; [|by apply Hother].
      cbn [buf lastSeen]. destruct (HA key y Hy) as (_ & ? & _). split_and!; [|done|left].
      * intros Hn%(f_equal length). rewrite length_drop in Hn. unfold len in Hc.
        cbn [length] in Hn. apply bp_consumed in Hp as [[? _] _]. lia.
      * by eapply drained_rest.
  - pose proof (reap_lookup now order t st Hp) as H. rewrite E in H. destruct H as (H & _).
    assert (∀ k x, t' !! k = Some x → t !! k = Some x) as Hsub.
    { intros k x Hx. rewrite H in Hx. destruct (t !! k); [|done]. cbn in Hx. by case_decide. }
    split; [intros k x Hx%Hsub; by apply HA|intros ev k b e x Hc Hx%Hsub; by eapply HB].
Qed.

(** C9. Well-formedness of the stream table: in every reachable state of a
    tracker that has not crashed, whatever the interleaving and the time
    parsing takes, no stream is empty or from the future, and no complete
    request waits in a buffer, unless it is the one the read loop is parsing
    at that moment. *)
Theorem tracker_well_formed d s :
  reachable tracker_init (tracker_any d) s →
  is_crashed (pc s) ∨
  ∀ k x, table s !! k = Some x →
    buf x ≠ [] ∧ (lastSeen x ≤ clock s)%Z ∧ (drained (buf x) ∨ busy_with (pc s) k).
Proof.
  intros Hr. assert (is_crashed (pc s) ∨ tracker_wf s) as [?|[? _]]; [|by left|by right].
  revert s Hr. apply reachable_invariant.
  - intros s (Ht & _ & Hpc). right. split; rewrite Ht; intros *; rewrite ?Hpc, lookup_empty; done.
  - intros s s' _ [Hc|Hwf] [l Hs]; [|by eapply tracker_step_wf].
    left. destruct Hs; cbn [pc] in *; done.
Qed.

(** ** The reaper's ticker

    The ticker fires every fifteen seconds. In real time the clock cannot pass
    a tick without the reaper having run; [next] is when it is due. *)

Definition reap_period : Z := 15 * second.

Record timed := mkTimed { tr : tracker; next : Z }.

Definition ticked (l : label) : bool := match l with Ticked _ => true | _ => false end.

Inductive timed_step (d : option Z) : timed → timed → Prop :=
  | timed_run s l s' n :
      tracker_step d s l s' → ticked l = false → (clock s' ≤ n)%Z →
      timed_step d (mkTimed s n) (mkTimed s' n)
  | timed_tick s gone s' n :
      tracker_step d s (Ticked gone) s' → clock s = n →
      timed_step d (mkTimed s n) (mkTimed s' (n + reap_period)).

(** The ticker is created with the tracker. *)
Definition timed_init (x : timed) : Prop :=
  tracker_init (tr x) ∧ next x = (clock (tr x) + reap_period)%Z.

(** A step only refreshes the stream it feeds. *)
Lemma tracker_step_age d s l s' :
  tracker_step d s l s' →
  (clock s ≤ clock s')%Z ∧
  ∀ k x', table s' !! k = Some x' →
    lastSeen x' = clock s ∨ ∃ x, table s !! k = Some x ∧ lastSeen x = lastSeen x'.
Proof.
  destruct 1 as [t st now now' c Hle|t st now ev key snap t' st' Hok E
                 |t st now ev t' st' Hok E|t st now ev key snap entered reqs t' st' Hin E
                 |t st now ev key snap entered p Hin E|t st now c order t' st' Hp E];
    cbn [clock table]; (split; [lia|]); [by eauto| | | |by eauto|].
  - apply feed_enter_Some in E as [-> _]; [|done].
    intros k x [[<- <-]|[_ Hx]]%lookup_insert_Some; [by left|by eauto].
  - apply feed_enter_None in E as ->. by eauto.
  - apply feed_finish_Ret in E as (rs & c & st1 & _ & _ & [[_ ->]|[(_ & _ & ->)|(_ & _ & y & Hy & ->)]]).
    + by eauto.
    + intros k x [_ Hx]%lookup_delete_Some. by eauto.
    + intros k x [[<- <-]|[_ Hx]]%lookup_insert_Some; by eauto.
  - pose proof (reap_lookup now order t st Hp) as H. rewrite E in H. destruct H as (H & _).
    intros k x Hx. rewrite H in Hx. destruct (t !! k) as [y|] eqn:Ey; [|done].
    cbn in Hx. case_decide; simplify_eq. right. by exists x.
Qed.

(** The survivors of a tick are at most ten seconds old. *)
Lemma tracker_tick_fresh d s gone s' :
  tracker_step d s (Ticked gone) s' →
  clock s' = clock s ∧
  ∀ k x, table s' !! k = Some x → (clock s - 10 * second ≤ lastSeen x)%Z.
Proof.
  intros H. inversion H as [| | | | |t st now c order t' st' Hp E]; subst. cbn [clock table].
  split; [done|]. pose proof (reap_lookup now order t st Hp) as Hl. rewrite E in Hl.
  destruct Hl as (Hl & _). intros k x Hx. rewrite Hl in Hx. destruct (t !! k); [|done].
  cbn in Hx. case_decide; simplify_eq. lia.
Qed.

Definition timed_inv (x : timed) : Prop :=
  (next x - reap_period ≤ clock (tr x) ≤ next x)%Z ∧
  ∀ k y, table (tr x) !! k = Some y → (next x - 25 * second ≤ lastSeen y)%Z.

Lemma timed_step_inv d x x' : timed_inv x → timed_step d x x' → timed_inv x'.
Proof.
  unfold timed_inv. intros [Hc HI] Hs.
  destruct Hs as [s l s' n Hs _ Hn|s gone s' n Hs Hn]; cbn [tr next] in *;
    unfold reap_period, second in *.
  - apply tracker_step_age in Hs as [Hle Ha]. split; [lia|].
    intros k y Hy. apply Ha in Hy as [->|(z & Hz & <-)]; [lia|by eapply HI].
  - apply tracker_tick_fresh in Hs as [-> Hf]. split; [lia|].
    intros k y Hy. apply Hf in Hy. unfold second in Hy. lia.
Qed.

(** C15. Abandoned connections are forgotten: with the reaper running every
    fifteen seconds, no stream is ever more than twenty-five seconds old, so
    a connection that stops sending has left the table by then, whatever else
    the tracker does. *)
Theorem idle_streams_reaped d x :
  reachable timed_init (timed_step d) x →
  ∀ k y, table (tr x) !! k = Some y → (clock (tr x) - lastSeen y ≤ 25 * second)%Z.
Proof.
  intros Hr. assert (timed_inv x) as [Hc HI].
  { revert x Hr. apply reachable_invariant; [|intros ? ? _; apply timed_step_inv].
    intros [s n] [(Ht & _ & _) Hn]. cbn [tr next] in *. unfold timed_inv, reap_period, second in *.
    cbn [tr next]. split; [lia|]. intros k y. by rewrite Ht, lookup_empty. }
  intros k y Hy%HI. lia.
Qed.

Definition init_tracker : tracker := mkTracker ∅ zero_stats 0 Idle.

(** One complete request and the beginning of the next. *)
Definition race_data : bytes := demo_get ++ str "GET".
Definition race_stats : agentStats := add packetsReceived 1 zero_stats.
Definition race_table : streams := {[ demo_key := mkStream race_data 0 ]}.

Lemma race_entered d :
  reachable tracker_init (tracker_any d)
    (mkTracker race_table race_stats 0 (Unlocked (demo_ev race_data) demo_key race_data 0)).
Proof.
  apply (reach_step _ _ init_tracker); [by apply reach_init|]. eexists.
  apply step_enter; by_compute.
Qed.

(** A segment with a negative length crashes the tracker in its parser. *)
Definition negative_state : tracker :=
  mkTracker {[ demo_key := mkStream negative_request 0 ]} race_stats 0
    (Crashed negative_request MakeSliceLen).

Lemma negative_reachable d :
  reachable tracker_init (tracker_any (Some (Z.pos d))) negative_state.
Proof.
  eapply reach_step.
  - apply (reach_step _ _ init_tracker); [by apply reach_init|]. eexists.
    apply (step_enter _ _ _ _ (demo_ev negative_request) demo_key negative_request
             {[ demo_key := mkStream negative_request 0 ]} race_stats); by_compute.
  - eexists. apply step_crash; [cbn; lia|]. by_compute.
Qed.

Theorem feed_prompt_safe_witness :
  parseHTTPRequests negative_request zero_stats = Panic MakeSliceLen ∧ MakeSliceLen ≠ NilDeref.
Proof.
  exact (feed_prompt_safe negative_state negative_request MakeSliceLen
           (negative_reachable _) eq_refl).
Defined.

Theorem tracker_well_formed_witness :
  let s := mkTracker race_table race_stats 0
             (Unlocked (demo_ev race_data) demo_key race_data 0) in
  is_crashed (pc s) ∨
  ∀ k x, table s !! k = Some x →
    buf x ≠ [] ∧ (lastSeen x ≤ clock s)%Z ∧ (drained (buf x) ∨ busy_with (pc s) k).
Proof. exact (tracker_well_formed None _ (race_entered None)). Defined.

(** The same stream, twenty-five seconds later: the first tick comes too early
    for it, the second is due. *)
Lemma old_reachable :
  reachable timed_init (timed_step None)
    (mkTimed (mkTracker {[ demo_key := mkStream (str "GET") (5 * second) ]} race_stats
                (30 * second) Idle) (30 * second)).
Proof.
  set (t := {[ demo_key := mkStream (str "GET") (5 * second) ]} : streams).
  apply (reach_step _ _ (mkTimed (mkTracker t race_stats (15 * second) Idle) (30 * second))).
  2:{ eapply timed_run; [by apply step_clock|done|done]. }
  apply (reach_step _ _ (mkTimed (mkTracker t race_stats (15 * second) Idle) (15 * second))).
  2:{ eapply (timed_tick None _ _ _ (15 * second)); [|done].
      apply (step_reap None _ _ _ _ (map_to_list t)); [done|by_compute]. }
  apply (reach_step _ _ (mkTimed (mkTracker t race_stats (5 * second) Idle) (15 * second))).
  2:{ eapply timed_run; [by apply step_clock|done|done]. }
  apply (reach_step _ _ (mkTimed (mkTracker t race_stats (5 * second)
           (Unlocked (demo_ev (str "GET")) demo_key (str "GET") (5 * second))) (15 * second))).
  2:{ eapply timed_run; [apply (step_leave None _ _ _ _ _ _ _ []); by_compute|done|done]. }
  apply (reach_step _ _ (mkTimed (mkTracker ∅ zero_stats (5 * second) Idle) (15 * second))).
  2:{ eapply timed_run; [apply step_enter; by_compute|done|done]. }
  apply (reach_step _ _ (mkTimed init_tracker (15 * second))).
  2:{ eapply timed_run; [by apply step_clock|done|done]. }
  by apply reach_init.
Qed.

Theorem idle_streams_reaped_witness :
  ∃ x k y, reachable timed_init (timed_step None) x ∧ table (tr x) !! k = Some y ∧
    (clock (tr x) - lastSeen y = 25 * second)%Z ∧ (clock (tr x) - lastSeen y ≤ 25 * second)%Z.
Proof.
  eexists _, demo_key, (mkStream (str "GET") (5 * second)).
  split; [exact old_reachable|]. split; [by_compute|]. split; [reflexivity|].
  apply (idle_streams_reaped None _ old_reachable demo_key). by_compute.
Defined.

(** C40. The race is real: without a bound on the parsing time, the reaper can
    remove the stream between the two critical sections of [Feed], whose
    second look-up then dereferences a nil stream. *)
Theorem feed_race_reachable :
  ∃ s, reachable tracker_init (tracker_any None) s ∧ pc s = Crashed race_data NilDeref.
Proof.
  set (c := Unlocked (demo_ev race_data) demo_key race_data 0).
  exists (mkTracker ∅ (add reqsAssembled 1 (add streamsReaped 1 race_stats)) (11 * second)
            (Crashed race_data NilDeref)).
  split; [|done].
  apply (reach_step _ _ (mkTracker ∅ (add streamsReaped 1 race_stats) (11 * second) c)).
  2:{ eexists. apply step_crash; by_compute. }
  apply (reach_step _ _ (mkTracker race_table race_stats (11 * second) c)).
  2:{ eexists. apply (step_reap None _ _ _ _ (map_to_list race_table)); [done|by_compute]. }
  apply (reach_step _ _ (mkTracker race_table race_stats 0 c)).
  2:{ eexists. apply step_clock. by_compute. }
  apply race_entered.
Qed.

(** ** Counters *)

Definition taken (l : label) : bool := match l with Taken _ => true | _ => false end.
Definition returned (l : label) : list CapturedRequest :=
  match l with Returned _ reqs => reqs | _ => [] end.

Definition tracker_counters : list counter :=
  [packetsReceived; packetsDropped; streamsReaped; parseErrors; reqsAssembled].

Lemma feed_enter_stats now ev t st r t' st' :
  feed_enter now ev t st = Ret (r, t', st') →
  load packetsReceived st' = wrap64 (load packetsReceived st + 1) ∧
  ∀ c, c ∉ [packetsReceived; packetsDropped] → load c st' = load c st.
Proof.
  assert (∀ c, c ∉ [packetsReceived; packetsDropped] → c ≠ packetsReceived ∧ c ≠ packetsDropped)
    as Hc by (intros c H; split; intros ->; apply H; set_solver).
  unfold feed_enter. case_decide.
  { intros [= _ _ <-]. rewrite load_add_eq. split; [done|].
    intros c [? ?]%Hc. by rewrite load_add_ne. }
  destruct (segment ev) as [data|]; [|done]. cbn [mbind outcome_bind].
  destruct (negb (accepted data)); intros [= _ _ <-].
  - rewrite load_add_ne, load_add_eq by done. split; [done|].
    intros c [? ?]%Hc. by rewrite !load_add_ne.
  - rewrite load_add_eq. split; [done|]. intros c [? ?]%Hc. by rewrite load_add_ne.
Qed.

Lemma feed_finish_stats ev key snapshot t st reqs t' st' :
  feed_finish ev key snapshot t st = Ret (reqs, t', st') →
  wrap64 (load reqsAssembled st') =
    wrap64 (load reqsAssembled st + Z.of_nat (length reqs)) ∧
  ∀ c, c ∉ [parseErrors; reqsAssembled] → load c st' = load c st.
Proof.
  unfold feed_finish.
  destruct (parseHTTPRequests snapshot st) as [[[rs k] st2]|q] eqn:Ep; [|done].
  cbn [mbind outcome_bind]. pose proof (λ c, bp_stats _ _ _ _ _ c Ep) as Hs.
  case_decide as Hn.
  - destruct (feed_leave _ _ _ _) as [t2|]; [|done]. cbn [mbind outcome_bind].
    intros [= <- _ <-]. rewrite load_add_eq, wrap64_wrap64, Hs by done. split; [done|].
    intros c Hc. rewrite load_add_ne by (intros ->; apply Hc; set_solver).
    apply Hs. intros ->. apply Hc. set_solver.
  - intros [= <- _ <-]. split; [rewrite Hs by done; f_equal; lia|].
    intros c Hc. apply Hs. intros ->. apply Hc. set_solver.
Qed.

(** The requests a crash loses: they are counted but never returned. *)
Definition lost (s : tracker) : nat :=
  match pc s with
  | Crashed snapshot _ =>
      match parseHTTPRequests snapshot zero_stats with Ret (reqs, _, _) => length reqs | Panic _ => 0 end
  | _ => 0
  end.

Lemma crash_counters_loads snapshot st :
  wrap64 (load reqsAssembled (crash_counters snapshot st)) =
    wrap64 (load reqsAssembled st +
            Z.of_nat (match parseHTTPRequests snapshot zero_stats with
                      | Ret (reqs, _, _) => length reqs | Panic _ => 0 end)) ∧
  ∀ c, c ∉ [parseErrors; reqsAssembled] → load c (crash_counters snapshot st) = load c st.
Proof.
  unfold crash_counters.
  destruct (parseHTTPRequests snapshot st) as [[[rs k] st2]|q] eqn:Ep.
  - destruct (bp_indep _ _ zero_stats _ _ _ Ep) as [st0 ->].
    pose proof (λ c, bp_stats _ _ _ _ _ c Ep) as Hs.
    rewrite load_add_eq, wrap64_wrap64, Hs by done. split; [done|].
    intros c Hc. rewrite load_add_ne by (intros ->; apply Hc; set_solver).
    apply Hs. intros ->. apply Hc. set_solver.
  - destruct (parseHTTPRequests snapshot zero_stats) as [[[rs k] st2]|] eqn:E0.
    + destruct (bp_indep _ _ st _ _ _ E0) as [st0 E]. congruence.
    + split; [by rewrite Z.add_0_r|done].
Qed.

(** What a step of the tracker does to the counters. *)
Lemma tracker_step_stats d s l s' :
  tracker_step d s l s' →
  load packetsReceived (counters s') =
    (if taken l then wrap64 (load packetsReceived (counters s) + 1)
     else load packetsReceived (counters s)) ∧
  wrap64 (load reqsAssembled (counters s')) =
    wrap64 (load reqsAssembled (counters s) + Z.of_nat (length (returned l)) +
            (Z.of_nat (lost s') - Z.of_nat (lost s))) ∧
  ∀ c, c ∉ tracker_counters → load c (counters s') = load c (counters s).
Proof.
  unfold tracker_counters.
  destruct 1 as [t st now now' c Hle|t st now ev key snap t' st' Hok E
                 |t st now ev t' st' Hok E|t st now ev key snap entered reqs t' st' Hin E
                 |t st now ev key snap entered p Hin E|t st now c order t' st' Hp E];
    unfold lost; cbn [counters taken returned length pc]; rewrite ?Z.sub_diag, ?Z.add_0_r, ?Z.sub_0_r;
    [done| | | | |].
  1-2: apply feed_enter_stats in E as [-> Ho]; rewrite (Ho reqsAssembled) by set_solver;
       (split; [done|]); (split; [done|]); intros c Hc; apply Ho; set_solver.
  - apply feed_finish_stats in E as [Ha Ho]. rewrite (Ho packetsReceived) by set_solver.
    split; [done|]. split; [done|]. intros c Hc. apply Ho. set_solver.
  - destruct (crash_counters_loads snap st) as [Ha Ho]. rewrite (Ho packetsReceived) by set_solver.
    split; [done|]. split; [done|]. intros c Hc. apply Ho. set_solver.
  - pose proof (reap_lookup now order t st Hp) as H. rewrite E in H.
    destruct H as (_ & _ & Ho). rewrite !Ho by done. split; [done|]. split; [done|].
    intros k Hk. apply Ho. intros ->. apply Hk. set_solver.
Qed.
