(* ===== verification/Connections.v ===== *)
(** * What the tracker promises: one byte stream per connection

    An abstract machine without buffers, offsets, locks or clock: each
    connection is the string of the bytes accepted on it, and whatever a new
    segment completes is returned next. The tracker, with its critical sections
    interleaved with the reaper, is simulated by it. *)

From Stdlib Require Import ZArith Lia.
From S2P Require Import Prelude GoLib Stats HttpParse Kernel Loader Tracker Interleaving.

(** ** The specification *)

(** The bytes an event adds to its connection, if it is accepted. *)
Definition offered (ev : PktEvent) : option (streamKey * bytes) :=
  match segment ev with
  | Ret data =>
      if bool_decide (PayloadLen ev ≠ 0%Z) && accepted data
      then Some (key_of ev, data) else None
  | Panic _ => None
  end.

(** The requests in a byte string. *)
Definition requests_in (b : bytes) : outcome (list CapturedRequest) :=
  '(rs, _, _) ← parseHTTPRequests b zero_stats; Ret rs.

(** What the tracker owes: nothing, the requests a connection's last segment
    completed, or a panic. *)
Inductive debt :=
  | Nothing
  | Owed (k : streamKey) (next : list CapturedRequest)
  | Doomed.

Record connections := mkConns { wires : gmap streamKey bytes; due : debt }.

Definition wire_of (x : connections) (k : streamKey) : bytes := default [] (wires x !! k).

Definition forget (gone : gset streamKey) (W : gmap streamKey bytes) : gmap streamKey bytes :=
  filter (λ kw, kw.1 ∉ gone) W.

Definition from_client (k : streamKey) (rs : list CapturedRequest) : list CapturedRequest :=
  set_src (ipStr (srcIP k)) <$> rs.

Inductive conn_step : connections → label → connections → Prop :=
  | conn_quiet x : conn_step x Quiet x
  | conn_ignored W ev :
      offered ev = None →
      conn_step (mkConns W Nothing) (Taken ev) (mkConns W Nothing)
  | conn_bytes W ev k data old next :
      offered ev = Some (k, data) →
      requests_in (default [] (W !! k)) = Ret old →
      requests_in (default [] (W !! k) ++ data) = Ret (old ++ next) →
      conn_step (mkConns W Nothing) (Taken ev)
                (mkConns (<[k := default [] (W !! k) ++ data]> W) (Owed k next))
  | conn_poison W ev k data p :
      offered ev = Some (k, data) →
      requests_in (default [] (W !! k) ++ data) = Panic p →
      conn_step (mkConns W Nothing) (Taken ev)
                (mkConns (<[k := default [] (W !! k) ++ data]> W) Doomed)
  | conn_deliver W k next :
      conn_step (mkConns W (Owed k next)) (Returned k (from_client k next)) (mkConns W Nothing)
  | conn_forget W c gone :
      conn_step (mkConns W c) (Ticked gone) (mkConns (forget gone W) c)
  | conn_die W :
      conn_step (mkConns W Doomed) Died (mkConns W Doomed)
  | conn_lost W k next :
      (* the connection was forgotten while its requests were owed *)
      W !! k = None → next ≠ [] →
      conn_step (mkConns W (Owed k next)) Died (mkConns W Doomed).

Definition no_connections : connections := mkConns ∅ Nothing.

(** ** The simulation relation *)

(** The buffer of [k] is what parsing leaves of the wire. *)
Definition in_sync (t : streams) (k : streamKey) (w : bytes) : Prop :=
  ∃ rs c st, parseHTTPRequests w zero_stats = Ret (rs, c, st) ∧
    buffer_of t k = drop (Z.to_nat c) w.

(** Between the critical sections, for the connection being parsed: either it
    is in the table with its snapshot, or the reaper forgot it. *)
Definition mid_parse (t : streams) (W : gmap streamKey bytes) (k : streamKey) (snapshot : bytes)
    (c2 : Z) : Prop :=
  (t !! k = None ∧ W !! k = None) ∨
  (∃ x, t !! k = Some x ∧ buf x = snapshot) ∧
  ∃ rs c st, parseHTTPRequests (default [] (W !! k)) zero_stats = Ret (rs, c, st) ∧
    drop (Z.to_nat c) (default [] (W !! k)) = drop (Z.to_nat c2) snapshot.

Definition sim_pc (t : streams) (c : feed_pc) (x : connections) : Prop :=
  match c with
  | Idle => due x = Nothing
  | Crashed _ _ => due x = Doomed
  | Unlocked ev k snapshot _ =>
      key_of ev = k ∧ snapshot ≠ [] ∧
      match parseHTTPRequests snapshot zero_stats with
      | Ret (next, c2, _) => due x = Owed k next ∧ mid_parse t (wires x) k snapshot c2
      | Panic _ => due x = Doomed
      end
  end.

Definition sim (s : tracker) (x : connections) : Prop :=
  (∀ k, ¬ busy_with (pc s) k → ¬ is_crashed (pc s) → in_sync (table s) k (wire_of x k)) ∧
  sim_pc (table s) (pc s) x.

(** ** The simulation *)

Lemma forget_lookup gone W k : forget gone W !! k = if decide (k ∈ gone) then None else W !! k.
Proof.
  unfold forget. case_decide as Hk.
  - apply map_lookup_filter_None_2. right. intros w _. cbn. tauto.
  - destruct (W !! k) as [w|] eqn:E; [by apply map_lookup_filter_Some_2|].
    apply map_lookup_filter_None_2. by left.
Qed.

(** What the first critical section appends. *)
Lemma feed_enter_offered now ev t st key snapshot t' st' :
  feed_enter now ev t st = Ret (Some (key, snapshot), t', st') →
  ∃ data, offered ev = Some (key, data) ∧ key = key_of ev ∧ snapshot = buffer_of t key ++ data.
Proof.
  unfold feed_enter, offered. case_decide as Hl; [done|].
  destruct (segment ev) as [data|]; [|done]. cbn [mbind outcome_bind].
  destruct (accepted data); [|done]. cbn [negb]. intros [= <- <- _ _].
  exists data. rewrite bool_decide_eq_true_2 by done. split; [done|]. split; [done|].
  unfold buffer_of. by destruct (t !! key_of ev).
Qed.

Lemma feed_enter_ignored now ev t st t' st' :
  feed_enter now ev t st = Ret (None, t', st') → offered ev = None.
Proof.
  unfold feed_enter, offered. case_decide as Hl.
  { intros _. rewrite bool_decide_eq_false_2 by tauto. by destruct (segment ev). }
  destruct (segment ev) as [data|]; [|done]. cbn [mbind outcome_bind].
  destruct (accepted data); [done|]. intros _. by rewrite andb_false_r.
Qed.

Lemma in_sync_ext t t' k w : t' !! k = t !! k → in_sync t k w → in_sync t' k w.
Proof. unfold in_sync, buffer_of. by intros ->. Qed.

Lemma in_sync_fresh t k : t !! k = None → in_sync t k [].
Proof. intros H. unfold in_sync, buffer_of. rewrite H. do 3 eexists. split; [by vm_compute|done]. Qed.

(** A new segment on a connection in sync. *)
Lemma segment_parsed t k w data :
  in_sync t k w →
  match parseHTTPRequests (buffer_of t k ++ data) zero_stats with
  | Ret (next, c2, _) =>
      ∃ old c st, requests_in w = Ret old ∧ requests_in (w ++ data) = Ret (old ++ next) ∧
        parseHTTPRequests (w ++ data) zero_stats = Ret (old ++ next, c, st) ∧
        drop (Z.to_nat c) (w ++ data) = drop (Z.to_nat c2) (buffer_of t k ++ data)
  | Panic _ => ∃ p, requests_in (w ++ data) = Panic p
  end.
Proof.
  intros (old & c & st & Hw & ->). unfold requests_in. rewrite Hw.
  pose proof (bp_consumed _ _ _ _ _ Hw) as [Hc _].
  destruct (parseHTTPRequests (drop _ w ++ data) zero_stats) as [[[next c2] st2]|p] eqn:E.
  - pose proof (bp_resume _ _ _ _ _ _ _ _ _ _ Hw E) as H. rewrite H.
    apply bp_consumed in E as [Hc2 _]. do 3 eexists. split; [done|]. split; [done|].
    split; [done|]. rewrite Z2Nat.inj_add, <- drop_drop, drop_app_le by (unfold len in *; lia). done.
  - destruct (parseHTTPRequests (w ++ data) zero_stats) as [r|p'] eqn:E'; [|by exists p'].
    destruct (bp_prefix _ _ _ zero_stats _ E') as (rs & c' & st' & r' & Hw' & Hd).
    rewrite Hw in Hw'. simplify_eq. congruence.
Qed.

Lemma sim_enter t st now ev key snapshot t' st' x :
  pkt_ok ev → feed_enter now ev t st = Ret (Some (key, snapshot), t', st') →
  sim (mkTracker t st now Idle) x →
  ∃ x', conn_step x (Taken ev) x' ∧ sim (mkTracker t' st' now (Unlocked ev key snapshot now)) x'.
Proof.
  intros Hok E [HA HB]. cbn [pc table sim_pc] in *. destruct x as [W due]. cbn [Connections.due] in HB.
  subst due. pose proof (feed_enter_Some _ _ _ _ _ _ _ _ Hok E) as [-> Hne].
  apply feed_enter_offered in E as (data & Ho & Hk & ->).
  pose proof (segment_parsed t key (default [] (W !! key)) data) as HP.
  specialize (HP (HA key ltac:(intros []) ltac:(intros []))).
  set (w := default [] (W !! key)) in *.
  assert (∀ d k, ¬ key = k →
    in_sync (<[key:=mkStream (buffer_of t key ++ data) now]> t) k
      (wire_of (mkConns (<[key := w ++ data]> W) d) k)) as Hother.
  { intros d k Hkk. unfold wire_of. cbn [wires]. rewrite lookup_insert_ne by done.
    eapply in_sync_ext; [by apply lookup_insert_ne|]. apply (HA k); intros []. }
  destruct (parseHTTPRequests (buffer_of t key ++ data) zero_stats) as [[[next c2] st2]|p] eqn:Ep.
  - destruct HP as (old & c & st1 & H1 & H2 & H3 & H4).
    eexists. split; [by eapply conn_bytes|]. split.
    + intros k Hb _. by apply Hother.
    + cbn [pc sim_pc]. rewrite Ep. split; [done|]. split; [done|]. split; [done|].
      cbn [wires table]. right. rewrite !lookup_insert_eq. split; [by eexists|].
      cbn [default]. do 3 eexists. split; [exact H3|done].
  - destruct HP as [p' HP]. eexists. split; [by eapply conn_poison|]. split.
    + intros k Hb _. by apply Hother.
    + cbn [pc sim_pc]. by rewrite Ep.
Qed.

Lemma sim_leave t st now ev key snapshot entered reqs t' st' x :
  feed_finish ev key snapshot t st = Ret (reqs, t', st') →
  sim (mkTracker t st now (Unlocked ev key snapshot entered)) x →
  ∃ x', conn_step x (Returned key reqs) x' ∧ sim (mkTracker t' st' now Idle) x'.
Proof.
  intros E [HA (Hk & Hne & HB)]. cbn [pc table] in *. destruct x as [W due].
  cbn [Connections.due wires] in HB.
  apply feed_finish_Ret in E as (rs & c & st1 & Hp & -> & Ht).
  destruct (bp_indep _ _ zero_stats _ _ _ Hp) as [st2 Hp2]. rewrite Hp2 in HB.
  destruct HB as [-> HM]. exists (mkConns W Nothing).
  assert (ipStr (SrcIP ev) = ipStr (srcIP key)) as -> by (by rewrite <- Hk).
  split; [apply conn_deliver|]. split; [|done]. intros k _ _. unfold wire_of. cbn [wires table].
  assert (∀ k, key ≠ k → t' !! k = t !! k) as Hfr.
  { intros k' Hk'. destruct Ht as [[_ ->]|[(_ & _ & ->)|(_ & _ & y & _ & ->)]];
      by rewrite ?lookup_delete_ne, ?lookup_insert_ne. }
  destruct (decide (key = k)) as [<-|Hkk].
  2:{ eapply in_sync_ext; [by apply Hfr|]. apply (HA k); [done|intros []]. }
  destruct HM as [[Ht0 HW]|((y & Hy & Hb) & rs1 & c1 & st3 & H1 & H2)].
  - rewrite HW. apply in_sync_fresh.
    destruct Ht as [[_ ->]|[(_ & _ & ->)|(_ & _ & y & Hy & _)]]; [done|apply lookup_delete_eq|].
    congruence.
  - exists rs1, c1, st3. split; [done|]. rewrite H2. unfold buffer_of.
    destruct Ht as [[-> ->]|[(_ & Hc & ->)|(_ & Hc & z & _ & ->)]].
    + pose proof (bp_consumed _ _ _ _ _ Hp) as [_ [Hc0 _]]. rewrite Hc0, Hy by done. done.
    + rewrite lookup_delete_eq. symmetry. apply drop_ge. unfold len in Hc. lia.
    + by rewrite lookup_insert_eq.
Qed.

Lemma sim_crash t st now ev key snapshot entered p x :
  feed_finish ev key snapshot t st = Panic p →
  sim (mkTracker t st now (Unlocked ev key snapshot entered)) x →
  ∃ x', conn_step x Died x' ∧ sim (mkTracker t (crash_counters snapshot st) now (Crashed snapshot p)) x'.
Proof.
  intros E [_ (Hk & Hne & HB)]. cbn [pc table] in *. destruct x as [W due].
  cbn [Connections.due wires] in HB. exists (mkConns W Doomed).
  split; [|split; [by intros ? _ []|done]].
  destruct (parseHTTPRequests snapshot zero_stats) as [[[next c2] st2]|q] eqn:Ep;
    [|subst due; apply conn_die].
  destruct HB as [-> HM]. destruct (bp_indep _ _ st _ _ _ Ep) as [st3 Ep'].
  assert (next ≠ []) as Hnext.
  { intros ->. unfold feed_finish in E. by rewrite Ep' in E. }
  apply feed_finish_Panic in E as [E|[_ E]]; [congruence|].
  destruct HM as [[_ HW]|((y & Hy & _) & _)]; [by apply conn_lost|congruence].
Qed.

Lemma sim_reap t st now c order t' st' x :
  order ≡ₚ map_to_list t → reap now order t st = (t', st') →
  sim (mkTracker t st now c) x →
  ∃ x', conn_step x (Ticked (dom t ∖ dom t')) x' ∧ sim (mkTracker t' st' now c) x'.
Proof.
  intros Hp E [HA HB]. cbn [pc table] in *. destruct x as [W due].
  pose proof (reap_lookup now order t st Hp) as H. rewrite E in H. destruct H as (H & _).
  set (gone := dom t ∖ dom t').
  assert (∀ k, k ∈ gone → t' !! k = None) as Hg.
  { intros k [_ Hk]%elem_of_difference. by apply not_elem_of_dom in Hk. }
  assert (∀ k, k ∉ gone → t' !! k = t !! k) as Hn.
  { intros k Hk. rewrite H. destruct (t !! k) as [s|] eqn:Es; [|done]. cbn.
    case_decide; [|done]. exfalso. apply Hk, elem_of_difference. split; [by apply elem_of_dom_2 in Es|].
    apply not_elem_of_dom. rewrite H, Es. cbn. by rewrite decide_True. }
  exists (mkConns (forget gone W) due). split; [apply conn_forget|]. split.
  - intros k Hb Hc. unfold wire_of. cbn [wires pc table] in *. rewrite forget_lookup.
    case_decide as Hk; [apply in_sync_fresh; by apply Hg|].
    eapply in_sync_ext; [by apply Hn|]. by apply (HA k).
  - cbn [pc table]. destruct c as [|ev k snap entered|]; cbn [sim_pc Connections.due wires] in *;
      [done| |done]. destruct HB as (Hk & Hne & HB). split; [done|]. split; [done|].
    destruct (parseHTTPRequests snap zero_stats) as [[[next c2] st2]|]; [|done].
    destruct HB as [Hd HM]. split; [done|]. unfold mid_parse. rewrite forget_lookup.
    case_decide as Hg'; [left; split; [by apply Hg|done]|]. by rewrite Hn.
Qed.

Lemma sim_step d s x l s' :
  sim s x → tracker_step d s l s' → ∃ x', conn_step x l x' ∧ sim s' x'.
Proof.
  intros HR Hs. destruct Hs; [|by eapply sim_enter| |by eapply sim_leave|by eapply sim_crash
                             |by eapply sim_reap].
  - exists x. split; [apply conn_quiet|exact HR].
  - match goal with E : feed_enter _ _ _ _ = _ |- _ =>
      pose proof (feed_enter_ignored _ _ _ _ _ _ E) as Ho; apply feed_enter_None in E as -> end.
    destruct HR as [HA HB]. destruct x as [W due]. cbn in HB. subst due.
    eexists. split; [by apply conn_ignored|by split].
Qed.

Lemma tracker_simulated d s ls s' :
  tracker_init s → trace (tracker_step d) s ls s' →
  ∃ x, trace conn_step no_connections ls x ∧ sim s' x.
Proof.
  intros (Ht & _ & Hpc) Htr.
  apply (simulation (tracker_step d) conn_step sim) with s; [by apply sim_step| |done].
  split; [|by rewrite Hpc]. intros k _ _. apply in_sync_fresh. by rewrite Ht.
Qed.

(** C3. Refinement: the tracker - two critical sections per segment, snapshots,
    a reaper and a clock running in between, any time spent parsing -
    implements the machine of per-connection byte streams. Every trace of it is
    a trace of that machine, and whenever it is between two segments nothing is
    owed and each connection buffers exactly what parsing its stream leaves. *)
Theorem tracker_refines_connections d s ls s' :
  tracker_init s → trace (tracker_step d) s ls s' →
  ∃ x, trace conn_step no_connections ls x ∧
    (pc s' = Idle → due x = Nothing ∧ ∀ k, in_sync (table s') k (wire_of x k)) ∧
    (is_crashed (pc s') → due x = Doomed).
Proof.
  intros Hi Htr. destruct (tracker_simulated d s ls s' Hi Htr) as (x & Hx & HA & HB).
  exists x. split; [done|]. split.
  - intros Hpc. rewrite Hpc in *. split; [done|]. intros k. apply HA; intros [].
  - by destruct (pc s').
Qed.

(** ** What a trace shows of one connection *)

Definition event_bytes (k : streamKey) (ev : PktEvent) : bytes :=
  match offered ev with
  | Some (k', data) => if decide (k' = k) then data else []
  | None => []
  end.

Definition label_bytes (k : streamKey) (l : label) : bytes :=
  match l with Taken ev => event_bytes k ev | _ => [] end.
Definition label_requests (k : streamKey) (l : label) : list CapturedRequest :=
  match l with Returned k' rs => if decide (k' = k) then rs else [] | _ => [] end.

(** The bytes accepted and the requests returned on a connection. *)
Definition bytes_on (k : streamKey) (ls : list label) : bytes := ls ≫= label_bytes k.
Definition returned_on (k : streamKey) (ls : list label) : list CapturedRequest :=
  ls ≫= label_requests k.

(** The reaper leaves the connection alone. *)
Definition kept (k : streamKey) (ls : list label) : Prop :=
  Forall (λ l, match l with Ticked gone => k ∉ gone | _ => True end) ls.

Definition owed (k : streamKey) (c : debt) : list CapturedRequest :=
  match c with Owed k' next => if decide (k' = k) then next else [] | _ => [] end.

Lemma bytes_on_snoc k ls l : bytes_on k (ls ++ [l]) = bytes_on k ls ++ label_bytes k l.
Proof. unfold bytes_on. rewrite bind_app. f_equal. apply app_nil_r. Qed.
Lemma returned_on_snoc k ls l : returned_on k (ls ++ [l]) = returned_on k ls ++ label_requests k l.
Proof. unfold returned_on. rewrite bind_app. f_equal. apply app_nil_r. Qed.

Lemma from_client_app k rs rs' : from_client k (rs ++ rs') = from_client k rs ++ from_client k rs'.
Proof. apply fmap_app. Qed.

(** The abstract machine, seen from one connection it never forgets. *)
Lemma conn_trace k ls x :
  trace conn_step no_connections ls x → kept k ls → due x ≠ Doomed →
  wire_of x k = bytes_on k ls ∧
  ∃ rs, requests_in (wire_of x k) = Ret (rs ++ owed k (due x)) ∧
    returned_on k ls = from_client k rs.
Proof.
  induction 1 as [|ls x1 l x2 _ IH Hs]; intros Hk Hd.
  { split; [done|]. exists []. split; [by vm_compute|done]. }
  apply Forall_app in Hk as [Hk [Hl _]%Forall_cons].
  rewrite bytes_on_snoc, returned_on_snoc.
  destruct Hs as [x|W ev Ho|W ev k' data old next Ho Hold Hnew|W ev k' data p Ho Hp|W k' next
                 |W c gone|W|W k' next HW Hn]; cbn [Connections.due] in *; try done.
  - rewrite !app_nil_r. by apply IH.
  - cbn [label_bytes label_requests]. unfold event_bytes. rewrite Ho, !app_nil_r. by apply IH.
  - destruct IH as (Hw & rs & Hrs & Hret); [done..|]. cbn [owed] in Hrs. rewrite app_nil_r in Hrs.
    cbn [label_bytes label_requests owed]. unfold event_bytes. rewrite Ho, app_nil_r.
    unfold wire_of in *. cbn [wires] in *.
    destruct (decide (k' = k)) as [->|Hkk].
    + rewrite lookup_insert_eq. cbn [default]. rewrite Hw in *. split; [done|].
      exists rs. split; [|done]. rewrite Hrs in Hold. by simplify_eq.
    + rewrite lookup_insert_ne by done. rewrite !app_nil_r. split; [done|].
      exists rs. by rewrite app_nil_r.
  - destruct IH as (Hw & rs & Hrs & Hret); [done..|].
    cbn [label_bytes label_requests owed] in *. rewrite !app_nil_r. split; [done|].
    rewrite Hret. revert Hrs. destruct (decide (k' = k)) as [->|Hkk]; intros Hrs.
    + exists (rs ++ next). rewrite app_nil_r. split; [done|]. by rewrite from_client_app.
    + exists rs. rewrite app_nil_r in Hrs. rewrite !app_nil_r. by split.
  - destruct IH as (Hw & rs & Hrs & Hret); [done..|].
    cbn [label_bytes label_requests]. rewrite !app_nil_r. unfold wire_of in *. cbn [wires] in *.
    rewrite forget_lookup, decide_False by done. split; [done|]. by exists rs.
Qed.

Lemma interleaved_requests d s ls s' k :
  tracker_init s → trace (tracker_step d) s ls s' → kept k ls → pc s' = Idle →
  ∃ rs c st, parseHTTPRequests (bytes_on k ls) zero_stats = Ret (rs, c, st) ∧
    returned_on k ls = from_client k rs ∧
    buffer_of (table s') k = drop (Z.to_nat c) (bytes_on k ls).
Proof.
  intros Hi Htr Hk Hpc. destruct (tracker_simulated d s ls s' Hi Htr) as (x & Hx & HA & HB).
  rewrite Hpc in *. cbn [sim_pc] in HB.
  destruct (conn_trace k ls x Hx Hk) as (Hw & rs & Hrs & Hret); [by rewrite HB|].
  rewrite HB in Hrs. cbn [owed] in Hrs. rewrite app_nil_r in Hrs.
  destruct (HA k) as (rs' & c & st & Hp & Hb); [intros []..|].
  unfold requests_in in Hrs. rewrite Hp in Hrs. cbn [mbind outcome_bind] in Hrs. simplify_eq.
  rewrite Hw in *. by exists rs, c, st.
Qed.

(** C4. Reassembly under interleaving: in every trace of the tracker in which
    the reaper does not remove a connection, once [Feed] has returned, the
    requests returned for that connection are exactly those in the
    concatenation of the bytes accepted on it, in order and marked with the
    client's address, and exactly the unconsumed bytes are buffered - whatever
    the other connections carry, and whenever the reaper and the clock run. *)
Theorem interleaved_reassembly d s ls s' k :
  tracker_init s → trace (tracker_step d) s ls s' → kept k ls → pc s' = Idle →
  ∃ rs c st, parseHTTPRequests (bytes_on k ls) zero_stats = Ret (rs, c, st) ∧
    returned_on k ls = set_src (ipStr (srcIP k)) <$> rs ∧
    buffer_of (table s') k = drop (Z.to_nat c) (bytes_on k ls).
Proof. apply interleaved_requests. Qed.

(** ** Traces of the sequential read loop *)

Definition events_of (ls : list label) : list PktEvent :=
  omap (λ l, match l with Taken ev => Some ev | _ => None end) ls.

Lemma bytes_on_events k ls : bytes_on k ls = concat (event_bytes k <$> events_of ls).
Proof.
  induction ls as [|l ls IH]; [done|]. unfold bytes_on, events_of in *. cbn [mbind list_bind omap list_omap].
  rewrite IH. by destruct l.
Qed.

Definition untouched (ls : list label) : Prop := Forall (λ l, ticked l = false) ls.

Lemma untouched_kept k ls : untouched ls → kept k ls.
Proof. intros H. eapply Forall_impl; [exact H|]. by intros []. Qed.

(** A call of [Feed] that nothing interrupts is a trace. *)
Lemma Feed_trace d now ev t st reqs t' st' :
  pkt_ok ev → in_time d now now → Feed now ev t st = Ret (reqs, t', st') →
  ∃ ls, trace (tracker_step d) (mkTracker t st now Idle) ls (mkTracker t' st' now Idle) ∧
    events_of ls = [ev] ∧ untouched ls.
Proof.
  intros Hok Hin. unfold Feed.
  destruct (feed_enter now ev t st) as [[[[[key snap]|] t1] st1]|] eqn:E; [| |done];
    cbn [mbind outcome_bind].
  - intros HF. exists [Taken ev; Returned key reqs]. split; [|split; [done|by repeat constructor]].
    eapply (trace_app _ _ [Taken ev] _ [Returned key reqs]); eapply trace_one;
      [by eapply step_enter|by eapply step_leave].
  - intros [= _ <- <-]. exists [Taken ev]. split; [|split; [done|by repeat constructor]].
    by eapply trace_one, step_return.
Qed.

Lemma feed_all_trace d now evs t st reqs t' st' :
  Forall pkt_ok evs → in_time d now now →
  feed_all ((λ ev, (now, ev)) <$> evs) t st = Ret (reqs, t', st') →
  ∃ ls, trace (tracker_step d) (mkTracker t st now Idle) ls (mkTracker t' st' now Idle) ∧
    events_of ls = evs ∧ untouched ls.
Proof.
  intros Hok Hin. revert t st reqs. induction Hok as [|ev evs Hev _ IH]; intros t st reqs.
  { cbn. intros [= _ <- <-]. exists []. split; [constructor|split; [done|constructor]]. }
  cbn [fmap list_fmap feed_all].
  destruct (Feed now ev t st) as [[[r1 t1] st1]|] eqn:E1; [|done]. cbn [mbind outcome_bind].
  destruct (feed_all _ t1 st1) as [[[r2 t2] st2]|] eqn:E2; [|done]. cbn [mbind outcome_bind].
  intros [= _ <- <-].
  destruct (Feed_trace d now ev t st _ _ _ Hev Hin E1) as (ls1 & H1 & He1 & Hu1).
  destruct (IH _ _ _ E2) as (ls2 & H2 & He2 & Hu2).
  exists (ls1 ++ ls2). split; [by eapply trace_app|].
  split; [unfold events_of in *; by rewrite omap_app, He1, He2|by apply Forall_app].
Qed.

(** ** One connection, cut in two, with a tick in between *)

Definition part1 : bytes := take 5 demo_get.
Definition part2 : bytes := drop 5 demo_get.
Definition demo_labels : list label :=
  [Taken (demo_ev part1); Returned demo_key []; Quiet; Ticked ∅; Taken (demo_ev part2);
   Returned demo_key [mkRequest (str "GET") (str "/b") ∅ [] (str "1.0.0.0")]].
Definition tracker_at (t : streams) (received assembled now : Z) (c : feed_pc) : tracker :=
  mkTracker t (add reqsAssembled assembled (add packetsReceived received zero_stats)) now c.
Definition after_demo : tracker := tracker_at ∅ 2 1 (6 * second) Idle.

Lemma demo_trace : trace (tracker_step None) init_tracker demo_labels after_demo.
Proof.
  set (t1 := {[ demo_key := mkStream part1 0 ]} : streams).
  apply (trace_app _ _ [Taken (demo_ev part1)]
           (tracker_at t1 1 0 0 (Unlocked (demo_ev part1) demo_key part1 0))).
  { eapply trace_one, step_enter; by_compute. }
  apply (trace_app _ _ [Returned demo_key []] (tracker_at t1 1 0 0 Idle)).
  { eapply trace_one. apply (step_leave None _ _ _ _ _ _ _ []); by_compute. }
  apply (trace_app _ _ [Quiet] (tracker_at t1 1 0 (6 * second) Idle)).
  { eapply trace_one, step_clock. by_compute. }
  apply (trace_app _ _ [Ticked ∅] (tracker_at t1 1 0 (6 * second) Idle)).
  { eapply trace_one. assert (∅ = dom t1 ∖ dom t1) as -> by set_solver.
    eapply (step_reap None _ _ _ _ (map_to_list t1)); [done|by_compute]. }
  apply (trace_app _ _ [Taken (demo_ev part2)]
           (tracker_at {[ demo_key := mkStream demo_get (6 * second) ]} 2 0 (6 * second)
              (Unlocked (demo_ev part2) demo_key demo_get (6 * second)))).
  { eapply trace_one, step_enter; by_compute. }
  eapply trace_one. apply step_leave; by_compute.
Qed.

Theorem tracker_refines_connections_witness :
  ∃ x, trace conn_step no_connections demo_labels x ∧
    (pc after_demo = Idle → due x = Nothing ∧ ∀ k, in_sync (table after_demo) k (wire_of x k)) ∧
    (is_crashed (pc after_demo) → due x = Doomed).
Proof.
  apply (tracker_refines_connections None init_tracker); [by split_and!|exact demo_trace].
Defined.

Theorem interleaved_reassembly_witness :
  ∃ rs c st, parseHTTPRequests (bytes_on demo_key demo_labels) zero_stats = Ret (rs, c, st) ∧
    returned_on demo_key demo_labels = set_src (ipStr (srcIP demo_key)) <$> rs ∧
    buffer_of (table after_demo) demo_key = drop (Z.to_nat c) (bytes_on demo_key demo_labels).
Proof.
  apply (interleaved_reassembly None init_tracker demo_labels after_demo demo_key);
    [by split_and!|exact demo_trace| |reflexivity].
  unfold kept, demo_labels. repeat apply Forall_cons_2; [..|apply Forall_nil_2]; set_solver.
Defined.
