(* ===== verification/Json.v ===== *)
(** * JSON: what the program uses of [encoding/json]

    A parser with the grammar and the string decoding of Go's decoder, the
    validity test [json.Valid], the compaction [json.Compact], and the lemmas
    that read back printed arrays and objects. *)

From Stdlib Require Import ZArith Lia.
From S2P Require Import Prelude GoLib.

(** ** Values

    Numbers keep their literal text; an object keeps its members in order,
    duplicates included. *)
#[warnings="-register-all"]
Inductive json :=
  | JNull
  | JBool (b : bool)
  | JNum (lit : bytes)
  | JStr (s : bytes)
  | JArr (l : list json)
  | JObj (l : list (bytes * json)).

Definition is_ws (b : byte) : bool :=
  bool_decide (b = SP) || bool_decide (b = TAB) || bool_decide (b = LF) || bool_decide (b = CR).

Fixpoint skip_ws (s : bytes) : bytes :=
  match s with
  | b :: s' => if is_ws b then skip_ws s' else s
  | [] => []
  end.

(** ** Strings *)

(** [utf8.EncodeRune] *)
Definition encode_rune (r : Z) : bytes :=
  if decide (r < 0x80)%Z then [zb r]
  else if decide (r < 0x800)%Z then
    [zb (Z.lor 0xc0 (Z.shiftr r 6)); zb (Z.lor 0x80 (Z.land r 0x3f))]
  else if decide (r < 0x10000)%Z then
    [zb (Z.lor 0xe0 (Z.shiftr r 12)); zb (Z.lor 0x80 (Z.land (Z.shiftr r 6) 0x3f));
     zb (Z.lor 0x80 (Z.land r 0x3f))]
  else
    [zb (Z.lor 0xf0 (Z.shiftr r 18)); zb (Z.lor 0x80 (Z.land (Z.shiftr r 12) 0x3f));
     zb (Z.lor 0x80 (Z.land (Z.shiftr r 6) 0x3f)); zb (Z.lor 0x80 (Z.land r 0x3f))].

(** U+FFFD, which replaces invalid UTF-8 and unpaired surrogates. *)
Definition replacement : bytes := [Byte.xef; Byte.xbf; Byte.xbd].

Definition between (lo hi : Z) (b : byte) : bool := bool_decide (lo ≤ bz b ≤ hi)%Z.
Definition cont (b : byte) : bool := between 0x80 0xbf b.

(** The well-formed UTF-8 sequences of two, three and four bytes. *)
Definition utf8_2 (b c : byte) : bool := between 0xc2 0xdf b && cont c.
Definition utf8_3 (b c d : byte) : bool :=
  cont d &&
  (bool_decide (bz b = 0xe0)%Z && between 0xa0 0xbf c ||
   between 0xe1 0xec b && cont c ||
   bool_decide (bz b = 0xed)%Z && between 0x80 0x9f c ||
   between 0xee 0xef b && cont c).
Definition utf8_4 (b c d e : byte) : bool :=
  cont d && cont e &&
  (bool_decide (bz b = 0xf0)%Z && between 0x90 0xbf c ||
   between 0xf1 0xf3 b && cont c ||
   bool_decide (bz b = 0xf4)%Z && between 0x80 0x8f c).

Definition hex_val (b : byte) : option Z :=
  if is_digit b then Some (bz b - 0x30)%Z
  else if between 0x41 0x46 b then Some (bz b - 0x41 + 10)%Z
  else if between 0x61 0x66 b then Some (bz b - 0x61 + 10)%Z
  else None.

Definition hex4 (a b c d : byte) : option Z :=
  w ← hex_val a; x ← hex_val b; y ← hex_val c; z ← hex_val d;
  Some (((w * 16 + x) * 16 + y) * 16 + z)%Z.

Definition is_surrogate (r : Z) : bool := bool_decide (0xd800 ≤ r < 0xe000)%Z.

(** [utf16.DecodeRune] of a high and a low surrogate. *)
Definition surrogate_pair (r r2 : Z) : option Z :=
  if decide (0xd800 ≤ r < 0xdc00 ∧ 0xdc00 ≤ r2 < 0xe000)%Z
  then Some ((r - 0xd800) * 0x400 + (r2 - 0xdc00) + 0x10000)%Z else None.

Definition simple_escape (c : byte) : option byte :=
  if decide (c = DQUOTE ∨ c = Byte.x5c ∨ c = Byte.x2f) then Some c
  else if decide (c = Byte.x62) then Some Byte.x08
  else if decide (c = Byte.x66) then Some Byte.x0c
  else if decide (c = Byte.x6e) then Some LF
  else if decide (c = Byte.x72) then Some CR
  else if decide (c = Byte.x74) then Some TAB
  else None.

(** A string literal behind its opening quote: decoded contents and rest. *)
Definition emit (p : bytes) (r : option (bytes * bytes)) : option (bytes * bytes) :=
  '(s, rest) ← r; Some (p ++ s, rest).

Fixpoint parse_string (s : bytes) : option (bytes * bytes) :=
  match s with
  | [] => None
  | b :: s1 =>
      if decide (b = DQUOTE) then Some ([], s1)
      else if decide (b = Byte.x5c) then
        match s1 with
        | c :: s2 =>
            if decide (c = Byte.x75) then
              match s2 with
              | h1 :: h2 :: h3 :: h4 :: s3 =>
                  match hex4 h1 h2 h3 h4 with
                  | None => None
                  | Some r =>
                      if is_surrogate r then
                        match s3 with
                        | b1 :: b2 :: g1 :: g2 :: g3 :: g4 :: s4 =>
                            match
                              (if decide (b1 = Byte.x5c ∧ b2 = Byte.x75)
                               then hex4 g1 g2 g3 g4 ≫= surrogate_pair r else None)
                            with
                            | Some r' => emit (encode_rune r') (parse_string s4)
                            | None => emit replacement (parse_string s3)
                            end
                        | _ => emit replacement (parse_string s3)
                        end
                      else emit (encode_rune r) (parse_string s3)
                  end
              | _ => None
              end
            else
              match simple_escape c with
              | Some b' => emit [b'] (parse_string s2)
              | None => None
              end
        | [] => None
        end
      else if decide (bz b < 0x20)%Z then None
      else if decide (bz b < 0x80)%Z then emit [b] (parse_string s1)
      else
        match s1 with
        | c :: s2 =>
            if utf8_2 b c then emit [b; c] (parse_string s2) else
            match s2 with
            | d :: s3 =>
                if utf8_3 b c d then emit [b; c; d] (parse_string s3) else
                match s3 with
                | e :: s4 =>
                    if utf8_4 b c d e then emit [b; c; d; e] (parse_string s4)
                    else emit replacement (parse_string s1)
                | [] => emit replacement (parse_string s1)
                end
            | [] => emit replacement (parse_string s1)
            end
        | [] => None
        end
  end.

(** ** Numbers *)

(** The longest run of digits. *)
Fixpoint span_digits (s : bytes) : bytes * bytes :=
  match s with
  | b :: s' => if is_digit b then let '(d, r) := span_digits s' in (b :: d, r) else ([], s)
  | [] => ([], [])
  end.

(** One or more digits. *)
Definition digits1 (s : bytes) : option (bytes * bytes) :=
  match span_digits s with
  | ([], _) => None
  | r => Some r
  end.

Definition parse_int_part (s : bytes) : option (bytes * bytes) :=
  match s with
  | Byte.x30 :: s' => Some ([Byte.x30], s')
  | _ => digits1 s
  end.

Definition parse_frac_part (s : bytes) : option (bytes * bytes) :=
  match s with
  | Byte.x2e :: s' => '(d, r) ← digits1 s'; Some (Byte.x2e :: d, r)
  | _ => Some ([], s)
  end.

Definition parse_exp_part (s : bytes) : option (bytes * bytes) :=
  match s with
  | e :: s' =>
      if decide (e = Byte.x65 ∨ e = Byte.x45) then
        match s' with
        | g :: s'' =>
            if decide (g = Byte.x2b ∨ g = Byte.x2d)
            then '(d, r) ← digits1 s''; Some (e :: g :: d, r)
            else '(d, r) ← digits1 s'; Some (e :: d, r)
        | [] => None
        end
      else Some ([], s)
  | [] => Some ([], s)
  end.

(** A number literal at the front of [s], as text. *)
Definition parse_number (s : bytes) : option (bytes * bytes) :=
  let '(sign, s) := match s with Byte.x2d :: s' => ([Byte.x2d], s') | _ => ([], s) end in
  '(i, s) ← parse_int_part s;
  '(f, s) ← parse_frac_part s;
  '(e, s) ← parse_exp_part s;
  Some (sign ++ i ++ f ++ e, s).

(** ** The parser

    [depth] is the number of open arrays and objects, of which the scanner
    allows ten thousand. *)

Definition max_depth : N := 10000.

Definition LBRACE : byte := Byte.x7b.
Definition RBRACE : byte := Byte.x7d.
Definition LBRACK : byte := Byte.x5b.
Definition RBRACK : byte := Byte.x5d.
Definition COMMA : byte := Byte.x2c.

Fixpoint value (fuel : nat) (depth : N) (s : bytes) : option (json * bytes) :=
  match fuel with
  | 0 => None
  | S fuel =>
      match skip_ws s with
      | [] => None
      | b :: r =>
          if decide (b = LBRACE) then
            if decide (max_depth ≤ depth)%N then None else
            match skip_ws r with
            | c :: r' =>
                if decide (c = RBRACE) then Some (JObj [], r')
                else '(l, r) ← members fuel (depth + 1)%N r; Some (JObj l, r)
            | [] => None
            end
          else if decide (b = LBRACK) then
            if decide (max_depth ≤ depth)%N then None else
            match skip_ws r with
            | c :: r' =>
                if decide (c = RBRACK) then Some (JArr [], r')
                else '(l, r) ← elements fuel (depth + 1)%N r; Some (JArr l, r)
            | [] => None
            end
          else if decide (b = DQUOTE) then '(t, r) ← parse_string r; Some (JStr t, r)
          else if has_prefix (b :: r) (str "true") then Some (JBool true, drop 4 (b :: r))
          else if has_prefix (b :: r) (str "false") then Some (JBool false, drop 5 (b :: r))
          else if has_prefix (b :: r) (str "null") then Some (JNull, drop 4 (b :: r))
          else '(n, r) ← parse_number (b :: r); Some (JNum n, r)
      end
  end
with elements (fuel : nat) (depth : N) (s : bytes) : option (list json * bytes) :=
  match fuel with
  | 0 => None
  | S fuel =>
      '(v, r) ← value fuel depth s;
      match skip_ws r with
      | c :: r' =>
          if decide (c = RBRACK) then Some ([v], r')
          else if decide (c = COMMA)
          then '(l, r) ← elements fuel depth r'; Some (v :: l, r)
          else None
      | [] => None
      end
  end
with members (fuel : nat) (depth : N) (s : bytes) : option (list (bytes * json) * bytes) :=
  match fuel with
  | 0 => None
  | S fuel =>
      match skip_ws s with
      | q :: r =>
          if decide (q = DQUOTE) then
            '(k, r) ← parse_string r;
            match skip_ws r with
            | c :: r =>
                if decide (c = COLON) then
                  '(v, r) ← value fuel depth r;
                  match skip_ws r with
                  | c :: r' =>
                      if decide (c = RBRACE) then Some ([(k, v)], r')
                      else if decide (c = COMMA)
                      then '(l, r) ← members fuel depth r'; Some ((k, v) :: l, r)
                      else None
                  | [] => None
                  end
                else None
            | [] => None
            end
          else None
      | [] => None
      end
  end.

(** Each nested call is preceded by a consumed byte or follows one that
    consumes one, so twice the length is enough fuel. *)
Definition json_fuel (s : bytes) : nat := S (2 * length s).

(** The first value of a stream and what follows it, as [Decoder] reads it. *)
Definition first_value (s : bytes) : option (json * bytes) := value (json_fuel s) 0 s.

(** A whole text, as [json.Unmarshal] and [json.Valid] require it. *)
Definition parse_json (s : bytes) : option json :=
  '(v, r) ← first_value s;
  if decide (skip_ws r = []) then Some v else None.

Definition json_valid (s : bytes) : bool := bool_decide (is_Some (parse_json s)).

Example parse_json_ex :
  parse_json (qstr " [ {'a' : 1.5e3 , 'b':[true,null,'x\u00e9']} , {} ] ") =
  Some (JArr [JObj [(str "a", JNum (str "1.5e3"));
                    (str "b", JArr [JBool true; JNull; JStr (str "x" ++ [Byte.xc3; Byte.xa9])])];
              JObj []]).
Proof. vm_compute. reflexivity. Qed.

Example parse_json_bad :
  parse_json <$> [str "01"; str "[1,]"; qstr "{'a':1,}"; str "[1] x"; []] =
  replicate 5 None.
Proof. vm_compute. reflexivity. Qed.

(** ** [json.Compact]: drop white space outside strings *)

Fixpoint compact_from (in_str esc : bool) (s : bytes) : bytes :=
  match s with
  | [] => []
  | b :: s' =>
      if in_str then
        b :: compact_from (esc || negb (bool_decide (b = DQUOTE)))
                          (negb esc && bool_decide (b = Byte.x5c)) s'
      else if is_ws b then compact_from false false s'
      else b :: compact_from (bool_decide (b = DQUOTE)) false s'
  end.

Definition compact (s : bytes) : bytes := compact_from false false s.

Lemma length_compact_from i e s : length (compact_from i e s) ≤ length s.
Proof.
  revert i e. induction s as [|b s IH]; intros i e; [done|]. cbn [compact_from].
  destruct i; [|destruct (is_ws b)]; cbn [length].
  - pose proof (IH (e || negb (bool_decide (b = DQUOTE)))
                   (negb e && bool_decide (b = Byte.x5c))). lia.
  - pose proof (IH false false). lia.
  - pose proof (IH (bool_decide (b = DQUOTE)) false). lia.
Qed.

Lemma compact_from_esc e s : compact_from false e s = compact_from false false s.
Proof. by destruct s. Qed.

(** Compacting twice is compacting once. *)
Lemma compact_from_idemp i e s :
  compact_from i e (compact_from i e s) = compact_from i e s.
Proof.
  revert i e. induction s as [|b s IH]; intros i e; [done|]. cbn [compact_from].
  destruct i; cbn [compact_from]; [by rewrite IH|].
  destruct (is_ws b) eqn:E; [by rewrite compact_from_esc, IH|]. cbn [compact_from]. by rewrite E, IH.
Qed.

(** ** The fuel is enough *)

Lemma length_skip_ws s : length (skip_ws s) ≤ length s.
Proof. induction s as [|b s IH]; simpl; [lia|]. destruct (is_ws b); simpl; lia. Qed.

(** A result whose rest is shorter than the input. *)
Definition shrinks {A} (s : bytes) (o : option (A * bytes)) : Prop :=
  ∀ a r, o = Some (a, r) → length r < length s.

Lemma emit_shrinks s s' p o :
  shrinks s' o → length s' ≤ length s → shrinks s (emit p o).
Proof.
  intros H Hl a r. unfold emit. destruct o as [[x y]|]; [|done]. cbn.
  intros [= <- <-]. specialize (H _ _ eq_refl). lia.
Qed.

Lemma parse_string_shrinks s : shrinks s (parse_string s).
Proof.
  induction s as [s IH] using list_len_ind.
  assert (∀ p s', length s' < length s → shrinks s (emit p (parse_string s'))) as H.
  { intros p s' Hl. apply (emit_shrinks _ s'); [by apply IH|lia]. }
  destruct s as [|b s]; [done|]. cbn [parse_string].
  case_decide; [intros a r [= <- <-]; simpl; lia|].
  repeat first
    [ done
    | apply H; cbn [length]; lia
    | match goal with |- shrinks _ (match ?x with _ => _ end) => destruct x end ].
Qed.

Lemma span_digits_length s d r : span_digits s = (d, r) → length s = length d + length r.
Proof.
  revert d r. induction s as [|b s IH]; intros d r; simpl; [by intros [= <- <-]|].
  destruct (is_digit b); [|by intros [= <- <-]].
  destruct (span_digits s) as [d' r']. intros [= <- <-]. simpl. by rewrite (IH d' r').
Qed.

Lemma digits1_shrinks s : shrinks s (digits1 s).
Proof.
  intros d r. unfold digits1. destruct (span_digits s) as [[|b d'] r'] eqn:E; [done|].
  intros [= <- <-]. apply span_digits_length in E. simpl in E. lia.
Qed.

Lemma parse_number_shrinks s : shrinks s (parse_number s).
Proof.
  intros n r. unfold parse_number.
  assert (∃ sg s0, match s with Byte.x2d :: s' => ([Byte.x2d], s') | _ => ([], s) end =
                   (sg, s0) ∧ length s0 ≤ length s) as (sg & s0 & -> & H0).
  { destruct s as [|[] s]; eexists _, _; (split; [reflexivity|simpl; lia]). }
  destruct (parse_int_part s0) as [[i s1]|] eqn:E1; [|done]. cbn [mbind option_bind].
  assert (length s1 < length s0) as H1.
  { unfold parse_int_part in E1.
    destruct s0 as [|[] s0]; try (by apply digits1_shrinks in E1). simplify_eq. simpl. lia. }
  destruct (parse_frac_part s1) as [[f s2]|] eqn:E2; [|done]. cbn [mbind option_bind].
  assert (length s2 ≤ length s1) as H2.
  { unfold parse_frac_part in E2. destruct s1 as [|c s1]; [by simplify_eq|].
    destruct (decide (c = Byte.x2e)) as [->|Hc].
    - destruct (digits1 s1) as [[d r']|] eqn:E; [|done]. simplify_eq/=.
      apply digits1_shrinks in E. lia.
    - destruct c; try done; by simplify_eq. }
  destruct (parse_exp_part s2) as [[e s3]|] eqn:E3; [|done]. cbn [mbind option_bind].
  intros [= <- <-].
  assert (length s3 ≤ length s2); [|lia].
  unfold parse_exp_part in E3. destruct s2 as [|c s2]; [by simplify_eq|].
  case_decide; [|by simplify_eq]. destruct s2 as [|g s2]; [done|]. case_decide.
  - destruct (digits1 s2) as [[d r']|] eqn:E; [|done]. simplify_eq/=.
    apply digits1_shrinks in E. lia.
  - destruct (digits1 (g :: s2)) as [[d r']|] eqn:E; [|done]. simplify_eq/=.
    apply digits1_shrinks in E. simpl in *. lia.
Qed.

Lemma has_prefix_drop_shrinks s p : has_prefix s p = true → p ≠ [] → length (drop (length p) s) < length s.
Proof.
  intros [k ->]%has_prefix_spec Hp. rewrite drop_app_length, length_app.
  destruct p; [done|simpl; lia].
Qed.

(** What the three parsers do with one unit of fuel, given their recursive
    calls; the shape shared by the two inductions below. *)
Lemma value_shrinks_aux fuel :
  (∀ d s, shrinks s (value fuel d s)) ∧
  (∀ d s, shrinks s (elements fuel d s)) ∧
  (∀ d s, shrinks s (members fuel d s)).
Proof.
  induction fuel as [|fuel (IHv & IHe & IHm)]; [done|]. split; [|split]; intros d s a r.
  - cbn [value]. pose proof (length_skip_ws s) as Hs.
    destruct (skip_ws s) as [|b t]; [done|]. cbn [length] in Hs. case_decide.
    { case_decide; [done|]. pose proof (length_skip_ws t) as Ht.
      destruct (skip_ws t) as [|c u]; [done|]. cbn [length] in Ht. case_decide; [intros; simplify_eq; lia|].
      destruct (members fuel _ t) as [[l r']|] eqn:E; [|done]. apply IHm in E.
      intros; simplify_eq/=. lia. }
    case_decide.
    { case_decide; [done|]. pose proof (length_skip_ws t) as Ht.
      destruct (skip_ws t) as [|c u]; [done|]. cbn [length] in Ht. case_decide; [intros; simplify_eq; lia|].
      destruct (elements fuel _ t) as [[l r']|] eqn:E; [|done]. apply IHe in E.
      intros; simplify_eq/=. lia. }
    case_decide.
    { destruct (parse_string t) as [[l r']|] eqn:E; [|done]. apply parse_string_shrinks in E.
      intros; simplify_eq/=. lia. }
    assert (∀ p, p ≠ [] → has_prefix (b :: t) p = true →
            length (drop (length p) (b :: t)) < length s) as Hlit.
    { intros p Hp Hb. apply has_prefix_drop_shrinks in Hb; [|done]. cbn [length] in Hb. lia. }
    destruct (has_prefix _ (str "true")) eqn:E1; [intros [= <- <-]; by apply (Hlit (str "true"))|].
    destruct (has_prefix _ (str "false")) eqn:E2; [intros [= <- <-]; by apply (Hlit (str "false"))|].
    destruct (has_prefix _ (str "null")) eqn:E3; [intros [= <- <-]; by apply (Hlit (str "null"))|].
    destruct (parse_number (b :: t)) as [[l r']|] eqn:E; [|done]. apply parse_number_shrinks in E.
    cbn [length] in E. intros; simplify_eq/=. lia.
  - cbn [elements]. destruct (value fuel d s) as [[v t]|] eqn:E; [|done]. apply IHv in E.
    cbn [mbind option_bind]. pose proof (length_skip_ws t) as Ht.
    destruct (skip_ws t) as [|c u]; [done|]. cbn [length] in Ht.
    case_decide; [intros; simplify_eq; lia|]. case_decide; [|done].
    destruct (elements fuel d u) as [[l r']|] eqn:E2; [|done]. apply IHe in E2.
    intros; simplify_eq/=. lia.
  - cbn [members]. pose proof (length_skip_ws s) as Hs.
    destruct (skip_ws s) as [|q t]; [done|]. cbn [length] in Hs. case_decide; [|done].
    destruct (parse_string t) as [[k u]|] eqn:E; [|done]. apply parse_string_shrinks in E.
    cbn [mbind option_bind]. pose proof (length_skip_ws u) as Hu.
    destruct (skip_ws u) as [|c w]; [done|]. cbn [length] in Hu. case_decide; [|done].
    destruct (value fuel d w) as [[v x]|] eqn:E2; [|done]. apply IHv in E2.
    cbn [mbind option_bind]. pose proof (length_skip_ws x) as Hx.
    destruct (skip_ws x) as [|c' y]; [done|]. cbn [length] in Hx.
    case_decide; [intros; simplify_eq; lia|]. case_decide; [|done].
    destruct (members fuel d y) as [[l r']|] eqn:E3; [|done]. apply IHm in E3.
    intros; simplify_eq/=. lia.
Qed.

Lemma value_shrinks fuel d s : shrinks s (value fuel d s).
Proof. apply value_shrinks_aux. Qed.

(** Two amounts of fuel above twice the length give the same result. *)
Lemma value_fuel_aux fuel fuel' s :
  (2 * length s < fuel → 2 * length s < fuel' → ∀ d, value fuel d s = value fuel' d s) ∧
  (S (2 * length s) < fuel → S (2 * length s) < fuel' → ∀ d, elements fuel d s = elements fuel' d s) ∧
  (S (2 * length s) < fuel → S (2 * length s) < fuel' → ∀ d, members fuel d s = members fuel' d s).
Proof.
  revert fuel' s. induction fuel as [|fuel IH]; intros fuel' s; [lia|].
  destruct fuel' as [|fuel']; [lia|]. split; [|split]; intros H H' d.
  - cbn [value]. pose proof (length_skip_ws s) as Hs.
    destruct (skip_ws s) as [|b t]; [done|]. cbn [length] in Hs.
    destruct (IH fuel' t) as (_ & IHe & IHm). rewrite IHe, IHm by lia. done.
  - cbn [elements]. destruct (IH fuel' s) as (IHv & _ & _). rewrite IHv by lia.
    destruct (value fuel' d s) as [[v t]|] eqn:E; [|done]. apply value_shrinks in E.
    cbn [mbind option_bind]. pose proof (length_skip_ws t) as Ht.
    destruct (skip_ws t) as [|c u]; [done|]. cbn [length] in Ht.
    destruct (IH fuel' u) as (_ & IHe & _). rewrite IHe by lia. done.
  - cbn [members]. pose proof (length_skip_ws s) as Hs.
    destruct (skip_ws s) as [|q t]; [done|]. cbn [length] in Hs. case_decide; [|done].
    destruct (parse_string t) as [[k u]|] eqn:E; [|done]. apply parse_string_shrinks in E.
    cbn [mbind option_bind]. pose proof (length_skip_ws u) as Hu.
    destruct (skip_ws u) as [|c w]; [done|]. cbn [length] in Hu.
    destruct (IH fuel' w) as (IHv & _ & _). rewrite IHv by lia. case_decide; [|done].
    destruct (value fuel' d w) as [[v x]|] eqn:E2; [|done]. apply value_shrinks in E2.
    cbn [mbind option_bind]. pose proof (length_skip_ws x) as Hx.
    destruct (skip_ws x) as [|c' y]; [done|]. cbn [length] in Hx.
    destruct (IH fuel' y) as (_ & _ & IHm). rewrite IHm by lia. done.
Qed.

(** More fuel than [json_fuel] never changes the result of the parser. *)
Lemma first_value_fuel s fuel : json_fuel s ≤ fuel → value fuel 0 s = first_value s.
Proof. unfold json_fuel, first_value. intros H. apply value_fuel_aux; unfold json_fuel; lia. Qed.

(** ** Reading back printed strings *)

(** Bytes that a JSON string may hold unescaped: printable ASCII other than
    the quote and the backslash. *)
Definition plain (b : byte) : bool :=
  between 0x20 0x7e b && negb (bool_decide (b = DQUOTE)) && negb (bool_decide (b = Byte.x5c)).

Definition quote (s : bytes) : bytes := [DQUOTE] ++ s ++ [DQUOTE].

Lemma parse_string_plain s r :
  forallb plain s = true → parse_string (s ++ DQUOTE :: r) = Some (s, r).
Proof.
  induction s as [|b s IH]; intros Hp.
  - cbn [app parse_string]. by rewrite decide_True.
  - cbn [forallb] in Hp. apply andb_true_iff in Hp as [Hb Hp].
    unfold plain, between in Hb. rewrite !andb_true_iff, !negb_true_iff, !bool_decide_eq_false,
      bool_decide_eq_true in Hb. destruct Hb as [[Hr Hq] Hs].
    cbn [app parse_string]. rewrite !decide_False by (done || lia).
    rewrite decide_True by lia. by rewrite IH.
Qed.
