(* ===== verification/Routes.v ===== *)
(** * Endpoint routing: [mirror-agent/routes.go]

    The active route table (an atomic pointer, [None] when nil), loading it
    from JSON, and resolving a request path against it. *)

From Stdlib Require Import ZArith Lia.
From S2P Require Import Prelude GoLib Json.

Record Route := mkRoute { Apigee : bytes; EWP : bytes }.

#[export] Instance Route_eq_dec : EqDecision Route.
Proof. solve_decision. Defined.

(** [activeRoutes]: nil means "mirror everything". *)
Abbreviation routes := (option (list Route)).

(** ** Loading *)

(** [encoding/json] matches a key with the tag of a field exactly or up to the
    case of ASCII letters. *)
Definition field_is (name key : bytes) : bool :=
  bool_decide (lower_byte <$> key = name).

(** One object member stored into the struct; [None] is a type error. Null
    leaves a string as it is, unknown keys are ignored. *)
Definition set_member (r : Route) (kv : bytes * json) : option Route :=
  if field_is (str "apigee") kv.1 then
    match kv.2 with
    | JStr s => Some (mkRoute s (EWP r))
    | JNull => Some r
    | _ => None
    end
  else if field_is (str "ewp") kv.1 then
    match kv.2 with
    | JStr s => Some (mkRoute (Apigee r) s)
    | JNull => Some r
    | _ => None
    end
  else Some r.

Fixpoint set_members (r : Route) (l : list (bytes * json)) : option Route :=
  match l with
  | [] => Some r
  | kv :: l' => r' ← set_member r kv; set_members r' l'
  end.

Definition decode_route (v : json) : option Route :=
  match v with
  | JNull => Some (mkRoute [] [])
  | JObj l => set_members (mkRoute [] []) l
  | _ => None
  end.

(** [json.Unmarshal] into a nil [[]Route]: [None] is any error. *)
Definition unmarshal_routes (raw : bytes) : option (list Route) :=
  v ← parse_json raw;
  match v with
  | JNull => Some []
  | JArr l => mapM decode_route l
  | _ => None
  end.

(** [loadRoutes]: the new value of [activeRoutes]. *)
Definition loadRoutes (raw : bytes) (active : routes) : routes :=
  let raw := trim_space raw in
  if decide (raw = []) then None
  else match unmarshal_routes raw with
       | None => active
       | Some rs => Some rs
       end.

(** ** Resolving *)

(** The loop over the rules: the first prefix match decides. *)
Fixpoint resolve_in (rs : list Route) (path : bytes) : bytes * bool :=
  match rs with
  | [] => ([], false)
  | r :: rs' =>
      if has_prefix path (Apigee r)
      then (EWP r ++ drop (length (Apigee r)) path, true)
      else resolve_in rs' path
  end.

Definition resolveRoute (active : routes) (path : bytes) : bytes * bool :=
  match active with
  | None => (path, true)
  | Some rs => resolve_in rs path
  end.

Example resolve_example :
  resolveRoute (loadRoutes (qstr "[{'apigee':'/api/v1/','EWP':'/v2/'}]") None)
    (str "/api/v1/products?x=1") = (str "/v2/products?x=1", true).
Proof. vm_compute. reflexivity. Qed.

(** ** Properties *)

(** C16. First match: with a loaded table, a path is forwarded exactly when some
    rule's prefix starts it, and the first such rule in configuration order
    determines the destination by replacing its prefix. *)
Theorem resolveRoute_first_match rs path p :
  resolveRoute (Some rs) path = (p, true) ↔
  ∃ i r rest, rs !! i = Some r ∧ path = Apigee r ++ rest ∧ p = EWP r ++ rest ∧
    ∀ j r', j < i → rs !! j = Some r' → ¬ Apigee r' `prefix_of` path.
Proof.
  cbn [resolveRoute]. induction rs as [|r rs IH]; cbn [resolve_in].
  - split; [done|]. by intros (i & r & ? & ? & _).
  - destruct (has_prefix path (Apigee r)) eqn:E.
    + apply has_prefix_spec in E as [rest ->]. rewrite drop_app_length. split.
      * intros [= <-]. exists 0, r, rest. repeat split; try done. lia.
      * intros ([|i] & r' & rest' & Hi & Hr & -> & Hj).
        -- by simplify_eq/=.
        -- exfalso. apply (Hj 0 r); [lia|done|]. by exists rest.
    + rewrite IH. assert (¬ Apigee r `prefix_of` path) as Hn
        by (rewrite <- has_prefix_spec, E; done).
      split; intros (i & r' & rest & Hi & Hp & -> & Hj).
      * exists (S i), r', rest. repeat split; try done.
        intros [|j] r2 Hlt Hr2; [by simplify_eq/=|]. apply (Hj j r2); [lia|done].
      * destruct i as [|i]; [simplify_eq/=; destruct Hn; by eexists|].
        exists i, r', rest. repeat split; try done.
        intros j r2 Hlt Hr2. apply (Hj (S j) r2); [lia|done].
Qed.

(** The printed form of a route table. *)
Definition print_route (r : Route) : bytes :=
  [LBRACE] ++ quote (str "apigee") ++ [COLON] ++ quote (Apigee r) ++ [COMMA] ++
  quote (str "ewp") ++ [COLON] ++ quote (EWP r) ++ [RBRACE].
Definition print_routes (rs : list Route) : bytes :=
  [LBRACK] ++ join [COMMA] (print_route <$> rs) ++ [RBRACK].

Definition route_plain (r : Route) : Prop :=
  forallb plain (Apigee r) = true ∧ forallb plain (EWP r) = true.

(** The parser on the pieces of a printed table. *)
Lemma value_string fuel d s r :
  forallb plain s = true →
  value (S fuel) d (quote s ++ r) = Some (JStr s, r).
Proof.
  intros Hs. unfold quote. rewrite <- !(assoc_L (++)). cbn [app value].
  change (skip_ws (DQUOTE :: s ++ DQUOTE :: r)) with (DQUOTE :: s ++ DQUOTE :: r).
  cbv iota. rewrite !decide_False by done. rewrite decide_True by done.
  by rewrite parse_string_plain.
Qed.

Lemma value_object fuel d k t :
  (d < max_depth)%N →
  value (S fuel) d (LBRACE :: quote k ++ t) =
    '(l, r) ← members fuel (d + 1)%N (quote k ++ t); Some (JObj l, r).
Proof.
  intros Hd. unfold quote. rewrite <- !(assoc_L (++)). cbn [app value].
  change (skip_ws (LBRACE :: ?x)) with (LBRACE :: x). cbv iota.
  rewrite decide_True by done. rewrite decide_False by lia.
  change (skip_ws (DQUOTE :: ?x)) with (DQUOTE :: x). cbv iota.
  by rewrite decide_False.
Qed.

Lemma members_string fuel d k s c t :
  forallb plain k = true → forallb plain s = true → is_ws c = false →
  members (S (S fuel)) d (quote k ++ [COLON] ++ quote s ++ c :: t) =
    if decide (c = RBRACE) then Some ([(k, JStr s)], t)
    else if decide (c = COMMA)
    then '(l, r) ← members (S fuel) d t; Some ((k, JStr s) :: l, r)
    else None.
Proof.
  intros Hk Hs Hc. unfold quote at 1. rewrite <- !(assoc_L (++)). cbn [app].
  cbn [members]. change (skip_ws (DQUOTE :: ?x)) with (DQUOTE :: x). cbv iota.
  rewrite decide_True by done. rewrite parse_string_plain by done.
  cbn [mbind option_bind]. change (skip_ws (COLON :: ?x)) with (COLON :: x). cbv iota.
  rewrite decide_True by done. rewrite value_string by done.
  cbn [mbind option_bind skip_ws]. by rewrite Hc.
Qed.

Definition route_json (r : Route) : json :=
  JObj [(str "apigee", JStr (Apigee r)); (str "ewp", JStr (EWP r))].

Lemma value_route fuel d r rest :
  (d < max_depth)%N → route_plain r → 3 ≤ fuel →
  value (S fuel) d (print_route r ++ rest) = Some (route_json r, rest).
Proof.
  intros Hd [Ha He] Hf. destruct fuel as [|[|[|fuel]]]; [lia..|].
  assert (print_route r ++ rest =
    LBRACE :: quote (str "apigee") ++ [COLON] ++ quote (Apigee r) ++ COMMA ::
      (quote (str "ewp") ++ [COLON] ++ quote (EWP r) ++ RBRACE :: rest)) as ->.
  { unfold print_route. by rewrite <- !(assoc_L (++)). }
  rewrite value_object by done.
  rewrite members_string by done. rewrite decide_False, decide_True by done.
  rewrite members_string by done. by rewrite decide_True.
Qed.

Lemma elements_last fuel d s v r :
  value fuel d s = Some (v, RBRACK :: r) → elements (S fuel) d s = Some ([v], r).
Proof. intros E. cbn [elements]. by rewrite E. Qed.

Lemma elements_more fuel d s v r :
  value fuel d s = Some (v, COMMA :: r) →
  elements (S fuel) d s = '(l, r) ← elements fuel d r; Some (v :: l, r).
Proof. intros E. cbn [elements]. by rewrite E. Qed.

Lemma elements_routes r rs fuel d rest :
  (d < max_depth)%N → Forall route_plain (r :: rs) → 4 + length rs ≤ fuel →
  elements (S fuel) d (join [COMMA] (print_route <$> r :: rs) ++ RBRACK :: rest) =
    Some (route_json <$> r :: rs, rest).
Proof.
  intros Hd. revert r fuel. induction rs as [|r2 rs IH]; intros r fuel Hf Hl;
    apply Forall_cons in Hf as [Hr Hf]; (destruct fuel as [|fuel]; [simpl in Hl; lia|]);
    cbn [length] in Hl.
  - cbn [fmap list_fmap join]. apply elements_last. by rewrite value_route by (done || lia).
  - change (join [COMMA] (print_route <$> r :: r2 :: rs)) with
      (print_route r ++ [COMMA] ++ join [COMMA] (print_route <$> r2 :: rs)).
    rewrite <- !(assoc_L (++)).
    erewrite elements_more; [|by apply value_route; [..|lia]].
    by rewrite (IH r2 fuel) by (done || lia).
Qed.

Lemma value_routes fuel rs :
  Forall route_plain rs → 5 + length rs ≤ fuel →
  value fuel 0 (print_routes rs) = Some (JArr (route_json <$> rs), []).
Proof.
  intros Hf Hl. destruct fuel as [|fuel]; [lia|].
  unfold print_routes. cbn [app value].
  change (skip_ws (LBRACK :: ?x)) with (LBRACK :: x). cbv iota.
  rewrite decide_False, decide_True by done. rewrite decide_False by (vm_compute; congruence).
  destruct rs as [|r rs].
  - cbn [fmap list_fmap join app]. change (skip_ws [RBRACK]) with [RBRACK]. cbv iota.
    by rewrite decide_True.
  - set (t := join _ _ ++ [RBRACK]).
    assert (∃ t', t = LBRACE :: t') as [t' Et] by (unfold t; destruct rs; by eexists).
    assert (skip_ws t = t) as -> by (by rewrite Et).
    rewrite Et at 1. cbv iota. rewrite decide_False by done.
    destruct fuel as [|fuel]; [lia|]. cbn [length] in Hl.
    unfold t. rewrite elements_routes; [done|by vm_compute|done|lia].
Qed.

Lemma length_print_routes rs : length rs * 19 ≤ length (print_routes rs).
Proof.
  unfold print_routes. induction rs as [|r rs IH]; [simpl; lia|].
  assert (19 ≤ length (print_route r)) as Hr.
  { unfold print_route, quote. rewrite !length_app.
    change (length (str "apigee")) with 6. change (length (str "ewp")) with 3.
    cbn [length]. lia. }
  destruct rs as [|r2 rs]; [cbn [fmap list_fmap join]; rewrite !length_app; cbn [length]; lia|].
  change (join [COMMA] (print_route <$> r :: r2 :: rs)) with
    (print_route r ++ [COMMA] ++ join [COMMA] (print_route <$> r2 :: rs)).
  rewrite !length_app in *. cbn [length] in *. lia.
Qed.

Lemma decode_route_json r : decode_route (route_json r) = Some r.
Proof. by destruct r. Qed.

Lemma mapM_decode_routes rs : mapM decode_route (route_json <$> rs) = Some rs.
Proof.
  induction rs as [|r rs IH]; [done|]. cbn [fmap list_fmap mapM].
  rewrite decode_route_json. cbn [mbind option_bind]. by rewrite IH.
Qed.

Lemma trim_print_routes rs : trim_space (print_routes rs) = print_routes rs.
Proof.
  unfold print_routes at 2. cbn [app]. unfold print_routes. cbn [app].
  eapply (trim_space_id LBRACK _ RBRACK (LBRACK :: join [COMMA] (print_route <$> rs)));
    [done|by_compute..].
Qed.

(** C27. Loading what is printed: a table whose paths are plain text, printed as
    a JSON array of objects, is loaded back exactly, whatever was active
    before. *)
Theorem loadRoutes_roundtrip rs active :
  Forall route_plain rs → loadRoutes (print_routes rs) active = Some rs.
Proof.
  intros Hf. unfold loadRoutes. rewrite trim_print_routes. cbv zeta.
  rewrite decide_False by done. unfold unmarshal_routes, parse_json, first_value.
  pose proof (length_print_routes rs).
  rewrite value_routes; [|done|].
  - cbn [mbind option_bind]. rewrite decide_True by done. cbn [mbind option_bind].
    by rewrite mapM_decode_routes.
  - unfold json_fuel. destruct rs as [|r rs]; cbn [length] in *; [vm_compute; lia|lia].
Qed.

Definition demo_routes : list Route :=
  [mkRoute (str "/api/v1/products") (str "/p"); mkRoute (str "/api/v1/") (str "/v2/")].

Theorem loadRoutes_roundtrip_witness :
  loadRoutes (print_routes demo_routes) None = Some demo_routes.
Proof.
  apply (loadRoutes_roundtrip demo_routes None). repeat constructor; vm_compute; reflexivity.
Defined.

(** C38. What cannot be loaded changes nothing, and what disables filtering is
    only the blank string: white space alone makes every path be mirrored
    unchanged, text that is not a JSON array of routes keeps the previous
    table, and a JSON [null] or empty array installs an empty table, with
    which no path at all is mirrored. *)
Theorem loadRoutes_cases raw active :
  (trim_space raw = [] → ∀ path, resolveRoute (loadRoutes raw active) path = (path, true)) ∧
  (trim_space raw ≠ [] → unmarshal_routes (trim_space raw) = None →
     loadRoutes raw active = active) ∧
  (trim_space raw ≠ [] →
     parse_json (trim_space raw) = Some JNull ∨ parse_json (trim_space raw) = Some (JArr []) →
     ∀ path, resolveRoute (loadRoutes raw active) path = ([], false)).
Proof.
  unfold loadRoutes. cbv zeta. split; [|split].
  - intros H path. by rewrite decide_True.
  - intros H E. by rewrite decide_False, E.
  - intros H E path. rewrite decide_False by done. unfold unmarshal_routes.
    by destruct E as [-> | ->].
Qed.

Theorem loadRoutes_cases_witness :
  (∀ path, resolveRoute (loadRoutes (str "  ") (Some demo_routes)) path = (path, true)) ∧
  loadRoutes (str "{broken") (Some demo_routes) = Some demo_routes ∧
  (∀ path, resolveRoute (loadRoutes (str " null ") (Some demo_routes)) path = ([], false)).
Proof.
  split; [|split].
  - apply (loadRoutes_cases (str "  ") (Some demo_routes)). vm_compute. reflexivity.
  - apply (loadRoutes_cases (str "{broken") (Some demo_routes));
      [vm_compute; discriminate|vm_compute; reflexivity].
  - apply (loadRoutes_cases (str " null ") (Some demo_routes));
      [vm_compute; discriminate|left; vm_compute; reflexivity].
Defined.

Theorem resolveRoute_first_match_witness :
  resolveRoute (Some demo_routes) (str "/api/v1/orders") = (str "/v2/orders", true).
Proof.
  apply resolveRoute_first_match. exists 1, (mkRoute (str "/api/v1/") (str "/v2/")), (str "orders").
  repeat split; try (vm_compute; reflexivity).
  intros [|j] r' Hj Hr; [|lia]. vm_compute in Hr. injection Hr as <-.
  rewrite <- has_prefix_spec. vm_compute. discriminate.
Defined.
