(* ===== verification/Url.v ===== *)
(** * URLs: [net/url] of Go 1.21, as far as the program reaches it

    Parsing a URL ([url.Parse], called by [http.NewRequest]) and a request
    target ([url.ParseRequestURI], called by the server), escaping, and the
    request target a client sends for a URL. A parse error is [None]; its text
    and the fields [OmitHost] and [RawFragment] are left out. *)

From Stdlib Require Import ZArith Lia.
From S2P Require Import Prelude GoLib Json.

Definition PERCENT : byte := Byte.x25.
Definition AT : byte := Byte.x40.
Definition QUESTION : byte := Byte.x3f.
Definition HASH : byte := Byte.x23.
Definition STAR : byte := Byte.x2a.

(** ** Cutting *)

(** [strings.Cut] at one byte: what precedes its first occurrence, and what
    follows it if there is one. *)
Fixpoint cut (sep : byte) (s : bytes) : bytes * option bytes :=
  match s with
  | [] => ([], None)
  | b :: s' =>
      if decide (b = sep) then ([], Some s')
      else let '(p, r) := cut sep s' in (b :: p, r)
  end.

(** The split at the last occurrence, as [strings.LastIndex] finds it. *)
Definition cut_last (sep : byte) (s : bytes) : option (bytes * bytes) :=
  match cut sep (reverse s) with
  | (after, Some before) => Some (reverse before, reverse after)
  | (_, None) => None
  end.

(** ** Escaping *)

Inductive encoding := EncPath | EncHost | EncZone | EncUserPassword | EncFragment.

Definition one_of (l : bytes) (c : byte) : bool := bool_decide (c ∈ l).

Definition alnum (c : byte) : bool := is_lower c || is_upper c || is_digit c.

Definition host_mode (mode : encoding) : bool :=
  match mode with EncHost | EncZone => true | _ => false end.

Definition shouldEscape (mode : encoding) (c : byte) : bool :=
  if alnum c then false
  else if host_mode mode && one_of (qstr "!$&()*+,;=:[]<>'" ++ [Byte.x27]) c then false
  else if one_of (str "-_.~") c then false
  else if one_of (str "$&+,/:;=?@") c then
    match mode with
    | EncPath => bool_decide (c = QUESTION)
    | EncUserPassword => one_of (str "@/?:") c
    | EncFragment => false
    | EncHost | EncZone => true
    end
  else match mode with
       | EncFragment => negb (one_of (str "!()*") c)
       | _ => true
       end.

(** Which escapes a host or a zone may hold. *)
Definition bad_escape (mode : encoding) (x y : Z) : bool :=
  let pct := bool_decide (x = 2 ∧ y = 5)%Z in
  match mode with
  | EncHost => bool_decide (x < 8)%Z && negb pct
  | EncZone => negb pct && negb (bool_decide (16 * x + y = 0x20)%Z) &&
               shouldEscape EncHost (zb (16 * x + y))
  | _ => false
  end.

Fixpoint unescape (mode : encoding) (s : bytes) : option bytes :=
  match s with
  | [] => Some []
  | c :: r =>
      if decide (c = PERCENT) then
        match r with
        | a :: b :: r' =>
            x ← hex_val a; y ← hex_val b;
            if bad_escape mode x y then None
            else t ← unescape mode r'; Some (zb (16 * x + y) :: t)
        | _ => None
        end
      else if host_mode mode && bool_decide (bz c < 0x80)%Z && shouldEscape mode c then None
      else t ← unescape mode r; Some (c :: t)
  end.

Definition hex_digit (n : Z) : byte :=
  if decide (n < 10)%Z then zb (0x30 + n) else zb (0x41 + (n - 10)).

Definition escape_byte (mode : encoding) (c : byte) : bytes :=
  if shouldEscape mode c then [PERCENT; hex_digit (bz c / 16); hex_digit (bz c mod 16)] else [c].

Definition escape (mode : encoding) (s : bytes) : bytes := s ≫= escape_byte mode.

(** [validEncoded] *)
Definition validEncoded (s : bytes) : bool :=
  forallb (λ c, one_of (str "!$&'()*+,;=:@[]%") c || negb (shouldEscape EncPath c)) s.

(** ** Parsing *)

Record URL := mkURL {
  u_Scheme : bytes;
  u_Opaque : bytes;
  u_User : option (bytes * option bytes);   (* name and, after a colon, password *)
  u_Host : bytes;
  u_Path : bytes;
  u_RawPath : bytes;
  u_ForceQuery : bool;
  u_RawQuery : bytes;
  u_Fragment : bytes
}.

#[export] Instance URL_eq_dec : EqDecision URL.
Proof. solve_decision. Defined.

Definition ctl_byte (c : byte) : bool := bool_decide (bz c < 0x20 ∨ bz c = 0x7f)%Z.

(** [getScheme]: the scheme and the rest; [None] is a missing scheme. *)
Fixpoint scheme_from (first : bool) (s : bytes) : option (option (bytes * bytes)) :=
  match s with
  | [] => Some None
  | c :: s' =>
      if is_lower c || is_upper c ||
         (negb first && (is_digit c || one_of (str "+-.") c)) then
        r ← scheme_from false s'; Some ('(p, t) ← r; Some (c :: p, t))
      else if decide (c = COLON) then if first then None else Some (Some ([], s'))
      else Some None
  end.

Definition getScheme (s : bytes) : option (bytes * bytes) :=
  r ← scheme_from true s; Some (default ([], s) r).

Definition validOptionalPort (p : bytes) : bool :=
  match p with
  | [] => true
  | c :: ds => bool_decide (c = COLON) && forallb is_digit ds
  end.

Definition parseHost (host : bytes) : option bytes :=
  match host with
  | Byte.x5b :: _ =>
      '(inside, port) ← cut_last Byte.x5d host;
      if negb (validOptionalPort port) then None
      else match index inside (str "%25") with
           | Some zone =>
               h1 ← unescape EncHost (take zone host);
               h2 ← unescape EncZone (drop zone inside);
               h3 ← unescape EncHost (drop (length inside) host);
               Some (h1 ++ h2 ++ h3)
           | None => unescape EncHost host
           end
  | _ =>
      match cut_last COLON host with
      | Some (_, port) => if forallb is_digit port then unescape EncHost host else None
      | None => unescape EncHost host
      end
  end.

Definition validUserinfo (s : bytes) : bool :=
  forallb (λ c, alnum c || one_of (str "-._:~!$&'()*+,;=%@") c) s.

Definition parseUser (userinfo : bytes) : option (bytes * option bytes) :=
  match cut COLON userinfo with
  | (name, None) => n ← unescape EncUserPassword name; Some (n, None)
  | (name, Some pw) =>
      n ← unescape EncUserPassword name; p ← unescape EncUserPassword pw; Some (n, Some p)
  end.

Definition parseAuthority (authority : bytes) : option (option (bytes * option bytes) * bytes) :=
  match cut_last AT authority with
  | None => h ← parseHost authority; Some (None, h)
  | Some (userinfo, host) =>
      h ← parseHost host;
      if negb (validUserinfo userinfo) then None
      else u ← parseUser userinfo; Some (Some u, h)
  end.

(** [setPath]: the decoded path, and the text itself when it is not the default
    escaping of the path. *)
Definition setPath (p : bytes) : option (bytes * bytes) :=
  path ← unescape EncPath p;
  Some (path, if decide (p = escape EncPath path) then [] else p).

(** The query: a single question mark at the very end forces an empty one. *)
Definition split_query (rest : bytes) : bytes * bool * bytes :=
  match cut QUESTION rest with
  | (p, None) => (p, false, [])
  | (p, Some []) => (p, true, [])
  | (p, Some q) => (p, false, q)
  end.

(** [parse]; [viaRequest] is set for a request target. *)
Definition parse (viaRequest : bool) (raw : bytes) : option URL :=
  if existsb ctl_byte raw then None
  else if viaRequest && bool_decide (raw = []) then None
  else if decide (raw = [STAR]) then Some (mkURL [] [] None [] [STAR] [] false [] [])
  else
    '(scheme, rest) ← getScheme raw;
    let scheme := to_lower scheme in
    let '(rest, force, query) := split_query rest in
    let rooted := has_prefix rest [SLASH] in
    if negb rooted && bool_decide (scheme ≠ []) then
      Some (mkURL scheme rest None [] [] [] force query [])
    else if negb rooted && viaRequest then None
    else if negb rooted && bool_decide (COLON ∈ (cut SLASH rest).1) then None
    else
      '(user, host, rest) ←
        (if (bool_decide (scheme ≠ []) || negb viaRequest && negb (has_prefix rest (str "///")))
            && has_prefix rest (str "//") then
           let '(authority, tail) := cut SLASH (drop 2 rest) in
           '(u, h) ← parseAuthority authority;
           Some (u, h, match tail with Some t => SLASH :: t | None => [] end)
         else Some (None, [], rest));
      '(path, rawpath) ← setPath rest;
      Some (mkURL scheme [] user host path rawpath force query []).

Definition set_fragment (u : URL) (f : bytes) : URL :=
  mkURL (u_Scheme u) (u_Opaque u) (u_User u) (u_Host u) (u_Path u) (u_RawPath u)
        (u_ForceQuery u) (u_RawQuery u) f.

(** [url.Parse] and [url.ParseRequestURI] *)
Definition Parse (raw : bytes) : option URL :=
  let '(u, frag) := cut HASH raw in
  url ← parse false u;
  match frag with
  | None | Some [] => Some url
  | Some f => f ← unescape EncFragment f; Some (set_fragment url f)
  end.

Definition ParseRequestURI (raw : bytes) : option URL := parse true raw.

(** ** What a client sends *)

Definition EscapedPath (u : URL) : bytes :=
  if negb (bool_decide (u_RawPath u = [])) && validEncoded (u_RawPath u) &&
     bool_decide (unescape EncPath (u_RawPath u) = Some (u_Path u)) then u_RawPath u
  else if decide (u_Path u = [STAR]) then [STAR]
  else escape EncPath (u_Path u).

Definition RequestURI (u : URL) : bytes :=
  let result :=
    if decide (u_Opaque u = []) then
      let p := EscapedPath u in if decide (p = []) then [SLASH] else p
    else if has_prefix (u_Opaque u) (str "//") then u_Scheme u ++ [COLON] ++ u_Opaque u
    else u_Opaque u in
  if u_ForceQuery u || negb (bool_decide (u_RawQuery u = [])) then
    result ++ [QUESTION] ++ u_RawQuery u
  else result.

Example Parse_ex :
  Parse (str "http://user:pw@ewp-sim:9091/a%20b/c?x=1#top") =
  Some (mkURL (str "http") [] (Some (str "user", Some (str "pw"))) (str "ewp-sim:9091")
          (str "/a b/c") [] false (str "x=1") (str "top")).
Proof. vm_compute. reflexivity. Qed.

Example Parse_errors :
  Parse <$> [str "http://h:9x/"; str "://h"; str "http://h/%zz"; str "a:b"; str "1a:b";
             str "http://[::1/"; str "http://[fe80::1%25en0]:80/"] =
  [None; None; None; Some (mkURL (str "a") (str "b") None [] [] [] false [] []); None; None;
   Some (mkURL (str "http") [] None (str "[fe80::1%en0]:80") [SLASH] [] false [] [])].
Proof. vm_compute. reflexivity. Qed.

Example RequestURI_ex :
  RequestURI <$> omap Parse [str "http://h"; str "http://h/a%2fb?q"; str "http://h/a b?"] =
  [str "/"; str "/a%2fb?q"; str "/a%20b?"].
Proof. vm_compute. reflexivity. Qed.

(** ** Cutting a concatenation *)

Lemma cut_app sep a t :
  sep ∉ a → cut sep (a ++ t) = (a ++ (cut sep t).1, (cut sep t).2).
Proof.
  induction a as [|b a IH]; intros Ha; cbn [app cut]; [by destruct (cut sep t)|].
  apply not_elem_of_cons in Ha as [Hb Ha]. rewrite decide_False, IH by done. done.
Qed.

Lemma cut_miss sep a : sep ∉ a → cut sep a = (a, None).
Proof. intros Ha. rewrite <- (app_nil_r a) at 1. rewrite cut_app by done. cbn. by rewrite app_nil_r. Qed.

Lemma cut_hit sep a t : sep ∉ a → cut sep (a ++ sep :: t) = (a, Some t).
Proof.
  intros Ha. rewrite cut_app by done. cbn [cut]. rewrite decide_True by done. cbn.
  by rewrite app_nil_r.
Qed.

Lemma cut_fst_incl sep s b : b ∈ (cut sep s).1 → b ∈ s.
Proof.
  induction s as [|c s IH]; cbn [cut]; [done|]. case_decide; cbn [fst]; [by intros ?%not_elem_of_nil|].
  destruct (cut sep s) as [p r]. cbn [fst] in *. rewrite !elem_of_cons. intuition.
Qed.

Lemma cut_fst_notin sep s : sep ∉ (cut sep s).1.
Proof.
  induction s as [|c s IH]; cbn [cut]; [by intros ?%not_elem_of_nil|].
  case_decide; cbn [fst]; [by intros ?%not_elem_of_nil|].
  destruct (cut sep s) as [p r]. cbn [fst] in *. by apply not_elem_of_cons.
Qed.

Lemma cut_last_miss sep a : sep ∉ a → cut_last sep a = None.
Proof. intros Ha. unfold cut_last. rewrite cut_miss; [done|]. by rewrite elem_of_reverse. Qed.

Lemma cut_last_hit sep a b : sep ∉ b → cut_last sep (a ++ sep :: b) = Some (a, b).
Proof.
  intros Hb. unfold cut_last. rewrite reverse_app, reverse_cons, <- (assoc_L (++)).
  cbn [app]. rewrite cut_hit by by rewrite elem_of_reverse. by rewrite !reverse_involutive.
Qed.

(** ** Escaping is undone by unescaping *)

Lemma escape_byte_ok c :
  shouldEscape EncPath c = true →
  hex_val (hex_digit (bz c / 16)) = Some (bz c / 16)%Z ∧
  hex_val (hex_digit (bz c mod 16)) = Some (bz c mod 16)%Z ∧
  zb (16 * (bz c / 16) + bz c mod 16) = c.
Proof.
  intros _. split_and!; [by destruct c..|].
  rewrite <- Z.div_mod by done. apply zb_bz.
Qed.

Lemma unescape_plain s : PERCENT ∉ s → unescape EncPath s = Some s.
Proof.
  induction s as [|c s IH]; intros Hp; [done|]. apply not_elem_of_cons in Hp as [Hc Hp].
  cbn [unescape host_mode andb]. rewrite decide_False, IH by done. done.
Qed.

Lemma escape_cons mode c p : escape mode (c :: p) = escape_byte mode c ++ escape mode p.
Proof. done. Qed.

Lemma unescape_escape p : unescape EncPath (escape EncPath p) = Some p.
Proof.
  induction p as [|c p IH]; [done|]. rewrite escape_cons. unfold escape_byte.
  destruct (shouldEscape EncPath c) eqn:E.
  - destruct (escape_byte_ok c E) as (H1 & H2 & H3). cbn [app unescape].
    rewrite decide_True by done. rewrite H1, H2. cbn [mbind option_bind bad_escape].
    by rewrite IH, H3.
  - cbn [app unescape host_mode andb]. rewrite decide_False; [by rewrite IH|].
    intros ->. vm_compute in E. discriminate.
Qed.

(** Bytes that neither end a path nor are control bytes. *)
Definition uri_byte (c : byte) : bool := negb (ctl_byte c) && negb (bool_decide (c = QUESTION)).

Lemma escape_uri p : forallb uri_byte (escape EncPath p) = true.
Proof.
  induction p as [|c p IH]; [done|]. rewrite escape_cons.
  rewrite forallb_app, IH, andb_true_r. by destruct c.
Qed.

Lemma validEncoded_uri s : validEncoded s = true → forallb uri_byte s = true.
Proof.
  unfold validEncoded. rewrite !forallb_forall. intros H c Hc. specialize (H c Hc).
  revert H. by destruct c.
Qed.

Lemma escape_rooted p : escape EncPath (SLASH :: p) = SLASH :: escape EncPath p.
Proof. done. Qed.

(** ** The request target of a parsed URL *)

Definition rooted (s : bytes) : Prop := s = [] ∨ ∃ t, s = SLASH :: t.

(** What parsing guarantees of a hierarchical URL. *)
Definition url_wf (u : URL) : Prop :=
  u_Opaque u = [] ∧ rooted (u_Path u) ∧ rooted (u_RawPath u) ∧
  existsb ctl_byte (u_RawQuery u) = false ∧ (u_ForceQuery u = true → u_RawQuery u = []).

Lemma EscapedPath_spec u :
  url_wf u →
  forallb uri_byte (EscapedPath u) = true ∧
  unescape EncPath (EscapedPath u) = Some (u_Path u) ∧ rooted (EscapedPath u).
Proof.
  intros (_ & Hp & Hr & _). unfold EscapedPath.
  destruct (negb _ && _ && _) eqn:E.
  - rewrite !andb_true_iff, bool_decide_eq_true in E. destruct E as [[_ Hv] Hu].
    split; [by apply validEncoded_uri|done].
  - rewrite decide_False.
    2:{ intros Hs. rewrite Hs in Hp. destruct Hp as [Hp|[t Hp]]; vm_compute in Hp; discriminate. }
    split; [apply escape_uri|]. split; [apply unescape_escape|].
    destruct Hp as [->|[t ->]]; [by left|]. right. by eexists.
Qed.

Lemma uri_bytes_clean s :
  forallb uri_byte s = true → existsb ctl_byte s = false ∧ QUESTION ∉ s.
Proof.
  rewrite forallb_forall. intros H. split.
  - apply not_true_iff_false. rewrite existsb_exists. intros (c & Hc & Hctl).
    specialize (H c Hc). unfold uri_byte in H. by rewrite Hctl in H.
  - intros Hin%list_elem_of_In. specialize (H _ Hin). vm_compute in H. discriminate.
Qed.

(** A rooted target is parsed into its path and query. *)
Lemma parse_target p q force path :
  existsb ctl_byte p = false → QUESTION ∉ p → p ≠ [] → rooted p →
  unescape EncPath p = Some path → existsb ctl_byte q = false → (force = true → q = []) →
  ∃ raw, ParseRequestURI (if force || negb (bool_decide (q = [])) then p ++ QUESTION :: q else p) =
    Some (mkURL [] [] None [] path raw force q []).
Proof.
  intros Hctl Hq Hne Hr Hu Hcq Hf. destruct Hr as [->|[t ->]]; [done|].
  set (raw := if force || negb (bool_decide (q = [])) then (SLASH :: t) ++ QUESTION :: q
              else SLASH :: t).
  assert (existsb ctl_byte raw = false) as Hraw.
  { unfold raw. destruct (force || _); [|done]. by rewrite existsb_app, Hctl. }
  assert (∃ t', raw = SLASH :: t') as [t' Et'].
  { unfold raw. destruct (force || _); by eexists. }
  assert (split_query raw = (SLASH :: t, force, q)) as Hs.
  { unfold raw, split_query. destruct force; cbn [orb].
    - rewrite Hf, cut_hit by done. done.
    - case_bool_decide as Hq0; cbn [negb].
      + by rewrite Hq0, cut_miss by done.
      + rewrite cut_hit by done. by destruct q. }
  clearbody raw. unfold ParseRequestURI, parse. rewrite Hraw.
  rewrite bool_decide_eq_false_2 by by rewrite Et'. cbn [andb].
  rewrite decide_False by by rewrite Et'.
  assert (getScheme raw = Some ([], raw)) as -> by by rewrite Et'.
  cbn [mbind option_bind]. change (to_lower []) with ([] : bytes).
  rewrite Hs. assert (has_prefix (SLASH :: t) [SLASH] = true) as -> by (by destruct t).
  rewrite bool_decide_eq_false_2 by (intros Hn; by apply Hn).
  cbn [negb andb orb mbind option_bind]. unfold setPath.
  rewrite Hu. cbn [mbind option_bind]. by eexists.
Qed.

(** Escaping makes a path at most three times as long. *)
Lemma length_escape mode s : length (escape mode s) ≤ 3 * length s.
Proof.
  induction s as [|c s IH]; [done|]. change (escape mode (c :: s)) with (escape_byte mode c ++ escape mode s).
  rewrite length_app. unfold escape_byte at 1. destruct (shouldEscape _ _); cbn [length]; lia.
Qed.

Lemma length_RequestURI u :
  u_Opaque u = [] → u_ForceQuery u = false → u_RawQuery u = [] → u_Path u ≠ [] →
  length (u_RawPath u) ≤ length (u_Path u) →
  length (RequestURI u) ≤ 3 * length (u_Path u).
Proof.
  intros Ho Hf Hq Hp Hr. unfold RequestURI. rewrite decide_True, Hf, Hq by done.
  rewrite bool_decide_eq_true_2 by done. cbn [orb negb]. cbv zeta.
  assert (1 ≤ length (u_Path u)) by (destruct (u_Path u); [done|cbn; lia]).
  assert (length (EscapedPath u) ≤ 3 * length (u_Path u)); [|by case_decide; [cbn; lia|]].
  unfold EscapedPath. pose proof (length_escape EncPath (u_Path u)).
  destruct (_ && _); [lia|]. case_decide; cbn; lia.
Qed.

(** The server reads back the path and the query of the URL the client parsed;
    an empty path becomes a slash. *)
Lemma RequestURI_parse u :
  url_wf u →
  ∃ raw, ParseRequestURI (RequestURI u) =
    Some (mkURL [] [] None [] (if decide (u_Path u = []) then [SLASH] else u_Path u) raw
            (u_ForceQuery u) (u_RawQuery u) []).
Proof.
  intros Hwf. pose proof (EscapedPath_spec u Hwf) as (Hb & Hu & Hr).
  destruct Hwf as (Ho & Hp & _ & Hcq & Hf). unfold RequestURI. rewrite decide_True by done.
  cbv zeta. destruct (decide (EscapedPath u = [])) as [He|He].
  - rewrite He in Hu. cbn in Hu. injection Hu as <-. rewrite decide_True by done.
    apply parse_target; try done; [by vm_compute; rewrite ?elem_of_cons; intros H; set_solver|].
    by right; eexists.
  - destruct (uri_bytes_clean _ Hb) as [Hctl Hq].
    rewrite decide_False; [by apply parse_target|].
    intros Hp0. destruct Hr as [|[t Et]]; [done|]. rewrite Et, Hp0 in Hu. cbn in Hu.
    rewrite decide_False in Hu by done. cbn in Hu. by destruct (unescape EncPath t).
Qed.

(** ** Parsing a URL with an authority *)

Lemma cut_spec sep s :
  match cut sep s with (p, Some q) => s = p ++ sep :: q | (p, None) => s = p end.
Proof.
  induction s as [|c s IH]; cbn [cut]; [done|]. case_decide; [by subst|].
  destruct (cut sep s) as [p [q|]]; by rewrite IH.
Qed.

Definition letter (c : byte) : bool := is_lower c || is_upper c.
Definition scheme_ok (s : bytes) : bool :=
  match s with
  | c :: r => letter c && forallb (λ c, letter c || is_digit c || one_of (str "+-.") c) r
  | [] => false
  end.

Lemma scheme_from_rest r t :
  forallb (λ c, letter c || is_digit c || one_of (str "+-.") c) r = true →
  scheme_from false (r ++ COLON :: t) = Some (Some (r, t)).
Proof.
  induction r as [|c r IH]; [done|]. cbn [forallb app scheme_from negb andb].
  rewrite andb_true_iff. intros [Hc Hr]. unfold letter in Hc.
  rewrite orb_assoc, Hc. by rewrite IH.
Qed.

Lemma getScheme_ok s t : scheme_ok s = true → getScheme (s ++ COLON :: t) = Some (s, t).
Proof.
  destruct s as [|c r]; [done|]. cbn [scheme_ok]. rewrite andb_true_iff. intros [Hc Hr].
  unfold getScheme. cbn [app scheme_from negb andb]. unfold letter in Hc. rewrite orb_false_r, Hc.
  by rewrite scheme_from_rest.
Qed.

Lemma scheme_bytes s c : scheme_ok s = true → c ∈ s → c ≠ HASH ∧ c ≠ QUESTION ∧ c ≠ STAR.
Proof.
  destruct s as [|b r]; [done|]. cbn [scheme_ok]. rewrite andb_true_iff, forallb_forall.
  intros [Hb Hr] [->|Hin]%elem_of_cons; [by destruct b|].
  rewrite list_elem_of_In in Hin. specialize (Hr c Hin). by destruct c.
Qed.

Lemma scheme_no_ctl s : scheme_ok s = true → existsb ctl_byte s = false.
Proof.
  destruct s as [|b r]; [done|]. cbn [scheme_ok existsb]. rewrite andb_true_iff.
  intros [Hb Hr]. assert (ctl_byte b = false) as -> by by destruct b.
  cbn [orb]. clear Hb. induction r as [|c r IH]; [done|].
  cbn [forallb existsb] in *. rewrite andb_true_iff in Hr. destruct Hr as [Hc Hr].
  assert (ctl_byte c = false) as -> by by destruct c.
  by apply IH.
Qed.

Lemma to_lower_nonempty s : s ≠ [] → to_lower s ≠ [].
Proof. destruct s as [|c s]; [done|]. intros _. cbn [to_lower]. by repeat case_match. Qed.

Lemma unescape_rooted p path : rooted p → unescape EncPath p = Some path → rooted path.
Proof.
  intros [->|[t ->]].
  - intros [= <-]. by left.
  - cbn [unescape host_mode andb]. rewrite decide_False by done.
    destruct (unescape EncPath t) as [t'|]; [|done]. intros [= <-]. right. by eexists.
Qed.

(** The path of a reference: up to the query and the fragment. *)
Definition path_part (s : bytes) : bytes := (cut QUESTION (cut HASH s).1).1.

Lemma split_query_fst s : (split_query s).1.1 = (cut QUESTION s).1.
Proof. unfold split_query. by destruct (cut QUESTION s) as [p [[|]|]]. Qed.

Lemma split_query_clean s :
  existsb ctl_byte s = false →
  existsb ctl_byte (split_query s).2 = false ∧
  ((split_query s).1.2 = true → (split_query s).2 = []).
Proof.
  intros Hs. unfold split_query. pose proof (cut_spec QUESTION s) as Hc.
  destruct (cut QUESTION s) as [p [[|c q]|]]; cbn [fst snd]; try done. split; [|done].
  rewrite Hc, existsb_app, orb_false_iff in Hs. apply Hs.
Qed.

Section authority.
Context (scheme auth : bytes) (Hscheme : scheme_ok scheme = true).
Context (Hslash : SLASH ∉ auth) (Hquestion : QUESTION ∉ auth) (Hhash : HASH ∉ auth).

Lemma parse_authority p :
  let raw := scheme ++ str "://" ++ auth ++ SLASH :: p in
  let '(_, force, query) := split_query (str "//" ++ auth ++ SLASH :: p) in
  parse false raw =
    if existsb ctl_byte raw then None
    else
      '(user, host) ← parseAuthority auth;
      '(path, rawpath) ← setPath (cut QUESTION (SLASH :: p)).1;
      Some (mkURL (to_lower scheme) [] user host path rawpath force query []).
Proof.
  cbv zeta. set (raw := scheme ++ str "://" ++ auth ++ SLASH :: p).
  assert (raw ≠ [STAR]) as Hstar.
  { unfold raw. destruct scheme as [|c s]; [done|]. cbn [app]. intros [= -> _].
    destruct (scheme_bytes _ STAR Hscheme) as (_ & _ & H); [by left|done]. }
  set (rest := str "//" ++ auth ++ SLASH :: p).
  assert (getScheme raw = Some (scheme, rest)) as Hg by (by apply getScheme_ok).
  unfold parse. rewrite Hg. cbn [mbind option_bind].
  pose proof (split_query_fst rest) as Hfst.
  assert ((cut QUESTION rest).1 = str "//" ++ auth ++ (cut QUESTION (SLASH :: p)).1) as Ecut.
  { assert (QUESTION ∉ str "//") as Hss by by_compute. unfold rest. by rewrite !cut_app by done. }
  destruct (split_query rest) as [[pre force] query]. cbn [fst snd] in *.
  rewrite Ecut in Hfst. subst pre. destruct (existsb ctl_byte raw); [done|]. cbn [andb].
  rewrite decide_False by done. cbn [cut]. rewrite decide_False by done.
  destruct (cut QUESTION p) as [p1 q1]. cbn [fst].
  assert (to_lower scheme ≠ []) as Hls by (apply to_lower_nonempty; by intros ->).
  change (has_prefix (str "//" ++ auth ++ SLASH :: p1) [SLASH]) with true.
  rewrite bool_decide_eq_true_2 by done. cbn [negb andb orb].
  change (has_prefix (str "//" ++ auth ++ SLASH :: p1) (str "//")) with true. cbn [andb].
  change (drop 2 (str "//" ++ auth ++ SLASH :: p1)) with (auth ++ SLASH :: p1).
  rewrite cut_hit by done.
  by destruct (parseAuthority auth) as [[user host]|].
Qed.

Lemma setPath_wf p path rawpath u :
  rooted p → setPath p = Some (path, rawpath) →
  u_Opaque u = [] → u_Path u = path → u_RawPath u = rawpath →
  existsb ctl_byte (u_RawQuery u) = false → (u_ForceQuery u = true → u_RawQuery u = []) →
  url_wf u.
Proof.
  intros Hp Hs Ho <- <- Hq Hf. unfold setPath in Hs.
  destruct (unescape EncPath p) as [path|] eqn:E; [|done]. cbn [mbind option_bind] in Hs.
  injection Hs as E1 E2. split_and!; try done.
  - rewrite <- E1. eapply unescape_rooted, E. done.
  - rewrite <- E2. case_decide; [by left|done].
Qed.

Lemma cut_hash_authority t :
  cut HASH (scheme ++ str "://" ++ auth ++ SLASH :: t) =
    (scheme ++ str "://" ++ auth ++ SLASH :: (cut HASH t).1, (cut HASH t).2).
Proof.
  assert (HASH ∉ scheme) as Hs by (intros Hin; by destruct (scheme_bytes _ _ Hscheme Hin)).
  assert (HASH ∉ str "://") as Hsep by by_compute.
  rewrite !cut_app by done. cbn [cut]. rewrite decide_False by done.
  by destruct (cut HASH t).
Qed.

Lemma Parse_authority t u :
  Parse (scheme ++ str "://" ++ auth ++ SLASH :: t) = Some u →
  ∃ user host, parseAuthority auth = Some (user, host) ∧
    u_Scheme u = to_lower scheme ∧ u_Host u = host ∧ url_wf u ∧
    unescape EncPath (path_part (SLASH :: t)) = Some (u_Path u).
Proof.
  unfold Parse, path_part. rewrite cut_hash_authority. cbn [cut]. rewrite decide_False by done.
  destruct (cut HASH t) as [t1 frag]. cbn [fst snd].
  set (rest := str "//" ++ auth ++ SLASH :: t1).
  pose proof (parse_authority t1) as Hp. cbv zeta in Hp. fold rest in Hp.
  pose proof (split_query_clean rest) as Hq.
  destruct (split_query rest) as [[pre force] query]. cbn [fst snd] in *. rewrite Hp. clear Hp.
  destruct (existsb ctl_byte (scheme ++ str "://" ++ auth ++ SLASH :: t1)) eqn:Hctl;
    cbn [mbind option_bind]; [done|].
  destruct (parseAuthority auth) as [[user host]|]; cbn [mbind option_bind]; [|done].
  destruct (setPath _) as [[path rawpath]|] eqn:Es; [|done]. cbn [mbind option_bind].
  set (v := mkURL _ _ _ _ _ _ _ _ _). intros Hu. exists user, host.
  rewrite !existsb_app, !orb_false_iff in Hctl. destruct Hctl as (_ & Hctl).
  destruct Hq as [Hq Hf].
  { unfold rest. rewrite !existsb_app, !orb_false_iff. split; [done|]. apply Hctl. }
  assert (url_wf v) as Hwf.
  { eapply setPath_wf; [|exact Es|done..]. right.
    cbn [cut]. rewrite decide_False by done. destruct (cut QUESTION t1). by eexists. }
  unfold setPath in Es. destruct (unescape EncPath _) as [path'|]; [|done].
  cbn [mbind option_bind] in Es. injection Es as -> _.
  destruct frag as [[|c f]|]; [by simplify_eq| |by simplify_eq].
  destruct (unescape EncFragment _); [|done]. cbn in Hu. by simplify_eq.
Qed.

(** A path without escapes, query and fragment always parses, to itself. *)
Lemma Parse_plain user host t :
  parseAuthority auth = Some (user, host) → existsb ctl_byte (scheme ++ auth ++ t) = false →
  PERCENT ∉ t → QUESTION ∉ t → HASH ∉ t →
  ∃ rawpath, (rawpath = [] ∨ rawpath = SLASH :: t) ∧
    Parse (scheme ++ str "://" ++ auth ++ SLASH :: t) =
    Some (mkURL (to_lower scheme) [] user host (SLASH :: t) rawpath false [] []).
Proof.
  intros Ha Hctl Hp Hq Hh. unfold Parse. rewrite cut_hash_authority, cut_miss by done.
  cbn [fst snd]. pose proof (parse_authority t) as E. cbv zeta in E.
  assert (split_query (str "//" ++ auth ++ SLASH :: t) = (str "//" ++ auth ++ SLASH :: t, false, []))
    as Hs.
  { unfold split_query. rewrite cut_miss; [done|]. rewrite !elem_of_app.
    intros [H|[H|[H|H]%elem_of_cons]]; [by revert H; by_compute|done|done|done]. }
  rewrite Hs in E. rewrite E, Ha. rewrite !existsb_app, !orb_false_iff in Hctl.
  destruct Hctl as (H1 & H2 & H3). rewrite !existsb_app, H1, H2.
  change (existsb ctl_byte (SLASH :: t)) with (existsb ctl_byte t). rewrite H3.
  cbn [orb existsb mbind option_bind cut]. rewrite decide_False by done. rewrite cut_miss by done.
  unfold setPath. cbn [fst]. rewrite unescape_plain by (apply not_elem_of_cons; done).
  cbn [mbind option_bind]. eexists. split; [|done]. case_decide; [by left|by right].
Qed.
End authority.
