(* ===== verification/Mirror.v ===== *)
(** * Replaying requests to EWP: [mirror-agent/mirror.go]

    Building the shadow request, sending it, classifying the answer and
    counting it. The network is an argument: what comes back of a request, when,
    and whether at all. The checks and the timeout of [http.Client] are
    modelled. *)

From Stdlib Require Import ZArith Lia.
From S2P Require Import Prelude GoLib Stats HttpParse Json Routes Url.

(** ** Data *)

Inductive mirror_error :=
  | NewRequestErr
  | DoErr.

#[export] Instance mirror_error_eq_dec : EqDecision mirror_error.
Proof. solve_decision. Defined.

Record MirrorResult := mkResult {
  r_Method : bytes;
  r_Path : bytes;
  r_StatusCode : Z;
  r_Body : bytes;
  r_Latency : Z;
  r_Error : option mirror_error
}.

(** The request handed to [http.Client.Do]. *)
Record HttpRequest := mkHttp {
  rq_Method : bytes;
  rq_URL : URL;
  rq_Header : Header;
  rq_Body : option bytes
}.

#[export] Instance HttpRequest_eq_dec : EqDecision HttpRequest.
Proof. solve_decision. Defined.

(** The mirror, with the timeout of its client; zero means none. *)
Record HTTPMirror := mkMirror { m_ewpBase : bytes; m_Timeout : Z }.

(** [NewHTTPMirror]: the base URL without trailing slashes, ten seconds. *)
Definition NewHTTPMirror (ewpBase : bytes) : HTTPMirror :=
  mkMirror (trim_right_byte Byte.x2f ewpBase) (10 * second).

(** ** Headers *)

Definition hop_by_hop : list bytes :=
  [str "connection"; str "keep-alive"; str "proxy-authenticate"; str "proxy-authorization";
   str "te"; str "trailers"; str "transfer-encoding"; str "upgrade"].

Definition isHopByHop (name : bytes) : bool := bool_decide (to_lower name ∈ hop_by_hop).

(** The two nested loops over the captured headers, ranged over in [order]. *)
Definition copy_header (h : Header) (kv : bytes * list bytes) : Header :=
  if isHopByHop kv.1 then h else foldl (λ h v, header_add h kv.1 v) h kv.2.

Definition copy_headers (order : list (bytes * list bytes)) : Header :=
  foldl copy_header ∅ order.

Definition X_Mirror_Source : bytes := str "X-Mirror-Source".
Definition X_Original_Client : bytes := str "X-Original-Client".

Definition mark_headers (captured : CapturedRequest) (h : Header) : Header :=
  header_set (header_set h X_Mirror_Source (str "ebpf-mirror-agent"))
             X_Original_Client (SrcIP captured).

(** ** Sending *)

(** [removeEmptyPort]: a colon at the end of the host goes. *)
Definition removeEmptyPort (h : bytes) : bytes :=
  if decide (last h = Some COLON) then removelast h else h.

Definition set_host (u : URL) (h : bytes) : URL :=
  mkURL (u_Scheme u) (u_Opaque u) (u_User u) h (u_Path u) (u_RawPath u) (u_ForceQuery u)
        (u_RawQuery u) (u_Fragment u).

(** [http.NewRequest]: an empty method means GET, any other must be a token,
    and the URL must parse. *)
Definition NewRequest (method url : bytes) (body : option bytes) : option HttpRequest :=
  let method := if decide (method = []) then str "GET" else method in
  if forallb valid_header_byte method then
    u ← Parse url;
    Some (mkHttp method (set_host u (removeEmptyPort (u_Host u))) ∅ body)
  else None.

(** The request [doSend] builds. *)
Definition build_request (order : list (bytes * list bytes)) (ewpBase : bytes)
    (captured : CapturedRequest) (ewpPath : bytes) : option HttpRequest :=
  let url := ewpBase ++ ewpPath in
  let bodyReader := if decide (0 < length (Body captured))
                    then Some (Body captured) else None in
  rq ← NewRequest (Method captured) url bodyReader;
  Some (mkHttp (rq_Method rq) (rq_URL rq)
               (mark_headers captured (copy_headers order)) (rq_Body rq)).

(** *** [http.Client.Do]

    The transport refuses a request whose header has a name that is not a token
    or a value with control bytes, one without a host, and other schemes. *)
Definition value_byte (b : byte) : bool := negb (ctl_byte b) || bool_decide (b = TAB).
Definition field_valid (k v : bytes) : Prop :=
  k ≠ [] ∧ forallb valid_header_byte k = true ∧ forallb value_byte v = true.
Definition header_valid (h : Header) : Prop := map_Forall (λ k vs, Forall (field_valid k) vs) h.
Definition sendable (rq : HttpRequest) : Prop :=
  header_valid (rq_Header rq) ∧ u_Host (rq_URL rq) ≠ [] ∧
  u_Scheme (rq_URL rq) ∈ [str "http"; str "https"].

#[export] Instance field_valid_dec k v : Decision (field_valid k v).
Proof. unfold field_valid. apply _. Defined.
#[export] Instance header_valid_dec h : Decision (header_valid h).
Proof. unfold header_valid. apply _. Defined.
#[export] Instance sendable_dec rq : Decision (sendable rq).
Proof. unfold sendable. apply _. Defined.

(** What the network does: fail, or deliver the head of a response (the last
    one, where the client follows redirects); the bytes of its body that are
    read, [body_limit] at most, are there after [reading] more, or never
    ([None]); [part] is what came of them until the client gave up. *)
Inductive response :=
  | Failed
  | Head (status : Z) (body : bytes) (reading : option N) (part : bytes).

(** After how long, if ever. *)
Abbreviation network := (HttpRequest → option (N * response)).

Definition body_limit : nat := 64 * 1024.

Section send.
Context (order : list (bytes * list bytes)) (net : network) (m : HTTPMirror).

(** The client's timer ends the exchange, the reading of the body included. *)
Definition expired (d : N) : bool :=
  bool_decide (m_Timeout m ≠ 0 ∧ m_Timeout m ≤ Z.of_N d)%Z.

(** [client.Do] and [io.ReadAll]: when they are done, if ever, and what they
    return: an error, or the status and the bytes read. *)
Definition at_timeout (r : option (Z * bytes)) : option (Z * option (Z * bytes)) :=
  if decide (m_Timeout m = 0)%Z then None else Some (m_Timeout m, r).

Definition exchange (rq : HttpRequest) : option (Z * option (Z * bytes)) :=
  if decide (sendable rq) then
    match net rq with
    | None => at_timeout None
    | Some (d, r) =>
        if expired d then at_timeout None
        else
          match r with
          | Failed => Some (Z.of_N d, None)
          | Head status body reading part =>
              match reading with
              | None => at_timeout (Some (status, take body_limit part))
              | Some d' =>
                  if expired (d + d') then at_timeout (Some (status, take body_limit part))
                  else Some (Z.of_N (d + d'), Some (status, take body_limit body))
              end
          end
    end
  else Some (0%Z, None).

(** [doSend]: when it returns, if ever, and what. *)
Definition doSend (captured : CapturedRequest) (ewpPath : bytes) : option (Z * MirrorResult) :=
  match build_request order (m_ewpBase m) captured ewpPath with
  | None => Some (0%Z, mkResult (Method captured) ewpPath 0 [] 0 (Some NewRequestErr))
  | Some rq =>
      '(elapsed, r) ← exchange rq;
      Some (elapsed,
            match r with
            | None => mkResult (Method captured) ewpPath 0 [] elapsed (Some DoErr)
            | Some (status, body) => mkResult (Method captured) ewpPath status body elapsed None
            end)
  end.

(** [logResult], as far as the counters go. *)
Definition logResult (r : MirrorResult) (st : agentStats) : agentStats :=
  match r_Error r with
  | Some _ => add mirrorsError 1 st
  | None =>
      let c := r_StatusCode r in
      if decide (200 ≤ c ∧ c < 300)%Z then add mirrors2xx 1 st
      else if decide (400 ≤ c ∧ c < 500)%Z then add mirrors4xx 1 st
      else if decide (500 ≤ c)%Z then add mirrors5xx 1 st
      else st
  end.

(** [Send]: the counters when it returns, if it does. *)
Definition Send (active : routes) (captured : CapturedRequest) (st : agentStats)
    : option agentStats :=
  let '(ewpPath, forward) := resolveRoute active (Path captured) in
  if negb forward then Some (add mirrorsSkipped 1 st)
  else
    let st := add mirrorsSent 1 st in
    '(_, result) ← doSend captured ewpPath;
    Some (logResult result st).

(** The request it puts on the wire, if any. *)
Definition wire_request (active : routes) (captured : CapturedRequest) : option HttpRequest :=
  let '(ewpPath, forward) := resolveRoute active (Path captured) in
  if negb forward then None
  else
    rq ← build_request order (m_ewpBase m) captured ewpPath;
    if decide (sendable rq) then Some rq else None.
End send.

(** With a timeout [doSend] always returns, and in time. *)
Lemma doSend_in_time order net m captured ewpPath :
  (0 < m_Timeout m)%Z →
  ∃ d r, doSend order net m captured ewpPath = Some (d, r) ∧ (0 ≤ d ≤ m_Timeout m)%Z.
Proof.
  intros HT. unfold doSend. destruct (build_request _ _ _ _) as [rq|];
    [|by eexists _, _; split; [done|lia]].
  assert (∃ d r, exchange net m rq = Some (d, r) ∧ (0 ≤ d ≤ m_Timeout m)%Z) as (d & r & -> & Hd).
  { assert (∀ r, ∃ d r', at_timeout m r = Some (d, r') ∧ (0 ≤ d ≤ m_Timeout m)%Z) as Ht.
    { intros r. unfold at_timeout. rewrite decide_False by lia. eexists _, _. split; [done|lia]. }
    unfold exchange, expired. case_decide; [|by eexists _, _; split; [done|lia]].
    destruct (net rq) as [[d [|st b [d'|] p]]|]; [..|apply Ht];
      repeat case_bool_decide; try apply Ht; eexists _, _; (split; [done|lia]). }
  cbn [mbind option_bind]. by eexists _, _.
Qed.

(** ** Log snippets *)

Definition ellipsis : bytes := [Byte.xe2; Byte.x80; Byte.xa6].

Definition bodySnippet (b : bytes) : bytes :=
  if decide (length b = 0) then str "(empty)"
  else
    let s := if json_valid b then compact b else b in
    if decide (256 < length s) then take 256 s ++ ellipsis else s.

(** ** Facts about headers *)

(** What the parser guarantees of a header map: canonical names, no empty
    value list. *)
Definition headers_ok (h : Header) : Prop :=
  ∀ k vs, h !! k = Some vs → canonical_key k = k ∧ vs ≠ [].

Lemma header_add_ok h k v : headers_ok h → headers_ok (header_add h k v).
Proof.
  intros H k' vs. unfold header_add. cbv zeta.
  destruct (decide (canonical_key k = k')) as [<-|Hne].
  - rewrite lookup_insert_eq. intros [= <-]. split; [apply canonical_key_idemp|].
    by destruct (default [] _).
  - rewrite lookup_insert_ne by done. apply H.
Qed.

Lemma parse_head_headers_ok s m p h : parse_head s = inr (m, p, h) → headers_ok h.
Proof.
  unfold parse_head. destruct (split s CRLF) as [|l0 rest]; [done|].
  destruct (splitN l0 [SP] 3) as [|x [|y l]]; [done..|]. intros [= _ _ <-].
  assert (headers_ok ∅) as H by (intros k vs; by rewrite lookup_empty).
  revert H. generalize (∅ : Header). induction rest as [|l1 rest IH]; intros h0 H0; [done|].
  cbn [foldl]. apply IH. unfold add_header_line. destruct (index l1 [COLON]); [|done].
  by apply header_add_ok.
Qed.

Lemma foldl_header_add h k vs :
  canonical_key k = k → vs ≠ [] →
  foldl (λ h v, header_add h k v) h vs = <[k := default [] (h !! k) ++ vs]> h.
Proof.
  intros Hk. revert h. induction vs as [|v vs IH]; intros h Hne; [done|].
  cbn [foldl]. unfold header_add at 2. rewrite Hk. cbv zeta.
  destruct vs as [|v' vs]; [done|]. rewrite IH by done.
  rewrite lookup_insert_eq, insert_insert_eq. simpl. by rewrite <- (assoc_L (++)).
Qed.

Definition forwarded (k : bytes) (vs : list bytes) : option (list bytes) :=
  if isHopByHop k then None else Some vs.

Lemma copy_headers_from order h k :
  NoDup order.*1 →
  (∀ k vs, (k, vs) ∈ order → canonical_key k = k ∧ vs ≠ [] ∧ h !! k = None) →
  foldl copy_header h order !! k =
    match (list_to_map order : Header) !! k ≫= forwarded k with
    | Some vs => Some vs
    | None => h !! k
    end.
Proof.
  revert h. induction order as [|[k' vs'] order IH]; intros h Hnd Hin; [done|].
  cbn [fmap list_fmap fst] in Hnd. apply NoDup_cons in Hnd as [Hk' Hnd].
  destruct (Hin k' vs' ltac:(left)) as (Hc & Hne & Hnone).
  cbn [foldl list_to_map foldr]. unfold copy_header at 2. cbn [fst snd].
  assert (∀ vs, (k', vs) ∉ order) as Hno.
  { intros vs Hv. apply Hk', list_elem_of_fmap. by exists (k', vs). }
  assert (∀ k vs, (k, vs) ∈ order → canonical_key k = k ∧ vs ≠ [] ∧ h !! k = None) as Hin'.
  { intros k2 vs2 H2. apply Hin. by right. }
  assert ((list_to_map order : Header) !! k' = None) as Hl.
  { apply not_elem_of_list_to_map_1. done. }
  destruct (isHopByHop k') eqn:Eh.
  - rewrite IH by done. destruct (decide (k = k')) as [->|Hk].
    + unfold uncurry; simpl. rewrite Hl, lookup_insert_eq. cbn. unfold forwarded. by rewrite Eh.
    + simpl. by rewrite lookup_insert_ne.
  - rewrite foldl_header_add, Hnone by done. cbn [from_option app].
    rewrite IH; [|done|].
    + destruct (decide (k = k')) as [->|Hk].
      * simpl. rewrite Hl, !lookup_insert_eq. cbn. unfold forwarded. by rewrite Eh.
      * simpl. by rewrite !lookup_insert_ne by done.
    + intros k2 vs2 H2. destruct (Hin' k2 vs2 H2) as (? & ? & ?). repeat split; try done.
      rewrite lookup_insert_ne; [done|]. intros ->. by eapply Hno.
Qed.

Lemma mark_headers_lookup captured h k :
  mark_headers captured h !! k =
    if decide (k = X_Original_Client) then Some [SrcIP captured]
    else if decide (k = X_Mirror_Source) then Some [str "ebpf-mirror-agent"]
    else h !! k.
Proof.
  unfold mark_headers, header_set.
  change (canonical_key X_Original_Client) with X_Original_Client.
  change (canonical_key X_Mirror_Source) with X_Mirror_Source.
  rewrite !lookup_insert. repeat case_decide; subst; congruence || done.
Qed.

(** The hop-by-hop names as they occur in a header map. *)
Definition hop_by_hop_names : list bytes :=
  [str "Connection"; str "Keep-Alive"; str "Proxy-Authenticate"; str "Proxy-Authorization";
   str "Te"; str "Trailers"; str "Transfer-Encoding"; str "Upgrade"].

Lemma lower_byte_valid b :
  valid_header_byte b = true →
  to_lower [b] = [lower_byte b] ∧ b ≠ Byte.xe2 ∧ b ≠ Byte.xc4.
Proof. intros H. split_and!; [by destruct b|by intros ->|by intros ->]. Qed.

Lemma to_lower_token k :
  forallb valid_header_byte k = true → to_lower k = lower_byte <$> k.
Proof.
  induction k as [|b k IH]; [done|]. cbn [forallb]. rewrite andb_true_iff. intros [Hb Hk].
  apply lower_byte_valid in Hb as (_ & H1 & H2). cbn [fmap list_fmap]. rewrite <- IH by done.
  by destruct b.
Qed.

Lemma canon_case_lower u k : canon_case u (lower_byte <$> k) = canon_case u k.
Proof.
  revert u. induction k as [|b k IH]; intros u; [done|]. cbn [fmap list_fmap canon_case].
  assert (upper_byte (lower_byte b) = upper_byte b ∧ lower_byte (lower_byte b) = lower_byte b)
    as [-> ->] by (destruct b; by split).
  by rewrite IH.
Qed.

Lemma isHopByHop_canonical k :
  forallb valid_header_byte k = true → canonical_key k = k →
  isHopByHop k = bool_decide (k ∈ hop_by_hop_names).
Proof.
  intros Hv Hc. apply bool_decide_ext. split.
  - intros Hin. unfold canonical_key in Hc. rewrite Hv in Hc.
    rewrite to_lower_token in Hin by done. rewrite <- Hc, <- canon_case_lower.
    clear Hc. revert Hin. generalize (lower_byte <$> k) as l. intros l Hl.
    unfold hop_by_hop in Hl. rewrite !elem_of_cons, elem_of_nil in Hl.
    destruct_or! Hl; subst; by_compute || done.
  - clear. intros Hk. unfold hop_by_hop_names in Hk. rewrite !elem_of_cons, elem_of_nil in Hk.
    destruct_or! Hk; subst; by_compute || done.
Qed.

(** C17. The headers of the shadow request: whatever the order in which Go
    ranges over the captured map, they are the captured headers without the
    eight hop-by-hop ones, with the mirror mark and the client's address set - so a
    client can neither forge nor suppress the mark. *)
Theorem shadow_headers order ewpBase captured ewpPath rq k :
  order ≡ₚ map_to_list (Headers captured) →
  headers_ok (Headers captured) →
  forallb valid_header_byte k = true →
  build_request order ewpBase captured ewpPath = Some rq →
  rq_Header rq !! k =
    if decide (k = X_Original_Client) then Some [SrcIP captured]
    else if decide (k = X_Mirror_Source) then Some [str "ebpf-mirror-agent"]
    else if decide (k ∈ hop_by_hop_names) then None else Headers captured !! k.
Proof.
  intros Hp Hok Hv. unfold build_request.
  destruct (NewRequest _ _ _) as [r|]; [|done]. intros [= <-]. cbn [rq_Header].
  rewrite mark_headers_lookup. do 2 (case_decide; [done|]).
  unfold copy_headers. rewrite copy_headers_from.
  - rewrite <- (list_to_map_proper (map_to_list (Headers captured)) order);
      [|apply NoDup_fst_map_to_list|done].
    rewrite list_to_map_to_list, lookup_empty. unfold forwarded.
    destruct (Headers captured !! k) as [vs|] eqn:Ek; cbn; [|by case_decide].
    apply Hok in Ek as [Hc _]. rewrite isHopByHop_canonical, <- decide_bool_decide by done.
    by case_decide.
  - rewrite Hp. apply NoDup_fst_map_to_list.
  - intros k' vs'. rewrite Hp, elem_of_map_to_list. intros Hk. split; [|split].
    + by eapply Hok.
    + by eapply Hok.
    + apply lookup_empty.
Qed.

(** A client that forges the mark and sends hop-by-hop headers. *)
Definition demo_captured : CapturedRequest :=
  mkRequest (str "GET") (str "/b")
    (headers_of [(str "Host", str "apigee"); (str "x-mirror-source", str "forged");
                 (str "Connection", str "close"); (str "Accept", str "a"); (str "accept", str "b")])
    [] (str "172.28.0.3").

Lemma demo_captured_ok : headers_ok (Headers demo_captured).
Proof.
  unfold demo_captured, headers_of. cbn [Headers foldl fst snd].
  repeat apply header_add_ok. intros k vs. by rewrite lookup_empty.
Qed.

Definition demo_order : list (bytes * list bytes) := map_to_list (Headers demo_captured).
Definition demo_base : bytes := str "http://ewp-sim:9091".

Theorem shadow_headers_witness :
  match build_request demo_order demo_base demo_captured (str "/b") with
  | Some rq => rq_Header rq !! str "Accept" = Headers demo_captured !! str "Accept" ∧
               rq_Header rq !! str "Connection" = None
  | None => False
  end.
Proof.
  assert (is_Some (build_request demo_order demo_base demo_captured (str "/b")))
    as [rq E] by by_compute.
  rewrite E. split.
  - pose proof (shadow_headers demo_order demo_base demo_captured (str "/b") rq
                  (str "Accept") (Permutation_refl _) demo_captured_ok eq_refl E) as H.
    rewrite !decide_False in H by by_compute. exact H.
  - pose proof (shadow_headers demo_order demo_base demo_captured (str "/b") rq
                  (str "Connection") (Permutation_refl _) demo_captured_ok eq_refl E) as H.
    do 2 rewrite decide_False in H by by_compute. rewrite decide_True in H by by_compute.
    exact H.
Defined.

(** ** Where the shadow request goes *)

Lemma trim_right_byte_app b s n :
  b ∉ s → trim_right_byte b (s ++ replicate n b) = s.
Proof.
  intros Hs. induction s as [|c s IH]; cbn [app].
  - induction n as [|n IH]; [done|]. cbn [replicate trim_right_byte]. rewrite IH.
    by rewrite decide_True.
  - apply not_elem_of_cons in Hs as [Hc Hs]. cbn [trim_right_byte]. rewrite IH by done.
    destruct s; [by rewrite decide_False|done].
Qed.

Lemma trim_right_byte_keep b a s n :
  s ≠ [] → b ∉ s → trim_right_byte b (a ++ s ++ replicate n b) = a ++ s.
Proof.
  intros Hne Hs. induction a as [|c a IH]; cbn [app]; [by apply trim_right_byte_app|].
  cbn [trim_right_byte]. rewrite IH. destruct a; [by destruct s|done].
Qed.

Lemma build_request_URL order base captured path rq :
  build_request order base captured path = Some rq →
  ∃ u, Parse (base ++ path) = Some u ∧
    rq_URL rq = set_host u (removeEmptyPort (u_Host u)) ∧
    rq_Method rq = (if decide (Method captured = []) then str "GET" else Method captured) ∧
    rq_Body rq = (if decide (0 < length (Body captured)) then Some (Body captured) else None).
Proof.
  unfold build_request, NewRequest. cbv zeta. destruct (forallb _ _); [|done].
  destruct (Parse _) as [u|]; [|done]. cbn [mbind option_bind]. intros [= <-]. by exists u.
Qed.

Lemma removeEmptyPort_id h : last h ≠ Some COLON → removeEmptyPort h = h.
Proof. intros Hl. unfold removeEmptyPort. by rewrite decide_False. Qed.

(** A host and optional port that mean themselves: no byte that ends an
    authority or its user information, no escapes, no empty port. *)
Definition host_ok (h : bytes) : Prop :=
  (h ≠ []) ∧ (SLASH ∉ h) ∧ (QUESTION ∉ h) ∧ (HASH ∉ h) ∧ (AT ∉ h) ∧ parseHost h = Some h ∧
  last h ≠ Some COLON ∧ existsb ctl_byte h = false.

#[export] Instance host_ok_dec h : Decision (host_ok h).
Proof. unfold host_ok. apply _. Defined.

Section target.
Context (scheme host : bytes) (slashes : nat).
Context (Hscheme : scheme_ok scheme = true) (Hhost : host_ok host).

(** The base URL as configured, with any number of trailing slashes. *)
Definition base_url : bytes := scheme ++ str "://" ++ host ++ replicate slashes SLASH.

Lemma NewHTTPMirror_base : m_ewpBase (NewHTTPMirror base_url) = scheme ++ str "://" ++ host.
Proof.
  destruct Hhost as (Hne & Hs & _). unfold NewHTTPMirror, base_url. cbn [m_ewpBase]. change Byte.x2f with SLASH.
  rewrite !(assoc_L (++)), <- (assoc_L (++) (scheme ++ _)). by rewrite trim_right_byte_keep.
Qed.

Lemma parseAuthority_host : parseAuthority host = Some (None, host).
Proof.
  destruct Hhost as (_ & _ & _ & _ & Hat & Hp & _). unfold parseAuthority.
  by rewrite cut_last_miss, Hp.
Qed.

Lemma base_append t : m_ewpBase (NewHTTPMirror base_url) ++ t = scheme ++ str "://" ++ host ++ t.
Proof. by rewrite NewHTTPMirror_base, <- !(assoc_L (++)). Qed.

(** For a rooted path without escapes, query and fragment the request is
    always built, for exactly that path. *)
Lemma build_request_plain order captured t :
  forallb valid_header_byte (Method captured) = true →
  existsb ctl_byte (scheme ++ t) = false → PERCENT ∉ t → QUESTION ∉ t → HASH ∉ t →
  ∃ rq, build_request order (m_ewpBase (NewHTTPMirror base_url)) captured (SLASH :: t) = Some rq ∧
    u_Scheme (rq_URL rq) = to_lower scheme ∧
    u_Host (rq_URL rq) = host ∧ u_Path (rq_URL rq) = SLASH :: t ∧
    u_RawQuery (rq_URL rq) = [] ∧ url_wf (rq_URL rq) ∧
    length (RequestURI (rq_URL rq)) ≤ 3 * S (length t).
Proof.
  intros Hm Hctl Hp Hq Hh. pose proof Hhost as (_ & Hs & Hhq & Hhh & _ & _ & Hl & Hc).
  destruct (Parse_plain scheme host Hscheme Hs Hhq Hhh None host t parseAuthority_host)
    as (rawpath & Hraw & E); try done.
  { rewrite existsb_app, orb_false_iff in Hctl. destruct Hctl as [H1 H2].
    by rewrite !existsb_app, H1, H2, Hc. }
  pose proof (Parse_authority scheme host Hscheme Hs Hhq Hhh t _ E)
    as (? & ? & _ & _ & _ & Hwf & _).
  unfold build_request, NewRequest. cbv zeta. rewrite base_append, E.
  assert (forallb valid_header_byte
    (if decide (Method captured = []) then str "GET" else Method captured) = true) as ->
    by by case_decide.
  cbn [mbind option_bind]. eexists. split; [reflexivity|].
  cbn [rq_URL set_host u_Host u_Path u_RawQuery]. rewrite removeEmptyPort_id by done.
  split_and!; try done. apply length_RequestURI; try done. by destruct Hraw as [->| ->]; cbn; lia.
Qed.

(** C18. The shadow request goes to the configured host: for a path that starts
    with a slash, the URL of the shadow request has exactly the scheme and the
    host of the configured base URL, however many slashes that ends with, and
    no user information; its decoded path is that of the captured one. *)
Theorem shadow_host order captured rest rq :
  build_request order (m_ewpBase (NewHTTPMirror base_url)) captured (SLASH :: rest) = Some rq →
  u_Host (rq_URL rq) = host ∧ u_Scheme (rq_URL rq) = to_lower scheme ∧
  unescape EncPath (path_part (SLASH :: rest)) = Some (u_Path (rq_URL rq)).
Proof.
  pose proof Hhost as (_ & Hs & Hq & Hh & _ & _ & Hl & _).
  intros (u & Hu & -> & _)%build_request_URL. rewrite base_append in Hu.
  apply (Parse_authority scheme host) in Hu as (user & h & Ha & H1 & H2 & _ & H3); try done.
  rewrite parseAuthority_host in Ha. simplify_eq.
  cbn [set_host u_Host u_Scheme u_Path]. by rewrite removeEmptyPort_id.
Qed.

(** C39. The client can choose the host: for a request target that starts with
    an at-sign, the URL of the shadow request has the host written behind it,
    and the configured host is not part of it. *)
Theorem shadow_host_escape order captured evil rest rq :
  host_ok evil →
  build_request order (m_ewpBase (NewHTTPMirror base_url)) captured (AT :: evil ++ SLASH :: rest) = Some rq →
  u_Host (rq_URL rq) = evil ∧ u_Scheme (rq_URL rq) = to_lower scheme.
Proof.
  pose proof Hhost as (_ & Hs & Hq & Hh & _ & _ & Hl & _).
  intros (_ & Es & Eq & Eh & Eat & Ep & El & _) (u & Hu & -> & _)%build_request_URL.
  rewrite base_append in Hu.
  assert (host ++ AT :: evil ++ SLASH :: rest = (host ++ AT :: evil) ++ SLASH :: rest) as E
    by by rewrite <- (assoc_L (++)).
  rewrite E in Hu.
  apply (Parse_authority scheme (host ++ AT :: evil)) in Hu
    as (user & h & Ha & H1 & H2 & _); [|done|..].
  2-4: rewrite elem_of_app, elem_of_cons; intros [?|[?|?]]; done.
  unfold parseAuthority in Ha. rewrite cut_last_hit in Ha by done. rewrite Ep in Ha.
  cbn [mbind option_bind] in Ha. destruct (negb (validUserinfo host)); [done|].
  destruct (parseUser host); [|done]. cbn [mbind option_bind] in Ha. simplify_eq.
  cbn [set_host u_Host u_Scheme]. by rewrite removeEmptyPort_id.
Qed.
End target.

Theorem shadow_host_witness :
  match build_request demo_order (m_ewpBase (NewHTTPMirror (base_url (str "http") (str "ewp-sim:9091") 2)))
          demo_captured (SLASH :: str "a%20b?x") with
  | Some rq => u_Host (rq_URL rq) = str "ewp-sim:9091" ∧ u_Scheme (rq_URL rq) = str "http" ∧
               u_Path (rq_URL rq) = str "/a b"
  | None => False
  end.
Proof.
  assert (is_Some (build_request demo_order
            (m_ewpBase (NewHTTPMirror (base_url (str "http") (str "ewp-sim:9091") 2)))
            demo_captured (SLASH :: str "a%20b?x"))) as [rq E] by by_compute.
  rewrite E.
  destruct (shadow_host (str "http") (str "ewp-sim:9091") 2 ltac:(by_compute) ltac:(by_compute)
              demo_order demo_captured (str "a%20b?x") rq E) as (H1 & H2 & H3).
  split; [exact H1|]. split; [exact H2|].
  apply (inj Some). rewrite <- H3. vm_compute. reflexivity.
Defined.

Theorem shadow_host_escape_witness :
  match build_request demo_order (m_ewpBase (NewHTTPMirror (base_url (str "http") (str "ewp-sim:9091") 0)))
          demo_captured (AT :: str "evil.example:81" ++ SLASH :: str "b") with
  | Some rq => u_Host (rq_URL rq) = str "evil.example:81" ∧ u_Scheme (rq_URL rq) = str "http"
  | None => False
  end.
Proof.
  assert (is_Some (build_request demo_order
            (m_ewpBase (NewHTTPMirror (base_url (str "http") (str "ewp-sim:9091") 0)))
            demo_captured (AT :: str "evil.example:81" ++ SLASH :: str "b"))) as [rq E]
    by by_compute.
  rewrite E.
  exact (shadow_host_escape (str "http") (str "ewp-sim:9091") 0 ltac:(by_compute)
           ltac:(by_compute) demo_order demo_captured (str "evil.example:81") (str "b") rq
           ltac:(by_compute) E).
Defined.

(** ** Counting *)

(** How an answer is counted, if at all. *)
Definition outcome_counter (r : MirrorResult) : option counter :=
  match r_Error r with
  | Some _ => Some mirrorsError
  | None =>
      let c := r_StatusCode r in
      if decide (200 ≤ c < 300)%Z then Some mirrors2xx
      else if decide (400 ≤ c < 500)%Z then Some mirrors4xx
      else if decide (500 ≤ c)%Z then Some mirrors5xx
      else None
  end.

Lemma logResult_counter r st :
  logResult r st = match outcome_counter r with Some c => add c 1 st | None => st end.
Proof.
  unfold logResult, outcome_counter. destruct (r_Error r); [done|]. cbv zeta.
  repeat case_decide; done || lia.
Qed.

(** Log snippets are bounded: whatever the body, what is logged of it is
    at most 259 bytes, and never empty for a body that is not JSON. *)
Theorem bodySnippet_bound b :
  length (bodySnippet b) ≤ 259 ∧ (json_valid b = false → bodySnippet b ≠ []).
Proof.
  unfold bodySnippet. case_decide as Hb; [split; [vm_compute; lia|done]|]. cbv zeta.
  set (s := if json_valid b then compact b else b).
  case_decide as Hs.
  - split; [rewrite length_app, length_take; cbn [length ellipsis]; lia|].
    intros _ E. apply (f_equal length) in E. rewrite length_app in E. simpl in E. lia.
  - split; [lia|]. unfold s. intros ->. by intros ->.
Qed.

Theorem bodySnippet_bound_witness :
  length (bodySnippet (replicate 300 Byte.x41)) ≤ 259 ∧ bodySnippet (replicate 300 Byte.x41) ≠ [].
Proof.
  destruct (bodySnippet_bound (replicate 300 Byte.x41)) as [H1 H2].
  split; [exact H1|]. apply H2. vm_compute. reflexivity.
Defined.
