(* ===== verification/Agent.v ===== *)
(** * The agent: [mirror-agent/main.go]

    Start-up, shutdown, and the running agent as a transition system: the read
    loop feeds the tracker in the steps of its critical sections and spawns one
    goroutine per request, goroutines resolve their route, send, wait and count
    independently, and the reaper runs in between. The client's timeout bounds
    how long they wait. *)

From Stdlib Require Import ZArith Lia.
From S2P Require Import Prelude GoLib Stats HttpParse Kernel Loader Tracker Interleaving.
From S2P Require Import Json Routes Mirror.

(** ** Start-up and shutdown *)

(** The command-line flags. *)
Record flags := mkFlags {
  f_iface : bytes; f_port : Z; f_ewp : bytes; f_routes : bytes
}.

(** The defaults; [routes] is the environment variable [MIRROR_ROUTES]. *)
Definition default_flags (routes : bytes) : flags :=
  mkFlags (str "eth0") 9090 (str "http://ewp-sim:9091") routes.

(** Before anything runs: the routes are loaded into the nil table and the
    loader is set up with the port truncated to sixteen bits; an error ends
    the process. *)
Definition startup (f : flags) (env : load_env) : list call * (load_error + (routes * HTTPMirror)) :=
  let active := loadRoutes (f_routes f) None in
  let '(calls, r) := NewLoader env (f_iface f) (u16 (f_port f)) in
  (calls, match r with
          | inl e => inl e
          | inr _ => inr (active, NewHTTPMirror (f_ewp f))
          end).

(** After a signal: two log lines, then the deferred [Close], which first logs
    what it finds in the [counters] map of the hook. *)
Definition shutdown (st : agentStats) (kernel : option (option Z * option Z))
    : list bytes * list call :=
  ([str "shutting down"; printStats st] ++ PrintStats kernel, Close).

(** C35. Start-up is all or nothing, and shutdown undoes it: when the loader
    fails the process ends with no hook attached and nothing open; otherwise
    the hook is attached and filters on the port of the flags (which is the
    port given, exactly when it is a port), the mirror's base URL does not end
    in a slash and its client gives up after ten seconds, and shutting down
    closes everything and removes the hook unless the kernel refuses to, in which
    case it goes on filtering. Either way a queueing discipline that was added
    stays on the interface. *)
Theorem startup_ready f env st kernel :
  let calls := (startup f env).1 in
  let h := do_calls env (untouched_host env) calls in
  match (startup f env).2 with
  | inl _ => h = cleaned_up env calls
  | inr (_, m) =>
      h = in_place env (u16 (f_port f)) ∧
      (u16 (f_port f) = f_port f ↔ (0 ≤ f_port f < 2^16)%Z) ∧
      last (m_ewpBase m) ≠ Some Byte.x2f ∧ m_Timeout m = (10 * second)%Z ∧
      do_calls env h (shutdown st kernel).2 = closed env (u16 (f_port f))
  end.
Proof.
  cbv zeta. unfold startup. pose proof (NewLoader_held env (f_iface f) (u16 (f_port f))) as H.
  cbv zeta in H. unfold loader_of in H. destruct (NewLoader _ _ _) as [calls [e|idx]];
    cbn [fst snd] in *; [done|]. destruct H as [H Hc]. split; [done|].
  split; [unfold u16; rewrite Z.mod_small_iff; lia|].
  split; [intros Hl; by apply trim_right_byte_last in Hl|]. by split.
Qed.

(** ** The running agent *)

(** A request on its way to EWP: when it was sent, and how long [doSend] will
    take and what it will return, or that it never will. *)
Record flight := mkFlight {
  fl_req : CapturedRequest; fl_sent : Z; fl_fate : option (Z * MirrorResult)
}.

(** [trk] is the tracker, which holds the counters all goroutines share;
    [spawned] are the goroutines that have not resolved their route yet,
    [in_flight] those waiting for EWP; [stopped] is set by a signal. [events]
    and [uncounted] are history: events taken from the reader, and answers no
    counter counts. *)
Record agent := mkAgent {
  trk : tracker;
  a_routes : routes;
  spawned : list CapturedRequest;
  in_flight : list flight;
  stopped : bool;
  events : Z;
  uncounted : Z
}.

Definition a_stats (a : agent) : agentStats := counters (trk a).

(** An atomic update of the counters. *)
Definition with_counters (f : agentStats → agentStats) (t : tracker) : tracker :=
  mkTracker (table t) (f (counters t)) (clock t) (pc t).

(** A panic in any goroutine ends the process, and so does a signal. *)
Definition running (a : agent) : Prop := ¬ is_crashed (pc (trk a)) ∧ stopped a = false.

Section agent.
(** A bound on the time a snapshot may take to parse, if any, and the mirror. *)
Context (max_parse : option Z) (m : HTTPMirror).

(** The steps of the sending goroutines. A route is resolved, and its counter
    bumped, in one step, since the table does not change. What the network will
    do with a request is chosen when it is sent; nothing is assumed of it. *)
Inductive send_step : agent → agent → Prop :=
  | send_skip t rt sp1 req sp2 fl b n u p :
      (* Send: no rule matches *)
      resolveRoute rt (Path req) = (p, false) →
      send_step (mkAgent t rt (sp1 ++ req :: sp2) fl b n u)
                (mkAgent (with_counters (add mirrorsSkipped 1) t) rt (sp1 ++ sp2) fl b n u)
  | send_out t rt sp1 req sp2 fl b n u p order net :
      (* Send: counted, then doSend *)
      resolveRoute rt (Path req) = (p, true) →
      order ≡ₚ map_to_list (Headers req) →
      send_step (mkAgent t rt (sp1 ++ req :: sp2) fl b n u)
                (mkAgent (with_counters (add mirrorsSent 1) t) rt (sp1 ++ sp2)
                   (fl ++ [mkFlight req (clock t) (doSend order net m req p)]) b n u)
  | send_answer t rt sp fl1 req at_ d r fl2 b n u :
      (* doSend returned r *)
      (at_ + d ≤ clock t)%Z →
      send_step (mkAgent t rt sp (fl1 ++ mkFlight req at_ (Some (d, r)) :: fl2) b n u)
                (mkAgent (with_counters (logResult r) t) rt sp (fl1 ++ fl2) b n
                   (if decide (outcome_counter r = None) then u + 1 else u)%Z).

Inductive agent_step : agent → agent → Prop :=
  | agent_tracker t l t' rt sp fl b n u :
      (* the read loop inside Feed, then go mirror.Send(req) for each request;
         the reaper; the clock *)
      running (mkAgent t rt sp fl b n u) →
      tracker_step max_parse t l t' →
      agent_step (mkAgent t rt sp fl b n u)
                 (mkAgent t' rt (sp ++ returned l) fl b (if taken l then n + 1 else n)%Z u)
  | agent_goroutine a a' :
      running a → send_step a a' → agent_step a a'
  | agent_signal t rt sp fl n u :
      running (mkAgent t rt sp fl false n u) →
      agent_step (mkAgent t rt sp fl false n u) (mkAgent t rt sp fl true n u).

(** The routes are those of start-up. *)
Definition agent_init (a : agent) : Prop :=
  tracker_init (trk a) ∧ spawned a = [] ∧ in_flight a = [] ∧ stopped a = false ∧
  events a = 0%Z ∧ uncounted a = 0%Z.

Abbreviation agent_reachable := (reachable agent_init agent_step).
End agent.

(** ** Conservation of requests *)

(** A crash of the tracker can lose requests it has counted ([lost]). *)
Definition conserved (a : agent) : Prop :=
  let c k := load k (a_stats a) in
  c packetsReceived = wrap64 (events a) ∧
  wrap64 (c reqsAssembled) =
    wrap64 (Z.of_nat (length (spawned a) + lost (trk a)) + c mirrorsSkipped + c mirrorsSent) ∧
  wrap64 (c mirrorsSent) =
    wrap64 (Z.of_nat (length (in_flight a)) + uncounted a + c mirrors2xx + c mirrors4xx +
            c mirrors5xx + c mirrorsError).

(** Equations between wrapped sums of counters: reduce the loads, then compare
    modulo 2^64. *)
Ltac solve_wrap :=
  repeat (rewrite load_add_eq || rewrite load_add_ne by done);
  rewrite ?length_app in *; cbn [length] in *;
  unfold wrap64 in *; Z.div_mod_to_equations; lia.

Lemma logResult_loads r st :
  let st' := logResult r st in
  (∀ c, c ∉ [mirrors2xx; mirrors4xx; mirrors5xx; mirrorsError] → load c st' = load c st) ∧
  wrap64 (load mirrors2xx st' + load mirrors4xx st' + load mirrors5xx st' +
          load mirrorsError st') =
  wrap64 (load mirrors2xx st + load mirrors4xx st + load mirrors5xx st +
          load mirrorsError st + (if decide (outcome_counter r = None) then 0 else 1)).
Proof.
  cbv zeta. rewrite logResult_counter.
  assert (∀ c, outcome_counter r = Some c → c ∈ [mirrors2xx; mirrors4xx; mirrors5xx; mirrorsError]).
  { unfold outcome_counter. intros c. cbv zeta.
    repeat case_match; intros; simplify_eq; set_solver. }
  destruct (outcome_counter r) as [c|].
  - specialize (H c eq_refl). split.
    + intros d Hd. apply load_add_ne. by intros ->.
    + rewrite decide_False by done.
      rewrite !elem_of_cons, elem_of_nil in H. destruct H as [->|[->|[->|[->|[]]]]]; solve_wrap.
  - split; [done|]. rewrite decide_True by done. f_equal. lia.
Qed.

Lemma send_step_conserved m a a' : conserved a → send_step m a a' → conserved a'.
Proof.
  unfold conserved, a_stats. cbv zeta. intros (H1 & H2 & H3) Hs.
  destruct Hs as [t rt sp1 req sp2 fl b n u p _|t rt sp1 req sp2 fl b n u p order net _ _
                 |t rt sp fl1 req at_ d r fl2 b n u _];
    cbn [trk counters with_counters events uncounted spawned in_flight] in *;
    change (lost (with_counters ?f t)) with (lost t).
  - split_and!; solve_wrap.
  - split_and!; solve_wrap.
  - destruct (logResult_loads r (counters t)) as [Ho Hsum]. cbv zeta in *.
    rewrite !(Ho packetsReceived), !(Ho reqsAssembled), !(Ho mirrorsSkipped),
      !(Ho mirrorsSent) by set_solver.
    split; [done|]. split; [done|].
    destruct (decide (outcome_counter r = None)); solve_wrap.
Qed.

Lemma agent_step_conserved d m a a' : conserved a → agent_step d m a a' → conserved a'.
Proof.
  intros Hc Hst. destruct Hst as [t l t' rt sp fl b n u _ Hs|? ? _ Hs|t rt sp fl n u _];
    [|by eapply send_step_conserved|done].
  revert Hc. unfold conserved, a_stats. cbv zeta. cbn [trk events uncounted spawned in_flight].
  intros (H1 & H2 & H3). apply tracker_step_stats in Hs as (Hr & Ha & Ho).
  unfold tracker_counters in Ho.
  rewrite !(Ho mirrorsSkipped), !(Ho mirrorsSent), !(Ho mirrors2xx), !(Ho mirrors4xx),
    !(Ho mirrors5xx), !(Ho mirrorsError) by set_solver.
  rewrite Hr, Ha, length_app. split; [destruct (taken l); solve_wrap|].
  split; [solve_wrap|done].
Qed.

Lemma reachable_conserved d m a : reachable agent_init (agent_step d m) a → conserved a.
Proof.
  apply reachable_invariant.
  - intros s ((_ & Hst & Hpc) & Hsp & Hfl & _ & Hev & Hun). unfold conserved, a_stats.
    unfold lost. by rewrite Hst, Hsp, Hfl, Hev, Hun, Hpc.
  - intros s s' _ HI Hs. by eapply agent_step_conserved.
Qed.

(** C6. Conservation of requests: in every reachable state of the agent, for
    every interleaving of the critical sections of the read loop, the reaper,
    the sending goroutines, the clock and a signal, the received counter is
    the number of events taken; every assembled request is waiting, skipped or
    sent, unless a crash of the tracker lost it; and every sent one is in flight,
    counted by exactly one outcome, or was answered with a status that no counter
    counts (all modulo the width of the counters). *)
Theorem agent_conservation d m a : reachable agent_init (agent_step d m) a → conserved a.
Proof. apply reachable_conserved. Qed.

(** ** What can end the agent *)

(** The tracker inside the agent: its steps are those of [Tracker], as far as
    the table, the clock and the program point go. *)
Definition same_but_counters (t t' : tracker) : Prop :=
  table t = table t' ∧ clock t = clock t' ∧ pc t = pc t'.

Lemma send_step_tracker m a a' : send_step m a a' → same_but_counters (trk a) (trk a').
Proof. by destruct 1. Qed.

Definition agent_safe (a : agent) : Prop := tracker_inv (trk a) ∧ crash_in_parser (trk a).

Lemma agent_safe_same a a' :
  same_but_counters (trk a) (trk a') → agent_safe a → agent_safe a'.
Proof.
  intros (Ht & Hc & Hp). unfold agent_safe, tracker_inv, crash_in_parser. by rewrite Ht, Hc, Hp.
Qed.

(** C8. The only way the agent dies is a request it cannot parse: as long as
    parsing a snapshot takes at most ten seconds, in every interleaving of the
    read loop, the reaper and any number of sending goroutines, a panic is the
    parser's own, on the bytes of the snapshot. *)
Theorem agent_dies_only_in_parser m a snapshot p :
  reachable agent_init (agent_step (Some (10 * second)%Z) m) a →
  pc (trk a) = Crashed snapshot p →
  parseHTTPRequests snapshot zero_stats = Panic p ∧ p ≠ NilDeref.
Proof.
  intros Hr Hpc. assert (agent_safe a) as [_ HC].
  { clear Hpc. revert a Hr. apply reachable_invariant.
    - intros s ((_ & _ & Hpc) & _). unfold agent_safe, tracker_inv, crash_in_parser.
      by rewrite Hpc.
    - intros s s' _ HS Hs. destruct Hs as [t l t' rt sp fl b n u _ Hs|s s' _ Hs|]; [| |done].
      + destruct HS as [HI HC]. split; [by eapply tracker_step_inv|by eapply tracker_step_crash].
      + eapply agent_safe_same; [by eapply send_step_tracker|done]. }
  unfold crash_in_parser in HC. rewrite Hpc in HC. split; [done|].
  intros ->. by apply parseHTTPRequests_no_nil in HC.
Qed.

(** ** Every captured request is dealt with *)

Section settling.
Context (d : option Z) (m : HTTPMirror) (Htimeout : (0 < m_Timeout m)%Z).

(** What the client's timeout guarantees: every request on its way was sent in
    the past and will be done in time. *)
Definition in_time_flight (now : Z) (f : flight) : Prop :=
  (fl_sent f ≤ now)%Z ∧ ∃ e r, fl_fate f = Some (e, r) ∧ (0 ≤ e ≤ m_Timeout m)%Z.

Definition flights_ok (a : agent) : Prop :=
  Forall (in_time_flight (clock (trk a))) (in_flight a).

Lemma in_time_later now now' f : (now ≤ now')%Z → in_time_flight now f → in_time_flight now' f.
Proof. intros Hn [Hf H]. split; [lia|done]. Qed.

Lemma send_step_flights a a' : flights_ok a → send_step m a a' → flights_ok a'.
Proof.
  unfold flights_ok. intros H Hs.
  destruct Hs as [| t rt sp1 req sp2 fl b n u p order net _ _|]; cbn in *; [done| |].
  - apply Forall_app. split; [done|]. apply Forall_singleton.
    destruct (doSend_in_time order net m req p Htimeout) as (e & r & -> & He).
    split; [cbn; lia|]. by eexists _, _.
  - rewrite !Forall_app, Forall_cons in *. tauto.
Qed.

Lemma tracker_step_clock t l t' : tracker_step d t l t' → (clock t ≤ clock t')%Z.
Proof. destruct 1; cbn; lia. Qed.

Lemma reachable_flights a : reachable agent_init (agent_step d m) a → flights_ok a.
Proof.
  apply reachable_invariant.
  - intros s (_ & _ & Hfl & _). unfold flights_ok. by rewrite Hfl.
  - intros s s' _ HI Hs. destruct Hs as [t l t' rt sp fl b n u _ Hs|s s' _ Hs|]; [| |done].
    + unfold flights_ok in *. cbn in *. eapply Forall_impl; [exact HI|]. intros f.
      apply in_time_later. by eapply tracker_step_clock.
    + by eapply send_step_flights.
Qed.

(** The goroutines run as long as the process does; when one waits for EWP,
    time passes until [doSend] returns. *)
Definition wait_until (t : Z) (a : agent) : agent :=
  mkAgent (mkTracker (table (trk a)) (counters (trk a)) t (pc (trk a)))
    (a_routes a) (spawned a) (in_flight a) (stopped a) (events a) (uncounted a).

Inductive goroutine_step : agent → agent → Prop :=
  | go_send a a' : running a → send_step m a a' → goroutine_step a a'
  | go_wait a f e r :
      running a → f ∈ in_flight a → fl_fate f = Some (e, r) →
      (clock (trk a) < fl_sent f + e)%Z →
      goroutine_step a (wait_until (fl_sent f + e) a).

(** These are steps of the agent. *)
Lemma goroutine_agent_step a a' : goroutine_step a a' → agent_step d m a a'.
Proof.
  destruct 1 as [|a f e r Hr _ _ Hc]; [by constructor|]. destruct a as [[t st now c] rt sp fl b n u].
  unfold wait_until. cbn in *. pose proof (agent_tracker d m _ Quiet (mkTracker t st (fl_sent f + e) c)
    rt sp fl b n u Hr) as H. cbn in H. rewrite app_nil_r in H. apply H. constructor. lia.
Qed.

(** Steps left: three for a goroutine that was spawned, two for one whose
    answer is still to come, one for one that has it. *)
Definition weight (now : Z) (f : flight) : nat :=
  match fl_fate f with
  | Some (e, _) => if decide (fl_sent f + e ≤ now)%Z then 1 else 2
  | None => 2
  end.
Definition weights (now : Z) (fl : list flight) : nat := sum_list_with (weight now) fl.
Definition backlog (a : agent) : nat :=
  3 * length (spawned a) + weights (clock (trk a)) (in_flight a).

Lemma weight_range now f : 1 ≤ weight now f ≤ 2.
Proof. unfold weight. destruct (fl_fate f) as [[e r]|]; [case_decide|]; lia. Qed.

Lemma weights_app now l l' : weights now (l ++ l') = weights now l + weights now l'.
Proof. unfold weights. apply sum_list_with_app. Qed.

Lemma weights_later now now' fl : (now ≤ now')%Z → weights now' fl ≤ weights now fl.
Proof.
  intros Hn. unfold weights. induction fl as [|f fl IH]; [done|]. cbn [sum_list_with].
  assert (weight now' f ≤ weight now f); [|lia].
  unfold weight. destruct (fl_fate f) as [[e r]|]; [|lia]. repeat case_decide; lia.
Qed.

Lemma weights_due now f e r fl :
  f ∈ fl → fl_fate f = Some (e, r) → (now < fl_sent f + e)%Z →
  weights (fl_sent f + e) fl < weights now fl.
Proof.
  intros [l1 [l2 ->]]%list_elem_of_split Hf Hn. rewrite !weights_app.
  change (weights ?k (f :: l2)) with (weight k f + weights k l2).
  pose proof (weights_later now (fl_sent f + e) l1 ltac:(lia)).
  pose proof (weights_later now (fl_sent f + e) l2 ltac:(lia)).
  assert (weight (fl_sent f + e) f < weight now f); [|lia].
  unfold weight. rewrite Hf. rewrite decide_True, decide_False by lia. lia.
Qed.

Lemma goroutine_step_backlog a a' : goroutine_step a a' → backlog a' < backlog a.
Proof.
  unfold backlog. destruct 1 as [a a' _ Hs|a f e r _ Hin Hf Hc].
  - destruct Hs as [t rt sp1 req sp2 fl b n u p _|t rt sp1 req sp2 fl b n u p order net _ _
                   |t rt sp fl1 req at_ e r fl2 b n u _];
      cbn [spawned in_flight trk clock with_counters]; rewrite ?length_app, ?weights_app;
      cbn [length]; [lia| |].
    + change (weights ?k [?f]) with (weight k f + 0).
      pose proof (weight_range (clock t) (mkFlight req (clock t) (doSend order net m req p))). lia.
    + change (weights ?k (?f :: fl2)) with (weight k f + weights k fl2).
      pose proof (weight_range (clock t) (mkFlight req at_ (Some (e, r)))). lia.
  - cbn [wait_until spawned in_flight trk clock].
    pose proof (weights_due _ _ _ _ _ Hin Hf Hc). lia.
Qed.

(** Without a step left nothing waits. The network may be silent for ever: the
    timeout is what makes this true. *)
Lemma goroutine_step_progress a :
  flights_ok a → running a → backlog a = 0 ∨ ∃ a', goroutine_step a a'.
Proof.
  destruct a as [t rt sp fl b n u]. intros Hf Hr. destruct sp as [|req sp].
  - destruct fl as [|[req at_ fate] fl]; [by left|]. right.
    apply Forall_cons in Hf as [(Hs & e & r & [= ->] & He) _]. cbn in *.
    destruct (decide (at_ + e ≤ clock t)%Z) as [Hd|Hd].
    + eexists. apply go_send; [done|]. by apply (send_answer m t rt [] [] req at_ e r fl b n u).
    + eexists. apply (go_wait _ (mkFlight req at_ (Some (e, r))) e r);
        [done|by left|done|cbn; lia].
  - right. destruct (resolveRoute rt (Path req)) as [p [|]] eqn:E; eexists; apply go_send; try done.
    + by apply (send_out m t rt [] req sp fl b n u p (map_to_list (Headers req)) (λ _, None)).
    + by apply (send_skip m t rt [] req sp fl b n u p).
Qed.

Lemma goroutine_step_running a a' : goroutine_step a a' → running a → running a'.
Proof. destruct 1 as [? ? _ []|]; done. Qed.

(** The latest time at which a request that has been sent is done. *)
Definition done_by (t : Z) (a : agent) : Prop :=
  (clock (trk a) ≤ t)%Z ∧
  Forall (λ f, ∃ e r, fl_fate f = Some (e, r) ∧ fl_sent f + e ≤ t)%Z (in_flight a).

(** Every request that is still to be sent may take the timeout once more. *)
Definition deadline (limit : Z) (a : agent) : Prop :=
  ∃ t, done_by t a ∧ (t + Z.of_nat (length (spawned a)) * m_Timeout m ≤ limit)%Z.

Lemma deadline_start a :
  flights_ok a →
  deadline (clock (trk a) + (1 + Z.of_nat (length (spawned a))) * m_Timeout m) a.
Proof.
  intros Hf. exists (clock (trk a) + m_Timeout m)%Z. split; [split; [lia|]|lia].
  eapply Forall_impl; [exact Hf|]. cbn. intros f (Hs & e & r & E & He). exists e, r.
  split; [done|lia].
Qed.

Lemma deadline_step limit a a' : deadline limit a → goroutine_step a a' → deadline limit a'.
Proof.
  intros (t0 & [Hc Hf] & Hl) Hs. destruct Hs as [a a' _ Hs|a f e r _ Hin Ef _].
  - destruct Hs as [t rt sp1 req sp2 fl b n u p _|t rt sp1 req sp2 fl b n u p order net _ _
                   |t rt sp fl1 req at_ e r fl2 b n u _];
      unfold deadline, done_by; cbn [spawned in_flight trk clock with_counters] in *;
      rewrite ?length_app in *; cbn [length] in *.
    + exists t0. split; [by split|]. rewrite Nat2Z.inj_add in *. nia.
    + destruct (doSend_in_time order net m req p Htimeout) as (e & r & -> & He).
      exists (t0 + m_Timeout m)%Z. split; [split; [lia|]|rewrite !Nat2Z.inj_add, Nat2Z.inj_succ in *; nia].
      apply Forall_app. split; [|apply Forall_singleton; exists e, r; cbn; split; [done|lia]].
      eapply Forall_impl; [exact Hf|]. cbn. intros f (e' & r' & E & ?). exists e', r'. split; [done|lia].
    + exists t0. split; [split; [done|]|lia]. rewrite !Forall_app, Forall_cons in *. tauto.
  - exists t0. split; [|done]. split; [|done]. cbn [wait_until trk clock].
    rewrite Forall_forall in Hf. destruct (Hf f Hin) as (e' & r' & E & ?). simplify_eq. lia.
Qed.

(** Nothing waiting, and the counters add up. *)
Definition settled (a : agent) : Prop :=
  spawned a = [] ∧ in_flight a = [] ∧
  let c k := load k (a_stats a) in
  wrap64 (c reqsAssembled) =
    wrap64 (c mirrorsSkipped + c mirrors2xx + c mirrors4xx + c mirrors5xx + c mirrorsError +
            uncounted a).

Lemma conserved_settled a : conserved a → running a → backlog a = 0 → settled a.
Proof.
  unfold conserved, settled, backlog. cbv zeta. intros (_ & H2 & H3) [Hr _] Hb.
  assert (spawned a = []) as Es by (apply nil_length_inv; lia).
  assert (in_flight a = []) as Ef.
  { destruct (in_flight a) as [|f fl]; [done|]. cbn in Hb. pose proof (weight_range (clock (trk a)) f). lia. }
  assert (lost (trk a) = 0) as El by (unfold lost; by destruct (pc (trk a)); [..|destruct Hr]).
  rewrite Es, Ef, El in *. split; [done|]. split; [done|]. cbn [length] in *.
  unfold wrap64 in *. Z.div_mod_to_equations. lia.
Qed.

Lemma settles a :
  reachable agent_init (agent_step d m) a → running a →
  inevitable goroutine_step
    (λ a', settled a' ∧
      (clock (trk a') ≤ clock (trk a) + (1 + Z.of_nat (length (spawned a))) * m_Timeout m)%Z) a.
Proof.
  intros Hr Hrun. pose proof (reachable_conserved _ _ _ Hr) as Hc.
  pose proof (reachable_flights _ Hr) as Hf. set (limit := (_ + _)%Z).
  eapply inevitable_weaken; [|apply (inevitable_measure goroutine_step
    (λ a, (conserved a ∧ flights_ok a) ∧ running a ∧ deadline limit a) (λ a, backlog a = 0) backlog);
    [intros s ((_ & Hfs) & Hs & _)|intros s s' ((HI & HF) & Hs & HD) Hstep|]].
  - intros s [((HI & _) & Hs & t & [Ht _] & Hl) Hb]. split; [by apply conserved_settled|lia].
  - destruct (goroutine_step_progress s Hfs Hs) as [|[s' ?]]; [by left|right; by exists s'].
  - split; [|by apply goroutine_step_backlog]. split; [split|split].
    + eapply agent_step_conserved; [exact HI|]. by apply goroutine_agent_step.
    + destruct Hstep as [? ? _ Hstep|a0 f e r _ Hin Ef Hlt]; [by eapply send_step_flights|].
      unfold flights_ok in *. cbn. eapply Forall_impl; [exact HF|]. intros g.
      apply in_time_later. lia.
    + by eapply goroutine_step_running.
    + by eapply deadline_step.
  - split; [by split|]. split; [done|]. by apply deadline_start.
Qed.
End settling.

(** C7. Liveness of mirroring, by the client's timeout: from every reachable
    state of the running agent, under every schedule of its goroutines and
    whatever the network does with each request - answer, fail, send half a
    body or stay silent for ever -, a state is reached in which no request
    waits and every assembled request is accounted for by exactly one outcome;
    and that within ten seconds, and ten more for each request that had not been
    sent yet. *)
Theorem requests_settle d ewp a :
  let m := NewHTTPMirror ewp in
  reachable agent_init (agent_step d m) a → running a →
  inevitable (goroutine_step m)
    (λ a', settled a' ∧
      clock (trk a') ≤ clock (trk a) + (1 + Z.of_nat (length (spawned a))) * (10 * second))%Z a.
Proof. apply settles. reflexivity. Qed.

(** ** One run

    A request, captured, sent and answered with a redirect. *)

Definition demo_req : CapturedRequest :=
  mkRequest (str "GET") (str "/b") ∅ [] (str "1.0.0.0").
Definition one_captured : agentStats := add reqsAssembled 1 race_stats.
Definition agent_at (t : tracker) (sp : list CapturedRequest) (fl : list flight) (u : Z) : agent :=
  mkAgent t None sp fl false 1 u.
Definition demo_mirror : HTTPMirror := NewHTTPMirror (str "http://ewp:1").
Definition demo_net : network := λ _, Some (7%N, Head 302 [] (Some 0%N) []).
Definition demo_flight : flight :=
  mkFlight demo_req 0 (Some (7%Z, mkResult (str "GET") (str "/b") 302 [] 7 None)).
Definition agent0 : agent := mkAgent init_tracker None [] [] false 0 0.
Definition agent2 : agent := agent_at (mkTracker ∅ one_captured 0 Idle) [demo_req] [] 0.
Definition agent3 (now : Z) : agent :=
  agent_at (mkTracker ∅ (add mirrorsSent 1 one_captured) now Idle) [] [demo_flight] 0.
Definition agent4 : agent :=
  agent_at (mkTracker ∅ (add mirrorsSent 1 one_captured) 7 Idle) [] [] 1.

(** The read loop takes an event. *)
Lemma agent_taken d m data :
  feed_enter 0 (demo_ev data) ∅ zero_stats =
    Ret (Some (demo_key, data), {[ demo_key := mkStream data 0 ]}, race_stats) →
  pkt_ok (demo_ev data) →
  reachable agent_init (agent_step d m)
    (agent_at (mkTracker {[ demo_key := mkStream data 0 ]} race_stats 0
                 (Unlocked (demo_ev data) demo_key data 0)) [] [] 0).
Proof.
  intros He Hok. apply (reach_step _ _ agent0); [by apply reach_init|].
  apply (agent_tracker d m _ (Taken (demo_ev data))); [by split; [intros []|]|]. by apply step_enter.
Qed.

Lemma agent2_reachable d m :
  reachable agent_init (agent_step (Some (Z.pos d)) m) agent2.
Proof.
  eapply reach_step; [apply (agent_taken _ _ demo_get); by_compute|].
  apply (agent_tracker _ _ _ (Returned demo_key [demo_req])); [by split; [intros []|]|].
  apply step_leave; [cbn; lia|by_compute].
Qed.

Lemma demo_sent :
  doSend (map_to_list (Headers demo_req)) demo_net demo_mirror demo_req (str "/b") =
  fl_fate demo_flight.
Proof. vm_compute. reflexivity. Qed.

(** It is sent, seven nanoseconds pass, and its answer is counted by nothing. *)
Lemma agent4_reachable d :
  reachable agent_init (agent_step (Some (Z.pos d)) demo_mirror) agent4.
Proof.
  assert (∀ t, running (agent3 t)) as Hrun by (by split; [intros []|]).
  apply (reach_step _ _ (agent3 7)); [apply (reach_step _ _ (agent3 0));
    [eapply reach_step; [apply agent2_reachable|]|]|].
  - apply agent_goroutine; [by split; [intros []|]|].
    pose proof (send_out demo_mirror (trk agent2) None [] demo_req [] [] false 1 0 (str "/b")
      (map_to_list (Headers demo_req)) demo_net eq_refl (reflexivity _)) as H.
    by rewrite demo_sent in H.
  - apply (agent_tracker _ _ _ Quiet _ None [] [demo_flight] false 1 0); [apply Hrun|].
    by apply step_clock.
  - apply agent_goroutine; [apply Hrun|].
    by apply (send_answer demo_mirror (trk (agent3 7)) None [] [] demo_req 0 7
                (mkResult (str "GET") (str "/b") 302 [] 7 None) [] false 1 0).
Qed.

Theorem agent_conservation_witness : conserved agent4.
Proof. exact (agent_conservation _ _ _ (agent4_reachable 1)). Defined.

Lemma agent2_running : running agent2.
Proof. by split; [intros []|]. Qed.

Theorem requests_settle_witness :
  inevitable (goroutine_step demo_mirror) (λ a', settled a' ∧ clock (trk a') ≤ 20 * second)%Z agent2.
Proof.
  exact (requests_settle _ _ agent2 (agent2_reachable 1 demo_mirror) agent2_running).
Defined.

(** With no timeout nothing would be done about a silent EWP: *)
Lemma silence_without_timeout order base req p :
  let r := doSend order (λ _, None) (mkMirror base 0) req p in
  r = None ∨ ∃ res, r = Some (0%Z, res) ∧ is_Some (r_Error res).
Proof.
  cbv zeta. unfold doSend, exchange, at_timeout. destruct (build_request _ _ _ _) as [rq|]; [|right].
  - case_decide; cbn; [by left|right]. eexists. split; [done|]. by eexists.
  - eexists. split; [done|]. by eexists.
Qed.

(** A signal does not wait for them: the process can end with a captured
    request that was neither sent nor counted as skipped. *)
Theorem signal_drops_requests m :
  ∃ a, reachable agent_init (agent_step (Some second) m) a ∧ spawned a = [demo_req] ∧
    ∀ a', ¬ agent_step (Some second) m a a'.
Proof.
  exists (mkAgent (trk agent2) None [demo_req] [] true 1 0). split; [|split; [done|]].
  - eapply reach_step; [apply agent2_reachable|]. apply agent_signal, agent2_running.
  - intros a' Hs. inversion Hs as [? ? ? ? ? ? ? ? ? [_ Hr]|? ? [_ Hr]|]; by cbn in Hr.
Qed.

Definition negative_agent : agent := agent_at negative_state [] [] 0.

Lemma negative_agent_reachable d m :
  reachable agent_init (agent_step (Some (Z.pos d)) m) negative_agent.
Proof.
  eapply reach_step; [apply (agent_taken _ _ negative_request); by_compute|].
  apply (agent_tracker _ _ _ Died); [by split; [intros []|]|].
  apply step_crash; [cbn; lia|by_compute].
Qed.

Theorem agent_dies_only_in_parser_witness :
  parseHTTPRequests negative_request zero_stats = Panic MakeSliceLen ∧ MakeSliceLen ≠ NilDeref.
Proof.
  exact (agent_dies_only_in_parser demo_mirror negative_agent negative_request MakeSliceLen
           (negative_agent_reachable _ _) eq_refl).
Defined.
