(* ===== verification/Float64.v ===== *)
(** * Go's [float64]: the operations the simulators use

    IEEE 754 binary64 on the Standard Library's [spec_float]. Every arithmetic
    operation is the exact rational result, rounded once to nearest, ties to
    even ([round_ratio]); parsing a JSON number and printing with [%.1f] work on
    exact values too. *)

From Stdlib Require Import ZArith Lia SpecFloat.
From S2P Require Import Prelude GoLib Json.

Abbreviation float64 := spec_float.

#[export] Instance float64_eq_dec : EqDecision float64.
Proof. solve_decision. Defined.

(** ** Rounding *)

(** Round [n / d] to an integer, ties to even. *)
Definition round_half_even (n d : Z) : Z :=
  let q := (n / d)%Z in
  let r := (n mod d)%Z in
  if decide (2 * r < d)%Z then q
  else if decide (d < 2 * r)%Z then (q + 1)%Z
  else if Z.even q then q else (q + 1)%Z.

(** The numerator and denominator of [n / d / 2^e]. *)
Definition scale (n d e : Z) : Z * Z :=
  if decide (0 ≤ e)%Z then (n, d * 2 ^ e)%Z else (n * 2 ^ (- e), d)%Z.

(** The exponent of the last place of [n / d]: 53 significant bits, but never
    below the least subnormal. *)
Definition exponent (n d : Z) : Z :=
  let e0 := (Z.log2 n - Z.log2 d)%Z in
  let '(a, b) := scale n d e0 in
  Z.max (if decide (b ≤ a)%Z then e0 - 52 else e0 - 53) (-1074).

(** The float64 nearest to [± n / d], for positive [n] and [d]. *)
Definition round_ratio (s : bool) (n d : Z) : float64 :=
  let e := exponent n d in
  let '(a, b) := scale n d e in
  let m := round_half_even a b in
  let '(m, e) := if decide (m = 2 ^ 53)%Z then (2 ^ 52, e + 1)%Z else (m, e) in
  match m with
  | Zpos p => if decide (e ≤ 971)%Z then S754_finite s p e else S754_infinity s
  | _ => S754_zero s
  end.

(** ** Operations *)

(** [float64(z)] *)
Definition of_int (z : Z) : float64 :=
  match z with
  | Z0 => S754_zero false
  | Zpos p => round_ratio false (Zpos p) 1
  | Zneg p => round_ratio true (Zpos p) 1
  end.

(** Finite operands are computed exactly and rounded; zeros, infinities and NaN
    follow the standard. *)
Definition fdiv (x y : float64) : float64 :=
  match x, y with
  | S754_finite s m e, S754_finite s' m' e' =>
      let '(a, b) := scale (Zpos m) (Zpos m') (e' - e) in
      round_ratio (xorb s s') a b
  | _, _ => SFdiv 53 1024 x y
  end.

Definition fmul (x y : float64) : float64 :=
  match x, y with
  | S754_finite s m e, S754_finite s' m' e' =>
      let '(a, b) := scale (Zpos m * Zpos m') 1 (- (e + e')) in
      round_ratio (xorb s s') a b
  | _, _ => SFmul 53 1024 x y
  end.

Definition flt (x y : float64) : bool := SFltb x y.
Definition fge (x y : float64) : bool := SFleb y x.

(** The rounding agrees with the operations of the Standard Library. *)
Example fdiv_agrees :
  (λ xy, fdiv (of_int xy.1) (of_int xy.2)) <$>
    [(1, 3); (2, 3); (999, 1000); (7, 1); (123456789, 17); (1, 1000)]%Z =
  (λ xy, SFdiv 53 1024 (of_int xy.1) (of_int xy.2)) <$>
    [(1, 3); (2, 3); (999, 1000); (7, 1); (123456789, 17); (1, 1000)]%Z.
Proof. vm_compute. reflexivity. Qed.

Example fmul_agrees :
  (λ x, fmul (fdiv (of_int x) (of_int 7)) (of_int 100)) <$> [1; 2; 3; 5; 6; 7]%Z =
  (λ x, SFmul 53 1024 (SFdiv 53 1024 (of_int x) (of_int 7)) (of_int 100)) <$>
    [1; 2; 3; 5; 6; 7]%Z.
Proof. vm_compute. reflexivity. Qed.

(** ** Parsing and printing *)

(** [strconv.ParseFloat] of a JSON number: [None] is a range error. *)
Definition sign_prefix (s : bytes) : bool * bytes :=
  match s with Byte.x2d :: s' => (true, s') | _ => (false, s) end.

Definition exp_value (s : bytes) : Z :=
  match s with
  | _ :: Byte.x2b :: ds => digits_val ds
  | _ :: Byte.x2d :: ds => (- digits_val ds)%Z
  | _ :: ds => digits_val ds
  | [] => 0%Z
  end.

Definition parse_float (lit : bytes) : option float64 :=
  let '(s, rest) := sign_prefix lit in
  let '(ints, rest) := span_digits rest in
  let '(fracs, rest) := match rest with
                        | Byte.x2e :: r => span_digits r
                        | _ => ([], rest)
                        end in
  let mant := digits_val (ints ++ fracs) in
  let e := (exp_value rest - len fracs)%Z in
  if decide (mant = 0)%Z then Some (S754_zero s)
  else match (if decide (0 ≤ e)%Z then round_ratio s (mant * 10 ^ e) 1
              else round_ratio s mant (10 ^ (- e))) with
       | S754_infinity _ => None
       | f => Some f
       end.

Example parse_float_ex :
  parse_float <$> [str "99.5"; str "-0"; str "1e2"; str "0.1"; str "1E-400"; str "1e309"] =
  [Some (S754_finite false 7001690045677568 (-46)); Some (S754_zero true);
   Some (of_int 100); Some (S754_finite false 7205759403792794 (-56));
   Some (S754_zero false); None].
Proof. vm_compute. reflexivity. Qed.

(** [fmt.Sprintf("%.1f%%", x)]: the exact value rounded to one decimal, ties to
    even. *)
Definition one_decimal (s : bool) (tenths : Z) : bytes :=
  (if s then str "-" else []) ++ itoa (tenths / 10) ++ str "." ++ itoa (tenths mod 10).

Definition percent (x : float64) : bytes :=
  match x with
  | S754_finite s m e =>
      let '(a, b) := scale (Zpos m * 10) 1 (- e) in
      one_decimal s (round_half_even a b)
  | S754_zero s => one_decimal s 0
  | S754_infinity true => str "-Inf"
  | S754_infinity false => str "+Inf"
  | S754_nan => str "NaN"
  end ++ str "%".

Example percent_ex :
  percent <$> [of_int 100; fmul (fdiv (of_int 2) (of_int 3)) (of_int 100);
               S754_finite false 1 (-2); of_int 0] =
  [str "100.0%"; str "66.7%"; str "0.2%"; str "0.0%"].
Proof. vm_compute. reflexivity. Qed.

(** ** Accuracy of one rounding *)

Lemma round_half_even_bounds n d :
  (0 < d)%Z → (2 * n - d ≤ 2 * (d * round_half_even n d) ≤ 2 * n + d)%Z.
Proof.
  intros Hd. unfold round_half_even. cbv zeta.
  pose proof (Z.div_mod n d ltac:(lia)). pose proof (Z.mod_pos_bound n d Hd).
  repeat case_decide; [nia|nia|]. destruct (Z.even _); nia.
Qed.

(** An exact quotient is not changed. *)
Lemma round_half_even_exact q d : (0 < d)%Z → round_half_even (q * d) d = q.
Proof.
  intros Hd. unfold round_half_even. cbv zeta.
  rewrite Z.div_mul, Z.mod_mul by lia. by rewrite decide_True by lia.
Qed.

Section accuracy.
Open Scope Z_scope.

Lemma pow2_split a b : 0 ≤ a → 0 ≤ b → 2 ^ (a + b) = 2 ^ a * 2 ^ b.
Proof. intros. by apply Z.pow_add_r. Qed.

(** For quotients between the least normal number and 2^40, the exponent makes
    the scaled quotient a 53-bit number. *)
Lemma exponent_normal n d :
  0 < n → 0 < d → -1000 ≤ Z.log2 n - Z.log2 d ≤ 40 →
  let e := exponent n d in
  Z.log2 n - Z.log2 d - 53 ≤ e ≤ Z.log2 n - Z.log2 d - 52 ∧ 2 ^ 52 * d ≤ n * 2 ^ (- e) < 2 ^ 53 * d.
Proof.
  intros Hn Hd Hr. cbv zeta. unfold exponent, scale.
  pose proof (Z.log2_spec n Hn) as Ln. pose proof (Z.log2_spec d Hd) as Ld.
  pose proof (Z.log2_nonneg n). pose proof (Z.log2_nonneg d).
  set (ln := Z.log2 n) in *. set (ld := Z.log2 d) in *. unfold Z.succ in *.
  rewrite !pow2_split in * by lia. change (2 ^ 1) with 2 in *.
  assert (0 < 2 ^ ln) by lia. assert (0 < 2 ^ ld) by lia.
  assert (∀ k, 52 ≤ k → 0 < 2 ^ (k - (ln - ld)) ∧
            2 ^ ln * 2 ^ (k - (ln - ld)) = 2 ^ k * 2 ^ ld) as Hk.
  { intros k Hk. split; [lia|]. rewrite <- !pow2_split by lia. f_equal. lia. }
  destruct (Hk 52 ltac:(lia)) as [P52 E52], (Hk 53 ltac:(lia)) as [P53 E53].
  assert (2 ^ (53 - (ln - ld)) = 2 * 2 ^ (52 - (ln - ld))) as E2.
  { rewrite <- Z.pow_succ_r by lia. f_equal. lia. }
  destruct (decide (0 ≤ ln - ld)) as [Hs|Hs].
  - assert (2 ^ (ln - ld) * 2 ^ (52 - (ln - ld)) = 2 ^ 52) as E.
    { rewrite <- pow2_split by lia. f_equal. lia. }
    case_decide; rewrite Z.max_l by lia; (split; [lia|]);
      rewrite Z.opp_sub_distr, Z.add_comm, Z.add_opp_r; nia.
  - assert (2 ^ (52 - (ln - ld)) = 2 ^ (- (ln - ld)) * 2 ^ 52) as E.
    { rewrite <- pow2_split by lia. f_equal. lia. }
    case_decide; rewrite Z.max_l by lia; (split; [lia|]);
      rewrite Z.opp_sub_distr, Z.add_comm, Z.add_opp_r; nia.
Qed.

(** One rounding increases a quotient by at most one part in 2^53. *)
Lemma round_ratio_upper s n d :
  0 < n → 0 < d → -1000 ≤ Z.log2 n - Z.log2 d ≤ 40 →
  ∃ m e, round_ratio s n d = S754_finite s m e ∧
    Z.log2 n - Z.log2 d - 53 ≤ e ≤ Z.log2 n - Z.log2 d - 51 ∧
    2 ^ 52 ≤ Zpos m < 2 ^ 53 ∧
    2 ^ 53 * (Zpos m * d) ≤ (2 ^ 53 + 1) * (n * 2 ^ (- e)).
Proof.
  intros Hn Hd Hr. destruct (exponent_normal n d Hn Hd Hr) as [He Hq]. cbv zeta in *.
  unfold round_ratio. set (e := exponent n d) in *. clearbody e.
  unfold scale. rewrite decide_False by lia.
  set (a := n * 2 ^ (- e)) in *.
  pose proof (round_half_even_bounds a d Hd) as Hb.
  set (m := round_half_even a d) in *. clearbody m.
  assert (2 ^ 52 ≤ m ≤ 2 ^ 53) as Hm by nia.
  case_decide as Hc; cbv beta iota.
  - change (2 ^ 52) with 4503599627370496 in |- *. cbv beta iota.
    rewrite decide_True by lia. eexists _, _. split; [reflexivity|]. split; [lia|].
    split; [lia|].
    assert (a = 2 * (n * 2 ^ (- (e + 1)))) as Ha.
    { unfold a. replace (- e) with (1 + - (e + 1)) by lia.
      rewrite pow2_split by lia. lia. }
    clearbody a. subst m. lia.
  - destruct m as [|p|p]; [lia| |lia]. rewrite decide_True by lia.
    eexists _, _. split; [reflexivity|]. split; [lia|]. split; [lia|]. nia.
Qed.

(** Integers below 2^53 are exact. *)
Lemma of_int_exact z :
  0 < z < 2 ^ 53 →
  ∃ m, of_int z = S754_finite false m (Z.log2 z - 52) ∧
    Zpos m = z * 2 ^ (52 - Z.log2 z).
Proof.
  intros Hz. destruct z as [|z|z]; [lia| |lia]. cbn [of_int]. unfold round_ratio.
  set (n := Zpos z) in *.
  pose proof (Z.log2_spec n ltac:(lia)) as Ln. pose proof (Z.log2_nonneg n).
  assert (Z.log2 n < 53) as Hl by (apply Z.log2_lt_pow2; lia).
  assert (exponent n 1 = Z.log2 n - 52) as ->.
  { unfold exponent, scale. change (Z.log2 1) with 0.
    rewrite Z.sub_0_r, decide_True, (decide_True (P := 1 * 2 ^ Z.log2 n ≤ n)) by lia. lia. }
  set (l := Z.log2 n) in *. clearbody l. unfold Z.succ in *.
  rewrite pow2_split in Ln by lia. change (2 ^ 1) with 2 in Ln.
  unfold scale.
  assert (2 ^ 52 = 2 ^ l * 2 ^ (52 - l)) as E by (rewrite <- pow2_split by lia; f_equal; lia).
  assert (0 < 2 ^ (52 - l)) by lia.
  case_decide as Hc.
  - assert (l = 52) as -> by lia.
    replace (round_half_even n (1 * 2 ^ (52 - 52))) with n
      by (symmetry; rewrite <- (Z.mul_1_r n) at 1; apply round_half_even_exact; lia).
    rewrite decide_False by lia. unfold n. cbv beta iota. rewrite decide_True by lia.
    exists z. split; [done|]. rewrite Z.sub_diag. lia.
  - replace (- (l - 52)) with (52 - l) by lia.
    rewrite <- (Z.mul_1_r (n * 2 ^ (52 - l))), round_half_even_exact by lia.
    rewrite decide_False by nia. cbv beta iota.
    destruct (n * 2 ^ (52 - l)) as [|p|p] eqn:Ep; [nia| |nia].
    rewrite decide_True by lia. exists p. split; [done|]. lia.
Qed.

(** ** Percentages *)

(** [float64(p) / float64(t) * 100] *)
Definition rate (p t : Z) : float64 := fmul (fdiv (of_int p) (of_int t)) (of_int 100).

Lemma rate_full t : 0 < t < 2 ^ 53 → rate t t = of_int 100.
Proof.
  intros Ht. destruct (of_int_exact t Ht) as (m & E & _). unfold rate. rewrite E.
  cbn [fdiv xorb]. rewrite Z.sub_diag. unfold scale at 1. rewrite decide_True by lia.
  change (2 ^ 0) with 1. rewrite Z.mul_1_r.
  assert (round_ratio false (Zpos m) (Zpos m) = of_int 1) as ->; [|vm_compute; reflexivity].
  assert (exponent (Zpos m) (Zpos m) = -52) as He.
  { unfold exponent. rewrite Z.sub_diag. unfold scale.
    rewrite decide_True, decide_True by lia. done. }
  unfold round_ratio. rewrite He. unfold scale. rewrite decide_False by lia.
  rewrite (Z.mul_comm (Zpos m)), round_half_even_exact by lia. vm_compute. reflexivity.
Qed.

Lemma log2_shift p k : 0 < p → 0 ≤ k → Z.log2 (p * 2 ^ k) = Z.log2 p + k.
Proof. intros. rewrite Z.log2_mul_pow2 by lia. lia. Qed.

(** The quotient of two integers below 2^50, as far as its value goes. *)
Lemma fdiv_ints p t :
  0 < p < t → t < 2 ^ 50 →
  ∃ m e, fdiv (of_int p) (of_int t) = S754_finite false m e ∧
    -104 ≤ e ≤ -51 ∧ 2 ^ 52 ≤ Zpos m < 2 ^ 53 ∧
    2 ^ 53 * (Zpos m * t) ≤ (2 ^ 53 + 1) * (p * 2 ^ (- e)).
Proof.
  intros Hp Ht.
  destruct (of_int_exact p ltac:(lia)) as (m1 & -> & E1).
  destruct (of_int_exact t ltac:(lia)) as (m2 & -> & E2).
  assert (Z.log2 p ≤ Z.log2 t) as Hl by (apply Z.log2_le_mono; lia).
  assert (Z.log2 t < 50) by (apply Z.log2_lt_pow2; lia). pose proof (Z.log2_nonneg p).
  cbn [fdiv xorb]. unfold scale. rewrite decide_True by lia.
  replace (Z.log2 t - 52 - (Z.log2 p - 52)) with (Z.log2 t - Z.log2 p) by lia.
  assert (Zpos m2 * 2 ^ (Z.log2 t - Z.log2 p) = t * 2 ^ (52 - Z.log2 p)) as ->.
  { rewrite E2, <- Z.mul_assoc, <- pow2_split by lia. do 2 f_equal. lia. }
  rewrite E1. set (k := 52 - Z.log2 p) in *.
  destruct (round_ratio_upper false (p * 2 ^ k) (t * 2 ^ k))
    as (m & e & Hr & He & Hm & Hv); [nia|nia|rewrite !log2_shift by lia; lia|].
  rewrite !log2_shift in He by lia. exists m, e. split; [done|]. split; [lia|].
  split; [done|]. assert (0 < 2 ^ k) by lia. nia.
Qed.

Lemma of_int_100 : of_int 100 = S754_finite false 7036874417766400 (-46).
Proof. vm_compute. reflexivity. Qed.

(** Comparing with a variable: a literal would be unfolded bit by bit. *)
Lemma compare_cont_lt m k : Zpos m < Zpos k → Pos.compare_cont Eq m k = Lt.
Proof. intros H. exact H. Qed.

Lemma compare_below_100 m e :
  2 ^ 52 ≤ Zpos m → e ≤ 0 → Zpos m < 100 * 2 ^ (- e) →
  SFcompare (S754_finite false m e) (S754_finite false 7036874417766400 (-46)) = Some Lt.
Proof.
  intros Hm He Hlt. cbn [SFcompare]. destruct (Z.compare_spec e (-46)) as [->|Hc|Hc]; [|done|].
  - assert (100 * 2 ^ (- -46) = Zpos 7036874417766400) as E by (vm_compute; reflexivity).
    rewrite E in Hlt. f_equal. by apply compare_cont_lt.
  - exfalso. assert (2 ^ (- e) ≤ 2 ^ 45) by (apply Z.pow_le_mono_r; lia). lia.
Qed.

(** A percentage of a proper part is below 100, also after rounding twice. *)
Lemma rate_partial p t :
  0 ≤ p < t → t < 2 ^ 50 → SFcompare (rate p t) (of_int 100) = Some Lt.
Proof.
  intros Hp Ht. unfold rate. destruct (decide (p = 0)) as [->|Hp0].
  { destruct (of_int_exact t ltac:(lia)) as (m & -> & _). vm_compute. reflexivity. }
  destruct (fdiv_ints p t ltac:(lia) Ht) as (m & e & -> & He & Hm & Hv).
  rewrite of_int_100.
  cbn [fmul xorb]. unfold scale. rewrite decide_True by lia. rewrite Z.mul_1_l.
  assert (Zpos m * 7036874417766400 = (Zpos m * 25) * 2 ^ 48) as -> by lia.
  assert (Z.log2 (Zpos m * 25) = 56 ∨ Z.log2 (Zpos m * 25) = 57) as Hlog.
  { assert (56 ≤ Z.log2 (Zpos m * 25) < 58); [|lia].
    split; [apply Z.log2_le_pow2; lia|apply Z.log2_lt_pow2; lia]. }
  destruct (round_ratio_upper false (Zpos m * 25 * 2 ^ 48) (2 ^ (- (e + -46))))
    as (m' & e' & -> & He' & Hm' & Hv'); [lia|lia| |].
  { rewrite log2_shift, Z.log2_pow2 by lia. lia. }
  rewrite log2_shift, Z.log2_pow2 in He' by lia.
  replace (- (e + -46)) with (- e + 46) in Hv' by lia.
  rewrite pow2_split in Hv' by lia.
  assert (0 < 2 ^ (- e)) by lia. assert (0 < 2 ^ (- e')) as Pe' by lia.
  assert (Zpos m' < 100 * 2 ^ (- e')) as Hlt.
  { set (P := 2 ^ (- e)) in *. set (P' := 2 ^ (- e')) in *. clearbody P P'.
    assert (2 ^ 53 * (Zpos m' * P) ≤ (2 ^ 53 + 1) * (100 * Zpos m * P')) as H1 by lia.
    destruct (Z_lt_le_dec (Zpos m') (100 * P')) as [|Hge]; [done|exfalso].
    assert (2 ^ 53 * P ≤ (2 ^ 53 + 1) * Zpos m) as H2 by nia. nia. }
  apply compare_below_100; [lia|lia|exact Hlt].
Qed.
End accuracy.

(** ** Order *)

Lemma SFcompare_flip x y : SFcompare y x = CompOpp <$> SFcompare x y.
Proof.
  destruct x as [|[]| |[] mx ex], y as [|[]| |[] my ey]; try done; cbn [SFcompare];
    rewrite (Z.compare_antisym ex ey); destruct (Z.compare ex ey); cbn [CompOpp];
    try done; cbn; f_equal; change (Pos.compare_cont Eq ?a ?b) with (Pos.compare a b);
    rewrite (Pos.compare_antisym mx my); by destruct (Pos.compare mx my).
Qed.

(** A value that is not a NaN and not above [y] is at most [y]. *)
Lemma fge_not_lt x y :
  SFcompare y x ≠ None → flt y x = false → fge y x = true.
Proof.
  unfold flt, fge, SFltb, SFleb. rewrite (SFcompare_flip y x).
  destruct (SFcompare y x) as [[]|]; done.
Qed.

Lemma round_ratio_not_nan s n d : round_ratio s n d ≠ S754_nan.
Proof. unfold round_ratio. repeat case_match; done. Qed.

Lemma parse_float_not_nan lit f : parse_float lit = Some f → f ≠ S754_nan.
Proof.
  unfold parse_float. destruct (sign_prefix lit) as [s rest].
  destruct (span_digits rest) as [ints rest'].
  destruct (match rest' with Byte.x2e :: r => span_digits r | _ => ([], rest') end) as [fr rs].
  case_decide; [by intros [= <-]|].
  destruct (if decide _ then _ else _) as [| | |] eqn:E; try (by intros [= <-]).
  case_decide; by apply round_ratio_not_nan in E.
Qed.

Lemma SFcompare_Some x y : x ≠ S754_nan → y ≠ S754_nan → SFcompare x y ≠ None.
Proof.
  destruct x as [|[]| |[] mx ex], y as [|[]| |[] my ey]; try done; intros _ _;
    cbn [SFcompare]; by destruct (Z.compare ex ey).
Qed.
