(* ===== verification/Rounding.v ===== *)
(** * Rounding to the nearest [float64]

    What [round_ratio] returns is canonical, and a ratio closer than half a unit
    in the last place to a canonical value is rounded to it. *)

From Stdlib Require Import ZArith Lia SpecFloat.
From S2P Require Import Prelude GoLib Json Float64.

Section rounding.
Open Scope Z_scope.

(** Scaling by a power of two is multiplication of both sides by powers that are
    integers: [K] is large enough for all exponents at hand. *)
Lemma scale_common n d e K :
  0 ≤ K → 0 ≤ K + e →
  let '(a, b) := scale n d e in
  ∃ t, 0 < t ∧ n * 2 ^ K = a * t ∧ d * 2 ^ (K + e) = b * t.
Proof.
  intros HK He. unfold scale. case_decide as Hs.
  - exists (2 ^ K). split; [lia|]. split; [done|]. rewrite pow2_split by lia. lia.
  - exists (2 ^ (K + e)). split; [lia|]. split; [|done].
    rewrite <- Z.mul_assoc, <- pow2_split by lia. do 2 f_equal. lia.
Qed.

(** [e] is the exponent of the last of 53 significant bits of [n / d]. *)
Definition last_place (K n d e : Z) : Prop :=
  -1074 ≤ e ∧ n * 2 ^ K < 2 ^ 53 * (d * 2 ^ (K + e)) ∧
  (2 ^ 52 * (d * 2 ^ (K + e)) ≤ n * 2 ^ K ∨ e = -1074).

Lemma pow2_le_mono x y K : 0 ≤ K + x → x ≤ y → 2 ^ (K + x) ≤ 2 ^ (K + y).
Proof. intros. apply Z.pow_le_mono_r; lia. Qed.

Lemma last_place_unique K n d e e' :
  0 < d → 1074 ≤ K → last_place K n d e → last_place K n d e' → e = e'.
Proof.
  assert (∀ e e', 0 < d → 1074 ≤ K → last_place K n d e → last_place K n d e' → ¬ e < e') as H.
  { clear. intros e e' Hd HK (H1 & H2 & _) (H1' & _ & [H3|H3]) Hlt; [|lia].
    pose proof (pow2_le_mono (e + 1) e' K ltac:(lia) ltac:(lia)) as Hp.
    rewrite Z.add_assoc, pow2_split in Hp by lia. change (2 ^ 1) with 2 in Hp.
    assert (d * (2 ^ (K + e) * 2) ≤ d * 2 ^ (K + e')) by (apply Z.mul_le_mono_nonneg_l; lia).
    lia. }
  intros Hd HK He He'. pose proof (H e e' Hd HK He He'). pose proof (H e' e Hd HK He' He). lia.
Qed.

(** The quotient lies between two powers of two around the difference of the
    logarithms. *)
Lemma log2_quotient K n d :
  let e0 := Z.log2 n - Z.log2 d in
  0 < n → 0 < d → 1 ≤ K + e0 → 0 ≤ K →
  d * 2 ^ (K + (e0 - 1)) < n * 2 ^ K < d * 2 ^ (K + (e0 + 1)).
Proof.
  cbv zeta. intros Hn Hd HK HK0.
  pose proof (Z.log2_spec n Hn) as [Ln1 Ln2]. pose proof (Z.log2_spec d Hd) as [Ld1 Ld2].
  pose proof (Z.log2_nonneg n). pose proof (Z.log2_nonneg d).
  set (ln := Z.log2 n) in *. set (ld := Z.log2 d) in *. clearbody ln ld.
  assert (2 ^ (Z.succ ld) * 2 ^ (K + (ln - ld - 1)) = 2 ^ ln * 2 ^ K) as E1.
  { rewrite <- !pow2_split by lia. f_equal. lia. }
  assert (2 ^ ld * 2 ^ (K + (ln - ld + 1)) = 2 ^ (Z.succ ln) * 2 ^ K) as E2.
  { rewrite <- !pow2_split by lia. f_equal. lia. }
  assert (0 < 2 ^ (K + (ln - ld - 1))) by lia. assert (0 < 2 ^ (K + (ln - ld + 1))) by lia.
  assert (0 < 2 ^ K) by lia. split; nia.
Qed.

Lemma exponent_last_place K n d :
  0 < n → 0 < d → 1074 + 60 ≤ K → 60 ≤ K + (Z.log2 n - Z.log2 d) → last_place K n d (exponent n d).
Proof.
  intros Hn Hd HK Hl. pose proof (log2_quotient K n d) as [Q1 Q2]; [lia..|].
  unfold exponent. set (e0 := Z.log2 n - Z.log2 d) in *. clearbody e0. cbv zeta.
  pose proof (scale_common n d e0 K ltac:(lia) ltac:(lia)) as Hsc.
  destruct (scale n d e0) as [a b]. destruct Hsc as (t & Ht & Ea & Eb).
  assert (∃ E, (if decide (b ≤ a) then e0 - 52 else e0 - 53) = E - 52 ∧ e0 - 1 ≤ E ≤ e0 ∧
    d * 2 ^ (K + E) ≤ n * 2 ^ K < d * 2 ^ (K + (E + 1))) as (E & -> & HE & V1 & V2).
  { case_decide as Hc; [exists e0|exists (e0 - 1)]; (split; [lia|]); (split; [lia|]).
    - split; [rewrite Ea, Eb; by apply Z.mul_le_mono_pos_r|done].
    - split; [lia|]. replace (e0 - 1 + 1) with e0 by lia. rewrite Ea, Eb.
      apply Z.mul_lt_mono_pos_r; lia. }
  destruct (Z.max_spec (E - 52) (-1074)) as [[Hm ->]|[Hm ->]]; unfold last_place.
  - split; [lia|]. split; [|by right]. pose proof (pow2_le_mono (E + 1) (-1074 + 53) K) as Hp.
    rewrite (Z.add_assoc K (-1074)), (pow2_split (K + -1074)) in Hp by lia.
    assert (d * 2 ^ (K + (E + 1)) ≤ d * (2 ^ (K + -1074) * 2 ^ 53))
      by (apply Z.mul_le_mono_nonneg_l; lia). lia.
  - assert (2 ^ (K + E) = 2 ^ 52 * 2 ^ (K + (E - 52))) as E1.
    { rewrite <- pow2_split by lia. f_equal. lia. }
    assert (2 ^ (K + (E + 1)) = 2 ^ 53 * 2 ^ (K + (E - 52))) as E2.
    { rewrite <- pow2_split by lia. f_equal. lia. }
    rewrite E1 in V1. rewrite E2 in V2. split; [lia|]. split; [lia|]. left. lia.
Qed.

(** The exponents in use, for any two numbers. *)
Lemma large_enough n d : ∃ K, 3000 ≤ K ∧ 60 ≤ K + (Z.log2 n - Z.log2 d).
Proof. exists (3000 + Z.abs (Z.log2 n - Z.log2 d)). lia. Qed.

Lemma round_half_even_near n d q :
  0 < d → 2 * Z.abs (n - q * d) < d → round_half_even n d = q.
Proof.
  intros Hd Hq. pose proof (round_half_even_bounds n d Hd) as Hb.
  set (r := round_half_even n d) in *. clearbody r.
  assert (d * (r - q) < d * 1 ∧ d * -1 < d * (r - q)) as [H1 H2] by lia.
  apply Z.mul_lt_mono_pos_l in H1, H2; lia.
Qed.

(** ** Canonical values *)

Definition canonical (f : float64) : Prop :=
  match f with
  | S754_zero _ => True
  | S754_finite _ p e => -1074 ≤ e ≤ 971 ∧ Zpos p < 2 ^ 53 ∧ (2 ^ 52 ≤ Zpos p ∨ e = -1074)
  | _ => False
  end.

Lemma round_ratio_canonical s n d :
  0 < n → 0 < d → canonical (round_ratio s n d) ∨ round_ratio s n d = S754_infinity s.
Proof.
  intros Hn Hd. destruct (large_enough n d) as (K & HK & Hl).
  destruct (exponent_last_place K n d) as (H1 & H2 & H3); [lia..|].
  unfold round_ratio. set (e := exponent n d) in *. clearbody e. cbv zeta.
  pose proof (scale_common n d e K ltac:(lia) ltac:(lia)) as Hsc.
  destruct (scale n d e) as [a b]. destruct Hsc as (t & Ht & Ea & Eb). rewrite Ea, Eb in *.
  assert (0 < d * 2 ^ (K + e)) as Hpos by lia. rewrite Eb in Hpos.
  assert (0 < b) as Hb by nia.
  assert (a < 2 ^ 53 * b) as H2' by (apply (Z.mul_lt_mono_pos_r t); lia).
  assert (2 ^ 52 * b ≤ a ∨ e = -1074) as H3'.
  { destruct H3; [left; apply (Z.mul_le_mono_pos_r _ _ t); lia|by right]. }
  pose proof (round_half_even_bounds a b Hb) as Hr. set (m := round_half_even a b) in *. clearbody m.
  assert (m ≤ 2 ^ 53) as Hm by nia. assert (2 ^ 52 ≤ m ∨ e = -1074) as Hm' by (destruct H3'; nia).
  clear Hr. case_decide as Hc.
  - change (2 ^ 52) with (Zpos 4503599627370496). cbv beta iota. case_decide; [left|by right].
    cbn [canonical]. lia.
  - destruct m as [|p|p]; [by left| |by left]. cbv beta iota. case_decide; [left|by right].
    cbn [canonical]. lia.
Qed.

Lemma digits_val_nonneg ds : forallb is_digit ds = true → 0 ≤ digits_val ds.
Proof.
  induction ds as [|b ds IH] using rev_ind; [done|]. rewrite forallb_app, digits_val_app.
  intros [Hd Hb]%andb_true_iff. cbn [forallb] in Hb. rewrite andb_true_r in Hb.
  unfold is_digit in Hb. apply bool_decide_eq_true in Hb. unfold digit_val. specialize (IH Hd). lia.
Qed.

Lemma span_digits_digits s : forallb is_digit (span_digits s).1 = true.
Proof.
  induction s as [|b s IH]; [done|]. cbn [span_digits]. destruct (is_digit b) eqn:E; [|done].
  destruct (span_digits s) as [d r]. cbn in *. by rewrite E.
Qed.

(** What a literal denotes is canonical. *)
Lemma parse_float_canonical lit f : parse_float lit = Some f → canonical f.
Proof.
  unfold parse_float. destruct (sign_prefix lit) as [s rest].
  destruct (span_digits rest) as [ints rest'] eqn:E1.
  destruct (match rest' with Byte.x2e :: r => span_digits r | _ => ([], rest') end)
    as [fracs rest''] eqn:E2.
  pose proof (span_digits_digits rest) as D1. rewrite E1 in D1.
  assert (forallb is_digit fracs = true) as D2.
  { assert (∀ r, span_digits r = (fracs, rest'') → forallb is_digit fracs = true) as H.
    { intros r Hr. pose proof (span_digits_digits r) as H. by rewrite Hr in H. }
    destruct rest' as [|[] ?]; (by eapply H) || (by simplify_eq). }
  cbn [fst] in *. pose proof (digits_val_nonneg (ints ++ fracs)) as Hm.
  rewrite forallb_app, D1, D2 in Hm. specialize (Hm eq_refl).
  case_decide as Hz; [by intros [= <-]|].
  set (e := exp_value rest'' - len fracs). set (mant := digits_val (ints ++ fracs)) in *.
  set (r := if decide (0 ≤ e) then round_ratio s (mant * 10 ^ e) 1
            else round_ratio s mant (10 ^ (- e))).
  assert (canonical r ∨ r = S754_infinity s) as [Hc|Hc].
  { unfold r. case_decide; apply round_ratio_canonical; lia. }
  - by destruct r; try done; intros [= <-].
  - by rewrite Hc.
Qed.

(** ** Rounding to the nearest *)

(** [n / d] is close to [p * 2 ^ e]: closer than half a unit in the last place,
    and closer than a quarter where the numbers below are twice as dense. *)
Definition near (K n d p e : Z) : Prop :=
  let u := d * 2 ^ (K + e) in
  2 * Z.abs (n * 2 ^ K - p * u) < u ∧ (p = 2 ^ 52 → 4 * (p * u - n * 2 ^ K) < u).

(** Rounding the scaled quotient, in terms of the common scale. *)
Lemma round_scaled K n d e q :
  0 < d → 3000 ≤ K → 0 ≤ K + e →
  2 * Z.abs (n * 2 ^ K - q * (d * 2 ^ (K + e))) < d * 2 ^ (K + e) →
  let '(a, b) := scale n d e in round_half_even a b = q.
Proof.
  intros Hd HK He Hq. pose proof (scale_common n d e K ltac:(lia) He) as Hsc.
  destruct (scale n d e) as [a b]. destruct Hsc as (t & Ht & Ea & Eb). rewrite Ea, Eb in Hq.
  replace (a * t - q * (b * t)) with ((a - q * b) * t) in Hq by lia.
  rewrite Z.abs_mul, (Z.abs_eq t), Z.mul_assoc in Hq by lia.
  apply Z.mul_lt_mono_pos_r in Hq; [|done]. apply round_half_even_near; lia.
Qed.

(** A value close to a canonical one has its exponent, or lies just below a
    power of two. *)
Lemma near_exponent K n d p e :
  0 < n → 0 < d → 3000 ≤ K → 60 ≤ K + (Z.log2 n - Z.log2 d) →
  canonical (S754_finite false p e) → near K n d (Zpos p) e →
  exponent n d = e ∨
  (exponent n d = e - 1 ∧ Zpos p = 2 ^ 52 ∧ n * 2 ^ K < 2 ^ 52 * (d * 2 ^ (K + e))).
Proof.
  cbn [canonical]. intros Hn Hd HK Hl (He & Hp & Hc) [N1 N2].
  pose proof (exponent_last_place K n d Hn Hd ltac:(lia) Hl) as Hlast.
  assert (0 < d * 2 ^ (K + e)) as Hu by (apply Z.mul_pos_pos; lia).
  destruct (decide (exponent n d = e)) as [Ee|Ne]; [by left|right].
  assert (¬ last_place K n d e) as Hno.
  { intros H. apply Ne. by eapply last_place_unique; [| |exact Hlast|exact H]; lia. }
  assert (Zpos p = 2 ^ 52 ∧ n * 2 ^ K < 2 ^ 52 * (d * 2 ^ (K + e)) ∧ -1074 < e) as (Ep & Hlow & He').
  { unfold last_place in Hno. set (u := d * 2 ^ (K + e)) in *. set (N := n * 2 ^ K) in *.
    clearbody u N. clear Hlast Ne N2.
    assert (Zpos p * u ≤ (2 ^ 53 - 1) * u) by (apply Z.mul_le_mono_nonneg_r; lia).
    destruct (Z.lt_trichotomy (Zpos p) (2 ^ 52)) as [Hp'|[Hp'|Hp']]; [lia|rewrite Hp' in *; lia|].
    assert ((2 ^ 52 + 1) * u ≤ Zpos p * u) by (apply Z.mul_le_mono_nonneg_r; lia). lia. }
  split; [|done]. specialize (N2 Ep). eapply last_place_unique; [| |exact Hlast|]; [lia|lia|].
  assert (d * 2 ^ (K + e) = 2 * (d * 2 ^ (K + (e - 1)))) as E2.
  { replace (K + e) with (1 + (K + (e - 1))) by lia. rewrite pow2_split by lia. lia. }
  rewrite E2, Ep in *. unfold last_place. lia.
Qed.

Lemma round_ratio_near K s n d p e :
  0 < n → 0 < d → 3000 ≤ K → 60 ≤ K + (Z.log2 n - Z.log2 d) →
  canonical (S754_finite s p e) → near K n d (Zpos p) e →
  round_ratio s n d = S754_finite s p e.
Proof.
  intros Hn Hd HK Hl Hc Hnear. pose proof Hc as (He & Hp & _). pose proof Hnear as [N1 N2].
  destruct (near_exponent K n d p e) as [Ee|(Ee & Ep & Hlow)]; [done..| |]; unfold round_ratio;
    rewrite Ee; cbv zeta.
  - pose proof (round_scaled K n d e (Zpos p) Hd HK ltac:(lia) N1) as Hr.
    destruct (scale n d e) as [a b]. rewrite Hr, decide_False by lia. cbv beta iota.
    by rewrite decide_True by lia.
  - specialize (N2 Ep).
    assert (d * 2 ^ (K + e) = 2 * (d * 2 ^ (K + (e - 1)))) as E2.
    { replace (K + e) with (1 + (K + (e - 1))) by lia. rewrite pow2_split by lia. lia. }
    rewrite E2, Ep in *. pose proof (round_scaled K n d (e - 1) (2 ^ 53) Hd HK ltac:(lia)) as Hr.
    destruct (scale n d (e - 1)) as [a b]. rewrite Hr by lia. rewrite decide_True by done.
    change (2 ^ 52) with (Zpos 4503599627370496) in *. injection Ep as ->. cbv beta iota.
    rewrite decide_True by lia. f_equal. lia.
Qed.
End rounding.
