(* ===== verification/Server.v ===== *)
(** * The HTTP server library, as the simulators use it

    Requests and responses of [net/http] handlers, the routing of
    [http.ServeMux] (Go 1.21), decoding a request body into a
    [map[string]interface{}], and the assignment that panics on a nil map. *)

From Stdlib Require Import ZArith Lia.
From S2P Require Import Prelude GoLib Json Float64.

(** ** Requests, values and responses *)

Record Request := mkReq {
  q_Method : bytes;
  q_Path : bytes;        (* r.URL.Path *)
  q_RawQuery : bytes;
  q_Header : Header;
  q_Body : bytes
}.

(** What handlers put into the maps they encode. *)
#[warnings="-register-all"]
Inductive any :=
  | ANil
  | ABool (b : bool)
  | AInt (z : Z)
  | AFloat (f : float64)
  | AStr (s : bytes)
  | ATime (now : Z)
  | AList (l : list any)
  | AMap (l : list (bytes * any))      (* a map: keys are sorted when encoded *)
  | AStruct (l : list (bytes * any)).  (* a struct: its fields in order *)

(** A [map[string]interface{}]; nil is [None] where the code can have it. *)
Abbreviation gomap := (gmap bytes any).

Inductive rbody :=
  | BMap (m : gomap)      (* JSON written by [writeJSON] *)
  | BText (s : bytes).    (* text written by [http.Error] *)

Record Response := mkResp { p_Status : Z; p_Header : Header; p_Body : rbody }.

(** [http.Error] *)
Definition http_error (msg : bytes) (code : Z) : Response :=
  mkResp code
    (header_set (header_set ∅ (str "Content-Type") (str "text/plain; charset=utf-8"))
                (str "X-Content-Type-Options") (str "nosniff"))
    (BText (msg ++ [LF])).

Definition StatusOK : Z := 200.
Definition StatusCreated : Z := 201.
Definition StatusAccepted : Z := 202.
Definition StatusBadRequest : Z := 400.
Definition StatusMethodNotAllowed : Z := 405.

Definition GET : bytes := str "GET".
Definition POST : bytes := str "POST".
Definition PUT : bytes := str "PUT".

(** ** Decoding a body into a map *)

(** A decoded value as [interface{}]: numbers become float64 (null when out of
    range), a later duplicate key wins. *)
Fixpoint interface_value (v : json) : any :=
  match v with
  | JNull => ANil
  | JBool b => ABool b
  | JNum lit => match parse_float lit with Some f => AFloat f | None => ANil end
  | JStr s => AStr s
  | JArr l => AList (List.map interface_value l)
  | JObj l => AMap (map_to_list (foldl (λ (m : gomap) kv, <[kv.1 := kv.2]> m) ∅
                       (List.map (λ kv, (kv.1, interface_value kv.2)) l)))
  end.

(** [json.NewDecoder(r.Body).Decode(&body)] into a nil map, its error ignored:
    only an object allocates the map. *)
Definition decode_map (s : bytes) : option gomap :=
  match first_value s with
  | Some (JObj l, _) =>
      Some (foldl (λ m kv, <[kv.1 := interface_value kv.2]> m) ∅ l)
  | _ => None
  end.

(** [body[k] = v] *)
Definition assign (k : bytes) (v : any) (m : option gomap) : outcome (option gomap) :=
  match m with
  | None => Panic NilMapWrite
  | Some m => Ret (Some (<[k := v]> m))
  end.

(** [fmt.Sprintf("%03d", z)] *)
Definition pad_zero (w : nat) (s : bytes) : bytes := replicate (w - length s) Byte.x30 ++ s.
Definition sprintf_03d (z : Z) : bytes :=
  if decide (z < 0)%Z then str "-" ++ pad_zero 2 (itoa (- z)) else pad_zero 3 (itoa z).

Example sprintf_03d_ex :
  sprintf_03d <$> [7; 42; 1234; -5]%Z = [str "007"; str "042"; str "1234"; str "-05"].
Proof. vm_compute. reflexivity. Qed.

(** The first value of every header, under a renamed key. *)
Definition first_values (f : bytes → bytes) (h : Header) : gmap bytes bytes :=
  list_to_map (omap (λ kv : bytes * list bytes,
    match kv.2 with v :: _ => Some (f kv.1, v) | [] => None end) (map_to_list h)).

(** A string map as a value. *)
Definition string_map (m : gmap bytes bytes) : any :=
  AMap ((λ kv, (kv.1, AStr kv.2)) <$> map_to_list m).

(** A number literal of the source as the float64 it denotes. *)
Definition float_lit (s : bytes) : any :=
  match parse_float s with Some f => AFloat f | None => ANil end.

(** ** [http.ServeMux] *)

(** [path.Clean] of a rooted path, on its elements. *)
Definition clean_step (stack : list bytes) (e : bytes) : list bytes :=
  if decide (e = [] ∨ e = str ".") then stack
  else if decide (e = str "..") then tail stack
  else e :: stack.

Definition path_clean (p : bytes) : bytes :=
  SLASH :: join [SLASH] (reverse (foldl clean_step [] (split p [SLASH]))).

Definition cleanPath (p : bytes) : bytes :=
  match p with
  | [] => [SLASH]
  | b :: _ =>
      let p := if decide (b = SLASH) then p else SLASH :: p in
      let np := path_clean p in
      if decide (last p = Some SLASH ∧ np ≠ [SLASH]) then np ++ [SLASH] else np
  end.

Example cleanPath_ex :
  cleanPath <$> [str "/api//v1/products"; str "/a/./b/../c/"; str "/.."; []; str "x"; str "/a/b"] =
  [str "/api/v1/products"; str "/a/c/"; str "/"; str "/"; str "/x"; str "/a/b"].
Proof. vm_compute. reflexivity. Qed.

Inductive target (H : Type) :=
  | Handler (h : H)
  | Redirect (path : bytes)
  | NotFound.
Arguments Handler {H} h.
Arguments Redirect {H} path.
Arguments NotFound {H}.

Section mux.
Context {H : Type} (tab : list (bytes * H)).

Definition registered (p : bytes) : option H :=
  '(_, kv) ← list_find (λ kv : bytes * H, kv.1 = p) tab; Some kv.2.

(** Patterns that end in a slash match by prefix, the longest first. *)
Definition subtree (kv : bytes * H) : bool := bool_decide (last kv.1 = Some SLASH).

Definition longer (best : option (bytes * H)) (kv : bytes * H) : option (bytes * H) :=
  match best with
  | Some b => if decide (length kv.1 ≤ length b.1) then best else Some kv
  | None => Some kv
  end.

Definition best_subtree (path : bytes) : option (bytes * H) :=
  foldl longer None (List.filter (λ kv, subtree kv && has_prefix path kv.1) tab).

(** [mux.handler] *)
Definition mux_match (path : bytes) : target H :=
  match registered path with
  | Some h => Handler h
  | None => match best_subtree path with
            | Some kv => Handler kv.2
            | None => NotFound
            end
  end.

(** [redirectToPathSlash]: the tree is registered, the path itself is not. *)
Definition slash_redirect (path : bytes) : bool :=
  bool_decide (registered path = None ∧ registered (path ++ [SLASH]) ≠ None ∧ path ≠ [] ∧
               last path ≠ Some SLASH).

(** [ServeMux.Handler], without host patterns. *)
Definition mux_route (method path : bytes) : target H :=
  let p := if decide (method = str "CONNECT") then path else cleanPath path in
  if slash_redirect p then Redirect (p ++ [SLASH])
  else if decide (p = path) then mux_match path else Redirect p.

Lemma best_subtree_Some path best kv l :
  foldl longer best (List.filter (λ kv, subtree kv && has_prefix path kv.1) l) = Some kv →
  best = Some kv ∨ (kv ∈ l ∧ subtree kv = true ∧ has_prefix path kv.1 = true).
Proof.
  revert best. induction l as [|x l IH]; intros best; cbn [List.filter foldl]; [by left|].
  destruct (subtree x && has_prefix path x.1) eqn:E.
  - cbn [foldl]. intros [Hl|(Hin & Hs & Hp)]%IH; [|right; split; [by right|by split]].
    apply andb_true_iff in E as [Es E]. unfold longer in Hl.
    destruct best as [b|]; [case_decide|]; simplify_eq; (by left) || (right; split; [by left|by split]).
  - intros [Hl|(Hin & Hs & Hp)]%IH; [by left|right; split; [by right|by split]].
Qed.

(** A handler is only called for its pattern or below its tree. *)
Lemma mux_route_handler method path h :
  mux_route method path = Handler h →
  ∃ k, (k, h) ∈ tab ∧ (path = k ∨ (subtree (k, h) = true ∧ has_prefix path k = true)).
Proof.
  unfold mux_route. cbv zeta. repeat case_decide; repeat case_match; try done.
  all: unfold mux_match, registered, best_subtree.
  all: destruct (list_find _ tab) as [[i [k v]]|] eqn:E; cbn [mbind option_bind snd];
    [intros [= ->]; apply list_find_Some in E as (Hl & Hk & _); cbn in Hk; subst;
     eexists; split; [by eapply list_elem_of_lookup_2|by left]|].
  all: destruct (foldl _ _ _) as [[k v]|] eqn:E'; [|done]; intros [= ->];
    apply best_subtree_Some in E' as [|[Hin Hp]]; [done|]; exists k; auto.
Qed.
End mux.

(** The response of a server: a handler's outcome, or the redirection or 404
    of the multiplexer. *)
Inductive served :=
  | Served (o : outcome Response)
  | Redirected (path : bytes)
  | Missing.
