(* ===== verification/Transport.v ===== *)
(** * From client to server

    What [http.Client] writes and the server of the EWP simulator reads: the
    size of a request's head, its header fields, and the request a handler
    gets. *)

From Stdlib Require Import ZArith Lia.
From S2P Require Import Prelude GoLib Kernel Loader HttpParse Url Mirror Server.

(** ** The size of a head *)

(** A field is written as its name, a colon, a space, its value and a line end. *)
Definition field_size (k v : bytes) : nat := length k + length v + 4.
Definition entry_size (kv : bytes * list bytes) : nat := sum_list_with (field_size kv.1) kv.2.
Definition header_size (h : Header) : nat := sum_list_with entry_size (map_to_list h).

Definition fields_size (fs : list (bytes * bytes)) : nat :=
  sum_list_with (λ f, field_size f.1 f.2) fs.

(** The request line and the fields, without those the client adds. *)
Definition head_size (rq : HttpRequest) : Z :=
  Z.of_nat (length (rq_Method rq) + length (RequestURI (rq_URL rq)) + length (u_Host (rq_URL rq)) +
            header_size (rq_Header rq)).

(** [http.DefaultMaxHeaderBytes]; the server reads 4096 bytes more, which leave
    room for what the client adds. *)
Definition DefaultMaxHeaderBytes : Z := 2 ^ 20.

Definition Expect : bytes := str "Expect".

(** The request a handler gets. The client writes the method, the request URI of
    the URL, the header and the body; the server parses the URI. It may add
    header fields of its own. A head that is too large is refused; so is an
    expectation the server does not know (requests with any are left out). *)
Definition arrives (rq : HttpRequest) (r : Request) : Prop :=
  (head_size rq ≤ DefaultMaxHeaderBytes)%Z ∧
  rq_Header rq !! Expect = None ∧
  q_Method r = rq_Method rq ∧
  (∃ u, ParseRequestURI (RequestURI (rq_URL rq)) = Some u ∧
        q_Path r = u_Path u ∧ q_RawQuery r = u_RawQuery u) ∧
  header_get (q_Header r) X_Mirror_Source = header_get (rq_Header rq) X_Mirror_Source ∧
  q_Body r = default [] (rq_Body rq).

(** ** Header maps *)

Lemma sum_list_with_Permutation {A} (f : A → nat) l l' :
  l ≡ₚ l' → sum_list_with f l = sum_list_with f l'.
Proof. by intros ->. Qed.

Lemma header_size_delete h k :
  header_size h = default 0 (entry_size ∘ pair k <$> h !! k) + header_size (delete k h).
Proof.
  unfold header_size. destruct (h !! k) as [vs|] eqn:E; cbn [fmap option_fmap option_map default].
  - by rewrite <- (map_to_list_delete h k vs E).
  - by rewrite delete_id.
Qed.

Lemma header_size_insert h k vs :
  header_size (<[k := vs]> h) = entry_size (k, vs) + header_size (delete k h).
Proof.
  rewrite (header_size_delete _ k), lookup_insert_eq, delete_insert_eq. done.
Qed.

Lemma length_canon_case u k : length (canon_case u k) = length k.
Proof. revert u. induction k as [|b k IH]; intros u; [done|]. cbn. by rewrite IH. Qed.

Lemma length_canonical_key k : length (canonical_key k) = length k.
Proof. unfold canonical_key. destruct (forallb _ k); [apply length_canon_case|done]. Qed.

Lemma header_size_add h k v : header_size (header_add h k v) = header_size h + field_size k v.
Proof.
  unfold header_add. cbv zeta. rewrite header_size_insert, (header_size_delete h (canonical_key k)).
  unfold entry_size. cbn [fst snd]. rewrite sum_list_with_app. cbn [sum_list_with].
  assert (field_size (canonical_key k) v = field_size k v) as ->
    by (unfold field_size; by rewrite length_canonical_key).
  destruct (h !! canonical_key k); cbn; lia.
Qed.

Lemma header_size_set h k v : header_size (header_set h k v) ≤ header_size h + field_size k v.
Proof.
  unfold header_set. rewrite header_size_insert, (header_size_delete h (canonical_key k)).
  unfold entry_size. cbn [fst snd sum_list_with]. unfold field_size. rewrite length_canonical_key. lia.
Qed.

Lemma header_size_fields fs : header_size (headers_of fs) = fields_size fs.
Proof.
  unfold headers_of. induction fs as [|f fs IH] using rev_ind; [done|].
  unfold fields_size in *. rewrite foldl_app, sum_list_with_app. cbn [foldl sum_list_with].
  rewrite header_size_add. lia.
Qed.

(** Only the values of a field matter: the client checks them one by one. *)
Lemma field_valid_canonical k v : field_valid k v → field_valid (canonical_key k) v.
Proof.
  intros (Hn & Hk & Hv). split; [|split; [|done]].
  - intros E. apply (f_equal length) in E. rewrite length_canonical_key in E. by destruct k.
  - unfold canonical_key. rewrite Hk. by apply canon_case_valid.
Qed.

Lemma header_valid_add h k v :
  header_valid h → field_valid k v → header_valid (header_add h k v).
Proof.
  intros Hh Hf%field_valid_canonical. apply map_Forall_insert_2; [|done].
  apply Forall_app. split; [|by apply Forall_singleton].
  destruct (h !! canonical_key k) as [vs|] eqn:E; [by apply (Hh _ _ E)|constructor].
Qed.

Lemma header_valid_set h k v :
  header_valid h → field_valid k v → header_valid (header_set h k v).
Proof.
  intros Hh Hf%field_valid_canonical. apply map_Forall_insert_2; [|done]. by apply Forall_singleton.
Qed.

Lemma header_valid_fields fs :
  Forall (λ f, field_valid f.1 f.2) fs → header_valid (headers_of fs).
Proof.
  intros H. unfold headers_of. induction fs as [|f fs IH] using rev_ind; [apply map_Forall_empty|].
  apply Forall_app in H as [H Hf]. rewrite foldl_app. cbn [foldl].
  apply Forall_cons in Hf as [Hf _]. apply header_valid_add; [by apply IH|exact Hf].
Qed.

(** *** The copied header *)

Lemma copy_header_ok h kv :
  header_valid h → Forall (field_valid kv.1) kv.2 →
  header_valid (copy_header h kv) ∧ header_size (copy_header h kv) ≤ header_size h + entry_size kv.
Proof.
  intros Hh Hkv. unfold copy_header. destruct (isHopByHop kv.1); [split; [done|lia]|].
  destruct kv as [k vs]. unfold entry_size. cbn [fst snd] in *. revert h Hh.
  induction Hkv as [|v vs Hv _ IH]; intros h Hh; [split; [done|cbn; lia]|].
  cbn [foldl sum_list_with]. destruct (IH (header_add h k v)) as [IH1 IH2].
  { by apply header_valid_add. }
  split; [done|]. rewrite header_size_add in IH2. lia.
Qed.

Lemma copy_headers_ok order h :
  order ≡ₚ map_to_list h → header_valid h →
  header_valid (copy_headers order) ∧ header_size (copy_headers order) ≤ header_size h.
Proof.
  intros Hp Hv. unfold header_size at 2. rewrite <- Hp.
  assert (Forall (λ kv, Forall (field_valid kv.1) kv.2) order) as Ho.
  { rewrite Hp. apply map_Forall_to_list in Hv. eapply Forall_impl; [exact Hv|]. by intros [? ?]. }
  assert (∀ h, header_valid h → header_valid (foldl copy_header h order) ∧
    header_size (foldl copy_header h order) ≤ header_size h + sum_list_with entry_size order)
    as H; [|by specialize (H ∅ (map_Forall_empty _))].
  clear Hp. induction Ho as [|kv order Hkv _ IH]; intros h' Hh; [split; [done|cbn; lia]|].
  destruct (copy_header_ok h' kv Hh Hkv) as [H1 H2]. cbn [foldl sum_list_with].
  destruct (IH _ H1) as [H3 H4]. split; [done|lia].
Qed.

(** The two marks of the mirror take 75 bytes. *)
Lemma mark_headers_ok captured h :
  header_valid h → forallb value_byte (SrcIP captured) = true → length (SrcIP captured) ≤ 15 →
  header_valid (mark_headers captured h) ∧
  header_size (mark_headers captured h) ≤ header_size h + 75.
Proof.
  intros Hh Hv Hl. unfold mark_headers. split.
  - apply header_valid_set; [apply header_valid_set; [done|by_compute]|].
    by (split_and!; [|by_compute|]).
  - etransitivity; [apply header_size_set|].
    pose proof (header_size_set h X_Mirror_Source (str "ebpf-mirror-agent")) as H.
    change (field_size X_Mirror_Source (str "ebpf-mirror-agent")) with 36 in H.
    unfold field_size. change (length X_Original_Client) with 17. lia.
Qed.

(** The source address of a captured request is a valid value. *)
Lemma itoa_byte b :
  forallb value_byte (itoa (bz b)) = true ∧ length (itoa (bz b)) ≤ 3.
Proof.
  pose proof (all_bytes (λ b, forallb value_byte (itoa (bz b)) && (length (itoa (bz b)) <=? 3))) as H.
  specialize (H ltac:(vm_compute; reflexivity) b). apply andb_true_iff in H as [H1 H2].
  split; [done|]. by apply Nat.leb_le.
Qed.

Lemma ipStr_ok ip : forallb value_byte (ipStr ip) = true ∧ length (ipStr ip) ≤ 15.
Proof.
  unfold ipStr, dotted. pose proof (length_le_bytes 4 ip) as Hl.
  destruct (le_bytes 4 ip) as [|a [|b [|c [|d [|]]]]]; try done. cbn [fmap list_fmap join].
  destruct (itoa_byte a), (itoa_byte b), (itoa_byte c), (itoa_byte d).
  rewrite !forallb_app, !length_app. cbn [forallb length]. split; [|lia].
  by repeat (apply andb_true_iff; split).
Qed.

(** *** Names that do not occur *)

Lemma header_add_other h k v n :
  canonical_key k ≠ n → header_add h k v !! n = h !! n.
Proof. intros Hne. unfold header_add. by rewrite lookup_insert_ne. Qed.

Definition unnamed (n : bytes) (fs : list (bytes * bytes)) : Prop :=
  Forall (λ f, canonical_key f.1 ≠ n) fs.

#[export] Instance unnamed_dec n fs : Decision (unnamed n fs).
Proof. unfold unnamed. apply _. Defined.

Lemma headers_of_unnamed n fs :
  canonical_key n = n → unnamed n fs →
  map_Forall (λ k _, canonical_key k ≠ n) (headers_of fs).
Proof.
  intros Hn H. unfold headers_of. induction fs as [|f fs IH] using rev_ind; [apply map_Forall_empty|].
  apply Forall_app in H as [H Hf]. apply Forall_cons in Hf as [Hf _]. rewrite foldl_app. cbn [foldl].
  apply map_Forall_insert_2; [by rewrite canonical_key_idemp|by apply IH].
Qed.

Lemma copy_headers_unnamed n order :
  Forall (λ kv, canonical_key kv.1 ≠ n) order → copy_headers order !! n = None.
Proof.
  intros H. unfold copy_headers. assert ((∅ : Header) !! n = None) as H0 by apply lookup_empty.
  revert H0. generalize (∅ : Header). induction H as [|[k vs] order Hk _ IH]; intros h H0; [done|].
  cbn [foldl]. apply IH. unfold copy_header. cbn [fst snd] in *. destruct (isHopByHop k); [done|].
  revert h H0. induction vs as [|v vs IHv]; intros h H0; [done|]. cbn [foldl].
  apply IHv. by rewrite header_add_other.
Qed.

(** ** A request the client sends and the server takes *)

Lemma request_taken order base captured path rq :
  order ≡ₚ map_to_list (Headers captured) →
  build_request order base captured path = Some rq →
  header_valid (Headers captured) → forallb value_byte (SrcIP captured) = true →
  length (SrcIP captured) ≤ 15 →
  map_Forall (λ k _, canonical_key k ≠ Expect) (Headers captured) →
  header_valid (rq_Header rq) ∧ header_size (rq_Header rq) ≤ header_size (Headers captured) + 75 ∧
  rq_Header rq !! Expect = None ∧
  header_get (rq_Header rq) X_Mirror_Source = str "ebpf-mirror-agent".
Proof.
  intros Hp E Hv Hs Hl Hex. unfold build_request in E. destruct (NewRequest _ _ _); [|done].
  injection E as <-. cbn [rq_Header]. destruct (copy_headers_ok _ _ Hp Hv) as [H1 H2].
  destruct (mark_headers_ok captured _ H1 Hs Hl) as [H3 H4].
  split; [done|]. split; [lia|]. split.
  - rewrite mark_headers_lookup, !decide_False by by_compute. apply copy_headers_unnamed.
    rewrite Hp. apply map_Forall_to_list in Hex. eapply Forall_impl; [exact Hex|]. by intros [? ?].
  - unfold header_get. change (canonical_key X_Mirror_Source) with X_Mirror_Source.
    rewrite mark_headers_lookup. by rewrite decide_False, decide_True by done.
Qed.
