(* ===== verification/JsonText.v ===== *)
(** * The text of JSON documents

    [encoding/json]'s encoder as [writeJSON] uses it: two spaces of indentation,
    HTML-safe strings, the shortest decimal form of a float64, RFC 3339 times;
    and that the decoder of [Json] reads back every document it writes, up to
    bytes that are not UTF-8, which the encoder replaces. *)

From Stdlib Require Import ZArith Lia SpecFloat.
From S2P Require Import Prelude GoLib Json Float64 Server.

(** ** Strings *)

Definition hex_lower (n : Z) : byte := if decide (n < 10)%Z then zb (0x30 + n) else zb (0x61 + n - 10).

(** A byte below 0x80 inside a string. *)
Definition escape_ascii (b : byte) : bytes :=
  if decide (b = DQUOTE ∨ b = Byte.x5c) then [Byte.x5c; b]
  else if decide (b = LF) then str "\n"
  else if decide (b = CR) then str "\r"
  else if decide (b = TAB) then str "\t"
  else if decide (bz b < 0x20 ∨ b ∈ str "<>&")%Z
  then str "\u00" ++ [hex_lower (bz b / 16); hex_lower (bz b mod 16)]
  else [b].

(** A well-formed sequence of three bytes: U+2028 and U+2029 are escaped. *)
Definition escape_3 (b c d : byte) : bytes :=
  if decide (b = Byte.xe2 ∧ c = Byte.x80 ∧ d = Byte.xa8) then str "\u2028"
  else if decide (b = Byte.xe2 ∧ c = Byte.x80 ∧ d = Byte.xa9) then str "\u2029"
  else [b; c; d].

Definition bad_byte : bytes := str "\ufffd".

(** Go over a string by its runes; a byte that starts none is [bad]. *)
Section runes.
Context (ascii : byte → bytes) (three : byte → byte → byte → bytes) (bad : bytes).

Fixpoint by_rune (s : bytes) : bytes :=
  match s with
  | [] => []
  | b :: s1 =>
      if decide (bz b < 0x80)%Z then ascii b ++ by_rune s1
      else
        match s1 with
        | c :: s2 =>
            if utf8_2 b c then [b; c] ++ by_rune s2 else
            match s2 with
            | d :: s3 =>
                if utf8_3 b c d then three b c d ++ by_rune s3 else
                match s3 with
                | e :: s4 =>
                    if utf8_4 b c d e then [b; c; d; e] ++ by_rune s4
                    else bad ++ by_rune s1
                | [] => bad ++ by_rune s1
                end
            | [] => bad ++ by_rune s1
            end
        | [] => bad ++ by_rune s1
        end
  end.
End runes.

Definition escape_string : bytes → bytes := by_rune escape_ascii escape_3 bad_byte.

(** What is left of a string: invalid bytes are replaced. *)
Definition sanitize : bytes → bytes := by_rune (λ b, [b]) (λ b c d, [b; c; d]) replacement.

Definition quoted (s : bytes) : bytes := DQUOTE :: escape_string s ++ [DQUOTE].

(** ** Numbers *)

(** Ten to a possibly negative power, as a ratio. *)
Definition pow10 (e : Z) : Z * Z :=
  if decide (0 ≤ e)%Z then (10 ^ e, 1)%Z else (1, 10 ^ (- e))%Z.

(** The number of digits before the decimal point of [a / b]: the least [k] with
    [a / b < 10 ^ k]. *)
Definition below_pow10 (a b k : Z) : bool :=
  let '(p, q) := pow10 k in bool_decide (a * q < b * p)%Z.
Fixpoint point_from (fuel : nat) (a b k : Z) : Z :=
  match fuel with
  | 0 => k
  | S fuel => if below_pow10 a b k then k else point_from fuel a b (k + 1)
  end.
Definition point_of (a b : Z) : Z :=
  point_from 6 a b (3 * ((Z.log2 a - Z.log2 b) / 10) - 1)%Z.

(** The nearest decimals with [n] digits below and above, the nearest first, as
    integers scaled by [10 ^ (k - n)]. *)
Definition candidates (a b k : Z) (n : nat) : list Z :=
  let '(p, q) := pow10 (Z.of_nat n - k) in
  let q' := (a * p / (b * q))%Z in
  if decide (2 * ((a * p) mod (b * q)) ≤ b * q)%Z then [q'; (q' + 1)%Z] else [(q' + 1)%Z; q'].

(** The digits [ds] with the decimal point behind the first [dp] of them, in
    the 'f' format, or in the 'e' format for very small and large numbers. *)
Definition plain_digits (ds : bytes) (dp : Z) : bytes :=
  if decide (dp ≤ 0)%Z then str "0." ++ replicate (Z.to_nat (- dp)) Byte.x30 ++ ds
  else if decide (len ds ≤ dp)%Z then ds ++ replicate (Z.to_nat (dp - len ds)) Byte.x30
  else take (Z.to_nat dp) ds ++ str "." ++ drop (Z.to_nat dp) ds.

Definition exp_digits (ds : bytes) (dp : Z) : bytes :=
  take 1 ds ++ (if decide (len ds ≤ 1)%Z then [] else str "." ++ drop 1 ds) ++
  (if decide (0 < dp)%Z then str "e+" ++ itoa (dp - 1) else str "e-" ++ itoa (1 - dp)).

Definition render (s : bool) (ds : bytes) (dp : Z) : bytes :=
  (if s then str "-" else []) ++
  (if decide (dp < -5 ∨ 21 < dp)%Z then exp_digits ds dp else plain_digits ds dp).

(** A literal of the candidate [z], when it denotes [f] exactly. *)
Definition denotes (lit : bytes) (f : float64) : bool :=
  bool_decide (parse_number lit = Some (lit, [])) && bool_decide (parse_float lit = Some f).

Definition literal (s : bool) (k : Z) (n : nat) (z : Z) : bytes :=
  let ds := itoa z in
  let dp := (k + (len ds - Z.of_nat n))%Z in
  render s (trim_right_byte Byte.x30 ds) dp.

Definition try_digits (f : float64) (s : bool) (a b k : Z) (n : nat) : option bytes :=
  List.find (λ lit, denotes lit f) (literal s k n <$> candidates a b k n).

Fixpoint first_some {A} (l : list (option A)) : option A :=
  match l with
  | Some x :: _ => Some x
  | None :: l' => first_some l'
  | [] => None
  end.

(** The shortest decimal that reads back as [f]; at most seventeen digits. Only
    finite values are encoded. *)
Definition format_float (f : float64) : bytes :=
  match f with
  | S754_zero s => if s then str "-0" else str "0"
  | S754_finite s m e =>
      let '(a, b) := scale (Zpos m) 1 (- e) in
      let k := point_of a b in
      default [] (first_some (try_digits f s a b k <$> seq 1 17))
  | _ => []
  end.

Example format_float_ex :
  (λ lit, format_float <$> parse_float lit) <$>
    [str "99.99"; str "100"; str "0.1"; str "1e21"; str "1E-7"; str "123456789012345680000";
     str "-2.5e-3"; str "5e-324"; str "1.7976931348623157e308"; str "9007199254740993"; str "-0"] =
  Some <$> [str "99.99"; str "100"; str "0.1"; str "1e+21"; str "1e-7";
     str "123456789012345680000"; str "-0.0025"; str "5e-324"; str "1.7976931348623157e+308";
     str "9007199254740992"; str "-0"].
Proof. vm_compute. reflexivity. Qed.

(** ** Times *)

(** The civil date of a day counted from 1970-01-01. *)
Definition civil (day : Z) : Z * Z * Z :=
  let z := (day + 719468)%Z in
  let era := (z / 146097)%Z in
  let doe := (z mod 146097)%Z in
  let yoe := ((doe - doe / 1460 + doe / 36524 - doe / 146096) / 365)%Z in
  let doy := (doe - (365 * yoe + yoe / 4 - yoe / 100))%Z in
  let mp := ((5 * doy + 2) / 153)%Z in
  let d := (doy - (153 * mp + 2) / 5 + 1)%Z in
  let m := (if decide (mp < 10) then mp + 3 else mp - 9)%Z in
  ((yoe + era * 400 + (if decide (m ≤ 2) then 1 else 0))%Z, m, d).

Definition padded (w : nat) (z : Z) : bytes := pad_zero w (itoa z).

(** [Time.MarshalJSON] in UTC, without the quotes; [now] is in nanoseconds. *)
Definition time_text (now : Z) : bytes :=
  let secs := (now / 1000000000)%Z in
  let '(y, m, d) := civil (secs / 86400) in
  let t := (secs mod 86400)%Z in
  padded 4 y ++ str "-" ++ padded 2 m ++ str "-" ++ padded 2 d ++ str "T" ++
  padded 2 (t / 3600) ++ str ":" ++ padded 2 (t / 60 mod 60) ++ str ":" ++ padded 2 (t mod 60) ++
  match trim_right_byte Byte.x30 (padded 9 (now mod 1000000000)) with
  | [] => []
  | ds => str "." ++ ds
  end ++ str "Z".

Example time_text_ex :
  time_text <$> [0; 1700000000123450000; 951782400000000000]%Z =
  [str "1970-01-01T00:00:00Z"; str "2023-11-14T22:13:20.12345Z"; str "2000-02-29T00:00:00Z"].
Proof. vm_compute. reflexivity. Qed.


(** ** Reading strings back *)

(** The parser on a byte that is neither ASCII nor part of an escape. *)
Lemma parse_string_high b s :
  (0x80 ≤ bz b)%Z →
  parse_string (b :: s) =
  match s with
  | c :: s2 =>
      if utf8_2 b c then emit [b; c] (parse_string s2) else
      match s2 with
      | d :: s3 =>
          if utf8_3 b c d then emit [b; c; d] (parse_string s3) else
          match s3 with
          | e :: s4 =>
              if utf8_4 b c d e then emit [b; c; d; e] (parse_string s4)
              else emit replacement (parse_string s)
          | [] => emit replacement (parse_string s)
          end
      | [] => emit replacement (parse_string s)
      end
  | [] => None
  end.
Proof.
  intros Hb. assert (∀ c, (bz c < 0x80)%Z → b ≠ c) as Hne by (intros c Hc ->; lia).
  cbn [parse_string]. rewrite (decide_False (P := b = DQUOTE)) by (by apply Hne).
  rewrite (decide_False (P := b = Byte.x5c)) by (by apply Hne).
  rewrite !decide_False by lia. done.
Qed.

Lemma parse_escape_ascii b s :
  (bz b < 0x80)%Z → parse_string (escape_ascii b ++ s) = emit [b] (parse_string s).
Proof. intros Hb. destruct b; first [reflexivity | exfalso; vm_compute in Hb; discriminate]. Qed.

Lemma parse_bad_byte s : parse_string (bad_byte ++ s) = emit replacement (parse_string s).
Proof. reflexivity. Qed.

Lemma parse_escape_3 b c d s :
  (0x80 ≤ bz b)%Z → utf8_2 b c = false → utf8_3 b c d = true →
  parse_string (escape_3 b c d ++ s) = emit [b; c; d] (parse_string s).
Proof.
  intros Hb H2 H3. unfold escape_3.
  case_decide as E; [destruct E as (-> & -> & ->); reflexivity|].
  case_decide as E'; [destruct E' as (-> & -> & ->); reflexivity|].
  cbn [app]. by rewrite parse_string_high, H2, H3.
Qed.

(** What is escaped is read back, up to invalid bytes. *)
Lemma parse_escape_string s r :
  parse_string (escape_string s ++ DQUOTE :: r) = Some (sanitize s, r).
Proof.
  unfold escape_string, sanitize. induction s as [s IH] using list_len_ind.
  destruct s as [|b s1]; [done|]. cbn [by_rune].
  assert (parse_string ((bad_byte ++ by_rune escape_ascii escape_3 bad_byte s1) ++ DQUOTE :: r) =
          Some (replacement ++ by_rune (λ b, [b]) (λ b c d, [b; c; d]) replacement s1, r)) as Hbad.
  { by rewrite <- (assoc_L (++)), parse_bad_byte, IH by (cbn [length]; lia). }
  case_decide as Hb.
  { by rewrite <- (assoc_L (++)), parse_escape_ascii, IH by (done || cbn [length]; lia). }
  destruct s1 as [|c s2]; [done|].
  destruct (utf8_2 b c) eqn:E2.
  { cbn [app]. rewrite parse_string_high, E2, IH by (cbn [length]; lia). done. }
  destruct s2 as [|d s3]; [done|].
  destruct (utf8_3 b c d) eqn:E3.
  { rewrite <- (assoc_L (++)), parse_escape_3, IH by (done || cbn [length]; lia). done. }
  destruct s3 as [|e s4]; [done|].
  destruct (utf8_4 b c d e) eqn:E4; [|done].
  cbn [app]. rewrite parse_string_high, E2, E3, E4, IH by (cbn [length]; lia). done.
Qed.

(** ** Reading numbers back *)

(** A byte that cannot continue a number, or the end. *)
Definition ends_number (r : bytes) : bool :=
  match r with
  | [] => true
  | b :: _ => negb (is_digit b) && bool_decide (b ≠ Byte.x2e ∧ b ≠ Byte.x65 ∧ b ≠ Byte.x45)
  end.

Lemma ends_number_head b r :
  ends_number (b :: r) = true →
  is_digit b = false ∧ b ≠ Byte.x2e ∧ b ≠ Byte.x65 ∧ b ≠ Byte.x45.
Proof.
  intros H. cbn [ends_number] in H.
  apply andb_true_iff in H as [H1 H2]. apply negb_true_iff in H1. by apply bool_decide_eq_true in H2.
Qed.

Lemma span_digits_extend r s d x :
  ends_number r = true →
  span_digits s = (d, x) → span_digits (s ++ r) = (d, x ++ r).
Proof.
  intros Hr. revert d x. induction s as [|b s IH]; intros d x; cbn [span_digits app].
  - intros [= <- <-]. destruct r as [|b r]; [done|]. cbn [span_digits app].
    by destruct (ends_number_head b r Hr) as [-> _].
  - destruct (is_digit b); [|by intros [= <- <-]].
    destruct (span_digits s) as [d' x']. intros [= <- <-]. by rewrite (IH d' x').
Qed.

Lemma digits1_extend r s d x :
  ends_number r = true →
  digits1 s = Some (d, x) → digits1 (s ++ r) = Some (d, x ++ r).
Proof.
  intros Hr. unfold digits1. destruct (span_digits s) as [[|b d'] x'] eqn:E; [done|].
  intros [= <- <-]. by rewrite (span_digits_extend _ _ _ _ Hr E).
Qed.

Lemma parse_int_part_extend r s d x :
  ends_number r = true →
  parse_int_part s = Some (d, x) → parse_int_part (s ++ r) = Some (d, x ++ r).
Proof.
  intros Hr. unfold parse_int_part. destruct s as [|b s]; [done|]. cbn [app].
  destruct (decide (b = Byte.x30)) as [->|Hb]; [by intros [= <- <-]|].
  intros H. assert (digits1 (b :: s) = Some (d, x)) as H' by (by destruct b).
  apply (digits1_extend r _ _ _ Hr) in H'. cbn [app] in H'. by destruct b.
Qed.

Lemma parse_frac_part_extend r s d x :
  ends_number r = true →
  parse_frac_part s = Some (d, x) → parse_frac_part (s ++ r) = Some (d, x ++ r).
Proof.
  intros Hr. unfold parse_frac_part. destruct s as [|b s].
  - intros [= <- <-]. destruct r as [|b r]; [done|]. cbn [app].
    destruct (ends_number_head b r Hr) as (_ & Hb & _). by destruct b.
  - cbn [app]. destruct (decide (b = Byte.x2e)) as [->|Hb].
    + destruct (digits1 s) as [[d' x']|] eqn:E; [|done]. intros [= <- <-].
      by rewrite (digits1_extend _ _ _ _ Hr E).
    + intros H. assert (d = [] ∧ x = b :: s) as [-> ->] by (by destruct b; simplify_eq).
      by destruct b.
Qed.

Lemma parse_exp_part_extend r s d x :
  ends_number r = true →
  parse_exp_part s = Some (d, x) → parse_exp_part (s ++ r) = Some (d, x ++ r).
Proof.
  intros Hr. unfold parse_exp_part. destruct s as [|b s].
  - intros [= <- <-]. destruct r as [|b r]; [done|]. cbn [app].
    destruct (ends_number_head b r Hr) as (_ & _ & Hb). by rewrite decide_False by tauto.
  - cbn [app]. case_decide; [|by intros [= <- <-]]. destruct s as [|g s]; [done|]. cbn [app].
    case_decide.
    + destruct (digits1 s) as [[d' x']|] eqn:E; [|done]. intros [= <- <-].
      by rewrite (digits1_extend _ _ _ _ Hr E).
    + destruct (digits1 (g :: s)) as [[d' x']|] eqn:E; [|done]. intros [= <- <-].
      apply (digits1_extend r _ _ _ Hr) in E. cbn [app] in E. by rewrite E.
Qed.

Lemma parse_number_extend r s d x :
  ends_number r = true →
  parse_number s = Some (d, x) → parse_number (s ++ r) = Some (d, x ++ r).
Proof.
  intros Hr. unfold parse_number. destruct s as [|b s]; [done|]. cbn [app].
  assert (∃ sg s0, match b :: s with Byte.x2d :: s' => ([Byte.x2d], s') | _ => ([], b :: s) end =
                   (sg, s0) ∧
    match b :: s ++ r with Byte.x2d :: s' => ([Byte.x2d], s') | _ => ([], b :: s ++ r) end =
                   (sg, s0 ++ r)) as (sg & s0 & -> & ->).
  { destruct b; eexists _, _; split; reflexivity. }
  destruct (parse_int_part s0) as [[i s1]|] eqn:E1; [|done].
  rewrite (parse_int_part_extend _ _ _ _ Hr E1). cbn [mbind option_bind].
  destruct (parse_frac_part s1) as [[f s2]|] eqn:E2; [|done].
  rewrite (parse_frac_part_extend _ _ _ _ Hr E2). cbn [mbind option_bind].
  destruct (parse_exp_part s2) as [[e s3]|] eqn:E3; [|done].
  rewrite (parse_exp_part_extend _ _ _ _ Hr E3). cbn [mbind option_bind]. by intros [= <- <-].
Qed.

(** ** Documents *)

(** [Encoder.Encode] with [SetIndent("", "  ")], [d] levels deep, without the
    final line break. *)
Definition newline (d : nat) : bytes := LF :: replicate (2 * d) SP.

Definition block (o c : byte) (d : nat) (ts : list bytes) : bytes :=
  match ts with
  | [] => [o; c]
  | _ => o :: newline (S d) ++ join (COMMA :: newline (S d)) ts ++ newline d ++ [c]
  end.

Fixpoint print (d : nat) (v : json) : bytes :=
  match v with
  | JNull => str "null"
  | JBool b => if b then str "true" else str "false"
  | JNum lit => lit
  | JStr s => quoted s
  | JArr l => block LBRACK RBRACK d (List.map (print (S d)) l)
  | JObj l => block LBRACE RBRACE d
                (List.map (λ kv, quoted kv.1 ++ COLON :: SP :: print (S d) kv.2) l)
  end.

Example print_ex :
  print 0 (JObj [(str "a", JArr [JNum (str "1"); JStr (str "<")]); (str "b", JObj [])]) =
  str "{" ++ [LF] ++ qstr "  'a': [" ++ [LF] ++ str "    1," ++ [LF] ++ qstr "    '\u003c'" ++ [LF] ++
  str "  ]," ++ [LF] ++ qstr "  'b': {}" ++ [LF] ++ str "}".
Proof. vm_compute. reflexivity. Qed.

(** What is read back: the same document with its strings made valid. *)
Fixpoint sane (v : json) : json :=
  match v with
  | JStr s => JStr (sanitize s)
  | JArr l => JArr (List.map sane l)
  | JObj l => JObj (List.map (λ kv, (sanitize kv.1, sane kv.2)) l)
  | _ => v
  end.

Definition number_ok (lit : bytes) : bool := bool_decide (parse_number lit = Some (lit, [])).

Fixpoint numbers_ok (v : json) : bool :=
  match v with
  | JNum lit => number_ok lit
  | JArr l => forallb numbers_ok l
  | JObj l => forallb (λ kv, numbers_ok kv.2) l
  | _ => true
  end.

Fixpoint nesting (v : json) : nat :=
  match v with
  | JArr l => S (max_list (List.map nesting l))
  | JObj l => S (max_list (List.map (λ kv, nesting kv.2) l))
  | _ => 0
  end.

(** Induction over documents. *)
Section json_induction.
Context (P : json → Prop) (Hnull : P JNull) (Hbool : ∀ b, P (JBool b)) (Hnum : ∀ lit, P (JNum lit))
  (Hstr : ∀ s, P (JStr s)) (Harr : ∀ l, Forall P l → P (JArr l))
  (Hobj : ∀ l, Forall (λ kv, P kv.2) l → P (JObj l)).

Fixpoint json_induction (v : json) : P v :=
  match v with
  | JNull => Hnull
  | JBool b => Hbool b
  | JNum lit => Hnum lit
  | JStr s => Hstr s
  | JArr l => Harr l ((fix go l := match l return Forall P l with
                       | [] => Forall_nil_2 P
                       | v :: l => Forall_cons_2 P v l (json_induction v) (go l)
                       end) l)
  | JObj l => Hobj l ((fix go l := match l return Forall (λ kv, P kv.2) l with
                       | [] => Forall_nil_2 _
                       | kv :: l => Forall_cons_2 _ kv l (json_induction kv.2) (go l)
                       end) l)
  end.
End json_induction.

Lemma skip_newline d s : skip_ws (newline d ++ s) = skip_ws s.
Proof. unfold newline. cbn [app skip_ws]. change (is_ws LF) with true. cbn match.
  induction (2 * d) as [|n IH]; [done|]. cbn [replicate app skip_ws]. done.
Qed.

Lemma value_newline fuel depth d s : value fuel depth (newline d ++ s) = value fuel depth s.
Proof. destruct fuel; [done|]. cbn [value]. by rewrite skip_newline. Qed.

Lemma value_space fuel depth s : value fuel depth (SP :: s) = value fuel depth s.
Proof. by destruct fuel. Qed.

(** A number literal starts with a minus sign or a digit. *)
Lemma number_head lit :
  number_ok lit = true → ∃ b t, lit = b :: t ∧ (b = Byte.x2d ∨ is_digit b = true).
Proof.
  unfold number_ok. rewrite bool_decide_eq_true. destruct lit as [|b t]; [done|].
  intros H. exists b, t. split; [done|]. destruct (decide (b = Byte.x2d)) as [|Hm]; [by left|right].
  destruct (is_digit b) eqn:E; [done|exfalso].
  assert (parse_int_part (b :: t) = None) as Hi.
  { unfold parse_int_part, digits1. cbn [span_digits]. rewrite E. by destruct b. }
  unfold parse_number in H. destruct b; try done; by rewrite Hi in H.
Qed.

(** The text [t] reads as [v], whatever follows that does not continue it. *)
Definition reads (depth : N) (t : bytes) (v : json) : Prop :=
  ∃ f0, ∀ fuel r, f0 ≤ fuel → ends_number r = true → value fuel depth (t ++ r) = Some (v, r).

Lemma elements_read depth d ts vs :
  Forall2 (reads depth) ts vs → ts ≠ [] →
  ∃ f0, ∀ fuel r, f0 ≤ fuel →
    elements fuel depth (newline (S d) ++ join (COMMA :: newline (S d)) ts ++
                         newline d ++ RBRACK :: r) = Some (vs, r).
Proof.
  induction 1 as [|t v ts vs [f Hf] Hl IH]; [done|]. intros _. destruct Hl as [|t' v' ts vs Ht Hl].
  - exists (S f). intros [|fuel] r Hr; [lia|]. cbn [elements join].
    rewrite value_newline, Hf by (done || lia). cbn [mbind option_bind].
    by rewrite skip_newline.
  - destruct IH as [f' Hf']; [done|]. exists (S (f + f')). intros [|fuel] r Hr; [lia|].
    cbn [elements]. change (join ?sep (t :: t' :: ts)) with (t ++ sep ++ join sep (t' :: ts)).
    rewrite <- !(assoc_L (++)), value_newline. rewrite Hf by (done || lia).
    cbn [mbind option_bind]. cbn [app skip_ws]. change (is_ws COMMA) with false. cbn match.
    rewrite decide_False, decide_True, Hf' by (done || lia). done.
Qed.

Lemma members_read depth d l :
  Forall (λ kv, reads depth (print (S d) kv.2) (sane kv.2)) l → l ≠ [] →
  ∃ f0, ∀ fuel r, f0 ≤ fuel →
    members fuel depth (newline (S d) ++
        join (COMMA :: newline (S d))
          (List.map (λ kv, quoted kv.1 ++ COLON :: SP :: print (S d) kv.2) l) ++
        newline d ++ RBRACE :: r) = Some (List.map (λ kv, (sanitize kv.1, sane kv.2)) l, r).
Proof.
  assert (∀ k t r, quoted k ++ COLON :: SP :: t ++ r =
          DQUOTE :: escape_string k ++ DQUOTE :: COLON :: SP :: t ++ r) as Hq.
  { intros. unfold quoted. cbn [app]. by rewrite <- (assoc_L (++)). }
  induction 1 as [|[k v] l [f Hf] Hl IH]; [done|]. intros _. cbn [fst snd] in *.
  destruct Hl as [|kv l Hv Hl].
  - exists (S f). intros [|fuel] r Hr; [lia|]. cbn [members List.map join fst snd].
    rewrite skip_newline, <- (assoc_L (++)). cbn [app]. rewrite Hq.
    cbn [app skip_ws]. change (is_ws DQUOTE) with false. cbn match.
    rewrite decide_True, parse_escape_string by done. cbn [mbind option_bind skip_ws].
    change (is_ws COLON) with false. cbn match. rewrite decide_True, value_space by done.
    rewrite Hf by (done || lia). cbn [mbind option_bind]. by rewrite skip_newline.
  - destruct IH as [f' Hf']; [done|]. exists (S (f + f')). intros [|fuel] r Hr; [lia|].
    cbn [members List.map fst snd] in *.
    change (join ?sep (?t :: ?t' :: ?ts)) with (t ++ sep ++ join sep (t' :: ts)).
    rewrite skip_newline, <- !(assoc_L (++)). cbn [app]. rewrite Hq.
    cbn [app skip_ws]. change (is_ws DQUOTE) with false. cbn match.
    rewrite decide_True, parse_escape_string by done. cbn [mbind option_bind skip_ws].
    change (is_ws COLON) with false. cbn match. rewrite decide_True, value_space by done.
    rewrite Hf by (done || lia). cbn [mbind option_bind skip_ws].
    change (is_ws COMMA) with false. cbn match.
    rewrite decide_False, decide_True, Hf' by (done || lia). done.
Qed.

Lemma print_head d v :
  numbers_ok v = true → ∃ b t, print d v = b :: t ∧ is_ws b = false ∧ b ≠ RBRACK.
Proof.
  assert (∀ o c d ts, ∃ t, block o c d ts = o :: t) as Hb.
  { intros o c d' [|t ts]; eexists; reflexivity. }
  destruct v; cbn [print numbers_ok]; intros Hn.
  - by do 2 eexists.
  - destruct b; by do 2 eexists.
  - apply number_head in Hn as (b & t & -> & Hn). exists b, t. split; [done|].
    destruct Hn as [->|Hn]; [done|]. by destruct b.
  - by do 2 eexists.
  - destruct (Hb LBRACK RBRACK d (List.map (print (S d)) l)) as [t ->]. by do 2 eexists.
  - edestruct (Hb LBRACE RBRACE d) as [t ->]. by do 2 eexists.
Qed.

Lemma number_reads depth lit : number_ok lit = true → reads depth lit (JNum lit).
Proof.
  intros Hn. exists 1. intros [|fuel] r Hf Hr; [lia|].
  assert (parse_number (lit ++ r) = Some (lit, r)) as Hp.
  { unfold number_ok in Hn. apply bool_decide_eq_true in Hn.
    by apply (parse_number_extend r _ _ _ Hr) in Hn. }
  apply number_head in Hn as (b & t & -> & Hb). cbn [app] in *. cbn [value].
  destruct b; try (by destruct Hb as [Hb|Hb]); cbn [skip_ws]; match goal with
    |- context [is_ws ?c] => change (is_ws c) with false end; cbn match;
    rewrite !decide_False by done;
    match goal with |- context [has_prefix (?c :: ?u) (str "true")] =>
      change (has_prefix (c :: u) (str "true")) with false;
      change (has_prefix (c :: u) (str "false")) with false;
      change (has_prefix (c :: u) (str "null")) with false end; cbn match; by rewrite Hp.
Qed.

Lemma max_list_le n l : max_list l ≤ n → Forall (λ m, m ≤ n) l.
Proof.
  induction l as [|m l IH]; [done|]. change (max_list (m :: l)) with (m `max` max_list l).
  intros H. constructor; [lia|]. apply IH. lia.
Qed.

(** The elements of an array or the members of an object behind its bracket. *)
Definition inner (c : byte) (d : nat) (ts : list bytes) : bytes :=
  newline (S d) ++ join (COMMA :: newline (S d)) ts ++ newline d ++ [c].

Lemma block_inner o c d ts : ts ≠ [] → block o c d ts = o :: inner c d ts.
Proof. by destruct ts. Qed.

Lemma inner_app c d ts r :
  inner c d ts ++ r = newline (S d) ++ join (COMMA :: newline (S d)) ts ++ newline d ++ c :: r.
Proof. unfold inner. by rewrite <- !(assoc_L (++)). Qed.

(** Arrays and objects, given how what is inside them reads. *)
Lemma empty_array_reads depth d :
  ¬ (max_depth ≤ depth)%N → reads depth (block LBRACK RBRACK d []) (JArr []).
Proof.
  intros Hd. exists 1. intros [|fuel] r Hf _; [lia|]. cbn [block app value skip_ws].
  change (is_ws LBRACK) with false. cbn match.
  rewrite decide_False, decide_True, decide_False by done. reflexivity.
Qed.

Lemma empty_object_reads depth d :
  ¬ (max_depth ≤ depth)%N → reads depth (block LBRACE RBRACE d []) (JObj []).
Proof.
  intros Hd. exists 1. intros [|fuel] r Hf _; [lia|]. cbn [block app value skip_ws].
  change (is_ws LBRACE) with false. cbn match.
  rewrite decide_True, decide_False by done. reflexivity.
Qed.

Lemma array_reads depth d t ts vs :
  ¬ (max_depth ≤ depth)%N → Forall2 (reads (depth + 1)) (t :: ts) vs →
  (∃ b u, t = b :: u ∧ is_ws b = false ∧ b ≠ RBRACK) →
  reads depth (block LBRACK RBRACK d (t :: ts)) (JArr vs).
Proof.
  intros Hd Hl (b & u & -> & Hw & Hb). destruct (elements_read _ d _ _ Hl) as [f Hf]; [done|].
  exists (S f). intros [|fuel] r Hfu Hr; [lia|]. rewrite block_inner by done. cbn [app value skip_ws].
  change (is_ws LBRACK) with false. cbn match.
  rewrite decide_False, decide_True, decide_False by done. rewrite inner_app, Hf by lia.
  rewrite skip_newline. destruct ts; cbn [join app skip_ws]; rewrite Hw; by rewrite decide_False by done.
Qed.

Lemma object_reads depth d kv l :
  ¬ (max_depth ≤ depth)%N →
  Forall (λ kv, reads (depth + 1) (print (S d) kv.2) (sane kv.2)) (kv :: l) →
  reads depth
    (block LBRACE RBRACE d (List.map (λ kv, quoted kv.1 ++ COLON :: SP :: print (S d) kv.2) (kv :: l)))
    (JObj (List.map (λ kv, (sanitize kv.1, sane kv.2)) (kv :: l))).
Proof.
  intros Hd Hl. destruct (members_read _ d _ Hl) as [f Hf]; [done|].
  exists (S f). intros [|fuel] r Hfu Hr; [lia|]. rewrite block_inner by done. cbn [app value skip_ws].
  change (is_ws LBRACE) with false. cbn match.
  rewrite decide_True, decide_False by done. rewrite inner_app, Hf by lia.
  rewrite skip_newline. destruct l; cbn [List.map join quoted app skip_ws];
    change (is_ws DQUOTE) with false; cbn match; by rewrite decide_False by done.
Qed.

(** Every document that is not nested too deeply is read back from its text. *)
Lemma print_reads v : ∀ d depth,
  numbers_ok v = true → (depth + N.of_nat (nesting v) ≤ max_depth)%N →
  reads depth (print d v) (sane v).
Proof.
  induction v as [|b|lit|s|l IH|l IH] using json_induction; intros d depth Hn Hd.
  - exists 1. intros [|fuel] r Hf _; [lia|]. reflexivity.
  - exists 1. intros [|fuel] r Hf _; [lia|]. by destruct b.
  - by apply number_reads.
  - exists 1. intros [|fuel] r Hf _; [lia|]. cbn [print sane]. unfold quoted.
    cbn [app value skip_ws]. change (is_ws DQUOTE) with false. cbn match.
    rewrite !(decide_False (P := DQUOTE = _)) by done. rewrite decide_True by done.
    rewrite <- (assoc_L (++)). cbn [app]. by rewrite parse_escape_string.
  - cbn [print sane nesting numbers_ok] in *.
    rewrite forallb_forall in Hn. pose proof (max_list_le _ (List.map nesting l) ltac:(reflexivity)) as Hm.
    rewrite Forall_map, Forall_forall in Hm. rewrite Forall_forall in IH.
    destruct l as [|v l]; [by apply empty_array_reads; lia|].
    apply (array_reads _ _ _ (List.map (print (S d)) l)); [lia| |].
    + change (Forall2 (reads (depth + 1)) (print (S d) <$> v :: l) (sane <$> v :: l)).
      apply Forall2_fmap_2, Forall_Forall2_diag, Forall_forall. intros w Hw.
      apply IH; [done|apply Hn; by apply list_elem_of_In|]. specialize (Hm w Hw). cbn in Hm, Hd. lia.
    + cbn [List.map]. apply print_head. apply Hn. by left.
  - cbn [print sane nesting numbers_ok] in *.
    rewrite forallb_forall in Hn.
    pose proof (max_list_le _ (List.map (λ kv, nesting kv.2) l) ltac:(reflexivity)) as Hm.
    rewrite Forall_map, Forall_forall in Hm. rewrite Forall_forall in IH.
    destruct l as [|v l]; [by apply empty_object_reads; lia|].
    apply (object_reads _ _ v l); [lia|].
    apply Forall_forall. intros w Hw.
    apply IH; [done|apply Hn; by apply list_elem_of_In|]. specialize (Hm w Hw). cbn in Hm, Hd. lia.
Qed.

(** A decoder that reads one value stops behind the document. *)
Lemma first_value_print v r :
  numbers_ok v = true → (N.of_nat (nesting v) ≤ max_depth)%N → ends_number r = true →
  first_value (print 0 v ++ r) = Some (sane v, r).
Proof.
  intros Hn Hd Hr. destruct (print_reads v 0 0 Hn ltac:(lia)) as [f Hf].
  rewrite <- (first_value_fuel _ (f + json_fuel (print 0 v ++ r))) by lia.
  apply Hf; [lia|done].
Qed.

(** Decimal integers are number literals. *)
Lemma span_digits_all ds : forallb is_digit ds = true → span_digits ds = (ds, []).
Proof.
  induction ds as [|b ds IH]; [done|]. cbn [forallb span_digits].
  intros [-> H]%andb_true_iff. by rewrite IH.
Qed.

Lemma dec_head fuel n :
  (0 < n < 10 ^ Z.of_nat fuel)%Z → ∃ b t, dec fuel n = b :: t ∧ b ≠ Byte.x30.
Proof.
  revert n. induction fuel as [|fuel IH]; intros n Hn; [simpl in Hn; lia|]. cbn [dec].
  case_decide as Hs.
  - eexists _, _. split; [done|]. intros E. apply (f_equal bz) in E. rewrite bz_zb in E.
    change (bz Byte.x30) with 48%Z in E. rewrite Z.mod_small in E by lia. lia.
  - rewrite Nat2Z.inj_succ, Z.pow_succ_r in Hn by lia.
    destruct (IH (n / 10)%Z) as (b & t & -> & Hb).
    { split; [apply Z.div_str_pos; lia|apply Z.div_lt_upper_bound; lia]. }
    by exists b, (t ++ [zb (0x30 + n mod 10)]).
Qed.

Lemma digits_number b ds :
  b ≠ Byte.x30 → forallb is_digit (b :: ds) = true → number_ok (b :: ds) = true.
Proof.
  intros Hb Hd. unfold number_ok. apply bool_decide_eq_true. unfold parse_number.
  assert (parse_int_part (b :: ds) = Some (b :: ds, [])) as Hi.
  { unfold parse_int_part, digits1. rewrite span_digits_all by done. by destruct b. }
  assert (b ≠ Byte.x2d) as Hm.
  { intros ->. cbn in Hd. done. }
  assert (match b :: ds with Byte.x2d :: s' => ([Byte.x2d], s') | _ => ([], b :: ds) end =
          ([], b :: ds)) as -> by (by destruct b).
  rewrite Hi. cbn. by rewrite app_nil_r.
Qed.

Lemma itoa_number z : in_int64 z → number_ok (itoa z) = true.
Proof.
  assert (∀ n, (0 < n < 10 ^ 20)%Z → ∃ b t, dec 20 n = b :: t ∧ b ≠ Byte.x30 ∧
                 forallb is_digit (b :: t) = true) as Hdec.
  { intros n Hn. destruct (dec_head 20 n Hn) as (b & t & E & Hb). exists b, t. split; [done|].
    split; [done|]. rewrite <- E. apply (dec_spec 19); lia. }
  intros Hz. unfold in_int64 in Hz. unfold itoa. case_decide.
  - destruct (Hdec (- z)%Z) as (b & t & -> & Hb & Hd); [lia|].
    pose proof (digits_number _ _ Hb Hd) as H1. unfold number_ok in *.
    rewrite bool_decide_eq_true in *. unfold parse_number.
    assert (parse_int_part (b :: t) = Some (b :: t, [])) as Hi.
    { unfold parse_int_part, digits1. rewrite span_digits_all by done. by destruct b. }
    rewrite Hi. cbn. by rewrite app_nil_r.
  - destruct (decide (z = 0)%Z) as [->|Hz0]; [by vm_compute|].
    destruct (Hdec z) as (b & t & -> & Hb & Hd); [lia|]. by apply digits_number.
Qed.
