(* ===== verification/FloatText.v ===== *)
(** * Numbers come back from their text

    Seventeen digits are enough: the nearest decimal with that many digits is
    rounded back to the [float64] it was printed from, and the text of a decimal
    is a JSON number that denotes it. So [format_float] always finds a text. *)

From Stdlib Require Import ZArith Lia SpecFloat.
From S2P Require Import Prelude GoLib Json Float64 Rounding JsonText.

Section decimals.
Open Scope Z_scope.

(** ** Powers of ten *)

Lemma pow10_pos i : 0 < (pow10 i).1 ∧ 0 < (pow10 i).2.
Proof. unfold pow10. case_decide; cbn; split; lia. Qed.

(** Multiplied by a large enough power, both sides are integers. *)
Lemma pow10_common i L :
  0 ≤ L → 0 ≤ L + i → (pow10 i).1 * 10 ^ L = (pow10 i).2 * 10 ^ (L + i).
Proof.
  intros HL Hi. unfold pow10. case_decide; cbn [fst snd].
  - rewrite Z.mul_1_l, <- Z.pow_add_r by lia. f_equal. lia.
  - rewrite Z.mul_1_l, <- Z.pow_add_r by lia. f_equal. lia.
Qed.

Lemma below_pow10_spec a b k : below_pow10 a b k = true ↔ a * (pow10 k).2 < b * (pow10 k).1.
Proof. unfold below_pow10. destruct (pow10 k). cbn. by rewrite bool_decide_eq_true. Qed.

(** ** The decimal point *)

Lemma point_from_spec fuel a b k :
  below_pow10 a b (k - 1) = false → below_pow10 a b (k + Z.of_nat fuel) = true →
  let r := point_from fuel a b k in
  below_pow10 a b (r - 1) = false ∧ below_pow10 a b r = true ∧ k ≤ r ≤ k + Z.of_nat fuel.
Proof.
  cbv zeta. revert k. induction fuel as [|fuel IH]; intros k H1 H2; cbn [point_from].
  - rewrite Z.add_0_r in H2. split_and!; done || lia.
  - destruct (below_pow10 a b k) eqn:E; [split_and!; done || lia|].
    destruct (IH (k + 1)) as (IH1 & IH2 & IH3).
    + by replace (k + 1 - 1) with k by lia.
    + by replace (k + 1 + Z.of_nat fuel) with (k + Z.of_nat (S fuel)) by lia.
    + split_and!; done || lia.
Qed.

(** The start of the search: 2^10 is a little more than 10^3. *)
Lemma kilo j : 0 ≤ j ≤ 108 → 10 ^ (3 * j) ≤ 2 ^ (10 * j) ≤ 100 * 10 ^ (3 * j).
Proof.
  intros Hj. rewrite !Z.pow_mul_r by lia. change (10 ^ 3) with 1000. change (2 ^ 10) with 1024.
  split; [apply Z.pow_le_mono_l; lia|].
  assert (1024 ^ 108 ≤ 100 * 1000 ^ 108) as H by (vm_compute; discriminate).
  assert (1000 ^ (108 - j) ≤ 1024 ^ (108 - j)) by (apply Z.pow_le_mono_l; lia).
  replace (1024 ^ 108) with (1024 ^ j * 1024 ^ (108 - j)) in H
    by (rewrite <- Z.pow_add_r by lia; f_equal; lia).
  replace (1000 ^ 108) with (1000 ^ j * 1000 ^ (108 - j)) in H
    by (rewrite <- Z.pow_add_r by lia; f_equal; lia).
  assert (0 < 1000 ^ (108 - j)) by lia. assert (0 < 1024 ^ j) by lia.
  apply (Z.mul_le_mono_pos_r _ _ (1000 ^ (108 - j))); [done|]. nia.
Qed.

Lemma binary_decimal K L j :
  -108 ≤ j ≤ 108 → 1080 ≤ K → 326 ≤ L →
  10 ^ (L + 3 * j - 2) * 2 ^ K ≤ 2 ^ (K + 10 * j) * 10 ^ L ≤ 10 ^ (L + 3 * j + 2) * 2 ^ K.
Proof.
  intros Hj HK HL. set (D := 10 ^ (L + 3 * j - 2)).
  assert (10 ^ (L + 3 * j) = 100 * D) as E
    by (change 100 with (10 ^ 2); unfold D; rewrite <- Z.pow_add_r by lia; f_equal; lia).
  assert (10 ^ (L + 3 * j + 2) = 100 * 10 ^ (L + 3 * j)) as ->
    by (change 100 with (10 ^ 2); rewrite <- Z.pow_add_r by lia; f_equal; lia).
  assert (0 < D) by (unfold D; lia).
  destruct (Z_le_gt_dec 0 j) as [H0|H0].
  - destruct (kilo j ltac:(lia)) as [H1 H2].
    assert (10 ^ (L + 3 * j) = 10 ^ L * 10 ^ (3 * j)) as E' by (apply Z.pow_add_r; lia).
    rewrite (Z.pow_add_r 2 K), E' in * by lia. clearbody D.
    apply (Z.mul_le_mono_nonneg_l _ _ (10 ^ L)) in H1, H2; [|lia..].
    split; rewrite <- (Z.mul_comm (2 ^ K)), <- !Z.mul_assoc; apply Z.mul_le_mono_nonneg_l; lia.
  - destruct (kilo (- j) ltac:(lia)) as [H1 H2].
    assert (10 ^ L = 10 ^ (L + 3 * j) * 10 ^ (3 * - j)) as ->
      by (rewrite <- Z.pow_add_r by lia; f_equal; lia).
    assert (2 ^ K = 2 ^ (K + 10 * j) * 2 ^ (10 * - j)) as ->
      by (rewrite <- Z.pow_add_r by lia; f_equal; lia).
    rewrite E. clearbody D. apply (Z.mul_le_mono_nonneg_l _ _ D) in H1, H2; [|lia..].
    split; rewrite (Z.mul_comm _ (2 ^ (K + 10 * j) * _)), <- !Z.mul_assoc;
      apply Z.mul_le_mono_nonneg_l; lia.
Qed.

(** *** For a finite value *)

Section finite.
Context (m : positive) (e : Z) (He : -1074 ≤ e ≤ 971) (Hm : Zpos m < 2 ^ 53).

Definition num : Z := (scale (Zpos m) 1 (- e)).1.
Definition den : Z := (scale (Zpos m) 1 (- e)).2.

Lemma num_den_pos : 0 < num ∧ 0 < den.
Proof. unfold num, den, scale. case_decide; cbn [fst snd]; split; try lia; apply Z.mul_pos_pos; lia. Qed.

Lemma num_den K : 1074 ≤ K → num * 2 ^ K = den * (Zpos m * 2 ^ (K + e)).
Proof.
  intros HK. unfold num, den, scale. case_decide; cbn [fst snd].
  - assert (2 ^ K = 2 ^ (- e) * 2 ^ (K + e)) as -> by (rewrite <- pow2_split by lia; f_equal; lia).
    lia.
  - rewrite Z.opp_involutive, pow2_split by lia. lia.
Qed.

Lemma num_den_log : Z.log2 num - Z.log2 den = Z.log2 (Zpos m) + e.
Proof.
  unfold num, den, scale. case_decide; cbn [fst snd].
  - rewrite Z.mul_1_l, Z.log2_pow2 by lia. lia.
  - rewrite Z.opp_involutive, log2_shift by lia. change (Z.log2 1) with 0. lia.
Qed.

(** Comparing it with a power of ten, in integers. *)
Lemma below_scaled k :
  -400 ≤ k ≤ 400 →
  below_pow10 num den k = true ↔
  Zpos m * 2 ^ (2000 + e) * 10 ^ 400 < 10 ^ (400 + k) * 2 ^ 2000.
Proof.
  intros Hk. rewrite below_pow10_spec. pose proof (num_den 2000 ltac:(lia)) as Hnd.
  pose proof (pow10_common k 400 ltac:(lia) ltac:(lia)) as Ep. destruct num_den_pos as [Pn Pd].
  destruct (pow10_pos k) as [Pp Pq]. set (p := (pow10 k).1) in *. set (q := (pow10 k).2) in *.
  set (a := num) in *. set (b := den) in *. set (M := Zpos m * 2 ^ (2000 + e)) in *.
  set (T := 10 ^ 400) in *. set (X := 2 ^ 2000) in *. set (D := 10 ^ (400 + k)) in *.
  assert (0 < T) by (unfold T; lia). assert (0 < X) by (unfold X; lia).
  clearbody p q a b M T X D. rewrite (Z.mul_lt_mono_pos_r (T * X)) by lia.
  replace (a * q * (T * X)) with (q * T * (a * X)) by lia.
  replace (b * p * (T * X)) with (b * X * (p * T)) by lia. rewrite Ep, Hnd.
  replace (q * T * (b * M)) with (M * T * (b * q)) by lia.
  replace (b * X * (q * D)) with (D * X * (b * q)) by lia.
  symmetry. apply Z.mul_lt_mono_pos_r. lia.
Qed.

(** It lies between two multiples of the tenth power of two. *)
Lemma binary_range :
  let l := Z.log2 (Zpos m) + e in
  -1074 ≤ l ≤ 1023 ∧
  2 ^ (2000 + 10 * (l / 10)) ≤ Zpos m * 2 ^ (2000 + e) < 2 ^ (2000 + 10 * (l / 10 + 1)).
Proof.
  cbv zeta. pose proof (Z.log2_spec (Zpos m) ltac:(lia)) as [L1 L2].
  assert (0 ≤ Z.log2 (Zpos m) < 53) as Hl
    by (split; [apply Z.log2_nonneg|apply Z.log2_lt_pow2; lia]).
  set (lm := Z.log2 (Zpos m)) in *. pose proof (Z.div_mod (lm + e) 10 ltac:(lia)).
  pose proof (Z.mod_pos_bound (lm + e) 10 ltac:(lia)). clearbody lm. split; [lia|]. split.
  - transitivity (2 ^ (lm + (2000 + e))); [apply Z.pow_le_mono_r; lia|].
    rewrite (pow2_split lm) by lia. apply Z.mul_le_mono_nonneg_r; lia.
  - apply Z.lt_le_trans with (2 ^ (Z.succ lm + (2000 + e))); [|apply Z.pow_le_mono_r; lia].
    rewrite (pow2_split (Z.succ lm)) by lia. apply Z.mul_lt_mono_pos_r; lia.
Qed.

Lemma point_of_spec :
  let k := point_of num den in
  den * (pow10 (k - 1)).1 ≤ num * (pow10 (k - 1)).2 ∧ num * (pow10 k).2 < den * (pow10 k).1 ∧
  -400 ≤ k ≤ 400.
Proof.
  cbv zeta. unfold point_of. rewrite num_den_log. destruct binary_range as [Hl [V1 V2]].
  set (j := (Z.log2 (Zpos m) + e) / 10) in *.
  assert (-108 ≤ j ≤ 102) as Hj.
  { unfold j. split; [apply Z.div_le_lower_bound; lia|]. apply Z.lt_succ_r, Z.div_lt_upper_bound; lia. }
  clearbody j. destruct (binary_decimal 2000 400 j) as [B1 _]; [lia..|].
  destruct (binary_decimal 2000 400 (j + 1)) as [_ B2]; [lia..|].
  assert (0 < 10 ^ 400) as PT by lia.
  destruct (point_from_spec 6 num den (3 * j - 1)) as (H1 & H2 & H3).
  - apply not_true_iff_false. rewrite below_scaled by lia. apply Z.le_ngt.
    replace (400 + (3 * j - 1 - 1)) with (400 + 3 * j - 2) by lia. etransitivity; [exact B1|].
    apply Z.mul_le_mono_nonneg_r; [lia|exact V1].
  - rewrite below_scaled by lia.
    replace (400 + (3 * j - 1 + Z.of_nat 6)) with (400 + 3 * (j + 1) + 2) by lia.
    eapply Z.lt_le_trans; [|exact B2]. apply Z.mul_lt_mono_pos_r; [exact PT|exact V2].
  - apply not_true_iff_false in H1. rewrite below_pow10_spec in H1, H2. split_and!; lia.
Qed.

(** *** Seventeen digits *)

Definition nearest (A B : Z) : Z := if decide (2 * (A mod B) ≤ B) then A / B else A / B + 1.

Lemma nearest_spec A B : 0 < B → 2 * Z.abs (nearest A B * B - A) ≤ B.
Proof.
  intros HB. unfold nearest. pose proof (Z.div_mod A B ltac:(lia)).
  pose proof (Z.mod_pos_bound A B HB). case_decide; lia.
Qed.

Lemma nearest_pos A B : 0 < B → B ≤ A → 0 < nearest A B ≤ A / B + 1.
Proof.
  intros HB HA. pose proof (Z.div_le_lower_bound A B 1 HB ltac:(lia)). unfold nearest.
  case_decide; lia.
Qed.

Definition dec_point : Z := point_of num den.
Definition upscale : Z := (pow10 (17 - dec_point)).1.
Definition downscale : Z := (pow10 (17 - dec_point)).2.
Definition decimal17 : Z := nearest (num * upscale) (den * downscale).

Lemma candidates_head :
  ∃ l, candidates num den dec_point 17 = decimal17 :: l.
Proof.
  unfold candidates, decimal17, nearest, upscale, downscale. change (Z.of_nat 17) with 17.
  destruct (pow10 (17 - dec_point)) as [p q]. cbn [fst snd]. case_decide; by eexists.
Qed.

(** Comparing with a power of ten, before and after scaling. *)
Lemma rescale a b i k (R : Z → Z → Prop) :
  (∀ x y c, 0 < c → R x y ↔ R (x * c) (y * c)) →
  0 < b → -800 ≤ k - i → -800 ≤ i ≤ 800 → 0 ≤ k →
  R (b * (pow10 i).1) (a * (pow10 i).2) ↔
  R (10 ^ k * (b * (pow10 (k - i)).2)) (a * (pow10 (k - i)).1).
Proof.
  intros HR Hb Hki Hi Hk.
  pose proof (pow10_common i 800 ltac:(lia) ltac:(lia)) as E1.
  pose proof (pow10_common (k - i) 800 ltac:(lia) ltac:(lia)) as E2.
  destruct (pow10_pos i) as [P1 Q1], (pow10_pos (k - i)) as [P2 Q2].
  set (p1 := (pow10 i).1) in *. set (q1 := (pow10 i).2) in *.
  set (p := (pow10 (k - i)).1) in *. set (q := (pow10 (k - i)).2) in *. clearbody p1 q1 p q.
  assert (10 ^ (800 + i) * 10 ^ (800 + (k - i)) = 10 ^ k * (10 ^ 800 * 10 ^ 800)) as E.
  { rewrite <- !Z.pow_add_r by lia. f_equal. lia. }
  set (T := 10 ^ 800) in *. set (U := 10 ^ (800 + i)) in *. set (V := 10 ^ (800 + (k - i))) in *.
  assert (0 < T) by (unfold T; lia). assert (0 < U) by (unfold U; lia).
  assert (0 < V) by (unfold V; lia). clearbody T U V.
  rewrite (HR _ _ (T * T * p)) by lia. rewrite (HR _ (a * p) (T * T * q1)) by lia.
  replace (b * p1 * (T * T * p)) with (b * (p1 * T) * (p * T)) by lia.
  replace (10 ^ k * (b * q) * (T * T * q1)) with (b * q * q1 * (10 ^ k * (T * T))) by lia.
  rewrite E1, E2, <- E. replace (b * (q1 * U) * (q * V)) with (b * q * q1 * (U * V)) by lia.
  by replace (a * q1 * (T * T * p)) with (a * p * (T * T * q1)) by lia.
Qed.

(** It has seventeen digits. *)
Lemma scaled_range :
  10 ^ 16 * (den * downscale) ≤ num * upscale < 10 ^ 17 * (den * downscale) ∧
  0 < upscale ∧ 0 < downscale.
Proof.
  destruct point_of_spec as (H1 & H2 & Hk). fold dec_point in H1, H2, Hk. unfold upscale, downscale.
  destruct num_den_pos as [Pn Pd]. split; [|apply pow10_pos]. split.
  - apply (rescale num den (dec_point - 1) 16 Z.le) in H1; try lia.
    + by replace (16 - (dec_point - 1)) with (17 - dec_point) in H1 by lia.
    + intros. by apply Z.mul_le_mono_pos_r.
  - apply (rescale num den dec_point 17 (λ x y, y < x)); try lia. intros. by apply Z.mul_lt_mono_pos_r.
Qed.

Lemma decimal17_range : 0 < decimal17 < 10 ^ 18.
Proof.
  destruct scaled_range as ([H1 H2] & Hp & Hq). destruct num_den_pos as [Pn Pd].
  assert (0 < den * downscale) as HB by lia. unfold decimal17.
  pose proof (nearest_pos (num * upscale) (den * downscale) HB ltac:(lia)).
  pose proof (Z.div_lt_upper_bound (num * upscale) (den * downscale) (10 ^ 17) HB ltac:(lia)). lia.
Qed.

(** A ratio of that value rounds to the [float64]. *)
Lemma decimal17_near K n d :
  0 < d → 1074 ≤ K → n * upscale = decimal17 * downscale * d → near K n d (Zpos m) e.
Proof.
  intros Hd HK Hn. destruct scaled_range as ((Hr & _) & Pp & Pq). destruct num_den_pos as [Pn Pd].
  pose proof (nearest_spec (num * upscale) (den * downscale) ltac:(lia)) as Hz.
  fold decimal17 in Hz. pose proof (num_den K HK) as HX. unfold near. cbv zeta.
  set (a := num) in *. set (b := den) in *. set (p := upscale) in *. set (q := downscale) in *.
  set (z := decimal17) in *. clearbody a b p q z.
  assert (0 < 2 ^ K) by lia. assert (0 < 2 ^ (K + e)) by lia.
  set (k2 := 2 ^ K) in *. set (W := 2 ^ (K + e)) in *. clearbody k2 W. set (M := Zpos m) in *.
  assert (0 < M) by lia. clearbody M. set (E := n * k2 - M * (d * W)).
  assert (b * (p * E) = (z * (b * q) - a * p) * (k2 * d)) as HE.
  { unfold E. replace ((z * (b * q) - a * p) * (k2 * d))
      with (b * k2 * (z * q * d) - (a * k2) * (p * d)) by lia. rewrite <- Hn, HX. lia. }
  assert (2 * (p * Z.abs E) ≤ q * (d * k2)) as V1.
  { apply (Z.mul_le_mono_pos_l _ _ b); [done|].
    replace (b * (2 * (p * Z.abs E))) with (2 * Z.abs (b * (p * E)))
      by (rewrite !Z.abs_mul, (Z.abs_eq b), (Z.abs_eq p) by lia; lia).
    rewrite HE, Z.abs_mul, (Z.abs_eq (k2 * d)) by lia.
    apply (Z.mul_le_mono_nonneg_r _ _ (k2 * d)) in Hz; lia. }
  assert (10 ^ 16 * (q * (d * k2)) ≤ M * (d * W) * p) as V2.
  { apply (Z.mul_le_mono_pos_l _ _ b); [done|].
    replace (b * (M * (d * W) * p)) with ((a * k2) * (p * d)) by (rewrite HX; lia).
    apply (Z.mul_le_mono_nonneg_r _ _ (k2 * d)) in Hr; lia. }
  assert (2 * 10 ^ 16 * Z.abs E ≤ M * (d * W)) as V3.
  { apply (Z.mul_le_mono_pos_r _ _ p); [done|]. lia. }
  assert (0 < d * W) as HU by lia. set (U := d * W) in *. clearbody U.
  assert (M * U ≤ (2 ^ 53 - 1) * U) by (apply Z.mul_le_mono_nonneg_r; lia).
  split; [fold E; lia|]. intros ->. fold E. lia.
Qed.
End finite.
End decimals.

(** ** The text of a decimal *)

Lemma digits_val_zeros_behind ds n :
  digits_val (ds ++ replicate n Byte.x30) = (digits_val ds * 10 ^ Z.of_nat n)%Z.
Proof.
  induction n as [|n IH]; [rewrite app_nil_r; cbn; lia|].
  rewrite replicate_S_end, (assoc_L (++)), digits_val_app, IH.
  rewrite Nat2Z.inj_succ, Z.pow_succ_r by lia. change (digit_val Byte.x30) with 0%Z. lia.
Qed.

Lemma digits_val_zeros_before ds n : digits_val (replicate n Byte.x30 ++ ds) = digits_val ds.
Proof. induction n as [|n IH]; [done|]. unfold digits_val in *. cbn [replicate app foldl]. done. Qed.

(** The parts of a number: digits without a needless zero in front, digits
    behind a point, and an exponent. *)
Definition int_text (i : bytes) : Prop :=
  i ≠ [] ∧ forallb is_digit i = true ∧ (i = [Byte.x30] ∨ head i ≠ Some Byte.x30).
Definition exp_text (x : bytes) : Prop :=
  x = [] ∨ ∃ g ds, x = Byte.x65 :: g :: ds ∧ (g = Byte.x2b ∨ g = Byte.x2d) ∧ ds ≠ [] ∧
                   forallb is_digit ds = true.
Definition point_text (f : bytes) : bytes := match f with [] => [] | _ => Byte.x2e :: f end.
Definition sign_text (s : bool) : bytes := if s then str "-" else [].

Definition stops (r : bytes) : bool := match r with b :: _ => negb (is_digit b) | [] => true end.

Lemma span_digits_stops ds r :
  forallb is_digit ds = true → stops r = true → span_digits (ds ++ r) = (ds, r).
Proof.
  induction ds as [|b ds IH]; cbn [forallb app].
  - destruct r as [|b r]; [done|]. cbn [stops span_digits]. intros _ Hb%negb_true_iff. by rewrite Hb.
  - intros [Hb Hd]%andb_true_iff Hr. cbn [span_digits]. by rewrite Hb, IH.
Qed.

Lemma digits1_stops ds r :
  ds ≠ [] → forallb is_digit ds = true → stops r = true → digits1 (ds ++ r) = Some (ds, r).
Proof. intros Hne Hd Hr. unfold digits1. rewrite span_digits_stops by done. by destruct ds. Qed.

Lemma exp_stops x : exp_text x → stops x = true.
Proof. by intros [->|(g & ds & -> & _)]. Qed.

Lemma point_stops f x : exp_text x → stops (point_text f ++ x) = true.
Proof. destruct f; [apply exp_stops|done]. Qed.

Lemma parse_exp_text x : exp_text x → parse_exp_part x = Some (x, []).
Proof.
  intros [->|(g & ds & -> & Hg & Hne & Hd)]; [done|]. cbn [parse_exp_part].
  rewrite decide_True by (by left). rewrite decide_True by done.
  rewrite <- (app_nil_r ds) at 1. by rewrite digits1_stops.
Qed.

Lemma parse_frac_text f x :
  forallb is_digit f = true → exp_text x → parse_frac_part (point_text f ++ x) = Some (point_text f, x).
Proof.
  intros Hf Hx. destruct f as [|b f]; cbn [point_text].
  - by destruct Hx as [->|(g & ds & -> & _)].
  - pose proof (digits1_stops (b :: f) x ltac:(done) Hf (exp_stops x Hx)) as E.
    cbn [app parse_frac_part] in *. by rewrite E.
Qed.

Lemma parse_int_text i r :
  int_text i → stops r = true → parse_int_part (i ++ r) = Some (i, r).
Proof.
  intros (Hne & Hd & [->|Hh]) Hr; [done|]. destruct i as [|b i]; [done|].
  assert (digits1 ((b :: i) ++ r) = Some (b :: i, r)) as E by by apply digits1_stops.
  cbn [app] in *. unfold parse_int_part. by destruct b.
Qed.

(** What a decimal denotes; [None] is a range error. *)
Definition of_decimal (s : bool) (mant e : Z) : option float64 :=
  if decide (mant = 0)%Z then Some (S754_zero s)
  else match (if decide (0 ≤ e)%Z then round_ratio s (mant * 10 ^ e) 1
              else round_ratio s mant (10 ^ (- e))) with
       | S754_infinity _ => None
       | f => Some f
       end.

Section parts.
Context (s : bool) (i f x : bytes).
Context (Hi : int_text i) (Hf : forallb is_digit f = true) (Hx : exp_text x).

Definition number_text : bytes := sign_text s ++ i ++ point_text f ++ x.

Lemma int_head : ∃ b i', i = b :: i' ∧ b ≠ Byte.x2d.
Proof.
  destruct Hi as (Hne & Hd & _). destruct i as [|b i']; [done|]. exists b, i'. split; [done|].
  by intros ->.
Qed.

Lemma number_text_parses : parse_number number_text = Some (number_text, []).
Proof.
  unfold parse_number, number_text. destruct int_head as (b & i' & Ei & Hb).
  assert (match sign_text s ++ i ++ point_text f ++ x with
          | Byte.x2d :: s' => ([Byte.x2d], s') | t => ([], t) end =
          (sign_text s, i ++ point_text f ++ x)) as E.
  { destruct s; [done|]. cbn [sign_text app]. rewrite Ei. cbn [app]. by destruct b. }
  match goal with |- (let '(_, _) := ?t in _) = _ => assert (t = (sign_text s, i ++ point_text f ++ x)) as -> end.
  { rewrite <- E. by destruct (sign_text s ++ i ++ point_text f ++ x) as [|[] ?]. }
  rewrite parse_int_text by (done || by apply point_stops). cbn [mbind option_bind].
  rewrite parse_frac_text by done. cbn [mbind option_bind].
  by rewrite parse_exp_text by done.
Qed.

Lemma number_text_float :
  parse_float number_text = of_decimal s (digits_val (i ++ f)) (exp_value x - len f).
Proof.
  unfold parse_float, number_text, of_decimal. destruct int_head as (b & i' & Ei & Hb).
  assert (sign_prefix (sign_text s ++ i ++ point_text f ++ x) = (s, i ++ point_text f ++ x)) as ->.
  { destruct s; [done|]. cbn [sign_text app]. rewrite Ei. cbn [app]. by destruct b. }
  destruct Hi as (_ & Hd & _). rewrite span_digits_stops by (done || by apply point_stops).
  assert (match point_text f ++ x with Byte.x2e :: r => span_digits r
          | _ => ([], point_text f ++ x) end = (f, x)) as E.
  { destruct f as [|c f']; cbn [point_text app].
    - by destruct Hx as [->|(g & ds & -> & _)].
    - apply (span_digits_stops (c :: f')); [done|by apply exp_stops]. }
  by rewrite E.
Qed.
End parts.

(** *** Rendered digits *)

(** [lit] is a number with the value of the digits [t] scaled by [10 ^ e]. *)
Definition writes (lit : bytes) (s : bool) (t : bytes) (e : Z) : Prop :=
  ∃ i f x j, lit = number_text s i f x ∧ int_text i ∧ forallb is_digit f = true ∧ exp_text x ∧
    digits_val (i ++ f) = (digits_val t * 10 ^ Z.of_nat j)%Z ∧
    (exp_value x - len f = e - Z.of_nat j)%Z.

Lemma dec_digits n :
  (0 ≤ n < 10 ^ 20)%Z → itoa n ≠ [] ∧ forallb is_digit (itoa n) = true ∧ digits_val (itoa n) = n.
Proof. intros Hn. unfold itoa. rewrite decide_False by lia. by apply (dec_spec 19). Qed.

Section digits.
Context (t : bytes) (Hne : t ≠ []) (Hd : forallb is_digit t = true).
Context (Hhead : head t ≠ Some Byte.x30).

Lemma forallb_take n : forallb is_digit (take n t) = true ∧ forallb is_digit (drop n t) = true.
Proof. apply andb_true_iff. by rewrite <- forallb_app, take_drop. Qed.

Lemma zeros_digits n : forallb is_digit (replicate n Byte.x30) = true.
Proof. by induction n. Qed.

Lemma take_int n : (0 < n)%nat → int_text (take n t).
Proof.
  intros Hn. split; [|split; [apply forallb_take|right]];
    (destruct n as [|n]; [lia|]); by destruct t.
Qed.

Lemma plain_writes s dp : writes (sign_text s ++ plain_digits t dp) s t (dp - len t).
Proof.
  unfold plain_digits. case_decide as Hdp; [|case_decide as Hlen].
  - exists [Byte.x30], (replicate (Z.to_nat (- dp)) Byte.x30 ++ t), [], 0.
    unfold number_text. assert (point_text (replicate (Z.to_nat (- dp)) Byte.x30 ++ t) =
      Byte.x2e :: replicate (Z.to_nat (- dp)) Byte.x30 ++ t) as ->.
    { destruct (Z.to_nat (- dp)); [by destruct t|done]. }
    rewrite app_nil_r, forallb_app, zeros_digits, Hd. refine (conj _ (conj _ (conj _ (conj _ (conj _ _))))); try done.
    + split; [done|]. split; [done|by left].
    + by left.
    + change ([Byte.x30] ++ ?r) with (replicate 1 Byte.x30 ++ r).
      rewrite !digits_val_zeros_before. cbn. lia.
    + unfold len. rewrite length_app, length_replicate. cbn. lia.
  - exists (t ++ replicate (Z.to_nat (dp - len t)) Byte.x30), [], [], (Z.to_nat (dp - len t)).
    unfold number_text. cbn [point_text]. rewrite !app_nil_r. refine (conj _ (conj _ (conj _ (conj _ (conj _ _))))); try done.
    + split; [by destruct t|]. rewrite forallb_app, zeros_digits, Hd. split; [done|].
      right. by destruct t.
    + by left.
    + apply digits_val_zeros_behind.
    + unfold len in *. cbn. lia.
  - exists (take (Z.to_nat dp) t), (drop (Z.to_nat dp) t), [], 0. unfold number_text, len in *.
    destruct (drop (Z.to_nat dp) t) as [|b r] eqn:E.
    { exfalso. apply (f_equal length) in E. rewrite length_drop in E. cbn in E. lia. }
    rewrite <- E, take_drop. assert (point_text (drop (Z.to_nat dp) t) = str "." ++ drop (Z.to_nat dp) t) as ->
      by by rewrite E.
    rewrite app_nil_r. refine (conj _ (conj _ (conj _ (conj _ (conj _ _))))); try done.
    + apply take_int. lia.
    + apply forallb_take.
    + by left.
    + cbn. lia.
    + rewrite length_drop. cbn. lia.
Qed.

Lemma exp_writes s dp :
  (-10000 < dp < 10000)%Z → writes (sign_text s ++ exp_digits t dp) s t (dp - len t).
Proof.
  intros Hr. unfold exp_digits.
  set (x := if decide (0 < dp)%Z then str "e+" ++ itoa (dp - 1) else str "e-" ++ itoa (1 - dp)).
  assert (exp_text x ∧ exp_value x = (dp - 1)%Z) as [Hx Ex].
  { unfold x. case_decide.
    - destruct (dec_digits (dp - 1)) as (H1 & H2 & H3); [lia|]. split; [|exact H3].
      right. exists Byte.x2b, (itoa (dp - 1)). split; [done|]. split; [by left|done].
    - destruct (dec_digits (1 - dp)) as (H1 & H2 & H3); [lia|].
      split; [|change (- digits_val (itoa (1 - dp)) = dp - 1)%Z; rewrite H3; lia]. right. exists Byte.x2d, (itoa (1 - dp)).
      split; [done|]. split; [by right|done]. }
  clearbody x. exists (take 1 t), (drop 1 t), x, 0. rewrite take_drop.
  refine (conj _ (conj (take_int 1 ltac:(lia)) (conj (proj2 (forallb_take 1)) (conj Hx (conj _ _))))).
  - unfold number_text. do 2 f_equal. destruct t as [|b [|c t']]; [done|done|].
    rewrite decide_False by (unfold len; cbn; lia). done.
  - cbn. lia.
  - rewrite Ex. unfold len. rewrite length_drop. destruct t; [done|]. cbn [length]. lia.
Qed.

Lemma render_writes s dp : (-10000 < dp < 10000)%Z → writes (render s t dp) s t (dp - len t).
Proof.
  intros Hr. unfold render. case_decide; [by apply exp_writes|by apply plain_writes].
Qed.
End digits.

(** ** What is printed is read back *)

Lemma length_dec fuel n : (length (dec fuel n) ≤ fuel)%nat.
Proof.
  revert n. induction fuel as [|fuel IH]; intros n; [done|]. cbn [dec].
  case_decide; [cbn; lia|]. rewrite length_app. specialize (IH (n / 10)%Z). cbn. lia.
Qed.

(** The digits of an integer without the zeros at its end. *)
Lemma trimmed z :
  (0 < z < 10 ^ 18)%Z →
  let t := trim_right_byte Byte.x30 (itoa z) in
  t ≠ [] ∧ forallb is_digit t = true ∧ head t ≠ Some Byte.x30 ∧ (0 < digits_val t)%Z ∧
  ∃ j, z = (digits_val t * 10 ^ Z.of_nat j)%Z ∧ len (itoa z) = (len t + Z.of_nat j)%Z ∧
       (len (itoa z) ≤ 20)%Z.
Proof.
  cbv zeta. intros Hz. destruct (dec_digits z) as (Hne & Hd & Hv); [lia|].
  destruct (dec_head 20 z) as (b & r & Eh & Hb); [lia|].
  assert (len (itoa z) ≤ 20)%Z as Hl.
  { unfold itoa, len. rewrite decide_False by lia. pose proof (length_dec 20 z). lia. }
  assert (head (itoa z) ≠ Some Byte.x30) as Hh.
  { unfold itoa. rewrite decide_False, Eh by lia. cbn. congruence. }
  destruct (trim_right_byte_spec Byte.x30 (itoa z)) as [j Ej].
  set (t := trim_right_byte Byte.x30 (itoa z)) in *. clearbody t.
  assert (z = digits_val t * 10 ^ Z.of_nat j)%Z as Ez
    by (rewrite <- Hv, Ej at 1; apply digits_val_zeros_behind).
  assert (forallb is_digit t = true) as Ht.
  { rewrite Ej, forallb_app in Hd. by apply andb_true_iff in Hd as [? _]. }
  pose proof (digits_val_nonneg t Ht). assert (digits_val t ≠ 0)%Z as Hn0 by (intros E; rewrite E in Ez; lia).
  split; [by intros ->|]. split; [done|]. split; [|split; [lia|]].
  - rewrite Ej in Hh. by destruct t.
  - exists j. split; [done|]. split; [|done]. rewrite Ej. unfold len.
    rewrite length_app, length_replicate. lia.
Qed.

(** A decimal scaled in two ways. *)
Lemma same_value v j j' k P Q :
  (P, Q) = pow10 (k - 17 + Z.of_nat j - Z.of_nat j') →
  (v * 10 ^ Z.of_nat j' * P * (pow10 (17 - k)).1 =
   v * 10 ^ Z.of_nat j * (pow10 (17 - k)).2 * Q)%Z.
Proof.
  intros E. set (i := (k - 17 + Z.of_nat j - Z.of_nat j')%Z) in *.
  assert (∃ L, 0 ≤ L ∧ 0 ≤ L + i ∧ 0 ≤ L + (17 - k))%Z as (L & HL & HLi & HLk)
    by (exists (Z.abs i + Z.abs (17 - k))%Z; lia).
  pose proof (pow10_common i L HL HLi) as E1. pose proof (pow10_common (17 - k) L HL HLk) as E2.
  rewrite <- E in E1. cbn [fst snd] in E1. destruct (pow10 (17 - k)) as [p q]. cbn [fst snd] in *.
  assert (10 ^ Z.of_nat j' * (10 ^ (L + i) * 10 ^ (L + (17 - k))) =
          10 ^ Z.of_nat j * (10 ^ L * 10 ^ L))%Z as E3.
  { rewrite <- !Z.pow_add_r by lia. f_equal. lia. }
  assert (0 < 10 ^ L)%Z by lia. set (T := (10 ^ L)%Z) in *. set (J := (10 ^ Z.of_nat j)%Z) in *.
  set (J' := (10 ^ Z.of_nat j')%Z) in *. set (U := (10 ^ (L + i))%Z) in *.
  set (V := (10 ^ (L + (17 - k)))%Z) in *. clearbody T J J' U V.
  apply (Z.mul_cancel_r _ _ (T * T)); [lia|].
  replace (v * J' * P * p * (T * T))%Z with (v * J' * (P * T) * (p * T))%Z by lia.
  rewrite E1, E2. replace (v * J' * (Q * U) * (q * V))%Z with (v * Q * q * (J' * (U * V)))%Z by lia.
  rewrite E3. lia.
Qed.

Lemma of_decimal_ratio s mant i :
  (0 < mant)%Z →
  let '(P, Q) := pow10 i in
  of_decimal s mant i =
    match round_ratio s (mant * P) Q with S754_infinity _ => None | f => Some f end.
Proof.
  intros Hm. unfold of_decimal, pow10. rewrite (decide_False (P := mant = 0%Z)) by lia.
  case_decide; [done|]. by rewrite Z.mul_1_r.
Qed.

(** Seventeen digits denote the value they were made from. *)
Lemma literal17_denotes s m e :
  canonical (S754_finite s m e) →
  denotes (literal s (dec_point m e) 17 (decimal17 m e)) (S754_finite s m e) = true.
Proof.
  intros Hc. pose proof Hc as (He & Hm & _). pose proof (decimal17_range m e He Hm) as Hz.
  destruct (point_of_spec m e He Hm) as (_ & _ & Hk). fold (dec_point m e) in Hk.
  pose proof (decimal17_near m e He Hm) as Hnear. unfold upscale, downscale in Hnear.
  set (z := decimal17 m e) in *. set (k := dec_point m e) in *. clearbody z k.
  destruct (trimmed z Hz) as (Ht & Hd & Hh & Hv & j & Ez & Hl & Hl20). unfold literal.
  set (t := trim_right_byte Byte.x30 (itoa z)) in *. clearbody t.
  pose proof (len_nonneg t) as Hlt. change (Z.of_nat 17) with 17%Z.
  destruct (render_writes t Ht Hd Hh s (k + (len (itoa z) - 17))) as (i & f & x & j' & -> & H1 & H2 & H3 & H4 & H5);
    [lia|].
  unfold denotes. rewrite number_text_parses, number_text_float by done.
  rewrite bool_decide_eq_true_2 by done. apply bool_decide_eq_true. rewrite H4, H5.
  replace (k + (len (itoa z) - 17) - len t - Z.of_nat j')%Z
    with (k - 17 + Z.of_nat j - Z.of_nat j')%Z by lia.
  set (i' := (k - 17 + Z.of_nat j - Z.of_nat j')%Z).
  pose proof (of_decimal_ratio s (digits_val t * 10 ^ Z.of_nat j') i') as Ho.
  pose proof (same_value (digits_val t) j j' k) as Hs. fold i' in Hs. destruct (pow10_pos i') as [PP PQ].
  destruct (pow10 i') as [P Q]. cbn [fst snd] in *. rewrite Ho by (apply Z.mul_pos_pos; lia).
  specialize (Hs P Q eq_refl). rewrite <- Ez in Hs.
  set (n := (digits_val t * 10 ^ Z.of_nat j' * P)%Z) in *.
  assert (0 < n)%Z as Hn by (unfold n; repeat apply Z.mul_pos_pos; lia). clearbody n.
  destruct (large_enough n Q) as (K & HK & HL).
  by rewrite (round_ratio_near K s n Q m e) by (done || apply Hnear; (done || lia)).
Qed.

(** The text of every canonical value is a number that denotes it. *)
Lemma format_float_denotes f : canonical f → denotes (format_float f) f = true.
Proof.
  destruct f as [[]| | |s m e]; intros Hc; [done|done|done|done|]. cbn [format_float].
  destruct (scale (Zpos m) 1 (- e)) as [a b] eqn:Eab.
  assert (a = num m e ∧ b = den m e) as [-> ->] by (unfold num, den; by rewrite Eab).
  fold (dec_point m e). set (f := S754_finite s m e) in *.
  assert (∀ l, first_some l ≠ None → (∀ o, o ∈ l → ∀ lit, o = Some lit → denotes lit f = true) →
               denotes (default [] (first_some l)) f = true) as Hfirst.
  { induction l as [|[lit|] l IH]; cbn [first_some]; [done| |].
    - intros _ H. by apply (H (Some lit)); [left|].
    - intros H1 H2. apply IH; [done|]. intros o Ho. apply H2. by right. }
  apply Hfirst.
  - change (seq 1 17) with (seq 1 16 ++ [17]). rewrite fmap_app. cbn [fmap list_fmap].
    assert (∃ lit, try_digits f s (num m e) (den m e) (dec_point m e) 17 = Some lit) as [lit ->].
    { unfold try_digits. destruct (candidates_head m e) as [l ->]. cbn [fmap list_fmap List.find].
      rewrite literal17_denotes by done. by eexists. }
    generalize (try_digits f s (num m e) (den m e) (dec_point m e) <$> seq 1 16). intros l.
    induction l as [|[]]; by cbn [app first_some].
  - intros o (n & -> & _)%list_elem_of_fmap lit Hlit. unfold try_digits in Hlit.
    by apply List.find_some in Hlit as [_ ?].
Qed.
