(* ===== verification/Apigee.v ===== *)
(** * The APIGEE simulator: [apigee-sim/main.go]

    Its state is one atomic counter. A handler takes the request and the
    counter to the new counter and an outcome; the counter keeps the effect of
    a handler that panics, which [net/http] recovers from. *)

From Stdlib Require Import ZArith Lia.
From S2P Require Import Prelude GoLib Json Float64 Server.

Definition USERS : bytes := str "/api/v1/users/".

(** [writeJSON]: two headers, the status and the encoded value. *)
Definition writeJSON (status : Z) (v : gomap) : Response :=
  mkResp status
    (header_set (header_set ∅ (str "Content-Type") (str "application/json"))
                (str "X-Served-By") (str "apigee-sim"))
    (BMap v).

Definition product (id name price category : bytes) : any :=
  AMap [(str "id", AStr id); (str "name", AStr name); (str "price", float_lit price);
        (str "category", AStr category)].

Definition products : list any :=
  [product (str "prod-001") (str "API Gateway Standard") (str "99.99") (str "platform");
   product (str "prod-002") (str "API Gateway Enterprise") (str "299.99") (str "platform");
   product (str "prod-003") (str "Analytics Add-on") (str "49.99") (str "addon")].

Definition order (id status amount : bytes) : any :=
  AMap [(str "id", AStr id); (str "status", AStr status); (str "amount", float_lit amount)].

Definition orders : list any :=
  [order (str "ord-001") (str "shipped") (str "99.99");
   order (str "ord-002") (str "pending") (str "149.99")].

(** ** Handlers *)

Definition healthHandler (now : Z) (n : Z) : Z * outcome Response :=
  (n, Ret (writeJSON StatusOK
    (list_to_map [(str "status", AStr (str "UP")); (str "service", AStr (str "apigee-sim"));
                  (str "version", AStr (str "v1.0.0")); (str "time", ATime now)]))).

Definition productsHandler (r : Request) (n : Z) : Z * outcome Response :=
  let n := wrap64 (n + 1) in
  (n,
   if decide (q_Method r = GET) then
     Ret (writeJSON StatusOK
       (list_to_map [(str "products", AList products);
                     (str "total", AInt (Z.of_nat (length products)));
                     (str "source", AStr (str "apigee"))]))
   else if decide (q_Method r = POST) then
     let body := decode_map (q_Body r) in
     body ← assign (str "id") (AStr (str "prod-" ++ sprintf_03d n)) body;
     body ← assign (str "source") (AStr (str "apigee")) body;
     Ret (writeJSON StatusCreated (default ∅ body))
   else Ret (http_error (str "method not allowed") StatusMethodNotAllowed)).

Definition ordersHandler (r : Request) (n : Z) : Z * outcome Response :=
  let n := wrap64 (n + 1) in
  (n,
   if decide (q_Method r = GET) then
     Ret (writeJSON StatusOK
       (list_to_map [(str "orders", AList orders); (str "source", AStr (str "apigee"))]))
   else if decide (q_Method r = POST) then
     let body := decode_map (q_Body r) in
     body ← assign (str "orderId") (AStr (str "ord-" ++ sprintf_03d n)) body;
     body ← assign (str "status") (AStr (str "accepted")) body;
     body ← assign (str "source") (AStr (str "apigee")) body;
     Ret (writeJSON StatusAccepted (default ∅ body))
   else Ret (http_error (str "method not allowed") StatusMethodNotAllowed)).

Definition usersHandler (now : Z) (r : Request) (n : Z) : Z * outcome Response :=
  (n,
   userID ← slice (q_Path r) (len USERS) (len (q_Path r));
   let userID := if decide (userID = []) then str "unknown" else userID in
   Ret (writeJSON StatusOK
     (list_to_map [(str "userId", AStr userID); (str "name", AStr (str "Test User"));
                   (str "email", AStr (str "test@example.com"));
                   (str "plan", AStr (str "enterprise"));
                   (str "source", AStr (str "apigee")); (str "timestamp", ATime now)]))).

Definition metricsHandler (n : Z) : Z * outcome Response :=
  (n, Ret (writeJSON StatusOK
    (list_to_map [(str "total_requests", AInt n); (str "service", AStr (str "apigee-sim"))]))).

Definition echoHandler (r : Request) (n : Z) : Z * outcome Response :=
  let headers := first_values id (q_Header r) in
  (n, Ret (writeJSON StatusOK
    (list_to_map [(str "message", AStr (str "request received by APIGEE simulator"));
                  (str "method", AStr (q_Method r)); (str "path", AStr (q_Path r));
                  (str "query", AStr (q_RawQuery r)); (str "headers", string_map headers);
                  (str "source", AStr (str "apigee"))]))).

(** ** The server *)

Inductive handler := Health | Products | Orders | Users | Metrics | Echo.

Definition mux : list (bytes * handler) :=
  [(str "/health", Health); (str "/api/v1/products", Products);
   (str "/api/v1/orders", Orders); (USERS, Users);
   (str "/metrics", Metrics); (str "/", Echo)].

Definition run (now : Z) (h : handler) (r : Request) (n : Z) : Z * outcome Response :=
  match h with
  | Health => healthHandler now n
  | Products => productsHandler r n
  | Orders => ordersHandler r n
  | Users => usersHandler now r n
  | Metrics => metricsHandler n
  | Echo => echoHandler r n
  end.

Definition serve (now : Z) (r : Request) (n : Z) : Z * served :=
  match mux_route mux (q_Method r) (q_Path r) with
  | Handler h => let '(n, o) := run now h r n in (n, Served o)
  | Redirect p => (n, Redirected p)
  | NotFound => (n, Missing)
  end.

(** ** Properties *)

Definition PRODUCTS : bytes := str "/api/v1/products".
Definition ORDERS : bytes := str "/api/v1/orders".

(** Which handler serves which path. *)
Lemma serve_handler method path h :
  mux_route mux method path = Handler h →
  (h = Products → path = PRODUCTS) ∧ (h = Orders → path = ORDERS) ∧
  (h = Users → has_prefix path USERS = true).
Proof.
  intros (k & Hin & Hk)%mux_route_handler. unfold mux in Hin.
  rewrite !elem_of_cons, elem_of_nil in Hin.
  destruct_or! Hin; simplify_eq; (repeat split); intros Hh; try discriminate Hh;
    destruct Hk as [->|[Hs Hp]]; try done; vm_compute in Hs; discriminate.
Qed.

Lemma has_prefix_slice p q : has_prefix p q = true → ∃ r, slice p (len q) (len p) = Ret r.
Proof.
  intros Hp. apply has_prefix_spec in Hp as [t ->]. unfold slice, len.
  rewrite length_app, decide_True by lia. by eexists.
Qed.

Lemma route_posts method : method = POST →
  mux_route mux method PRODUCTS = Handler Products ∧ mux_route mux method ORDERS = Handler Orders.
Proof. intros ->. split; vm_compute; reflexivity. Qed.

(** C37. The only request that makes the APIGEE simulator panic is a [POST] of a
    product or an order whose body does not start with a JSON object (it is
    empty, malformed, null or of another type): the decoder then leaves the
    map nil and the handler writes to it. In particular the slicing of the path
    in [usersHandler] is safe for every path the multiplexer hands to it. *)
Theorem serve_panics_iff now r n p :
  (serve now r n).2 = Served (Panic p) ↔
  p = NilMapWrite ∧ q_Method r = POST ∧ (q_Path r = PRODUCTS ∨ q_Path r = ORDERS) ∧
  decode_map (q_Body r) = None.
Proof.
  unfold serve. split.
  - destruct (mux_route _ _ _) as [h| |] eqn:E; [|done|done].
    apply serve_handler in E as (Hp & Ho & Hu).
    destruct h; cbn [run healthHandler productsHandler ordersHandler usersHandler
                      metricsHandler echoHandler snd fst]; try discriminate.
    + repeat case_decide; try discriminate. unfold assign.
      destruct (decode_map (q_Body r)); cbn [mbind outcome_bind]; try discriminate.
      intros [= <-]. naive_solver.
    + repeat case_decide; try discriminate. unfold assign.
      destruct (decode_map (q_Body r)); cbn [mbind outcome_bind]; try discriminate.
      intros [= <-]. naive_solver.
    + destruct (has_prefix_slice _ _ (Hu eq_refl)) as [u ->]. cbn [mbind outcome_bind].
      discriminate.
  - intros (-> & Hm & Hpath & Hd). destruct (route_posts _ Hm) as [Rp Ro].
    destruct Hpath as [-> | ->]; rewrite ?Rp, ?Ro; cbn [run snd];
      unfold productsHandler, ordersHandler; rewrite Hd, Hm; vm_compute; reflexivity.
Qed.

Definition null_post : Request := mkReq POST PRODUCTS [] ∅ (str "null").

Theorem serve_panics_iff_witness :
  (serve 0 null_post 0).2 = Served (Panic NilMapWrite).
Proof.
  apply (proj2 (serve_panics_iff 0 null_post 0 NilMapWrite)).
  repeat split; by_compute || (vm_compute; reflexivity) || (left; reflexivity).
Defined.
