(* ===== verification/Ewp.v ===== *)
(** * The EWP simulator: [ewp-sim/main.go]

    Its globals, its handlers, the window of the validation log, the report and
    the configuration. [Report] proves what the report says, [InFlight] lets
    the handlers interleave. *)

From Stdlib Require Import ZArith Lia SpecFloat.
From S2P Require Import Prelude GoLib Json Float64 Server.

(** ** State *)

Record ValidationEntry := mkEntry {
  e_Time : Z;
  e_Method : bytes;
  e_Path : bytes;
  e_StatusCode : Z;
  e_LatencyMs : Z;
  e_Passed : bool;
  e_Note : bytes;
  e_ResponseHeaders : gmap bytes bytes
}.

Record ewp := mkEwp {
  requestCount : Z;
  mirroredCount : Z;
  successCount : Z;
  validationLog : list ValidationEntry;
  readyThreshPct : float64
}.

Definition initial : ewp := mkEwp 0 0 0 [] (of_int 100).

(** The atomic accesses. *)
Definition count_request (s : ewp) : ewp :=
  mkEwp (wrap64 (requestCount s + 1)) (mirroredCount s) (successCount s) (validationLog s)
        (readyThreshPct s).
Definition count_mirrored (s : ewp) : ewp :=
  mkEwp (requestCount s) (wrap64 (mirroredCount s + 1)) (successCount s) (validationLog s)
        (readyThreshPct s).
Definition count_success (s : ewp) : ewp :=
  mkEwp (requestCount s) (mirroredCount s) (wrap64 (successCount s + 1)) (validationLog s)
        (readyThreshPct s).
Definition set_threshold (t : float64) (s : ewp) : ewp :=
  mkEwp (requestCount s) (mirroredCount s) (successCount s) (validationLog s) t.

Definition log_limit : nat := 1000.

(** Under [validationMu]: append, and keep the newest thousand. *)
Definition store (e : ValidationEntry) (s : ewp) : ewp :=
  let log := validationLog s ++ [e] in
  let log := if decide (log_limit < length log) then drop (length log - log_limit) log else log in
  mkEwp (requestCount s) (mirroredCount s) (successCount s) log (readyThreshPct s).

(** The clock and the time a handler took, in nanoseconds. *)
Record env := mkEnvironment { now : Z; latency : Z }.

(** ** Writing and recording *)

Definition writeJSON (status : Z) (v : gomap) : Response :=
  mkResp status
    (header_set (header_set ∅ (str "Content-Type") (str "application/json"))
                (str "X-Served-By") (str "ewp-sim"))
    (BMap v).

Definition isMirrored (r : Request) : bool :=
  negb (bool_decide (header_get (q_Header r) (str "X-Mirror-Source") = [])).

Definition passed_status (statusCode : Z) : bool :=
  bool_decide (200 ≤ statusCode ∧ statusCode < 300)%Z.

Definition note_of (statusCode : Z) : bytes :=
  if decide (500 ≤ statusCode)%Z then
    str "EWP internal error " ++ itoa statusCode ++
    str " — EWP may not handle this endpoint yet"
  else if decide (400 ≤ statusCode)%Z then
    str "EWP returned " ++ itoa statusCode ++
    str " — possible route or schema mismatch vs APIGEE"
  else [].

Definition entry_of (v : env) (r : Request) (statusCode : Z) (respHeader : Header)
    : ValidationEntry :=
  mkEntry (now v) (q_Method r) (q_Path r) statusCode (Z.quot (latency v) 1000000)
    (passed_status statusCode) (note_of statusCode) (first_values to_lower respHeader).

(** The two shared accesses of [record]. *)
Definition score (r : Request) (statusCode : Z) (s : ewp) : ewp :=
  if passed_status statusCode && isMirrored r then count_success s else s.
Definition keep (v : env) (r : Request) (statusCode : Z) (respHeader : Header) (s : ewp) : ewp :=
  if isMirrored r then store (entry_of v r statusCode respHeader) s else s.

Definition record (v : env) (r : Request) (statusCode : Z) (respHeader : Header) (s : ewp)
    : ewp := keep v r statusCode respHeader (score r statusCode s).

(** ** API handlers *)

Definition USERS : bytes := str "/api/v1/users/".

Definition product (id name price category : bytes) : any :=
  AMap [(str "id", AStr id); (str "name", AStr name); (str "price", float_lit price);
        (str "category", AStr category)].

Definition products : list any :=
  [product (str "prod-001") (str "API Gateway Standard") (str "99.99") (str "platform");
   product (str "prod-002") (str "API Gateway Enterprise") (str "299.99") (str "platform");
   product (str "prod-003") (str "Analytics Add-on") (str "49.99") (str "addon")].

Definition order (id status amount : bytes) : any :=
  AMap [(str "id", AStr id); (str "status", AStr status); (str "amount", float_lit amount)].

Definition orders : list any :=
  [order (str "ord-001") (str "shipped") (str "99.99");
   order (str "ord-002") (str "pending") (str "149.99")].

(** What the body of a handler decides, given the counter it loads: a status
    and a value, or [None] for "method not allowed". *)
Abbreviation decision := (outcome (option (Z * gomap))).

Definition answer_products (r : Request) (count : Z) : decision :=
  if decide (q_Method r = GET) then
    Ret (Some (StatusOK,
      list_to_map [(str "products", AList products);
                   (str "total", AInt (Z.of_nat (length products)));
                   (str "source", AStr (str "ewp"))]))
  else if decide (q_Method r = POST) then
    let body := decode_map (q_Body r) in
    body ← assign (str "id") (AStr (str "ewp-prod-" ++ sprintf_03d count)) body;
    body ← assign (str "source") (AStr (str "ewp")) body;
    Ret (Some (StatusCreated, default ∅ body))
  else Ret None.

Definition answer_orders (r : Request) (count : Z) : decision :=
  if decide (q_Method r = GET) then
    Ret (Some (StatusOK,
      list_to_map [(str "orders", AList orders); (str "source", AStr (str "ewp"))]))
  else if decide (q_Method r = POST) then
    let body := decode_map (q_Body r) in
    body ← assign (str "orderId") (AStr (str "ewp-ord-" ++ sprintf_03d count)) body;
    body ← assign (str "status") (AStr (str "accepted")) body;
    body ← assign (str "source") (AStr (str "ewp")) body;
    Ret (Some (StatusAccepted, default ∅ body))
  else Ret None.

Definition answer_users (v : env) (r : Request) : decision :=
  userID ← slice (q_Path r) (len USERS) (len (q_Path r));
  let userID := if decide (userID = []) then str "unknown" else userID in
  Ret (Some (StatusOK,
    list_to_map [(str "userId", AStr userID); (str "name", AStr (str "Test User"));
                 (str "email", AStr (str "test@example.com"));
                 (str "plan", AStr (str "enterprise")); (str "source", AStr (str "ewp"));
                 (str "platform", AStr (str "service-mesh")); (str "timestamp", ATime (now v))])).

Definition answer_echo (r : Request) : decision :=
  let headers := first_values id (q_Header r) in
  Ret (Some (StatusOK,
    list_to_map [(str "message", AStr (str "request received by EWP simulator"));
                 (str "method", AStr (q_Method r)); (str "path", AStr (q_Path r));
                 (str "headers", string_map headers); (str "source", AStr (str "ewp"));
                 (str "is_mirror", ABool (isMirrored r))])).

Definition method_not_allowed : Response :=
  http_error (str "method not allowed") StatusMethodNotAllowed.

(** The end of a handler: respond, then record; neither happens when the
    handler has panicked, and a rejected method is not recorded. *)
Definition conclude (v : env) (r : Request) (d : decision) (s : ewp) : ewp * outcome Response :=
  match d with
  | Panic p => (s, Panic p)
  | Ret None => (s, Ret method_not_allowed)
  | Ret (Some (statusCode, respBody)) =>
      let w := writeJSON statusCode respBody in
      (record v r statusCode (p_Header w) s, Ret w)
  end.

Definition mark (r : Request) (s : ewp) : ewp := if isMirrored r then count_mirrored s else s.

Definition productsHandler (v : env) (r : Request) (s : ewp) : ewp * outcome Response :=
  let s := mark r (count_request s) in
  conclude v r (answer_products r (requestCount s)) s.

Definition ordersHandler (v : env) (r : Request) (s : ewp) : ewp * outcome Response :=
  let s := mark r (count_request s) in
  conclude v r (answer_orders r (requestCount s)) s.

Definition usersHandler (v : env) (r : Request) (s : ewp) : ewp * outcome Response :=
  let s := mark r (count_request s) in
  conclude v r (answer_users v r) s.

(** The catch-all does not count the request. *)
Definition echoHandler (v : env) (r : Request) (s : ewp) : ewp * outcome Response :=
  let s := mark r s in
  conclude v r (answer_echo r) s.

(** ** Health and metrics *)

Definition healthHandler (v : env) : Response :=
  writeJSON StatusOK
    (list_to_map [(str "status", AStr (str "UP")); (str "service", AStr (str "ewp-sim"));
                  (str "version", AStr (str "v2.0.0"));
                  (str "platform", AStr (str "service-mesh")); (str "time", ATime (now v))]).

(** The success rate in percent; zero before any mirrored request. *)
Definition success_rate (mirrored success : Z) : float64 :=
  if decide (0 < mirrored)%Z then fmul (fdiv (of_int success) (of_int mirrored)) (of_int 100)
  else of_int 0.

Definition metricsHandler (s : ewp) : Response :=
  let total := requestCount s in
  let mirrored := mirroredCount s in
  let success := successCount s in
  writeJSON StatusOK
    (list_to_map [(str "total_requests", AInt total); (str "mirrored_requests", AInt mirrored);
                  (str "success_count", AInt success);
                  (str "success_rate_pct", AStr (percent (success_rate mirrored success)));
                  (str "service", AStr (str "ewp-sim"))]).

(** ** The validation report *)

Definition safeDiv (a b : Z) : float64 :=
  if decide (b = 0)%Z then of_int 0 else fdiv (of_int a) (of_int b).

Record pathStats := mkPathStats {
  ps_Total : Z;
  ps_Passed : Z;
  ps_Failed : Z;
  ps_PassRatePct : bytes;
  ps_AvgLatMs : Z;
  ps_ReadyToCut : bool;
  ps_ResponseHeaders : gmap bytes bytes;
  ps_sumLatMs : Z
}.

Definition new_path_stats : pathStats := mkPathStats 0 0 0 [] 0 false ∅ 0.

Definition path_key (e : ValidationEntry) : bytes := e_Method e ++ str " " ++ e_Path e.

(** One iteration of the loop over the entries. *)
Definition count_entry (e : ValidationEntry) (ps : pathStats) : pathStats :=
  mkPathStats (ps_Total ps + 1)
    (if e_Passed e then ps_Passed ps + 1 else ps_Passed ps)
    (if e_Passed e then ps_Failed ps else ps_Failed ps + 1)
    (ps_PassRatePct ps) (ps_AvgLatMs ps) (ps_ReadyToCut ps)
    (e_ResponseHeaders e ∪ ps_ResponseHeaders ps)
    (wrap64 (ps_sumLatMs ps + e_LatencyMs e)).

Definition add_entry (byPath : gmap bytes pathStats) (e : ValidationEntry)
    : gmap bytes pathStats :=
  <[path_key e := count_entry e (default new_path_stats (byPath !! path_key e))]> byPath.

(** One iteration of the loop over the paths. *)
Definition finish_path (thresh : float64) (ps : pathStats) : pathStats :=
  if decide (0 < ps_Total ps)%Z then
    let r := fmul (safeDiv (ps_Passed ps) (ps_Total ps)) (of_int 100) in
    mkPathStats (ps_Total ps) (ps_Passed ps) (ps_Failed ps) (percent r)
      (wrap64 (Z.quot (ps_sumLatMs ps) (ps_Total ps))) (fge r thresh)
      (ps_ResponseHeaders ps) (ps_sumLatMs ps)
  else ps.

Record report := mkReport {
  rp_total : Z;
  rp_passed : Z;
  rp_failed : Z;
  rp_pass_rate : bytes;
  rp_avg_latency_ms : Z;
  rp_ready_threshold_pct : bytes;
  rp_ready_to_cut : bool;
  rp_by_path : gmap bytes pathStats;
  rp_entries : list ValidationEntry
}.

Definition by_path (entries : list ValidationEntry) : gmap bytes pathStats :=
  foldl add_entry ∅ entries.

(** [validationReportHandler], from its copy of the log and the threshold it
    reads. *)
Definition validation_report (entries : list ValidationEntry) (thresh : float64) : report :=
  let total := Z.of_nat (length entries) in
  let passed := Z.of_nat (length (List.filter e_Passed entries)) in
  let totalLatencyMs := foldl (λ t e, wrap64 (t + e_LatencyMs e))%Z 0%Z entries in
  let byPath := finish_path thresh <$> by_path entries in
  let allEndpointsReady :=
    bool_decide (0 < size byPath) &&
    bool_decide (map_Forall (λ _ ps, ps_ReadyToCut ps = true) byPath) in
  let avgLatMs := if decide (0 < total)%Z then wrap64 (Z.quot totalLatencyMs total) else 0%Z in
  mkReport total passed (total - passed) (percent (fmul (safeDiv passed total) (of_int 100)))
    avgLatMs (percent thresh) (allEndpointsReady && bool_decide (0 < total)%Z)
    byPath entries.

Definition validationReportHandler (s : ewp) : report :=
  validation_report (validationLog s) (readyThreshPct s).

(** The constant text of the page: what the comparison covers. *)
Definition what_is_compared : any :=
  AList
    [AStr (str "HTTP response status code class (2xx / 4xx / 5xx) per mirrored request");
     AStr (str "Response latency (per-endpoint average, ms)");
     AStr (str "Endpoint availability — 404 from EWP means the route is not implemented yet");
     AStr (str "Response headers returned by EWP (see response_headers_observed per endpoint)")].

Definition what_is_not_compared : any :=
  AList
    [AStr (str "APIGEE response headers vs EWP response headers — the eBPF hook captures " ++
           str "client→APIGEE ingress only; APIGEE's outbound responses are not captured, so a " ++
           str "header-by-header diff is not possible without also adding an egress hook");
     AStr (str "Response body content or JSON schema — EWP may return structurally different " ++
           str "payloads with the same status code; body comparison requires an egress hook or a " ++
           str "dedicated contract test suite");
     AStr (str "Request transformations visible to the API provider (backend) app — Envoy/EWP " ++
           str "adds headers (x-forwarded-for, x-envoy-*, grpc-status, etc.) before forwarding " ++
           str "to the backend; the backend may behave differently because of these additions, " ++
           str "which this tool cannot detect");
     AStr (str "Response header additions visible to the API consumer (client) app — Envoy adds " ++
           str "headers such as x-envoy-upstream-service-time, x-request-id, server: envoy, and " ++
           str "may modify or strip APIGEE-specific headers; client applications that parse or " ++
           str "validate response headers may break even when the status code passes")].

Definition migration_context : bytes :=
  str "This tool compares proxy-layer behavior between the POD (Point-of-Departure) APIGEE proxy " ++
  str "and the POA (Point-of-Arrival) EWP proxy. A passing result confirms that EWP routes " ++
  str "correctly and returns equivalent HTTP status codes for the same traffic. It does not " ++
  str "confirm that the API provider application or API consumer application are unaffected by " ++
  str "the migration. Provider-layer and consumer-layer compatibility must be validated " ++
  str "separately (contract tests, integration tests, or canary traffic with client-side " ++
  str "monitoring).".

Definition comparison_scope : any :=
  AMap [(str "what_is_compared", what_is_compared);
        (str "what_is_not_compared", what_is_not_compared);
        (str "migration_context", AStr migration_context)].

(** The values the page is encoded from, with the fields of the JSON tags; an
    empty note and an empty header map are omitted. *)
Definition omitempty (k : bytes) (empty : bool) (v : any) : list (bytes * any) :=
  if empty then [] else [(k, v)].

Definition entry_json (e : ValidationEntry) : any :=
  AStruct ([(str "time", ATime (e_Time e)); (str "method", AStr (e_Method e));
            (str "path", AStr (e_Path e)); (str "status_code", AInt (e_StatusCode e));
            (str "latency_ms", AInt (e_LatencyMs e)); (str "passed", ABool (e_Passed e))] ++
           omitempty (str "note") (bool_decide (e_Note e = [])) (AStr (e_Note e)) ++
           omitempty (str "response_headers") (bool_decide (e_ResponseHeaders e = ∅))
             (string_map (e_ResponseHeaders e))).

Definition path_json (ps : pathStats) : any :=
  AStruct [(str "total", AInt (ps_Total ps)); (str "passed", AInt (ps_Passed ps));
           (str "failed", AInt (ps_Failed ps)); (str "pass_rate", AStr (ps_PassRatePct ps));
           (str "avg_latency_ms", AInt (ps_AvgLatMs ps));
           (str "ready_to_cut", ABool (ps_ReadyToCut ps));
           (str "response_headers_observed", string_map (ps_ResponseHeaders ps))].

Definition summary_json (rp : report) : any :=
  AMap [(str "total", AInt (rp_total rp)); (str "passed", AInt (rp_passed rp));
        (str "failed", AInt (rp_failed rp)); (str "pass_rate", AStr (rp_pass_rate rp));
        (str "avg_latency_ms", AInt (rp_avg_latency_ms rp));
        (str "ready_threshold_pct", AStr (rp_ready_threshold_pct rp));
        (str "ready_to_cut", ABool (rp_ready_to_cut rp))].

Definition report_page (rp : report) : Response :=
  writeJSON StatusOK
    (list_to_map [(str "summary", summary_json rp);
                  (str "by_path", AMap (prod_map id path_json <$> map_to_list (rp_by_path rp)));
                  (str "comparison_scope", comparison_scope);
                  (str "entries", AList (entry_json <$> rp_entries rp))]).

(** ** Configuration *)

(** Case folding of a key: ASCII, and the long s, which folds to "s". *)
Fixpoint fold_key (k : bytes) : bytes :=
  match k with
  | Byte.xc5 :: Byte.xbf :: k' => Byte.x73 :: fold_key k'
  | b :: k' => lower_byte b :: fold_key k'
  | [] => []
  end.

(** The struct decoder, from the value so far: [None] is a type error, which
    does not stop the decoder but is what it finally returns. *)
Definition set_config (acc : option float64) (kv : bytes * json) : option float64 :=
  f ← acc;
  if decide (fold_key kv.1 = str "ready_threshold_pct") then
    match kv.2 with
    | JNum lit => parse_float lit
    | JNull => Some f
    | _ => None
    end
  else Some f.

Definition decode_config (s : bytes) : option float64 :=
  match first_value s with
  | Some (JObj l, _) => foldl set_config (Some (S754_zero false)) l
  | Some (JNull, _) => Some (S754_zero false)
  | _ => None
  end.

(** [err_text] is the text of the decoder's error. *)
Definition configHandler (err_text : bytes) (r : Request) (s : ewp) : ewp * Response :=
  if decide (q_Method r = GET) then
    (s, writeJSON StatusOK
      (list_to_map [(str "ready_threshold_pct", AFloat (readyThreshPct s));
                    (str "note", AStr (qstr
  "PUT /config with {'ready_threshold_pct': <0-100>} to update without restart"))]))
  else if decide (q_Method r = PUT ∨ q_Method r = POST) then
    match decode_config (q_Body r) with
    | None => (s, http_error (str "bad JSON: " ++ err_text) StatusBadRequest)
    | Some t =>
        if flt t (of_int 0) || flt (of_int 100) t then
          (s, http_error (str "ready_threshold_pct must be between 0 and 100") StatusBadRequest)
        else
          (set_threshold t s,
           writeJSON StatusOK
             (list_to_map [(str "ready_threshold_pct", AFloat t);
                           (str "status", AStr (str "updated"))]))
    end
  else (s, http_error (str "use GET or PUT") StatusMethodNotAllowed).

(** ** The server *)

Inductive handler :=
  | Health | Products | Orders | Users | Metrics | ReportPage | Config | Echo.

Definition mux : list (bytes * handler) :=
  [(str "/health", Health); (str "/api/v1/products", Products);
   (str "/api/v1/orders", Orders); (USERS, Users); (str "/metrics", Metrics);
   (str "/validation-report", ReportPage); (str "/config", Config); (str "/", Echo)].

(** The answer of a handler: a response, or the report whose page
    [report_page] is written. *)
Inductive ewp_answer :=
  | Page (o : outcome Response)
  | ReportAnswer (rp : report).

Definition run (v : env) (err_text : bytes) (h : handler) (r : Request) (s : ewp)
    : ewp * ewp_answer :=
  let page '(s, o) := (s, Page o) in
  match h with
  | Health => (s, Page (Ret (healthHandler v)))
  | Products => page (productsHandler v r s)
  | Orders => page (ordersHandler v r s)
  | Users => page (usersHandler v r s)
  | Metrics => (s, Page (Ret (metricsHandler s)))
  | ReportPage => (s, ReportAnswer (validationReportHandler s))
  | Config => let '(s, w) := configHandler err_text r s in (s, Page (Ret w))
  | Echo => page (echoHandler v r s)
  end.

Definition serve (v : env) (err_text : bytes) (r : Request) (s : ewp)
    : ewp * target ewp_answer :=
  match mux_route mux (q_Method r) (q_Path r) with
  | Handler h => let '(s, a) := run v err_text h r s in (s, Handler a)
  | Redirect p => (s, Redirect p)
  | NotFound => (s, NotFound)
  end.

(** ** The log window *)

Lemma store_log e s :
  validationLog (store e s) =
    drop (length (validationLog s ++ [e]) - log_limit) (validationLog s ++ [e]).
Proof.
  unfold store. cbv zeta. cbn [validationLog]. case_decide; [done|].
  rewrite (proj2 (Nat.sub_0_le _ _)) by lia. by rewrite drop_0.
Qed.

Definition store_all (es : list ValidationEntry) (s : ewp) : ewp :=
  foldl (λ s e, store e s) s es.

Lemma store_all_log es s :
  length (validationLog s) ≤ log_limit →
  validationLog (store_all es s) =
    drop (length (validationLog s ++ es) - log_limit) (validationLog s ++ es).
Proof.
  revert s. induction es as [|e es IH]; intros s Hs.
  - cbn [store_all foldl]. rewrite app_nil_r, (proj2 (Nat.sub_0_le _ _)) by done.
    by rewrite drop_0.
  - assert (store_all (e :: es) s = store_all es (store e s)) as -> by done.
    pose proof (store_log e s) as El.
    rewrite IH; rewrite El; [|rewrite length_drop; lia].
    set (l := validationLog s) in *.
    assert (l ++ e :: es = (l ++ [e]) ++ es) as -> by (rewrite <- app_assoc; reflexivity).
    set (k := length (l ++ [e]) - log_limit).
    assert (drop k (l ++ [e]) ++ es = drop k ((l ++ [e]) ++ es)) as ->
      by (rewrite (drop_app_le (l ++ [e]) es); [done|unfold k; lia]).
    rewrite drop_drop, length_drop. f_equal.
    unfold k. rewrite !length_app. cbn [length]. lia.
Qed.

(** C30. The validation log is a sliding window: after any further entries it
    holds the newest thousand of all entries, in order, and nothing else. *)
Theorem log_keeps_newest es s :
  length (validationLog s) ≤ log_limit →
  validationLog (store_all es s) =
    drop (length (validationLog s ++ es) - log_limit) (validationLog s ++ es) ∧
  length (validationLog (store_all es s)) = min log_limit (length (validationLog s ++ es)).
Proof.
  intros Hs. rewrite store_all_log by done. split; [done|]. rewrite length_drop. lia.
Qed.

Definition demo_entry (code : Z) : ValidationEntry :=
  mkEntry 0 GET (str "/a") code 3 (passed_status code) (note_of code) ∅.

Theorem log_keeps_newest_witness :
  validationLog (store_all (demo_entry 404 :: replicate log_limit (demo_entry 200)) initial) =
    drop 1 (demo_entry 404 :: replicate log_limit (demo_entry 200)) ∧
  length (validationLog (store_all (demo_entry 404 :: replicate log_limit (demo_entry 200)) initial))
    = 1000.
Proof.
  destruct (log_keeps_newest (demo_entry 404 :: replicate log_limit (demo_entry 200)) initial)
    as [H1 H2]; [vm_compute; lia|].
  split; [exact H1|]. rewrite H2. vm_compute. reflexivity.
Defined.
