(* ===== verification/Report.v ===== *)
(** * The validation report: [ewp-sim/main.go]

    What [validationReportHandler] counts, when it lets the migration be cut
    over, in float arithmetic, and the threshold [configHandler] sets. *)

From Stdlib Require Import ZArith Lia SpecFloat.
From S2P Require Import Prelude GoLib Json Float64 Server Ewp.

(** ** What the report counts *)

(** The entries of one endpoint. *)
Definition entries_of (k : bytes) (es : list ValidationEntry) : list ValidationEntry :=
  List.filter (λ e, bool_decide (path_key e = k)) es.

Lemma by_path_from m es k :
  foldl add_entry m es !! k =
    match entries_of k es with
    | [] => m !! k
    | l => Some (foldl (λ ps e, count_entry e ps) (default new_path_stats (m !! k)) l)
    end.
Proof.
  revert m. induction es as [|e es IH]; intros m; [done|].
  cbn [foldl entries_of List.filter]. rewrite IH. fold (entries_of k es). unfold add_entry.
  destruct (decide (path_key e = k)) as [->|Hk].
  - rewrite bool_decide_eq_true_2, lookup_insert_eq by done. cbn [default foldl].
    by destruct (entries_of k es).
  - rewrite bool_decide_eq_false_2, lookup_insert_ne by done. done.
Qed.

Lemma by_path_lookup es k :
  by_path es !! k =
    match entries_of k es with
    | [] => None
    | l => Some (foldl (λ ps e, count_entry e ps) new_path_stats l)
    end.
Proof. unfold by_path. by rewrite by_path_from, lookup_empty. Qed.

Definition failed (e : ValidationEntry) : bool := negb (e_Passed e).

Lemma count_all l ps :
  let ps' := foldl (λ ps e, count_entry e ps) ps l in
  ps_Total ps' = (ps_Total ps + Z.of_nat (length l))%Z ∧
  ps_Passed ps' = (ps_Passed ps + Z.of_nat (length (List.filter e_Passed l)))%Z ∧
  ps_Failed ps' = (ps_Failed ps + Z.of_nat (length (List.filter failed l)))%Z ∧
  ps_ReadyToCut ps' = ps_ReadyToCut ps.
Proof.
  revert ps. induction l as [|e l IH]; intros ps; cbn [foldl length List.filter]; cbv zeta.
  { repeat split; lia. }
  destruct (IH (count_entry e ps)) as (-> & -> & -> & ->). unfold failed.
  cbn [count_entry ps_Total ps_Passed ps_Failed ps_ReadyToCut].
  destruct (e_Passed e); cbn [negb length]; repeat split; lia.
Qed.

(** The finished statistics of one endpoint. *)
Lemma report_path es t k :
  match rp_by_path (validation_report es t) !! k with
  | None => entries_of k es = []
  | Some ps =>
      let l := entries_of k es in
      ps_Total ps = Z.of_nat (length l) ∧ (0 < ps_Total ps)%Z ∧
      ps_Passed ps = Z.of_nat (length (List.filter e_Passed l)) ∧
      ps_Failed ps = Z.of_nat (length (List.filter failed l)) ∧
      ps_ReadyToCut ps =
        fge (rate (ps_Passed ps) (ps_Total ps)) t
  end.
Proof.
  unfold validation_report. cbn [rp_by_path]. rewrite lookup_fmap, by_path_lookup.
  destruct (entries_of k es) as [|e l] eqn:E; [done|]. cbn [fmap option_fmap option_map].
  destruct (count_all (e :: l) new_path_stats) as (H1 & H2 & H3 & _). cbv zeta in *.
  set (ps := foldl _ _ _) in *. clearbody ps. cbn [ps_Total ps_Passed ps_Failed new_path_stats] in *.
  assert (0 < ps_Total ps)%Z as Hpos by (rewrite H1; cbn [length]; lia).
  unfold finish_path. rewrite decide_True by done. cbv zeta.
  cbn [ps_Total ps_Passed ps_Failed ps_ReadyToCut]. repeat split; try lia.
  unfold safeDiv. by rewrite decide_False by lia.
Qed.

Lemma filter_partition (l : list ValidationEntry) :
  length (List.filter e_Passed l) + length (List.filter failed l) = length l.
Proof.
  induction l as [|e l IH]; [done|]. cbn [List.filter]. unfold failed in *.
  destruct (e_Passed e); cbn [negb length]; lia.
Qed.

Lemma filter_all (l : list ValidationEntry) :
  length (List.filter e_Passed l) = length l ↔ Forall (λ e, e_Passed e = true) l.
Proof.
  induction l as [|e l IH]; [by split|]. cbn [List.filter]. rewrite Forall_cons, <- IH.
  pose proof (filter_partition l). destruct (e_Passed e); cbn [length]; intuition (lia || done).
Qed.

(** C29. The report counts what the log holds: passed and failed add up to the
    total; an endpoint is listed exactly when some entry has its method and
    path; and its total, passed and failed are the numbers of those entries. *)
Theorem report_counts es t :
  let rp := validation_report es t in
  rp_total rp = Z.of_nat (length es) ∧ (rp_passed rp + rp_failed rp)%Z = rp_total rp ∧
  rp_failed rp = Z.of_nat (length (List.filter failed es)) ∧
  ∀ k, match rp_by_path rp !! k with
       | None => Forall (λ e, path_key e ≠ k) es
       | Some ps =>
           ps_Total ps = Z.of_nat (length (entries_of k es)) ∧ (0 < ps_Total ps)%Z ∧
           (ps_Passed ps + ps_Failed ps)%Z = ps_Total ps ∧
           ps_Failed ps = Z.of_nat (length (List.filter failed (entries_of k es)))
       end.
Proof.
  cbv zeta. pose proof (filter_partition es).
  split; [done|]. split; [cbn [rp_passed rp_failed rp_total validation_report]; lia|].
  split; [cbn [rp_failed validation_report]; lia|].
  intros k. pose proof (report_path es t k) as Hk. destruct (rp_by_path _ !! k) as [ps|].
  - destruct Hk as (H1 & H2 & H3 & H4 & _). cbv zeta in *.
    pose proof (filter_partition (entries_of k es)). repeat split; lia.
  - rewrite Forall_forall. intros e He Hke. assert (e ∈ entries_of k es) as Hin; [|rewrite Hk in Hin; set_solver].
    apply list_elem_of_In, List.filter_In. split; [by apply list_elem_of_In|].
    by apply bool_decide_eq_true.
Qed.

(** ** Readiness *)

(** The thresholds [configHandler] lets through. *)
Definition threshold_ok (t : float64) : Prop :=
  t ≠ S754_nan ∧ flt t (of_int 0) = false ∧ flt (of_int 100) t = false.

Lemma fge_hundred t : threshold_ok t → fge (of_int 100) t = true.
Proof.
  intros (Hn & _ & Hh). rewrite of_int_100 in *.
  apply fge_not_lt; [by apply SFcompare_Some|done].
Qed.

Lemma fge_rate p t :
  (0 ≤ p ≤ t)%Z → (0 < t < 2 ^ 50)%Z → fge (rate p t) (of_int 100) = bool_decide (p = t).
Proof.
  intros Hp Ht. case_bool_decide as Hpt.
  - subst. rewrite rate_full by lia. vm_compute. reflexivity.
  - unfold fge, SFleb. rewrite SFcompare_flip, rate_partial by lia. reflexivity.
Qed.

(** The report is ready when there is an endpoint and all of them are. *)
Lemma ready_to_cut_spec es t :
  rp_ready_to_cut (validation_report es t) = true ↔
  es ≠ [] ∧ ∀ k ps, rp_by_path (validation_report es t) !! k = Some ps →
            ps_ReadyToCut ps = true.
Proof.
  cbn [rp_ready_to_cut rp_by_path validation_report].
  rewrite !andb_true_iff, !bool_decide_eq_true. unfold map_Forall.
  split; [intros [[_ H] Hl]; split; [by intros ->|done]|].
  intros [Hne H]. destruct es as [|e es]; [done|]. split; [|cbn [length]; lia].
  split; [|done]. apply Nat.neq_0_lt_0. rewrite map_size_fmap. intros Hz.
  apply map_size_empty_inv in Hz. pose proof (by_path_lookup (e :: es) (path_key e)) as Hk.
  rewrite Hz, lookup_empty in Hk. unfold entries_of in Hk. cbn [List.filter] in Hk.
  by rewrite bool_decide_eq_true_2 in Hk.
Qed.

Lemma entries_of_passed es k :
  Forall (λ e, e_Passed e = true) es → Forall (λ e, e_Passed e = true) (entries_of k es).
Proof.
  rewrite !Forall_forall. intros H e He%list_elem_of_In%List.filter_In.
  apply H, list_elem_of_In, He.
Qed.

Lemma length_entries_of es k : length (entries_of k es) ≤ length es.
Proof. apply List.filter_length_le. Qed.

(** An endpoint at the default threshold. *)
Lemma path_ready es k ps :
  (Z.of_nat (length es) < 2 ^ 50)%Z →
  rp_by_path (validation_report es (of_int 100)) !! k = Some ps →
  ps_ReadyToCut ps = true ↔ Forall (λ e, e_Passed e = true) (entries_of k es).
Proof.
  intros Hl Hk. pose proof (report_path es (of_int 100) k) as H. rewrite Hk in H.
  cbv zeta in H. destruct H as (H1 & H2 & H3 & _ & H5).
  pose proof (filter_partition (entries_of k es)). pose proof (length_entries_of es k).
  rewrite H5, fge_rate by lia. rewrite bool_decide_eq_true, <- filter_all. lia.
Qed.

(** C10. At the default threshold of 100 percent, the cut-over flag is exact:
    it is set exactly when something was mirrored and every entry of the log
    passed. Float division and multiplication round, but never lift a partial
    pass rate to 100 nor push a full one below it. *)
Theorem ready_iff_all_passed es :
  length es ≤ log_limit →
  rp_ready_to_cut (validation_report es (of_int 100)) = true ↔
  es ≠ [] ∧ Forall (λ e, e_Passed e = true) es.
Proof.
  intros Hl. assert (Z.of_nat (length es) < 2 ^ 50)%Z as Hb by (unfold log_limit in Hl; lia).
  rewrite ready_to_cut_spec. apply and_iff_compat_l. split.
  - intros H. rewrite Forall_forall. intros e He.
    assert (e ∈ entries_of (path_key e) es) as Hin.
    { apply list_elem_of_In, List.filter_In. split; [by apply list_elem_of_In|].
      by apply bool_decide_eq_true. }
    pose proof (report_path es (of_int 100) (path_key e)) as Hk.
    destruct (rp_by_path _ !! _) as [ps|] eqn:E; [|rewrite Hk in Hin; set_solver].
    specialize (H _ _ E). rewrite path_ready in H by done.
    rewrite Forall_forall in H. by apply H.
  - intros H k ps Hk. rewrite path_ready by done. by apply entries_of_passed.
Qed.

Theorem ready_iff_all_passed_witness :
  rp_ready_to_cut (validation_report (demo_entry 404 :: replicate 99 (demo_entry 200)) (of_int 100))
    = true ↔
  demo_entry 404 :: replicate 99 (demo_entry 200) ≠ [] ∧
  Forall (λ e, e_Passed e = true) (demo_entry 404 :: replicate 99 (demo_entry 200)).
Proof. apply ready_iff_all_passed. vm_compute. lia. Defined.

(** With no failure in the log, no threshold matters. *)
Lemma ready_of_passed es t :
  threshold_ok t → length es ≤ log_limit → es ≠ [] → Forall (λ e, e_Passed e = true) es →
  rp_ready_to_cut (validation_report es t) = true.
Proof.
  intros Ht Hl Hne Hp. apply ready_to_cut_spec. split; [done|]. intros k ps Hk.
  pose proof (report_path es t k) as H. rewrite Hk in H. cbv zeta in H.
  destruct H as (H1 & H2 & H3 & _ & ->).
  pose proof (proj2 (filter_all _) (entries_of_passed es k Hp)) as Hf.
  pose proof (length_entries_of es k). unfold log_limit in *.
  assert (ps_Passed ps = ps_Total ps) as -> by lia.
  rewrite rate_full by lia. by apply fge_hundred.
Qed.

(** ** Configuring a threshold *)

Definition config_body (n : Z) : bytes :=
  qstr "{'ready_threshold_pct': " ++ itoa n ++ str "}".

(** The whole percentages, checked one by one. *)
Lemma config_percentages :
  forallb (λ i, bool_decide (decode_config (config_body (Z.of_nat i)) = Some (of_int (Z.of_nat i))
      ∧ flt (of_int (Z.of_nat i)) (of_int 0) || flt (of_int 100) (of_int (Z.of_nat i)) = false
      ∧ percent (of_int (Z.of_nat i)) = itoa (Z.of_nat i) ++ str ".0%")) (seq 0 101) = true.
Proof. vm_compute. reflexivity. Qed.

(** C28. Configuring a whole percentage works: a [PUT] (or [POST]) of a number
    from 0 to 100 as JSON sets the threshold to exactly that number and nothing
    else, answers 200, and the next report shows it with one decimal. *)
Theorem config_put n err_text r s :
  (0 ≤ n ≤ 100)%Z → q_Method r ∈ [PUT; POST] → q_Body r = config_body n →
  let '(s', w) := configHandler err_text r s in
  s' = set_threshold (of_int n) s ∧ p_Status w = 200%Z ∧
  rp_ready_threshold_pct (validationReportHandler s') = itoa n ++ str ".0%".
Proof.
  intros Hn Hm Hb. pose proof config_percentages as H. rewrite forallb_forall in H.
  specialize (H (Z.to_nat n)). rewrite bool_decide_eq_true, Z2Nat.id in H by lia.
  destruct H as (Hd & Hr & Hp); [apply in_seq; lia|].
  unfold configHandler. rewrite Hb, Hd, Hr.
  rewrite !elem_of_cons, elem_of_nil in Hm.
  destruct Hm as [->|[->|[]]]; rewrite decide_False, decide_True by (vm_compute; by auto);
    split_and!; try done; exact Hp.
Qed.

Theorem config_put_witness :
  let '(s', w) := configHandler [] (mkReq PUT (str "/config") [] ∅ (config_body 99)) initial in
  s' = set_threshold (of_int 99) initial ∧ p_Status w = 200%Z ∧
  rp_ready_threshold_pct (validationReportHandler s') = str "99.0%".
Proof.
  apply (config_put 99); [lia|by apply elem_of_cons; left|reflexivity].
Defined.
