(* ===== verification/InFlight.v ===== *)
(** * EWP under load: [ewp-sim/main.go]

    The requests in flight as a transition system whose steps are the accesses
    of the handlers to shared variables; what holds in every interleaving, and
    that serving one request at a time is one of them. *)

From Stdlib Require Import ZArith Lia SpecFloat.
From S2P Require Import Prelude GoLib Json Float64 Server Ewp Report.

(** ** Requests in flight

    [net/http] serves every request in its own goroutine. Between two of its
    accesses to shared variables any other goroutine may run. *)

Inductive point :=
  | Start
  | Counted
  | Marked
  | Answered (statusCode : Z) (respBody : gomap)
  | Scored (statusCode : Z) (respBody : gomap).

Record goroutine := mkGo { g_handler : handler; g_req : Request; g_point : point }.

(** History: the requests that reached an API handler, and those of them that
    ended without a response value, with a 405 or a panic. *)
Record past := mkPast { arrived : list Request; turned_away : list Request }.

Definition arrive (r : Request) (n : past) : past := mkPast (arrived n ++ [r]) (turned_away n).
Definition turn_away (r : Request) (n : past) : past := mkPast (arrived n) (turned_away n ++ [r]).

Record system := mkSystem { sim : ewp; gos : list goroutine; history : past }.

Definition mirrored (rs : list Request) : list Request := List.filter isMirrored rs.

(** Mirrored requests that ended without an entry. *)
Definition rejected (x : system) : Z := Z.of_nat (length (mirrored (turned_away (history x)))).

Definition answer (h : handler) (v : env) (r : Request) (count : Z) : decision :=
  match h with
  | Products => answer_products r count
  | Orders => answer_orders r count
  | Users => answer_users v r
  | Echo => answer_echo r
  | _ => Ret None
  end.

Definition is_api (h : handler) : bool :=
  match h with Products | Orders | Users | Echo => true | _ => false end.

(** Where a handler starts: the catch-all does not count the request. *)
Definition first_point (h : handler) : point :=
  match h with Echo => Counted | _ => Start end.

Definition written (statusCode : Z) (respBody : gomap) : Header :=
  p_Header (writeJSON statusCode respBody).

Inductive ewp_step : system → system → Prop :=
  | step_arrive s gs n h r :
      is_api h = true → mux_route mux (q_Method r) (q_Path r) = Handler h →
      ewp_step (mkSystem s gs n) (mkSystem s (gs ++ [mkGo h r (first_point h)]) (arrive r n))
  | step_count s gs1 h r gs2 n :
      ewp_step (mkSystem s (gs1 ++ mkGo h r Start :: gs2) n)
               (mkSystem (count_request s) (gs1 ++ mkGo h r Counted :: gs2) n)
  | step_mark s gs1 h r gs2 n :
      ewp_step (mkSystem s (gs1 ++ mkGo h r Counted :: gs2) n)
               (mkSystem (mark r s) (gs1 ++ mkGo h r Marked :: gs2) n)
  | step_answer s gs1 h r gs2 n v code body :
      (* the counter is loaded again; the response is written *)
      answer h v r (requestCount s) = Ret (Some (code, body)) →
      ewp_step (mkSystem s (gs1 ++ mkGo h r Marked :: gs2) n)
               (mkSystem s (gs1 ++ mkGo h r (Answered code body) :: gs2) n)
  | step_reject s gs1 h r gs2 n v d :
      (* 405, or a panic that the server recovers from *)
      answer h v r (requestCount s) = d → (d = Ret None ∨ ∃ p, d = Panic p) →
      ewp_step (mkSystem s (gs1 ++ mkGo h r Marked :: gs2) n)
               (mkSystem s (gs1 ++ gs2) (turn_away r n))
  | step_score s gs1 h r gs2 n code body :
      ewp_step (mkSystem s (gs1 ++ mkGo h r (Answered code body) :: gs2) n)
               (mkSystem (score r code s) (gs1 ++ mkGo h r (Scored code body) :: gs2) n)
  | step_keep s gs1 h r gs2 n v code body :
      ewp_step (mkSystem s (gs1 ++ mkGo h r (Scored code body) :: gs2) n)
               (mkSystem (keep v r code (written code body) s) (gs1 ++ gs2) n)
  | step_config s gs n err_text r s' w :
      configHandler err_text r s = (s', w) →
      ewp_step (mkSystem s gs n) (mkSystem s' gs n).

Definition system_init (x : system) : Prop := x = mkSystem initial [] (mkPast [] []).
Abbreviation system_reachable := (reachable system_init ewp_step).

(** ** Invariants *)

Lemma answer_success h v r count code body :
  answer h v r count = Ret (Some (code, body)) → passed_status code = true.
Proof.
  destruct h; cbn [answer]; try done.
  - unfold answer_products, assign. repeat case_decide; [by intros [= <- _]| |done].
    destruct (decode_map (q_Body r)); cbn [mbind outcome_bind]; [by intros [= <- _]|done].
  - unfold answer_orders, assign. repeat case_decide; [by intros [= <- _]| |done].
    destruct (decode_map (q_Body r)); cbn [mbind outcome_bind]; [by intros [= <- _]|done].
  - unfold answer_users. destruct (slice _ _ _); cbn [mbind outcome_bind]; [|done].
    by intros [= <- _].
  - unfold answer_echo. by intros [= <- _].
Qed.

Lemma set_config_fold_None l : foldl set_config None l = None.
Proof. by induction l. Qed.

Lemma decode_config_not_nan s t : decode_config s = Some t → t ≠ S754_nan.
Proof.
  unfold decode_config. destruct (first_value s) as [[[] ?]|]; try done; [by intros [= <-]|].
  assert (S754_zero false ≠ S754_nan) as Hf by done. revert Hf.
  generalize (S754_zero false) as f. induction l as [|[k j] l IH]; intros f Hf; cbn [foldl].
  { by intros [= <-]. }
  unfold set_config at 2. cbn [fst snd mbind option_bind].
  case_decide; [|by apply IH]. destruct j; try (by rewrite set_config_fold_None); [by apply IH|].
  destruct (parse_float lit) as [g|] eqn:E; [|by rewrite set_config_fold_None].
  apply IH. by eapply parse_float_not_nan.
Qed.

Lemma configHandler_ok err_text r s s' w :
  configHandler err_text r s = (s', w) → threshold_ok (readyThreshPct s) →
  s' = set_threshold (readyThreshPct s') s ∧ threshold_ok (readyThreshPct s').
Proof.
  destruct s as [a b c l t]. unfold configHandler. intros H Ht. cbn [readyThreshPct] in *.
  repeat case_decide; [by simplify_eq| |by simplify_eq].
  destruct (decode_config _) as [u|] eqn:E; [|by simplify_eq].
  destruct (flt u (of_int 0)) eqn:E0; cbn [orb] in H; [by simplify_eq|].
  destruct (flt (of_int 100) u) eqn:E1; simplify_eq; [done|]. cbn [readyThreshPct set_threshold].
  split; [done|]. split; [by eapply decode_config_not_nan|done].
Qed.

(** Mirrored requests that are counted but neither scored nor rejected. *)
Definition pending (g : goroutine) : Z :=
  match g_point g with
  | Marked | Answered _ _ => if isMirrored (g_req g) then 1 else 0
  | _ => 0
  end%Z.

Definition pendings (gs : list goroutine) : Z := foldr (λ g n, pending g + n)%Z 0%Z gs.

Lemma pendings_app gs1 gs2 : pendings (gs1 ++ gs2) = (pendings gs1 + pendings gs2)%Z.
Proof. unfold pendings. induction gs1 as [|g gs1 IH]; cbn [app foldr]; lia. Qed.

Lemma pendings_cons g gs : pendings (g :: gs) = (pending g + pendings gs)%Z.
Proof. done. Qed.

Definition point_ok (g : goroutine) : Prop :=
  match g_point g with
  | Answered code _ | Scored code _ => passed_status code = true
  | _ => True
  end.

Definition system_inv (x : system) : Prop :=
  let s := sim x in
  Forall (λ e, e_Passed e = true) (validationLog s) ∧
  length (validationLog s) ≤ log_limit ∧
  threshold_ok (readyThreshPct s) ∧
  Forall point_ok (gos x) ∧
  mirroredCount s = wrap64 (successCount s + pendings (gos x) + rejected x).

Lemma keep_inv v r code h s :
  passed_status code = true →
  Forall (λ e, e_Passed e = true) (validationLog s) → length (validationLog s) ≤ log_limit →
  Forall (λ e, e_Passed e = true) (validationLog (keep v r code h s)) ∧
  length (validationLog (keep v r code h s)) ≤ log_limit.
Proof.
  intros Hc Hf Hl. unfold keep. destruct (isMirrored r); [|done]. rewrite store_log. split.
  - apply Forall_drop, Forall_app. split; [done|]. by apply Forall_singleton.
  - rewrite length_drop. lia.
Qed.

Lemma ewp_step_inv x x' : system_inv x → ewp_step x x' → system_inv x'.
Proof.
  unfold system_inv. intros (Hp & Hl & Ht & Hg & Hm) Hs.
  destruct Hs as [s gs n h r|s gs1 h r gs2 n|s gs1 h r gs2 n|s gs1 h r gs2 n v code body E
                 |s gs1 h r gs2 n v d|s gs1 h r gs2 n code body|s gs1 h r gs2 n v code body
                 |s gs n err_text r s' w E];
    unfold rejected in *; cbn [sim gos history arrive turned_away] in *;
    rewrite ?Forall_app, ?Forall_cons, ?pendings_app, ?pendings_cons in *;
    unfold pending in *; cbn [g_point g_req point_ok] in *.
  - split_and!; try done; [by destruct h|]. rewrite Hm. f_equal. destruct h; cbn; lia.
  - by split_and!; try tauto.
  - split_and!; try tauto; unfold mark; destruct (isMirrored r); try done.
    cbn [mirroredCount successCount count_mirrored]. rewrite Hm, wrap64_add_l. f_equal. lia.
  - apply answer_success in E. split_and!; tauto.
  - split_and!; try tauto. rewrite Hm. f_equal. cbn [turn_away turned_away].
    unfold mirrored. rewrite List.filter_app, length_app. cbn [List.filter].
    destruct (isMirrored r); cbn [length]; lia.
  - destruct Hg as (Hg1 & Hc & Hg2). unfold score. change (passed_status code = true) in Hc.
    rewrite Hc. cbn [andb].
    split_and!; try tauto; destruct (isMirrored r); try done.
    cbn [mirroredCount successCount count_success].
    rewrite Hm. symmetry. rewrite <- Z.add_assoc, wrap64_add_l. f_equal. lia.
  - destruct Hg as (Hg1 & Hc & Hg2).
    destruct (keep_inv v r code (written code body) s Hc Hp Hl) as [Hp' Hl'].
    split_and!; try done; unfold keep; destruct (isMirrored r); done.
  - destruct (configHandler_ok _ _ _ _ _ E Ht) as [-> Ht']. split_and!; done.
Qed.

Lemma system_invariant x : system_reachable x → system_inv x.
Proof.
  apply reachable_invariant.
  - intros y ->. split_and!; try done. vm_compute. lia.
  - intros y y' _. apply ewp_step_inv.
Qed.

(** C11. The readiness gate cannot say no: in every reachable state of the EWP
    simulator, whatever was mirrored and whatever threshold was configured,
    every entry of the log passed, so the report shows no failure and declares
    the migration ready as soon as one request was recorded. Requests that EWP
    rejects (405) or that crash a handler leave no entry. *)
Theorem readiness_gate_vacuous x :
  system_reachable x →
  let rp := validationReportHandler (sim x) in
  rp_failed rp = 0%Z ∧ (rp_ready_to_cut rp = true ↔ validationLog (sim x) ≠ []).
Proof.
  intros (Hp & Hl & Ht & _ & _)%system_invariant. cbv zeta. unfold validationReportHandler.
  split.
  - cbn [rp_failed validation_report]. rewrite (proj2 (filter_all _) Hp). lia.
  - split; [by intros [? _]%ready_to_cut_spec|]. intros Hne. by apply ready_of_passed.
Qed.

(** C31. The counters and the configuration of EWP stay consistent under every
    interleaving: each mirrored request is counted once as a success, as
    pending or as rejected; the log is bounded; and the threshold is a number
    between 0 and 100. *)
Theorem ewp_counters x :
  system_reachable x →
  mirroredCount (sim x) = wrap64 (successCount (sim x) + pendings (gos x) + rejected x) ∧
  length (validationLog (sim x)) ≤ 1000 ∧
  readyThreshPct (sim x) ≠ S754_nan ∧ flt (readyThreshPct (sim x)) (of_int 0) = false ∧
  flt (of_int 100) (readyThreshPct (sim x)) = false.
Proof. intros (_ & Hl & Ht & _ & Hm)%system_invariant. split_and!; try done; apply Ht. Qed.

(** ** Sequential handlers and the steps *)

Lemma conclude_run v h r s gs n :
  ∃ n', arrived n' = arrived n ∧ rtc ewp_step (mkSystem s (gs ++ [mkGo h r Marked]) n)
          (mkSystem (conclude v r (answer h v r (requestCount s)) s).1 gs n').
Proof.
  destruct (answer h v r (requestCount s)) as [[[code body]|]|p] eqn:E; cbn [conclude fst].
  - exists n. split; [done|]. eapply rtc_l; [eapply (step_answer _ gs h r []), E|].
    eapply rtc_l; [apply (step_score _ gs h r [])|].
    eapply rtc_l; [apply (step_keep _ gs h r [] _ v)|]. by rewrite app_nil_r.
  - exists (turn_away r n). split; [done|].
    eapply rtc_l; [eapply (step_reject _ gs h r []); [exact E|by left]|]. by rewrite app_nil_r.
  - exists (turn_away r n). split; [done|].
    eapply rtc_l; [eapply (step_reject _ gs h r []); [exact E|by eauto]|]. by rewrite app_nil_r.
Qed.

Lemma run_is_a_run v err_text h r s gs n :
  is_api h = true →
  ∃ n', arrived n' = arrived n ∧
    rtc ewp_step (mkSystem s (gs ++ [mkGo h r (first_point h)]) n)
      (mkSystem (run v err_text h r s).1 gs n').
Proof.
  intros Ha.
  assert (∀ s', ∃ n', arrived n' = arrived n ∧
    rtc ewp_step (mkSystem s' (gs ++ [mkGo h r Counted]) n)
    (mkSystem (conclude v r (answer h v r (requestCount (mark r s'))) (mark r s')).1 gs n')) as Hc.
  { intros s'. destruct (conclude_run v h r (mark r s') gs n) as (n' & Hn' & Hn).
    exists n'. split; [done|]. eapply rtc_l; [apply (step_mark _ gs h r [])|exact Hn]. }
  destruct h; try discriminate Ha; cbn [run first_point answer] in *.
  1-3: destruct (Hc (count_request s)) as (n' & Hn' & Hn); exists n'; (split; [done|]);
    (eapply rtc_l; [apply (step_count _ gs _ r [])|]);
    unfold productsHandler, ordersHandler, usersHandler; cbv zeta; by destruct (conclude _ _ _ _).
  destruct (Hc s) as (n' & Hn' & Hn). exists n'. split; [done|]. unfold echoHandler. cbv zeta.
  by destruct (conclude _ _ _ _).
Qed.

(** Serving a request to an API handler, with its arrival. *)
Lemma serve_arrives v err_text r s gs n h :
  mux_route mux (q_Method r) (q_Path r) = Handler h → is_api h = true →
  ∃ n', arrived n' = arrived n ++ [r] ∧
    rtc ewp_step (mkSystem s gs n) (mkSystem (serve v err_text r s).1 gs n').
Proof.
  intros E Ha. unfold serve. rewrite E.
  destruct (run_is_a_run v err_text h r s gs (arrive r n) Ha) as (n' & Hn' & Hn).
  exists n'. split; [done|]. eapply rtc_l; [by apply step_arrive|]. by destruct (run v err_text h r s).
Qed.

(** The sequential handlers are runs of the steps: serving a request alone, in
    any state and with any requests in flight, so whatever is invariant under the
    steps holds for the server. *)
Lemma serve_is_a_run v err_text r s gs n :
  ∃ n', rtc ewp_step (mkSystem s gs n) (mkSystem (serve v err_text r s).1 gs n').
Proof.
  destruct (mux_route mux (q_Method r) (q_Path r)) as [h| |] eqn:E.
  2-3: exists n; unfold serve; by rewrite E.
  destruct (is_api h) eqn:Ha.
  - destruct (serve_arrives v err_text r s gs n h E Ha) as (n' & _ & Hn). by exists n'.
  - unfold serve. rewrite E. destruct h; try discriminate Ha; cbn [run]; try (by exists n).
    destruct (configHandler err_text r s) as [s' w] eqn:Ec. exists n.
    eapply rtc_once, step_config, Ec.
Qed.

Lemma reachable_rtc x y : system_reachable x → rtc ewp_step x y → system_reachable y.
Proof. intros Hx. induction 1; eauto using reach_step. Qed.

(** A mirrored request is recorded, another one is rejected. *)
Definition mirrored_header : Header := header_set ∅ (str "X-Mirror-Source") (str "ebpf-mirror-agent").
Definition mirrored_get : Request := mkReq GET (str "/api/v1/products") [] mirrored_header [].
Definition mirrored_delete : Request :=
  mkReq (str "DELETE") (str "/api/v1/products") [] mirrored_header [].
Definition demo_env : env := mkEnvironment 0 2500000.
Definition demo_state : ewp :=
  (serve demo_env [] mirrored_delete (serve demo_env [] mirrored_get initial).1).1.

Lemma demo_reachable : ∃ n, system_reachable (mkSystem demo_state [] n).
Proof.
  destruct (serve_arrives demo_env [] mirrored_get initial [] (mkPast [] []) Products)
    as (n1 & _ & H1); [vm_compute; reflexivity..|].
  destruct (serve_arrives demo_env [] mirrored_delete (serve demo_env [] mirrored_get initial).1
              [] n1 Products) as (n2 & _ & H2); [vm_compute; reflexivity..|].
  exists n2. eapply reachable_rtc, H2. eapply reachable_rtc, H1. by apply reach_init.
Qed.

Theorem readiness_gate_vacuous_witness :
  let rp := validationReportHandler demo_state in
  rp_failed rp = 0%Z ∧ (rp_ready_to_cut rp = true ↔ validationLog demo_state ≠ []) ∧
  mirroredCount demo_state = 2%Z ∧ rp_total rp = 1%Z.
Proof.
  destruct demo_reachable as [n Hn]. destruct (readiness_gate_vacuous _ Hn) as [H1 H2].
  split; [exact H1|]. split; [exact H2|]. split; vm_compute; reflexivity.
Defined.

Theorem ewp_counters_witness :
  ∃ n, system_reachable (mkSystem demo_state [] n) ∧
  mirroredCount demo_state = wrap64 (successCount demo_state + pendings [] +
    rejected (mkSystem demo_state [] n)) ∧
  length (validationLog demo_state) ≤ 1000 ∧
  readyThreshPct demo_state ≠ S754_nan ∧ flt (readyThreshPct demo_state) (of_int 0) = false ∧
  flt (of_int 100) (readyThreshPct demo_state) = false.
Proof.
  destruct demo_reachable as [n Hn]. exists n. split; [exact Hn|].
  exact (ewp_counters _ Hn).
Defined.

(** ** What a mirrored request leaves behind *)

(** The requests an API handler answers with a success. *)
Definition api_accepts (h : handler) (method body : bytes) : bool :=
  match h with
  | Products | Orders =>
      bool_decide (method = GET) ||
      bool_decide (method = POST) && bool_decide (is_Some (decode_map body))
  | Users | Echo => true
  | _ => false
  end.

(** The multiplexer only calls the users handler below its prefix. *)
Lemma mux_users method path :
  mux_route mux method path = Handler Users → (len USERS ≤ len path)%Z.
Proof.
  intros (k & Hin & Hp)%mux_route_handler. unfold mux in Hin.
  rewrite !elem_of_cons, elem_of_nil in Hin. destruct_or! Hin; simplify_eq; try done.
  destruct Hp as [->|[_ [t ->]%has_prefix_spec]]; [done|].
  rewrite len_app. pose proof (len_nonneg t). lia.
Qed.

Lemma answer_accepts h v r count :
  mux_route mux (q_Method r) (q_Path r) = Handler h → is_api h = true →
  if api_accepts h (q_Method r) (q_Body r)
  then ∃ code body, answer h v r count = Ret (Some (code, body))
  else answer h v r count = Ret None ∨ ∃ p, answer h v r count = Panic p.
Proof.
  intros Hm Ha. destruct h; try discriminate Ha; cbn [api_accepts answer].
  1-2: unfold answer_products, answer_orders, assign;
    destruct (decode_map (q_Body r)) as [m|]; cbn [mbind outcome_bind];
    [rewrite (bool_decide_eq_true_2 (is_Some (Some m))) by by eexists
    |rewrite (bool_decide_eq_false_2 (is_Some None)) by apply is_Some_None];
    repeat case_decide; repeat case_bool_decide; cbn [orb andb]; by eauto.
  - unfold answer_users. rewrite slice_to_end by (pose proof (len_nonneg USERS);
      apply mux_users in Hm; lia). cbn [mbind outcome_bind]. by eauto.
  - unfold answer_echo. by eauto.
Qed.

(** A handler counts, marks, decides and concludes. *)
Lemma run_api v err_text h r s :
  is_api h = true →
  let s1 := mark r (match h with Echo => s | _ => count_request s end) in
  run v err_text h r s =
    let '(s', o) := conclude v r (answer h v r (requestCount s1)) s1 in (s', Page o).
Proof.
  intros Ha. destruct h; try discriminate Ha; cbv zeta; cbn [run answer];
    unfold productsHandler, ordersHandler, usersHandler, echoHandler; cbv zeta;
    by destruct (conclude _ _ _ _).
Qed.

(** The effect of serving one mirrored request. *)
Lemma serve_recorded v err_text r s h :
  mux_route mux (q_Method r) (q_Path r) = Handler h → is_api h = true → isMirrored r = true →
  let s' := (serve v err_text r s).1 in
  mirroredCount s' = wrap64 (mirroredCount s + 1) ∧ readyThreshPct s' = readyThreshPct s ∧
  if api_accepts h (q_Method r) (q_Body r) then
    successCount s' = wrap64 (successCount s + 1) ∧
    ∃ e, validationLog s' = validationLog (store e s) ∧
      e_Method e = q_Method r ∧ e_Path e = q_Path r ∧ e_Time e = now v ∧ e_Passed e = true
  else successCount s' = successCount s ∧ validationLog s' = validationLog s.
Proof.
  intros Hm Ha Hr. unfold serve. rewrite Hm, run_api by done. cbv zeta.
  set (s0 := match h with Echo => s | _ => count_request s end).
  assert (mirroredCount s0 = mirroredCount s ∧ successCount s0 = successCount s ∧
          validationLog s0 = validationLog s ∧ readyThreshPct s0 = readyThreshPct s)
    as (E1 & E2 & E3 & E4) by by destruct h.
  unfold mark. rewrite Hr.
  pose proof (answer_accepts h v r (requestCount (count_mirrored s0)) Hm Ha) as Hans.
  destruct (api_accepts _ _ _).
  - destruct Hans as (code & body & E). rewrite E. cbn [conclude fst].
    apply answer_success in E. unfold record, keep, score. rewrite E, Hr. cbn [andb].
    rewrite <- E1, <- E2, <- E4. split; [done|]. split; [done|]. split; [done|].
    eexists. rewrite !store_log. cbn [validationLog count_success count_mirrored].
    rewrite E3. by split.
  - assert (∀ d, d = Ret None ∨ (∃ p, d = Panic p) →
      (conclude v r d (count_mirrored s0)).1 = count_mirrored s0) as Hc
      by (intros d [->|[p ->]]; done).
    specialize (Hc _ Hans). destruct (conclude _ _ _ _) as [s' o]. cbn [fst] in *. subst s'.
    rewrite <- E1, <- E2, <- E3, <- E4. by split_and!.
Qed.

(** C12. What a mirrored request leaves behind: on the path of an API handler it
    is counted as mirrored; if the handler accepts it - any method for users and
    the catch-all, otherwise a GET, or a POST of a JSON object - one entry with
    its method, path and time is stored, marked as passed, and a success is
    counted; otherwise the log and the success counter stay as they are, so the
    report never shows it. *)
Theorem mirrored_request_recorded v err_text r s h :
  mux_route mux (q_Method r) (q_Path r) = Handler h → is_api h = true → isMirrored r = true →
  let s' := (serve v err_text r s).1 in
  mirroredCount s' = wrap64 (mirroredCount s + 1) ∧ readyThreshPct s' = readyThreshPct s ∧
  if api_accepts h (q_Method r) (q_Body r) then
    successCount s' = wrap64 (successCount s + 1) ∧
    ∃ e, validationLog s' = validationLog (store e s) ∧
      e_Method e = q_Method r ∧ e_Path e = q_Path r ∧ e_Time e = now v ∧ e_Passed e = true
  else successCount s' = successCount s ∧ validationLog s' = validationLog s.
Proof. apply serve_recorded. Qed.

Theorem mirrored_request_recorded_witness :
  let s' := (serve demo_env [] mirrored_get initial).1 in
  mirroredCount s' = 1%Z ∧ successCount s' = 1%Z ∧
  ∃ e, validationLog s' = [e] ∧ e_Path e = str "/api/v1/products" ∧ e_Passed e = true.
Proof.
  destruct (mirrored_request_recorded demo_env [] mirrored_get initial Products)
    as (H1 & _ & H2 & e & H3 & _ & H4 & _ & H5); [vm_compute; reflexivity..|].
  split; [exact H1|]. split; [exact H2|]. exists e. split; [exact H3|]. by split.
Defined.

(** ** Nothing is lost under interleaving *)

(** The key of the report that a request counts for. *)
Definition request_key (r : Request) : bytes := q_Method r ++ str " " ++ q_Path r.
Definition keys (rs : list Request) : list bytes := request_key <$> mirrored rs.

Lemma keys_app rs1 rs2 : keys (rs1 ++ rs2) = keys rs1 ++ keys rs2.
Proof. unfold keys, mirrored. by rewrite List.filter_app, fmap_app. Qed.

Lemma keys_one r : keys [r] = if isMirrored r then [request_key r] else [].
Proof. unfold keys, mirrored. cbn [List.filter]. by destruct (isMirrored r). Qed.

(** As long as the window does not slide, every mirrored request that arrived
    is in the log, in flight or turned away. *)
Definition accounted (x : system) : Prop :=
  length (mirrored (arrived (history x))) ≤ log_limit →
  (path_key <$> validationLog (sim x)) ++ keys (g_req <$> gos x) ++
    keys (turned_away (history x)) ≡ₚ keys (arrived (history x)).

Lemma accounted_room s gs n r :
  accounted (mkSystem s gs n) → isMirrored r = true → r ∈ g_req <$> gs →
  length (mirrored (arrived n)) ≤ log_limit → length (validationLog s) < log_limit.
Proof.
  unfold accounted. cbn [history sim gos]. intros HA Hr Hin Hl.
  specialize (HA Hl). apply Permutation_length in HA.
  unfold keys in HA. rewrite !length_app, !length_fmap in HA.
  assert (0 < length (mirrored (g_req <$> gs))); [|lia].
  destruct (mirrored (g_req <$> gs)) eqn:E; [|cbn [length]; lia]. exfalso.
  assert (r ∈ mirrored (g_req <$> gs)) as H; [|by rewrite E in H; apply elem_of_nil in H].
  apply list_elem_of_In, List.filter_In. split; [by apply list_elem_of_In|done].
Qed.

Lemma ewp_step_accounted x x' : accounted x → ewp_step x x' → accounted x'.
Proof.
  intros HA Hs. pose proof HA as HA0. unfold accounted in HA |- *.
  destruct Hs as [s gs n h r|s gs1 h r gs2 n|s gs1 h r gs2 n|s gs1 h r gs2 n v code body
                 |s gs1 h r gs2 n v d|s gs1 h r gs2 n code body|s gs1 h r gs2 n v code body
                 |s gs n err_text r s' w E];
    cbn [sim gos history arrive turn_away arrived turned_away] in *;
    rewrite ?fmap_app, ?fmap_cons in *; cbn [g_req fmap list_fmap] in *.
  - unfold mirrored. rewrite List.filter_app, length_app. fold (mirrored (arrived n)). intros Hl.
    rewrite !keys_app, <- HA by lia. solve_Permutation.
  - exact HA.
  - unfold mark. by destruct (isMirrored r).
  - exact HA.
  - intros Hl. rewrite <- HA by done.
    assert (r :: (g_req <$> gs2) = [r] ++ (g_req <$> gs2)) as -> by done.
    rewrite !keys_app. solve_Permutation.
  - unfold score. by destruct (_ && _).
  - intros Hl. pose proof (HA Hl) as HP. rewrite <- HP.
    assert (r :: (g_req <$> gs2) = [r] ++ (g_req <$> gs2)) as -> by done.
    rewrite !keys_app, keys_one. unfold keep. destruct (isMirrored r) eqn:Er; [|done].
    assert (length (validationLog s) < log_limit) as Hroom.
    { eapply (accounted_room _ _ n r); [exact HA0|done| |done].
      apply list_elem_of_fmap. eexists; split; [|apply elem_of_app; right; left]. done. }
    rewrite store_log, (proj2 (Nat.sub_0_le _ _)), drop_0, fmap_app
      by (rewrite length_app; cbn [length]; lia).
    cbn [fmap list_fmap]. change (path_key (entry_of _ r _ _)) with (request_key r).
    solve_Permutation.
  - assert (validationLog s' = validationLog s) as ->; [|done]. unfold configHandler in E.
    repeat case_decide; simplify_eq; try done. destruct (decode_config _); simplify_eq; [|done].
    destruct (_ || _); by simplify_eq.
Qed.

(** Requests are where the multiplexer sent them, and only those that a handler
    does not accept are turned away. *)
Definition placed (x : system) : Prop :=
  Forall (λ g, mux_route mux (q_Method (g_req g)) (q_Path (g_req g)) = Handler (g_handler g) ∧
               is_api (g_handler g) = true ∧ g_req g ∈ arrived (history x)) (gos x) ∧
  Forall (λ r, r ∈ arrived (history x) ∧ ∃ h,
            mux_route mux (q_Method r) (q_Path r) = Handler h ∧
            api_accepts h (q_Method r) (q_Body r) = false) (turned_away (history x)).

Lemma ewp_step_placed x x' : placed x → ewp_step x x' → placed x'.
Proof.
  unfold placed. intros [Hg Ht] Hs.
  destruct Hs as [s gs n h r Ha Hm|s gs1 h r gs2 n|s gs1 h r gs2 n|s gs1 h r gs2 n v code body
                 |s gs1 h r gs2 n v d Hd Hor|s gs1 h r gs2 n code body|s gs1 h r gs2 n v code body
                 |s gs n err_text r s' w E];
    cbn [gos history arrive turn_away arrived turned_away] in *;
    rewrite ?Forall_app, ?Forall_cons in *; cbn [g_req g_handler] in *.
  - split; [split|].
    + eapply Forall_impl; [exact Hg|]. cbv beta. set_solver.
    + split; [|constructor]. set_solver.
    + eapply Forall_impl; [exact Ht|]. cbv beta. set_solver.
  - done.
  - done.
  - done.
  - destruct Hg as (Hg1 & (Hm & Ha & Hin) & Hg2). split; [done|]. split; [done|].
    split; [|constructor]. split; [done|]. exists h. split; [done|].
    pose proof (answer_accepts h v r (requestCount s) Hm Ha) as Hacc.
    destruct (api_accepts _ _ _); [|done].
    destruct Hacc as (code & body & E), Hor as [->|[p ->]]; congruence.
  - done.
  - tauto.
  - done.
Qed.

Lemma system_complete x : system_reachable x → accounted x ∧ placed x.
Proof.
  apply (reachable_invariant _ _ (λ x, accounted x ∧ placed x)).
  - intros y ->. split; [by intros _|by split; constructor].
  - intros y y' _ [HA HP] Hs. split; [by eapply ewp_step_accounted|by eapply ewp_step_placed].
Qed.

(** ** Identifiers *)

Definition post_empty : Request := mkReq POST (str "/api/v1/products") [] ∅ (str "{}").

Definition twin_body : gomap :=
  <[str "source" := AStr (str "ewp")]> (<[str "id" := AStr (str "ewp-prod-002")]> ∅).

Lemma twin_id : twin_body !! str "id" = Some (AStr (str "ewp-prod-002")).
Proof. unfold twin_body. rewrite lookup_insert_ne by done. apply lookup_insert_eq. Qed.

Lemma answer_twin v : answer Products v post_empty 2 = Ret (Some (StatusCreated, twin_body)).
Proof.
  assert (decode_map (q_Body post_empty) = Some ∅) as Hd by (vm_compute; reflexivity).
  assert (str "ewp-prod-" ++ sprintf_03d 2 = str "ewp-prod-002") as Hi by (vm_compute; reflexivity).
  unfold answer, answer_products. rewrite Hd, Hi. reflexivity.
Qed.

(** Identifiers of created products are not unique: the counter is
    incremented and loaded in two separate atomic accesses, so two concurrent
    posts can both read the value two and answer with the same id. *)
Theorem duplicate_ids_reachable :
  ∃ x g1 g2, system_reachable x ∧ gos x = [g1; g2] ∧
    g_point g1 = Answered StatusCreated twin_body ∧
    g_point g2 = Answered StatusCreated twin_body ∧
    twin_body !! str "id" = Some (AStr (str "ewp-prod-002")).
Proof.
  set (go p := mkGo Products post_empty p).
  set (s2 := count_request (count_request initial)).
  assert (requestCount s2 = 2%Z) as Hs2 by (vm_compute; reflexivity).
  exists (mkSystem s2 [go (Answered StatusCreated twin_body); go (Answered StatusCreated twin_body)]
    (mkPast [post_empty; post_empty] [])).
  eexists _, _.
  split; [|split; [reflexivity|split; [reflexivity|split; [reflexivity|apply twin_id]]]].
  eapply reachable_rtc; [by apply reach_init|].
  do 2 (eapply rtc_l; [by apply (step_arrive _ _ _ Products post_empty)|]). cbn [app first_point].
  eapply rtc_l; [apply (step_count _ [] Products post_empty [_])|].
  eapply rtc_l; [apply (step_count _ [_] Products post_empty [])|].
  eapply rtc_l; [apply (step_mark _ [] Products post_empty [_])|].
  eapply rtc_l; [apply (step_mark _ [_] Products post_empty [])|].
  assert (mark post_empty (mark post_empty s2) = s2) as Hmark by reflexivity.
  fold s2. rewrite Hmark.
  eapply rtc_l; [eapply (step_answer s2 [] Products post_empty [_] _ demo_env);
                 rewrite Hs2; apply answer_twin|].
  eapply rtc_once, (step_answer s2 [_] Products post_empty [] _ demo_env).
  rewrite Hs2. apply answer_twin.
Qed.
