(* ===== verification/Parity.v ===== *)
(** * The two simulators side by side

    The mirrored copy of a request reaches EWP on the same path as the original
    reached APIGEE when no route table is loaded. This file compares what the
    two simulators answer. *)

From Stdlib Require Import ZArith Lia.
From S2P Require Import Prelude GoLib Json Server Apigee Ewp InFlight.

(** The status a server answers with, a panic, a redirection or a 404. *)
Inductive verdict :=
  | Status (code : Z)
  | Panicked
  | RedirectTo (path : bytes)
  | NoHandler.

#[export] Instance verdict_eq_dec : EqDecision verdict.
Proof. solve_decision. Defined.

Definition outcome_verdict (o : outcome Response) : verdict :=
  match o with Ret w => Status (p_Status w) | Panic _ => Panicked end.

Definition apigee_verdict (a : served) : verdict :=
  match a with
  | Served o => outcome_verdict o
  | Redirected p => RedirectTo p
  | Missing => NoHandler
  end.

Definition ewp_verdict (a : target Ewp.ewp_answer) : verdict :=
  match a with
  | Handler (Ewp.Page o) => outcome_verdict o
  | Handler (Ewp.ReportAnswer rp) => Status (p_Status (Ewp.report_page rp))
  | Redirect p => RedirectTo p
  | NotFound => NoHandler
  end.

(** The handler of EWP that plays the part of a handler of APIGEE. *)
Definition counterpart (h : Apigee.handler) : Ewp.handler :=
  match h with
  | Apigee.Health => Ewp.Health
  | Apigee.Products => Ewp.Products
  | Apigee.Orders => Ewp.Orders
  | Apigee.Users => Ewp.Users
  | Apigee.Metrics => Ewp.Metrics
  | Apigee.Echo => Ewp.Echo
  end.

(** The two paths only EWP serves. *)
Definition ewp_only : list bytes := [str "/validation-report"; str "/config"].

(** ** The multiplexers agree *)

Lemma registered_cons {H} k (h : H) tab p :
  registered ((k, h) :: tab) p = if decide (k = p) then Some h else registered tab p.
Proof.
  unfold registered. cbn [list_find fst]. case_decide; [done|].
  by destruct (list_find _ tab) as [[]|].
Qed.

Lemma registered_nil {H} p : registered ([] : list (bytes * H)) p = None.
Proof. done. Qed.

Lemma registered_agree p :
  p ∉ ewp_only → registered Ewp.mux p = counterpart <$> registered Apigee.mux p.
Proof.
  unfold ewp_only, Ewp.mux, Apigee.mux, Ewp.USERS, Apigee.USERS. rewrite !not_elem_of_cons. intros (H1 & H2 & _).
  rewrite !registered_cons, !registered_nil.
  rewrite (decide_False (P := str "/validation-report" = p)),
    (decide_False (P := str "/config" = p)) by congruence.
  repeat (case_decide; [done|]). done.
Qed.

Lemma slash_redirect_agree p : slash_redirect Ewp.mux p = slash_redirect Apigee.mux p.
Proof.
  destruct (decide (p ∈ ewp_only)) as [Hp|Hp].
  - unfold ewp_only in Hp. rewrite !elem_of_cons, elem_of_nil in Hp.
    destruct Hp as [->|[->|[]]]; vm_compute; reflexivity.
  - unfold slash_redirect. rewrite !registered_agree; [|intros Hs|done].
    { apply bool_decide_ext. by rewrite !fmap_None. }
    assert (last (p ++ [SLASH]) = Some SLASH) as Hl by apply last_snoc.
    unfold ewp_only in Hs. rewrite !elem_of_cons, elem_of_nil in Hs.
    destruct Hs as [E|[E|[]]]; rewrite E in Hl; vm_compute in Hl; discriminate.
Qed.

Lemma filter_andb {A} (f g : A → bool) l :
  List.filter (λ x, f x && g x) l = List.filter g (List.filter f l).
Proof.
  induction l as [|x l IH]; [done|]. cbn [List.filter].
  destruct (f x); cbn [andb List.filter]; [|done]. by destruct (g x); rewrite IH.
Qed.

Lemma best_subtree_agree path :
  best_subtree Ewp.mux path =
    (λ kv, (kv.1, counterpart kv.2)) <$> best_subtree Apigee.mux path.
Proof.
  unfold best_subtree. rewrite !filter_andb.
  change (List.filter subtree Ewp.mux) with [(USERS, Ewp.Users); (str "/", Ewp.Echo)].
  change (List.filter subtree Apigee.mux) with [(USERS, Apigee.Users); (str "/", Apigee.Echo)].
  cbn [List.filter fst].
  by destruct (has_prefix path USERS), (has_prefix path (str "/")).
Qed.

Lemma mux_agree method path :
  path ∉ ewp_only →
  mux_route Ewp.mux method path =
    match mux_route Apigee.mux method path with
    | Handler h => Handler (counterpart h)
    | Redirect p => Redirect p
    | NotFound => NotFound
    end.
Proof.
  intros Hp. unfold mux_route. cbv zeta. rewrite slash_redirect_agree.
  destruct (slash_redirect _ _); [done|]. case_decide as E; [|done].
  unfold mux_match. rewrite registered_agree, best_subtree_agree by done.
  destruct (registered _ _); [done|]. by destruct (best_subtree _ _).
Qed.

(** ** The verdicts agree *)

(** C19. Parity: for every request other than to the two paths only EWP has,
    the EWP simulator answers with the verdict of the APIGEE simulator: the
    same status code, the same redirection, or a panic on exactly the same
    bodies, whatever the two have served before. *)
Theorem verdicts_agree v err_text r n s :
  q_Path r ∉ ewp_only →
  ewp_verdict (Ewp.serve v err_text r s).2 = apigee_verdict (Apigee.serve (now v) r n).2.
Proof.
  intros Hp. unfold Ewp.serve, Apigee.serve. rewrite mux_agree by done.
  destruct (mux_route Apigee.mux _ _) as [h| |]; [|done|done].
  destruct h; cbn [counterpart Ewp.run Apigee.run]; [done| | | |done|done].
  - unfold Ewp.productsHandler, Apigee.productsHandler, answer_products, assign.
    cbv zeta. repeat case_decide; try done. by destruct (decode_map (q_Body r)).
  - unfold Ewp.ordersHandler, Apigee.ordersHandler, answer_orders, assign.
    cbv zeta. repeat case_decide; try done. by destruct (decode_map (q_Body r)).
  - unfold Ewp.usersHandler, Apigee.usersHandler, answer_users. cbv zeta.
    change Ewp.USERS with Apigee.USERS. by destruct (slice _ _ _).
Qed.

Theorem verdicts_agree_witness :
  ewp_verdict (Ewp.serve demo_env [] mirrored_delete initial).2 = Status 405 ∧
  ewp_verdict (Ewp.serve demo_env [] mirrored_delete initial).2 =
    apigee_verdict (Apigee.serve 0 mirrored_delete 7).2.
Proof.
  split; [vm_compute; reflexivity|].
  apply (verdicts_agree demo_env [] mirrored_delete 7 initial). by_compute.
Defined.
