(* ===== verification/Bodies.v ===== *)
(** * Response bodies, as their readers see them

    The text of a response body, and what a JSON reader gets from it: every page
    of the simulators is read back as the value it was made from, and a posted
    object comes back with the members the handler added. *)

From Stdlib Require Import ZArith Lia SpecFloat Sorting.Sorted.
From S2P Require Import Prelude GoLib Json Float64 Server JsonText Rounding FloatText.
From S2P Require Apigee Ewp Report.

(** ** Decoded strings are valid UTF-8 *)

Lemma bz_between lo hi b : between lo hi b = true → (lo ≤ bz b ≤ hi)%Z.
Proof. unfold between. by rewrite bool_decide_eq_true. Qed.

Lemma utf8_2_lead b c : utf8_2 b c = true → (0xc2 ≤ bz b ≤ 0xdf)%Z.
Proof. unfold utf8_2. intros [H _]%andb_true_iff. by apply bz_between. Qed.

Lemma utf8_3_lead b c d : utf8_3 b c d = true → (0xe0 ≤ bz b ≤ 0xef)%Z.
Proof.
  unfold utf8_3. intros [_ H]%andb_true_iff. rewrite !orb_true_iff, !andb_true_iff in H.
  destruct H as [[[H|H]|H]|H]; destruct H as [H _];
    (apply bz_between in H || apply bool_decide_eq_true in H); lia.
Qed.

Lemma utf8_4_lead b c d e : utf8_4 b c d e = true → (0xf0 ≤ bz b ≤ 0xf4)%Z.
Proof.
  unfold utf8_4. intros [_ H]%andb_true_iff. rewrite !orb_true_iff, !andb_true_iff in H.
  destruct H as [[H|H]|H]; destruct H as [H _];
    (apply bz_between in H || apply bool_decide_eq_true in H); lia.
Qed.

Lemma utf8_2_false b c : (0xe0 ≤ bz b)%Z → utf8_2 b c = false.
Proof. intros Hb. destruct (utf8_2 b c) eqn:E; [|done]. apply utf8_2_lead in E. lia. Qed.

Lemma utf8_3_false b c d : (0xf0 ≤ bz b)%Z → utf8_3 b c d = false.
Proof. intros Hb. destruct (utf8_3 b c d) eqn:E; [|done]. apply utf8_3_lead in E. lia. Qed.

(** A string that starts with a valid sequence [p]. *)
Definition keeps (p : bytes) : Prop := ∀ t, sanitize (p ++ t) = p ++ sanitize t.

Lemma keeps_1 b : (bz b < 0x80)%Z → keeps [b].
Proof. intros Hb t. unfold sanitize. cbn [app by_rune]. by rewrite decide_True. Qed.

Lemma keeps_2 b c : utf8_2 b c = true → keeps [b; c].
Proof.
  intros H t. pose proof (utf8_2_lead _ _ H). unfold sanitize. cbn [app by_rune].
  by rewrite decide_False, H by lia.
Qed.

Lemma keeps_3 b c d : utf8_3 b c d = true → keeps [b; c; d].
Proof.
  intros H t. pose proof (utf8_3_lead _ _ _ H). unfold sanitize. cbn [app by_rune].
  by rewrite decide_False, utf8_2_false, H by lia.
Qed.

Lemma keeps_4 b c d e : utf8_4 b c d e = true → keeps [b; c; d; e].
Proof.
  intros H t. pose proof (utf8_4_lead _ _ _ _ H). unfold sanitize. cbn [app by_rune].
  by rewrite decide_False, utf8_2_false, utf8_3_false, H by lia.
Qed.

Lemma keeps_replacement : keeps replacement.
Proof. by apply keeps_3. Qed.

(** The marker bits of a byte of a sequence do not overlap its payload. *)
Lemma lor_marker c y n :
  In (c, n) [(0xc0, 32); (0xe0, 16); (0xf0, 8); (0x80, 64)]%Z → (0 ≤ y < n)%Z →
  Z.lor c y = (c + y)%Z.
Proof.
  intros Hc Hy.
  assert (forallb (λ cn : Z * Z, forallb (λ y, bool_decide (Z.lor cn.1 (Z.of_nat y) = cn.1 + Z.of_nat y)%Z)
            (seq 0 (Z.to_nat cn.2))) [(0xc0, 32); (0xe0, 16); (0xf0, 8); (0x80, 64)]%Z = true) as H
    by (vm_compute; reflexivity).
  rewrite forallb_forall in H. specialize (H _ Hc). rewrite forallb_forall in H.
  specialize (H (Z.to_nat y)). rewrite bool_decide_eq_true, Z2Nat.id in H by lia. apply H.
  apply in_seq. cbn [snd]. lia.
Qed.

Lemma bz_marker c y n :
  In (c, n) [(0xc0, 32); (0xe0, 16); (0xf0, 8); (0x80, 64)]%Z → (0 ≤ y < n)%Z →
  bz (zb (Z.lor c y)) = (c + y)%Z.
Proof.
  intros Hc Hy. rewrite (lor_marker _ _ _ Hc Hy), bz_zb, Z.mod_small; [done|].
  cbn in Hc. intuition; simplify_eq; lia.
Qed.

Lemma keeps_encode_rune r :
  (0 ≤ r < 0x110000)%Z → is_surrogate r = false → keeps (encode_rune r).
Proof.
  unfold is_surrogate. rewrite bool_decide_eq_false. intros Hr Hs. unfold encode_rune.
  change 0x3f%Z with (Z.ones 6). rewrite !Z.land_ones, !Z.shiftr_div_pow2 by lia.
  change (2 ^ 6)%Z with 64%Z. change (2 ^ 12)%Z with 4096%Z. change (2 ^ 18)%Z with 262144%Z.
  pose proof (Z.mod_pos_bound r 64 ltac:(lia)). pose proof (Z.mod_pos_bound (r / 64) 64 ltac:(lia)).
  pose proof (Z.mod_pos_bound (r / 4096) 64 ltac:(lia)).
  assert (∀ y, (0 ≤ y < 64)%Z → cont (zb (Z.lor 0x80 y)) = true) as Hcont.
  { intros y Hy. unfold cont, between. apply bool_decide_eq_true.
    rewrite (bz_marker _ _ 64) by (cbn; tauto || lia). lia. }
  case_decide; [apply keeps_1; rewrite bz_zb, Z.mod_small; lia|].
  case_decide.
  { apply keeps_2. unfold utf8_2. rewrite Hcont by lia. unfold between.
    assert (2 ≤ r / 64 < 32)%Z by (split; [apply Z.div_le_lower_bound|apply Z.div_lt_upper_bound]; lia).
    rewrite (bz_marker _ _ 32), bool_decide_eq_true_2 by (cbn; tauto || lia). done. }
  case_decide.
  { apply keeps_3. unfold utf8_3. rewrite !Hcont by lia. unfold between.
    assert (0 ≤ r / 4096 < 16)%Z by (split; [apply Z.div_le_lower_bound|apply Z.div_lt_upper_bound]; lia).
    rewrite (bz_marker _ _ 16), (bz_marker _ _ 64) by (cbn; tauto || lia).
    rewrite andb_true_l, !andb_true_r, !orb_true_iff, !andb_true_iff, !bool_decide_eq_true. 
    assert (r / 64 = 64 * (r / 4096) + (r / 64) mod 64)%Z as E.
    { change 4096%Z with (64 * 64)%Z. rewrite <- Z.div_div by lia. apply Z.div_mod. lia. }
    pose proof (Z.div_mod r 64 ltac:(lia)). lia. }
  apply keeps_4. unfold utf8_4. rewrite !Hcont by lia. unfold between.
  assert (0 ≤ r / 262144 < 8)%Z by (split; [apply Z.div_le_lower_bound|apply Z.div_lt_upper_bound]; lia).
  rewrite (bz_marker _ _ 8), (bz_marker _ _ 64) by (cbn; tauto || lia).
  rewrite !andb_true_l, !andb_true_r, !orb_true_iff, !andb_true_iff, !bool_decide_eq_true.
  assert (r / 4096 = 64 * (r / 262144) + (r / 4096) mod 64)%Z as E.
  { change 262144%Z with (4096 * 64)%Z. rewrite <- Z.div_div by lia. apply Z.div_mod. lia. }
  pose proof (Z.div_mod r 4096 ltac:(lia)). pose proof (Z.mod_pos_bound r 4096 ltac:(lia)). lia.
Qed.

Lemma hex4_range a b c d r : hex4 a b c d = Some r → (0 ≤ r < 0x10000)%Z.
Proof.
  assert (∀ x v, hex_val x = Some v → (0 ≤ v < 16)%Z) as Hv.
  { intros x v. unfold hex_val, is_digit. repeat case_match; try done; intros [= <-];
      repeat match goal with
      | H : bool_decide _ = true |- _ => apply bool_decide_eq_true in H
      | H : between _ _ _ = true |- _ => apply bz_between in H
      end; lia. }
  unfold hex4. destruct (hex_val a) as [va|] eqn:Ea; [|done]. destruct (hex_val b) as [vb|] eqn:Eb; [|done].
  destruct (hex_val c) as [vc|] eqn:Ec; [|done]. destruct (hex_val d) as [vd|] eqn:Ed; [|done].
  cbn [mbind option_bind]. intros [= <-]. apply Hv in Ea, Eb, Ec, Ed. lia.
Qed.

Lemma surrogate_pair_range r r2 r' :
  surrogate_pair r r2 = Some r' → (0x10000 ≤ r' < 0x110000)%Z.
Proof. unfold surrogate_pair. case_decide as H; [|done]. intros [= <-]. lia. Qed.

(** A string the decoder returns has nothing to replace. *)
Lemma parse_string_valid s t r : parse_string s = Some (t, r) → sanitize t = t.
Proof.
  revert t r. induction s as [s IH] using list_len_ind. intros t r.
  assert (∀ p s', keeps p → length s' < length s →
            emit p (parse_string s') = Some (t, r) → sanitize t = t) as H.
  { intros p s' Hp Hl. unfold emit. destruct (parse_string s') as [[t' r']|] eqn:E; [|done].
    cbn [mbind option_bind]. intros [= <- <-]. rewrite Hp. f_equal. by eapply IH. }
  pose proof keeps_replacement as Hrep.
  destruct s as [|b s]; [done|]. cbn [parse_string].
  case_decide; [by intros [= <- <-]|]. case_decide.
  { destruct s as [|c s]; [done|]. case_decide.
    - destruct s as [|h1 [|h2 [|h3 [|h4 s]]]]; try done.
      destruct (hex4 h1 h2 h3 h4) as [x|] eqn:Ex; [|done]. apply hex4_range in Ex.
      destruct (is_surrogate x) eqn:Es; [|apply H; [apply keeps_encode_rune; [lia|done]|cbn [length]; lia]].
      destruct s as [|b1 [|b2 [|g1 [|g2 [|g3 [|g4 s]]]]]];
        try (apply H; [done|cbn [length]; lia]).
      case_match eqn:E2; [|apply H; [done|cbn [length]; lia]].
      apply H; [|cbn [length]; lia]. case_decide; [|done].
      destruct (hex4 g1 g2 g3 g4) as [y|]; [|done]. apply surrogate_pair_range in E2.
      apply keeps_encode_rune; [lia|]. unfold is_surrogate. apply bool_decide_eq_false. lia.
    - destruct (simple_escape c) as [b'|] eqn:Ec; [|done]. apply H; [|cbn [length]; lia].
      apply keeps_1. unfold simple_escape in Ec. repeat case_decide; simplify_eq; try (vm_compute; reflexivity).
      destruct_or!; subst; vm_compute; reflexivity. }
  case_decide; [done|]. case_decide; [apply H; [by apply keeps_1|cbn [length]; lia]|].
  destruct s as [|c s]; [done|].
  destruct (utf8_2 b c) eqn:E2; [apply H; [by apply keeps_2|cbn [length]; lia]|].
  destruct s as [|d s]; [apply H; [done|cbn [length]; lia]|].
  destruct (utf8_3 b c d) eqn:E3; [apply H; [by apply keeps_3|cbn [length]; lia]|].
  destruct s as [|e s]; [apply H; [done|cbn [length]; lia]|].
  destruct (utf8_4 b c d e) eqn:E4; [apply H; [by apply keeps_4|cbn [length]; lia]|].
  apply H; [done|cbn [length]; lia].
Qed.

Fixpoint valid_json (v : json) : bool :=
  match v with
  | JStr s => bool_decide (sanitize s = s)
  | JArr l => forallb valid_json l
  | JObj l => forallb (λ kv, bool_decide (sanitize kv.1 = kv.1) && valid_json kv.2) l
  | _ => true
  end.

(** A parsed document is valid and not nested too deeply. *)
Definition parsed_ok (depth : N) (v : json) : Prop :=
  valid_json v = true ∧ (depth + N.of_nat (nesting v) ≤ max_depth)%N.

Lemma elements_ok depth l :
  ¬ (max_depth ≤ depth)%N → Forall (parsed_ok (depth + 1)) l → parsed_ok depth (JArr l).
Proof.
  intros Hd. unfold parsed_ok. cbn [valid_json nesting].
  induction 1 as [|v l [Hv Hn] _ IH]; cbn [forallb List.map] in *;
    [split; [done|cbn; lia]|].
  change (max_list (?x :: ?l)) with (x `max` max_list l).
  rewrite Hv. destruct IH as [IHv IHn]. split; [done|lia].
Qed.

Lemma members_ok depth l :
  ¬ (max_depth ≤ depth)%N →
  Forall (λ kv, sanitize kv.1 = kv.1 ∧ parsed_ok (depth + 1) kv.2) l → parsed_ok depth (JObj l).
Proof.
  intros Hd. unfold parsed_ok. cbn [valid_json nesting].
  induction 1 as [|[k v] l (Hk & Hv & Hn) _ IH]; cbn [forallb List.map fst snd] in *;
    [split; [done|cbn; lia]|].
  change (max_list (?x :: ?l)) with (x `max` max_list l).
  rewrite Hv, bool_decide_eq_true_2 by done. destruct IH as [IHv IHn]. split; [done|lia].
Qed.

Lemma value_ok_aux fuel :
  (∀ d s v r, (d ≤ max_depth)%N → value fuel d s = Some (v, r) → parsed_ok d v) ∧
  (∀ d s l r, (d ≤ max_depth)%N → elements fuel d s = Some (l, r) → Forall (parsed_ok d) l) ∧
  (∀ d s l r, (d ≤ max_depth)%N → members fuel d s = Some (l, r) →
     Forall (λ kv, sanitize kv.1 = kv.1 ∧ parsed_ok d kv.2) l).
Proof.
  assert (∀ d v, (d ≤ max_depth)%N → valid_json v = true → nesting v = 0 → parsed_ok d v) as Hleaf.
  { intros d v Hd Hv Hn. split; [done|]. rewrite Hn. lia. }
  induction fuel as [|fuel (IHv & IHe & IHm)]; [done|]. split; [|split]; intros d s a r Hd.
  - cbn [value]. destruct (skip_ws s) as [|b t]; [done|]. case_decide.
    { case_decide; [done|]. destruct (skip_ws t) as [|c u]; [done|].
      case_decide; [intros; simplify_eq; by apply members_ok|].
      destruct (members fuel _ t) as [[l r']|] eqn:E; [|done]. intros; simplify_eq/=.
      apply members_ok; [done|]. eapply IHm; [|done]. lia. }
    case_decide.
    { case_decide; [done|]. destruct (skip_ws t) as [|c u]; [done|].
      case_decide; [intros; simplify_eq; by apply elements_ok|].
      destruct (elements fuel _ t) as [[l r']|] eqn:E; [|done]. intros; simplify_eq/=.
      apply elements_ok; [done|]. eapply IHe; [|done]. lia. }
    case_decide.
    { destruct (parse_string t) as [[l r']|] eqn:E; [|done]. apply parse_string_valid in E.
      intros; simplify_eq/=. apply Hleaf; [done| |done]. cbn. by apply bool_decide_eq_true. }
    do 3 (destruct (has_prefix _ _); [intros; simplify_eq; by apply Hleaf|]).
    destruct (parse_number (b :: t)) as [[l r']|]; [|done]. intros; simplify_eq/=. by apply Hleaf.
  - cbn [elements]. destruct (value fuel d s) as [[v t]|] eqn:E; [|done]. apply IHv in E; [|done].
    cbn [mbind option_bind]. destruct (skip_ws t) as [|c u]; [done|].
    case_decide; [intros; simplify_eq; by apply Forall_singleton|]. case_decide; [|done].
    destruct (elements fuel d u) as [[l r']|] eqn:E2; [|done]. apply IHe in E2; [|done].
    intros; simplify_eq/=. by constructor.
  - cbn [members]. destruct (skip_ws s) as [|q t]; [done|]. case_decide; [|done].
    destruct (parse_string t) as [[k u]|] eqn:E; [|done]. apply parse_string_valid in E.
    cbn [mbind option_bind]. destruct (skip_ws u) as [|c w]; [done|]. case_decide; [|done].
    destruct (value fuel d w) as [[v x]|] eqn:E2; [|done]. apply IHv in E2; [|done].
    cbn [mbind option_bind]. destruct (skip_ws x) as [|c' y]; [done|].
    case_decide; [intros; simplify_eq; by apply Forall_singleton|]. case_decide; [|done].
    destruct (members fuel d y) as [[l r']|] eqn:E3; [|done]. apply IHm in E3; [|done].
    intros; simplify_eq/=. by constructor.
Qed.

Lemma first_value_ok s v r : first_value s = Some (v, r) → parsed_ok 0 v.
Proof. apply value_ok_aux. done. Qed.

(** ** Values as documents *)

(** [strings.Compare] *)
Fixpoint bytes_le (a b : bytes) : bool :=
  match a, b with
  | [], _ => true
  | _ :: _, [] => false
  | x :: a, y :: b =>
      if decide (x = y) then bytes_le a b else bool_decide (bz x < bz y)%Z
  end.

(** Maps are encoded in the order of their keys. *)
Section sorting.
Context {A : Type}.

Fixpoint insert_key (kv : bytes * A) (l : list (bytes * A)) : list (bytes * A) :=
  match l with
  | [] => [kv]
  | kv' :: l' => if bytes_le kv.1 kv'.1 then kv :: l else kv' :: insert_key kv l'
  end.

Definition sort_keys : list (bytes * A) → list (bytes * A) := foldr insert_key [].

Lemma insert_key_Permutation kv l : insert_key kv l ≡ₚ kv :: l.
Proof.
  induction l as [|kv' l IH]; [done|]. cbn [insert_key]. destruct (bytes_le _ _); [done|].
  rewrite IH. apply Permutation_swap.
Qed.

Lemma sort_keys_Permutation l : sort_keys l ≡ₚ l.
Proof.
  induction l as [|kv l IH]; [done|]. cbn [sort_keys foldr].
  rewrite insert_key_Permutation. by f_equiv.
Qed.

Lemma bytes_le_total a b : bytes_le a b = false → bytes_le b a = true.
Proof.
  revert b. induction a as [|x a IH]; intros [|y b]; try done. cbn [bytes_le].
  case_decide as E; [subst; rewrite decide_True by done; apply IH|].
  rewrite decide_False by congruence. rewrite bool_decide_eq_false, bool_decide_eq_true.
  intros H. assert (bz x ≠ bz y); [|lia]. intros Ez. apply E. by rewrite <- (zb_bz x), <- (zb_bz y), Ez.
Qed.

Lemma sort_keys_Sorted l : Sorted (λ x y, bytes_le x.1 y.1 = true) (sort_keys l).
Proof.
  induction l as [|kv l IH]; [constructor|]. cbn [sort_keys foldr]. fold (sort_keys l).
  induction IH as [|kv' l' Hs IH Hd]; [by repeat constructor|]. cbn [insert_key].
  destruct (bytes_le kv.1 kv'.1) eqn:E; [by repeat constructor|].
  apply bytes_le_total in E. constructor; [done|].
  destruct l' as [|kv2 l']; cbn [insert_key]; [by constructor|].
  destruct (bytes_le kv.1 kv2.1); constructor; [done|]. by inversion Hd.
Qed.
End sorting.

(** Floats the encoder refuses: [Encode] then writes nothing. *)
Definition is_finite (f : float64) : bool :=
  match f with S754_nan | S754_infinity _ => false | _ => true end.

Fixpoint encodable (v : any) : bool :=
  match v with
  | AFloat f => is_finite f
  | AList l => forallb encodable l
  | AMap l | AStruct l => forallb (λ kv, encodable kv.2) l
  | _ => true
  end.

Fixpoint doc_of (v : any) : json :=
  match v with
  | ANil => JNull
  | ABool b => JBool b
  | AInt z => JNum (itoa z)
  | AFloat f => JNum (format_float f)
  | AStr s => JStr s
  | ATime t => JStr (time_text t)
  | AList l => JArr (List.map doc_of l)
  | AMap l => JObj (sort_keys (List.map (λ kv, (kv.1, doc_of kv.2)) l))
  | AStruct l => JObj (List.map (λ kv, (kv.1, doc_of kv.2)) l)
  end.

(** A body as it is sent: [Encode] for [writeJSON], the text of [http.Error]. *)
Definition map_value (m : gomap) : any := AMap (map_to_list m).
Definition body_text (b : rbody) : bytes :=
  match b with
  | BMap m => if encodable (map_value m) then print 0 (doc_of (map_value m)) ++ [LF] else []
  | BText s => s
  end.

Example body_text_ex :
  body_text (p_Body (Ewp.metricsHandler (Ewp.count_request Ewp.initial))) =
  join [LF] [str "{"; qstr "  'mirrored_requests': 0,"; qstr "  'service': 'ewp-sim',";
             qstr "  'success_count': 0,"; qstr "  'success_rate_pct': '0.0%',";
             qstr "  'total_requests': 1"; str "}"; []].
Proof. vm_compute. reflexivity. Qed.

(** Values with machine integers, floats that print as literals, and at most
    [n] levels. *)
Fixpoint fits (n : nat) (v : any) {struct v} : bool :=
  match v with
  | AInt z => bool_decide (in_int64 z)
  | AFloat f => is_finite f && number_ok (format_float f)
  | AList l => match n with S n => forallb (fits n) l | 0 => false end
  | AMap l | AStruct l => match n with S n => forallb (λ kv, fits n kv.2) l | 0 => false end
  | _ => true
  end.

Section any_induction.
Context (P : any → Prop) (Hnil : P ANil) (Hbool : ∀ b, P (ABool b)) (Hint : ∀ z, P (AInt z))
  (Hfloat : ∀ f, P (AFloat f)) (Hstr : ∀ s, P (AStr s)) (Htime : ∀ t, P (ATime t))
  (Hlist : ∀ l, Forall P l → P (AList l))
  (Hmap : ∀ l, Forall (λ kv, P kv.2) l → P (AMap l))
  (Hstruct : ∀ l, Forall (λ kv, P kv.2) l → P (AStruct l)).

Fixpoint any_induction (v : any) : P v :=
  let fields := fix go (l : list (bytes * any)) : Forall (λ kv, P kv.2) l :=
    match l with
    | [] => Forall_nil_2 _
    | kv :: l => Forall_cons_2 _ kv l (any_induction kv.2) (go l)
    end in
  match v with
  | ANil => Hnil
  | ABool b => Hbool b
  | AInt z => Hint z
  | AFloat f => Hfloat f
  | AStr s => Hstr s
  | ATime t => Htime t
  | AList l => Hlist l ((fix go l := match l return Forall P l with
                        | [] => Forall_nil_2 P
                        | v :: l => Forall_cons_2 P v l (any_induction v) (go l)
                        end) l)
  | AMap l => Hmap l (fields l)
  | AStruct l => Hstruct l (fields l)
  end.
End any_induction.

(** Conditions on the members of an object, as predicates on all of them. *)
Lemma numbers_ok_members l :
  numbers_ok (JObj l) = true ↔ Forall (λ kv, numbers_ok kv.2 = true) l.
Proof. cbn [numbers_ok]. by rewrite forallb_forall, Forall_forall; setoid_rewrite list_elem_of_In. Qed.

Lemma max_list_Forall n l : max_list l ≤ n ↔ Forall (λ m, m ≤ n) l.
Proof.
  split; [apply max_list_le|]. induction 1 as [|m l Hm _ IH]; [cbn; lia|].
  change (max_list (m :: l)) with (m `max` max_list l). lia.
Qed.

Lemma nesting_members n l : nesting (JObj l) ≤ S n ↔ Forall (λ kv, nesting kv.2 ≤ n) l.
Proof.
  cbn [nesting]. rewrite <- Nat.succ_le_mono, max_list_Forall. apply Forall_map.
Qed.

(** A value that fits is a document that fits, and it is encoded. *)
Definition doc_fits (n : nat) (d : json) : Prop := numbers_ok d = true ∧ nesting d ≤ n.

Lemma doc_fits_members n l :
  doc_fits (S n) (JObj l) ↔ Forall (λ kv, doc_fits n kv.2) l.
Proof. unfold doc_fits. by rewrite numbers_ok_members, nesting_members, Forall_and. Qed.

Lemma forallb_Forall_true {A} (f : A → bool) l : forallb f l = true ↔ Forall (λ x, f x = true) l.
Proof. rewrite forallb_forall, Forall_forall. by setoid_rewrite list_elem_of_In. Qed.

Lemma fits_fields n (l : list (bytes * any)) :
  Forall (λ kv, ∀ n, fits n kv.2 = true → encodable kv.2 = true ∧ doc_fits n (doc_of kv.2)) l →
  forallb (λ kv, fits n kv.2) l = true →
  forallb (λ kv, encodable kv.2) l = true ∧
  Forall (λ kv, doc_fits n kv.2) (List.map (λ kv, (kv.1, doc_of kv.2)) l).
Proof.
  intros IH. rewrite !forallb_Forall_true, Forall_map. intros H. rewrite <- Forall_and.
  rewrite !Forall_forall in *. intros kv Hkv. apply IH; auto.
Qed.

Lemma fits_doc v : ∀ n, fits n v = true → encodable v = true ∧ doc_fits n (doc_of v).
Proof.
  assert (∀ n d, numbers_ok d = true → nesting d = 0 → doc_fits n d) as Hleaf.
  { intros n d Hd Hn. split; [done|lia]. }
  induction v as [|b|z|f|s|t|l IH|l IH|l IH] using any_induction; intros n H;
    cbn [fits encodable doc_of] in *; try (split; [done|by apply Hleaf]);
    try (destruct n as [|n]; [done|]).
  - apply bool_decide_eq_true in H. split; [done|]. by apply Hleaf; [apply itoa_number|].
  - apply andb_true_iff in H as [? ?]. split; [done|by apply Hleaf].
  - assert (Forall (λ v, encodable v = true ∧ doc_fits n (doc_of v)) l) as Hl.
    { rewrite forallb_Forall_true in H. rewrite Forall_forall in *. intros v Hv. apply IH; auto. }
    unfold doc_fits in *. rewrite !Forall_and in Hl. destruct Hl as (He & Hn & Hd).
    split; [by apply forallb_Forall_true|]. split; cbn [numbers_ok nesting].
    + apply forallb_Forall_true. by apply Forall_map.
    + rewrite <- Nat.succ_le_mono, max_list_Forall. by do 2 apply Forall_map.
  - apply fits_fields in H as [He Hl]; [|done].
    split; [done|]. apply doc_fits_members. by rewrite sort_keys_Permutation.
  - apply fits_fields in H as [He Hl]; [|done]. split; [done|]. by apply doc_fits_members.
Qed.

(** What a JSON reader gets from a body that fits. *)
Lemma body_text_read n m :
  fits n (map_value m) = true → (N.of_nat n ≤ max_depth)%N →
  first_value (body_text (BMap m)) = Some (sane (doc_of (map_value m)), [LF]).
Proof.
  intros Hf Hn. destruct (fits_doc _ _ Hf) as [He [Hd Hl]]. unfold body_text. rewrite He.
  apply first_value_print; [done|lia|done].
Qed.

Lemma body_text_parse n m :
  fits n (map_value m) = true → (N.of_nat n ≤ max_depth)%N →
  parse_json (body_text (BMap m)) = Some (sane (doc_of (map_value m))).
Proof. intros Hf Hn. unfold parse_json. by rewrite (body_text_read n). Qed.

(** ** The validation report *)

(** The member [k] of a document. *)
Definition member (k : bytes) (d : json) : option json :=
  match d with
  | JObj l => '(_, kv) ← list_find (λ kv : bytes * json, kv.1 = k) l; Some kv.2
  | _ => None
  end.

(** The members of the page, in the order of their keys. *)
Lemma page_doc a b c d :
  doc_of (map_value (list_to_map [(str "summary", a); (str "by_path", b);
                                  (str "comparison_scope", c); (str "entries", d)])) =
  JObj [(str "by_path", doc_of b); (str "comparison_scope", doc_of c);
        (str "entries", doc_of d); (str "summary", doc_of a)].
Proof. reflexivity. Qed.

Lemma fits_list_to_map n l :
  Forall (λ kv, fits n kv.2 = true) l → fits (S n) (map_value (list_to_map l)) = true.
Proof.
  intros H. cbn [map_value fits]. apply forallb_Forall_true, Forall_forall. intros [k v] Hk.
  apply elem_of_map_to_list, elem_of_list_to_map_2 in Hk. rewrite Forall_forall in H. by apply (H _ Hk).
Qed.

Section report_page.
Import Ewp Report.

(** Entries whose numbers are Go integers. *)
Definition entry_ints (e : ValidationEntry) : Prop :=
  in_int64 (e_StatusCode e) ∧ in_int64 (e_LatencyMs e).

Lemma fits_string_map n m : fits (S n) (string_map m) = true.
Proof.
  unfold string_map. cbn [fits]. apply forallb_Forall_true, Forall_fmap, Forall_forall. done.
Qed.

Lemma entry_fits e : entry_ints e → fits 2 (entry_json e) = true.
Proof.
  intros [Hs Hl]. unfold entry_json. cbn [fits]. rewrite forallb_app. apply andb_true_iff. split.
  - cbn [forallb snd fits]. by rewrite !bool_decide_eq_true_2.
  - unfold omitempty. rewrite forallb_app. repeat case_bool_decide; cbn [forallb snd];
      by rewrite ?fits_string_map.
Qed.

(** The numbers of a report that fits in memory. *)
Lemma report_ints es t :
  (Z.of_nat (length es) < 2 ^ 50)%Z →
  let rp := validation_report es t in
  in_int64 (rp_total rp) ∧ in_int64 (rp_passed rp) ∧ in_int64 (rp_failed rp) ∧
  in_int64 (rp_avg_latency_ms rp) ∧
  ∀ k ps, rp_by_path rp !! k = Some ps →
    in_int64 (ps_Total ps) ∧ in_int64 (ps_Passed ps) ∧ in_int64 (ps_Failed ps) ∧
    in_int64 (ps_AvgLatMs ps).
Proof.
  intros Hl. cbv zeta. pose proof (filter_partition es) as Hp.
  split; [|split; [|split; [|split]]];
    try (cbn [rp_total rp_passed rp_failed validation_report]; unfold in_int64; lia).
  { cbn [rp_avg_latency_ms validation_report]. case_decide; [apply wrap64_range|by unfold in_int64]. }
  intros k ps Hk. pose proof (report_path es t k) as H. rewrite Hk in H. cbv zeta in H.
  destruct H as (H1 & H0 & H2 & H3 & _). pose proof (filter_partition (entries_of k es)).
  pose proof (length_entries_of es k). unfold in_int64 in *. repeat (split; [lia|]).
  cbn [rp_by_path validation_report] in Hk. rewrite lookup_fmap in Hk.
  destruct (by_path es !! k) as [ps0|]; [|done]. apply (inj Some) in Hk.
  subst ps. unfold finish_path in *. case_decide; [apply wrap64_range|]. lia.
Qed.

Lemma path_fits ps :
  in_int64 (ps_Total ps) ∧ in_int64 (ps_Passed ps) ∧ in_int64 (ps_Failed ps) ∧
  in_int64 (ps_AvgLatMs ps) → fits 2 (path_json ps) = true.
Proof.
  intros (H1 & H2 & H3 & H4). unfold path_json. cbn [fits forallb snd].
  rewrite !bool_decide_eq_true_2 by done. by rewrite fits_string_map.
Qed.

Definition page_value (rp : report) : any :=
  map_value match p_Body (report_page rp) with BMap m => m | BText _ => ∅ end.

Lemma page_fits es t :
  Forall entry_ints es → (Z.of_nat (length es) < 2 ^ 50)%Z →
  fits 4 (page_value (validation_report es t)) = true.
Proof.
  intros He Hl. destruct (report_ints es t Hl) as (H1 & H2 & H3 & H4 & Hp).
  unfold page_value, report_page, writeJSON. cbn [p_Body]. apply fits_list_to_map.
  repeat apply Forall_cons_2; try apply Forall_nil_2; cbn [snd].
  - unfold summary_json. cbn [fits forallb snd]. by rewrite !bool_decide_eq_true_2 by done.
  - cbn [fits]. apply forallb_Forall_true, Forall_fmap, Forall_forall. intros [k ps] Hk.
    apply elem_of_map_to_list, Hp in Hk. by apply path_fits.
  - reflexivity.
  - cbn [fits]. apply forallb_Forall_true, Forall_fmap. cbn [rp_entries validation_report].
    eapply Forall_impl; [exact He|]. apply entry_fits.
Qed.

Lemma page_fields a b c d :
  let doc := sane (doc_of (map_value (list_to_map [(str "summary", a); (str "by_path", b);
                             (str "comparison_scope", c); (str "entries", d)]))) in
  member (str "summary") doc = Some (sane (doc_of a)) ∧
  member (str "by_path") doc = Some (sane (doc_of b)) ∧
  member (str "entries") doc = Some (sane (doc_of d)).
Proof.
  cbv zeta. rewrite page_doc. cbn [sane List.map fst snd].
  generalize (sane (doc_of a)), (sane (doc_of b)), (sane (doc_of c)), (sane (doc_of d)).
  intros. done.
Qed.

Lemma summary_fields rp :
  let doc := sane (doc_of (summary_json rp)) in
  member (str "total") doc = Some (JNum (itoa (rp_total rp))) ∧
  member (str "passed") doc = Some (JNum (itoa (rp_passed rp))) ∧
  member (str "failed") doc = Some (JNum (itoa (rp_failed rp))) ∧
  member (str "ready_to_cut") doc = Some (JBool (rp_ready_to_cut rp)).
Proof.
  unfold summary_json. cbv zeta. cbn [doc_of List.map fst snd].
  generalize (itoa (rp_total rp)), (itoa (rp_passed rp)), (itoa (rp_failed rp)),
    (itoa (rp_avg_latency_ms rp)), (rp_pass_rate rp), (rp_ready_threshold_pct rp).
  intros. done.
Qed.

(** C20. The report is what automation reads: the text of the page is a JSON
    document whose summary has the numbers and the cut-over flag of the report,
    which has a member for every endpoint, with its statistics, and an element
    for every entry of the log; whatever bytes methods and paths contain, and
    whatever order Go iterates its maps in. *)
Theorem report_page_readable es t :
  let rp := validation_report es t in
  Forall entry_ints es → (Z.of_nat (length es) < 2 ^ 50)%Z →
  ∃ doc summary paths entries,
    parse_json (body_text (p_Body (report_page rp))) = Some doc ∧
    member (str "summary") doc = Some summary ∧
    member (str "total") summary = Some (JNum (itoa (rp_total rp))) ∧
    member (str "passed") summary = Some (JNum (itoa (rp_passed rp))) ∧
    member (str "failed") summary = Some (JNum (itoa (rp_failed rp))) ∧
    member (str "ready_to_cut") summary = Some (JBool (rp_ready_to_cut rp)) ∧
    member (str "by_path") doc = Some (JObj paths) ∧
    paths ≡ₚ (λ kp, (sanitize kp.1, sane (doc_of (path_json kp.2)))) <$>
               map_to_list (rp_by_path rp) ∧
    member (str "entries") doc = Some (JArr entries) ∧
    entries = (λ e, sane (doc_of (entry_json e))) <$> es.
Proof.
  cbv zeta. intros He Hl. pose proof (page_fits es t He Hl) as Hf.
  unfold page_value, report_page, writeJSON in *. cbn [p_Body] in *.
  apply body_text_parse in Hf; [|done]. rewrite Hf. clear Hf.
  destruct (page_fields (summary_json (validation_report es t))
    (AMap (prod_map id path_json <$> map_to_list (rp_by_path (validation_report es t))))
    comparison_scope (AList (entry_json <$> es))) as (Hs & Hp & Hen).
  destruct (summary_fields (validation_report es t)) as (H1 & H2 & H3 & H4).
  eexists _, _, _, _. split; [reflexivity|]. split; [exact Hs|]. split; [exact H1|].
  split; [exact H2|]. split; [exact H3|]. split; [exact H4|].
  split; [exact Hp|]. split; [|split; [exact Hen|]].
  - rewrite sort_keys_Permutation. rewrite <- !list_fmap_compose. done.
  - rewrite <- !list_fmap_compose. done.
Qed.

Theorem report_page_readable_witness :
  let rp := validation_report [demo_entry 200; demo_entry 201] (of_int 100) in
  ∃ doc summary,
    parse_json (body_text (p_Body (report_page rp))) = Some doc ∧
    member (str "summary") doc = Some summary ∧
    member (str "total") summary = Some (JNum (str "2")) ∧
    member (str "ready_to_cut") summary = Some (JBool true).
Proof.
  cbv zeta.
  destruct (report_page_readable [demo_entry 200; demo_entry 201] (of_int 100))
    as (doc & summary & paths & entries & H & Hs & Ht & _ & _ & Hr & _).
  - by_compute.
  - reflexivity.
  - exists doc, summary. split; [exact H|]. split; [exact Hs|]. split.
    + rewrite Ht. vm_compute. reflexivity.
    + rewrite Hr. vm_compute. reflexivity.
Defined.
End report_page.

(** ** Decoded objects come back *)

(** [x] fits and is what the decoder makes of its text. *)
Definition comes_back (n : nat) (x : any) : Prop :=
  fits n x = true ∧ interface_value (sane (doc_of x)) = x.

(** The map the decoder fills, member by member. *)
Definition fill (l : list (bytes * any)) : gomap := foldl (λ (m : gomap) kv, <[kv.1 := kv.2]> m) ∅ l.

Lemma fill_snoc l kv : fill (l ++ [kv]) = <[kv.1 := kv.2]> (fill l).
Proof. unfold fill. by rewrite foldl_app. Qed.

Lemma fill_elem l k x : fill l !! k = Some x → (k, x) ∈ l.
Proof.
  induction l as [|[k' x'] l IH] using rev_ind;
    [change (fill []) with (∅ : gomap); by rewrite lookup_empty|].
  rewrite fill_snoc, elem_of_app. cbn [fst snd]. intros [[-> ->]|[_ H]]%lookup_insert_Some.
  - right. by left.
  - left. by apply IH.
Qed.

Lemma fill_reverse l : fill l = list_to_map (reverse l).
Proof.
  induction l as [|kv l IH] using rev_ind; [done|].
  by rewrite fill_snoc, reverse_snoc, IH.
Qed.

Lemma fill_Permutation (l : list (bytes * any)) (m : gomap) : l ≡ₚ map_to_list m → fill l = m.
Proof.
  intros H. rewrite fill_reverse, <- (list_to_map_to_list m). apply list_to_map_proper.
  - rewrite fmap_reverse, reverse_Permutation, H. apply NoDup_fst_map_to_list.
  - by rewrite reverse_Permutation.
Qed.

Lemma decode_members (l : list (bytes * json)) :
  foldl (λ (m : gomap) kv, <[kv.1 := interface_value kv.2]> m) ∅ l =
  fill ((λ kv, (kv.1, interface_value kv.2)) <$> l).
Proof.
  induction l as [|kv l IH] using rev_ind; [done|].
  rewrite foldl_snoc, IH, fmap_app. symmetry. apply fill_snoc.
Qed.

(** A map of values that come back, under valid keys, comes back. *)
Definition map_comes_back (n : nat) (m : gomap) : Prop :=
  map_Forall (λ k x, sanitize k = k ∧ comes_back n x) m.

Lemma map_fits n m : map_comes_back n m → fits (S n) (map_value m) = true.
Proof.
  intros H. cbn [map_value fits]. apply forallb_Forall_true, Forall_forall. intros [k x] Hk.
  apply elem_of_map_to_list, H in Hk. apply Hk.
Qed.

Lemma map_decodes n m :
  map_comes_back n m →
  ∃ l, sane (doc_of (map_value m)) = JObj l ∧
    fill ((λ kv, (kv.1, interface_value kv.2)) <$> l) = m.
Proof.
  intros H. exists (List.map (λ kv, (sanitize kv.1, sane kv.2))
    (sort_keys (List.map (λ kv, (kv.1, doc_of kv.2)) (map_to_list m)))).
  split; [reflexivity|]. apply fill_Permutation. rewrite sort_keys_Permutation. rewrite <- !list_fmap_compose. unfold compose. cbn [fst snd].
  rewrite <- (list_fmap_id (map_to_list m)) at 2. apply Permutation_refl', list_fmap_ext.
  intros i [k x] Hk. apply list_elem_of_lookup_2, elem_of_map_to_list, H in Hk as (Hk & _ & Hx).
  cbn. by rewrite Hk, Hx.
Qed.

Lemma interface_object l :
  interface_value (JObj l) = map_value (fill ((λ kv, (kv.1, interface_value kv.2)) <$> l)).
Proof. reflexivity. Qed.

Lemma fill_comes_back n (l : list (bytes * json)) :
  Forall (λ kv, sanitize kv.1 = kv.1 ∧ comes_back n (interface_value kv.2)) l →
  map_comes_back n (fill ((λ kv, (kv.1, interface_value kv.2)) <$> l)).
Proof.
  intros Hl k x Hk. apply fill_elem, list_elem_of_fmap in Hk as ([k' v] & [= -> ->] & Hin).
  rewrite Forall_forall in Hl. apply (Hl _ Hin).
Qed.

(** What the decoder makes of a value comes back from its text. *)
Lemma decoded_comes_back v : ∀ n,
  valid_json v = true → nesting v ≤ n → comes_back n (interface_value v).
Proof.
  induction v as [|b|lit|s|l IH|l IH] using json_induction; intros n Hv Hn.
  - done.
  - done.
  - cbn [interface_value]. destruct (parse_float lit) as [f|] eqn:Ef; [|done].
    apply parse_float_canonical in Ef. pose proof (format_float_denotes f Ef) as Hd.
    unfold denotes in Hd. apply andb_true_iff in Hd as [H1 H2]. apply bool_decide_eq_true in H2.
    split; cbn [fits doc_of sane interface_value]; [|by rewrite H2]. unfold number_ok.
    rewrite H1. by destruct f.
  - cbn [valid_json] in Hv. apply bool_decide_eq_true in Hv. split; [done|]. cbn. by rewrite Hv.
  - cbn [interface_value valid_json nesting] in *. destruct n as [|n]; [lia|].
    apply le_S_n, max_list_le in Hn. rewrite forallb_Forall_true in Hv. rewrite Forall_map in Hn.
    assert (Forall (λ v, comes_back n (interface_value v)) l) as Hl.
    { rewrite Forall_forall in *. intros v Hin. apply IH; auto. }
    unfold comes_back in Hl. apply Forall_and in Hl as [H1 H2].
    split; cbn [fits doc_of sane interface_value]; [by apply forallb_Forall_true, Forall_map|].
    f_equal. rewrite !List.map_map. apply List.map_ext_in. intros v Hin.
    rewrite Forall_forall in H2. by apply H2, list_elem_of_In.
  - rewrite interface_object in *. destruct n as [|n]; [cbn [nesting] in Hn; lia|].
    apply nesting_members in Hn. cbn [valid_json] in Hv. rewrite forallb_Forall_true in Hv.
    assert (map_comes_back n (fill ((λ kv, (kv.1, interface_value kv.2)) <$> l))) as Hm.
    { apply fill_comes_back. rewrite Forall_forall in *. intros kv Hin. specialize (Hv _ Hin).
      apply andb_true_iff in Hv as [Hk Hv]. apply bool_decide_eq_true in Hk.
      split; [done|]. apply IH; auto. }
    split; [by apply map_fits|]. destruct (map_decodes _ _ Hm) as (l' & -> & Hl').
    by rewrite interface_object, Hl'.
Qed.

Definition levels : nat := N.to_nat (max_depth - 1).

Lemma decode_map_comes_back s m :
  decode_map s = Some m → map_comes_back levels m.
Proof.
  unfold decode_map. destruct (first_value s) as [[[| | | | |l] r]|] eqn:E; try done.
  intros [= <-]. rewrite decode_members. apply first_value_ok in E as [Hv Hn].
  apply fill_comes_back. cbn [valid_json] in Hv. rewrite forallb_Forall_true in Hv.
  assert (nesting (JObj l) ≤ S levels) as Hl by (unfold levels, max_depth in *; lia).
  apply nesting_members in Hl. rewrite Forall_forall in *. intros kv Hin. specialize (Hv _ Hin).
  apply andb_true_iff in Hv as [Hk Hv]. apply bool_decide_eq_true in Hk.
  split; [done|]. apply decoded_comes_back; auto.
Qed.

(** The text of such a map decodes to the map. *)
Lemma body_text_decodes m : map_comes_back levels m → decode_map (body_text (BMap m)) = Some m.
Proof.
  intros Hm. unfold decode_map. rewrite (body_text_read (S levels)); [|by apply map_fits|].
  2: { unfold levels, max_depth. lia. }
  destruct (map_decodes _ _ Hm) as (l & -> & Hl). by rewrite decode_members, Hl.
Qed.

(** ASCII strings come back. *)
Lemma sanitize_ascii s : forallb (λ b, bool_decide (bz b < 0x80)%Z) s = true → sanitize s = s.
Proof.
  induction s as [|b s IH]; [done|]. cbn [forallb]. intros [Hb Hs]%andb_true_iff.
  apply bool_decide_eq_true in Hb. change (b :: s) with ([b] ++ s).
  by rewrite (keeps_1 b Hb), IH.
Qed.

Lemma dec_ascii fuel n :
  (0 ≤ n)%Z → forallb (λ b, bool_decide (bz b < 0x80)%Z) (dec fuel n) = true.
Proof.
  revert n. induction fuel as [|fuel IH]; intros n Hn; [done|]. cbn [dec].
  assert (∀ d, (0 ≤ d < 10)%Z → bool_decide (bz (zb (0x30 + d)) < 0x80)%Z = true) as Hd.
  { intros d Hd. rewrite bz_zb, Z.mod_small by lia. apply bool_decide_eq_true. lia. }
  case_decide; [cbn [forallb]; by rewrite Hd by lia|].
  rewrite forallb_app, IH by (apply Z.div_pos; lia). cbn [forallb].
  by rewrite Hd by (apply Z.mod_pos_bound; lia).
Qed.

Lemma sprintf_ascii z : forallb (λ b, bool_decide (bz b < 0x80)%Z) (sprintf_03d z) = true.
Proof.
  assert (∀ w s, forallb (λ b, bool_decide (bz b < 0x80)%Z) s = true →
            forallb (λ b, bool_decide (bz b < 0x80)%Z) (pad_zero w s) = true) as Hpad.
  { intros w s Hs. unfold pad_zero. rewrite forallb_app, Hs, andb_true_r.
    apply forallb_Forall_true, Forall_replicate. by vm_compute. }
  unfold sprintf_03d, itoa. case_decide.
  - rewrite forallb_app. apply andb_true_iff. split; [done|]. apply Hpad.
    rewrite decide_False by lia. apply dec_ascii. lia.
  - apply Hpad. apply dec_ascii. lia.
Qed.

Lemma added_comes_back n k s m :
  sanitize k = k → sanitize s = s → map_comes_back n m → map_comes_back n (<[k := AStr s]> m).
Proof.
  intros Hk Hs Hm. apply map_Forall_insert_2; [|done]. split; [done|].
  split; [done|]. cbn. by rewrite Hs.
Qed.

Lemma made_comes_back n k prefix z m :
  sanitize k = k → forallb (λ b, bool_decide (bz b < 0x80)%Z) prefix = true →
  map_comes_back n m → map_comes_back n (<[k := AStr (prefix ++ sprintf_03d z)]> m).
Proof.
  intros Hk Hp Hm. apply added_comes_back; [done| |done]. apply sanitize_ascii.
  by rewrite forallb_app, Hp, sprintf_ascii.
Qed.

(** An answer whose body the client decodes as [m]. *)
Definition answers (o : outcome Response) (status : Z) (m : gomap) : Prop :=
  ∃ w, o = Ret w ∧ p_Status w = status ∧ decode_map (body_text (p_Body w)) = Some m.

(** C21. What is posted comes back: when the body of a [POST] starts with a JSON
    object, both simulators answer, for products and for orders, with a JSON text
    from which the client decodes exactly the members it sent, however nested,
    with the identifier, the status and the source added; the two answers
    differ in nothing else. *)
Theorem posted_object_returned r m :
  q_Method r = POST → decode_map (q_Body r) = Some m →
  let made k prefix n := <[str k := AStr (str prefix ++ sprintf_03d (wrap64 (n + 1)))]> m in
  let said k v m := <[str k := AStr (str v)]> m in
  (∀ v s, answers (Ewp.productsHandler v r s).2 StatusCreated
            (said "source" "ewp" (made "id" "ewp-prod-" (Ewp.requestCount s)))) ∧
  (∀ v s, answers (Ewp.ordersHandler v r s).2 StatusAccepted
            (said "source" "ewp" (said "status" "accepted"
               (made "orderId" "ewp-ord-" (Ewp.requestCount s))))) ∧
  (∀ n, answers (Apigee.productsHandler r n).2 StatusCreated
          (said "source" "apigee" (made "id" "prod-" n))) ∧
  (∀ n, answers (Apigee.ordersHandler r n).2 StatusAccepted
          (said "source" "apigee" (said "status" "accepted" (made "orderId" "ord-" n)))).
Proof.
  cbv zeta. intros Hr Hb. pose proof (decode_map_comes_back _ _ Hb) as Hp.
  assert (∀ s, Ewp.requestCount (Ewp.mark r (Ewp.count_request s)) =
               wrap64 (Ewp.requestCount s + 1)) as Hc.
  { intros s. unfold Ewp.mark. by destruct (Ewp.isMirrored r). }
  split_and!; intros; unfold answers, Ewp.productsHandler, Ewp.ordersHandler,
    Apigee.productsHandler, Apigee.ordersHandler, Ewp.answer_products, Ewp.answer_orders;
    cbv zeta; rewrite Hr, ?Hc, Hb; (rewrite decide_False, decide_True by done);
    (eexists; split; [reflexivity|]; split; [reflexivity|]); apply body_text_decodes;
    repeat (apply added_comes_back; [done|done|]); by apply made_comes_back.
Qed.

Definition post_demo : Request :=
  mkReq POST (str "/api/v1/products") [] ∅
    (qstr "{'name':'caf\u00e9 <','price':99.99,'tags':['a',null,{'x':1e21}]} trailing").

Lemma post_demo_ok :
  match decode_map (q_Body post_demo) with
  | Some m => bool_decide (size m = 3)
  | None => false
  end = true.
Proof. vm_compute. reflexivity. Qed.

Theorem posted_object_returned_witness :
  ∃ m, decode_map (q_Body post_demo) = Some m ∧ size m = 3 ∧
    answers (Apigee.productsHandler post_demo 6).2 StatusCreated
      (<[str "source" := AStr (str "apigee")]> (<[str "id" := AStr (str "prod-007")]> m)).
Proof.
  pose proof post_demo_ok as Hd. destruct (decode_map (q_Body post_demo)) as [m|] eqn:E; [|done].
  exists m. split; [done|]. split; [by apply bool_decide_eq_true in Hd|].
  destruct (posted_object_returned post_demo m) as (_ & _ & H & _).
  - reflexivity.
  - exact E.
  - specialize (H 6%Z). cbv zeta in H.
    change (str "prod-" ++ sprintf_03d (wrap64 (6 + 1))) with (str "prod-007") in H. exact H.
Defined.
