(* ===== verification/Log.v ===== *)
(** * What the programs log

    The messages of [log.Printf] in the agent and the simulators, the duration
    formatting they need, and the text the agent's log gets for its answers, line
    by line. Time stamps, the texts of library errors and the [%q] form of a
    malformed buffer are arguments. *)

From Stdlib Require Import ZArith Lia SpecFloat.
From S2P Require Import Prelude GoLib Stats HttpParse Kernel Loader Tracker Json Routes Url.
From S2P Require Import Mirror Agent Float64 Server.
From S2P Require Ewp InFlight.

(** ** [time.Duration] *)

Definition Microsecond : Z := 1000.
Definition Millisecond : Z := 1000000.

(** [Duration.Round], whose results beyond 64 bits saturate. *)
Definition Round (d m : Z) : Z :=
  if decide (m ≤ 0)%Z then d
  else
    let r := Z.rem d m in
    if decide (d < 0)%Z then
      let r := (- r)%Z in
      if decide (2 * r < m)%Z then (d + r)%Z
      else let d1 := wrap64 (d - m + r) in if decide (d1 < d)%Z then d1 else (- 2 ^ 63)%Z
    else
      if decide (2 * r < m)%Z then (d - r)%Z
      else let d1 := wrap64 (d + m - r) in if decide (d < d1)%Z then d1 else (2 ^ 63 - 1)%Z.

(** [fmtFrac]: the last [prec] digits of [v] as a fraction without trailing
    zeros. *)
Definition trim_zeros (s : bytes) : bytes := trim_right_byte Byte.x30 s.
Definition fmtFrac (v : Z) (prec : nat) : bytes :=
  match trim_zeros (pad_zero prec (itoa (v mod 10 ^ Z.of_nat prec))) with
  | [] => []
  | ds => str "." ++ ds
  end.

(** [Duration.String] *)
Definition Duration_String (d : Z) : bytes :=
  let u := Z.abs d in
  let body :=
    if decide (u = 0)%Z then str "0s"
    else if decide (u < Microsecond)%Z then itoa u ++ str "ns"
    else if decide (u < Millisecond)%Z then itoa (u / Microsecond) ++ fmtFrac u 3 ++ str "µs"
    else if decide (u < second)%Z then itoa (u / Millisecond) ++ fmtFrac u 6 ++ str "ms"
    else
      let secs := (u / second)%Z in
      let mins := (secs / 60)%Z in
      let tail := itoa (secs mod 60) ++ fmtFrac u 9 ++ str "s" in
      if decide (mins = 0)%Z then tail
      else if decide (mins / 60 = 0)%Z then itoa mins ++ str "m" ++ tail
      else itoa (mins / 60) ++ str "h" ++ itoa (mins mod 60) ++ str "m" ++ tail in
  if decide (d < 0)%Z then str "-" ++ body else body.

Example Duration_String_ex :
  Duration_String <$> [0; 7; 1500; 2500000; 5000000; 1500000000; 3723000000000; -90000000000]%Z =
  [str "0s"; str "7ns"; str "1.5µs"; str "2.5ms"; str "5ms"; str "1.5s"; str "1h2m3s";
   str "-1m30s"].
Proof. vm_compute. reflexivity. Qed.

Definition latency_text (d : Z) : bytes := Duration_String (Round d Millisecond).

(** Rounding a latency is off by at most half a millisecond. *)
Lemma Round_latency d :
  (0 ≤ d < 2 ^ 62)%Z →
  (Round d Millisecond mod Millisecond = 0)%Z ∧ (Z.abs (Round d Millisecond - d) ≤ 500000)%Z.
Proof.
  intros Hd. unfold Round, Millisecond. rewrite decide_False by lia. cbv zeta.
  rewrite (decide_False (P := (d < 0)%Z)) by lia. rewrite Z.rem_mod_nonneg by lia.
  pose proof (Z.mod_pos_bound d 1000000 ltac:(lia)).
  pose proof (Z.div_mod d 1000000 ltac:(lia)) as Hq.
  case_decide as Hr.
  - split; [|lia]. replace (d - d mod 1000000)%Z with (d / 1000000 * 1000000)%Z by lia.
    apply Z.mod_mul. lia.
  - rewrite wrap64_small by (unfold in_int64; lia). rewrite decide_True by lia. split; [|lia].
    replace (d + 1000000 - d mod 1000000)%Z with ((d / 1000000 + 1) * 1000000)%Z by lia.
    apply Z.mod_mul. lia.
Qed.

(** ** The text of a log

    [log.Printf] writes the date and the time, the message, and a line break if
    the message does not end with one. *)

Definition stamp_length : nat := 20.
Definition is_stamp (s : bytes) : Prop := length s = stamp_length ∧ LF ∉ s.

#[export] Instance is_stamp_dec s : Decision (is_stamp s).
Proof. unfold is_stamp. apply _. Defined.

Definition log_entry (stamp msg : bytes) : bytes :=
  stamp ++ msg ++ (if decide (last msg = Some LF) then [] else [LF]).
Definition log_text (es : list (bytes * bytes)) : bytes := concat (uncurry log_entry <$> es).

(** The lines of a text, as [grep] sees them. *)
Fixpoint lines_of (s : bytes) : list bytes :=
  match s with
  | [] => []
  | b :: s =>
      if decide (b = LF) then [] :: lines_of s
      else match lines_of s with [] => [[b]] | l :: ls => (b :: l) :: ls end
  end.

Example lines_of_ex : lines_of (str "a" ++ [LF; LF] ++ str "bc") = [str "a"; []; str "bc"].
Proof. reflexivity. Qed.

Lemma lines_of_nil s : lines_of s = [] → s = [].
Proof. destruct s as [|b s]; [done|]. cbn [lines_of]. case_decide; [done|]. by destruct (lines_of s). Qed.

Lemma lines_of_behind a t :
  LF ∉ a → t ≠ [] → ∃ l ls, lines_of (a ++ t) = (a ++ l) :: ls.
Proof.
  intros Ha Ht. induction a as [|b a IH]; cbn [app].
  - destruct (lines_of t) as [|l ls] eqn:E; [by apply lines_of_nil in E|]. by exists l, ls.
  - apply not_elem_of_cons in Ha as [Hb Ha]. destruct (IH Ha) as (l & ls & E). cbn [lines_of].
    rewrite decide_False, E by done. by exists l, ls.
Qed.

Lemma lines_of_line a r : LF ∉ a → lines_of (a ++ LF :: r) = a :: lines_of r.
Proof.
  induction a as [|b a IH]; [done|]. intros [Hb Ha]%not_elem_of_cons. cbn [app lines_of].
  by rewrite decide_False, IH by done.
Qed.

(** What ends with a line break does not run into the next line. *)
Definition ended (s : bytes) : Prop := ∃ t, s = t ++ [LF].

Lemma lines_of_app s r : ended s → lines_of (s ++ r) = lines_of s ++ lines_of r.
Proof.
  intros [t ->]. rewrite <- (assoc_L (++)). cbn [app]. induction t as [|b t IH]; [done|].
  cbn [app lines_of]. case_decide; [by rewrite IH|]. rewrite IH.
  destruct (lines_of (t ++ [LF])) as [|l ls] eqn:E; [|done].
  apply lines_of_nil in E. by destruct t.
Qed.

Lemma entry_ends stamp msg : ended (log_entry stamp msg).
Proof.
  unfold log_entry, ended. case_decide as H.
  - destruct msg as [|b msg]; [done|]. destruct (exists_last (l := b :: msg)) as (t & c & E); [done|].
    rewrite E in *. rewrite last_snoc in H. injection H as ->. exists (stamp ++ t).
    by rewrite app_nil_r, (assoc_L (++)).
  - exists (stamp ++ msg). by rewrite (assoc_L (++)).
Qed.

Lemma entry_unbroken stamp msg :
  LF ∉ stamp → LF ∉ msg → lines_of (log_entry stamp msg) = [stamp ++ msg].
Proof.
  intros Hs Hm. unfold log_entry. rewrite decide_False.
  - rewrite (assoc_L (++)), lines_of_line; [done|]. rewrite elem_of_app. tauto.
  - intros H. apply Hm, last_Some_elem_of, H.
Qed.

(** Fields without a line break. *)
Lemma dec_unbroken fuel n : (0 ≤ n)%Z → LF ∉ dec fuel n.
Proof.
  revert n. induction fuel as [|fuel IH]; intros n Hn; [apply not_elem_of_nil|]. cbn [dec].
  assert (∀ d, (0 ≤ d < 10)%Z → LF ∉ [zb (0x30 + d)]) as Hd.
  { intros d Hd [E|E]%elem_of_cons; [|by apply elem_of_nil in E].
    apply (f_equal bz) in E. rewrite bz_zb, Z.mod_small in E by lia. change (bz LF) with 10%Z in E. lia. }
  case_decide; [apply Hd; lia|]. rewrite elem_of_app. intros [E|E].
  - revert E. apply IH. apply Z.div_pos; lia.
  - revert E. apply Hd. apply Z.mod_pos_bound. lia.
Qed.

Lemma itoa_unbroken z : LF ∉ itoa z.
Proof.
  unfold itoa. case_decide; [|apply dec_unbroken; lia].
  intros [E|E]%elem_of_cons; [done|]. revert E. apply dec_unbroken. lia.
Qed.

Lemma fmtFrac_unbroken v prec : LF ∉ fmtFrac v prec.
Proof.
  unfold fmtFrac. destruct (trim_zeros _) as [|b ds] eqn:E; [apply not_elem_of_nil|].
  rewrite <- E, elem_of_app. intros [H|H]; [revert H; by_compute|].
  unfold trim_zeros in H.
  destruct (trim_right_byte_spec Byte.x30 (pad_zero prec (itoa (v mod 10 ^ Z.of_nat prec)))) as [n En].
  assert (LF ∈ pad_zero prec (itoa (v mod 10 ^ Z.of_nat prec))) as Hp by (rewrite En, elem_of_app; by left).
  unfold pad_zero in Hp. apply elem_of_app in Hp as [Hp|Hp].
  - by apply elem_of_replicate in Hp as [? _].
  - by apply itoa_unbroken in Hp.
Qed.

Lemma Duration_unbroken d : LF ∉ Duration_String d.
Proof.
  unfold Duration_String. cbv zeta.
  repeat case_decide; rewrite ?elem_of_app; intros Hin; destruct_or? Hin;
    try (by apply itoa_unbroken in Hin); try (by apply fmtFrac_unbroken in Hin);
    revert Hin; by_compute.
Qed.

Lemma compact_unbroken i e s : LF ∉ s → LF ∉ compact_from i e s.
Proof.
  revert i e. induction s as [|b s IH]; intros i e; [done|].
  intros [Hb Hs]%not_elem_of_cons. cbn [compact_from].
  destruct i; [|destruct (is_ws b)]; rewrite ?not_elem_of_cons; auto.
Qed.

Lemma bodySnippet_unbroken b : LF ∉ b → LF ∉ bodySnippet b.
Proof.
  intros Hb. unfold bodySnippet. case_decide; [by_compute|]. cbv zeta.
  assert (LF ∉ (if json_valid b then compact b else b)) as Hs
    by (destruct (json_valid b); [by apply compact_unbroken|done]).
  case_decide; [|done]. rewrite elem_of_app. intros [Hin|Hin]; [|revert Hin; by_compute].
  by apply elem_of_take in Hin as (? & Hin & _); apply list_elem_of_lookup_2 in Hin.
Qed.

(** ** The mirror: one message per answer *)

(** An answer, with the stamp of the time it is logged at. *)
Abbreviation stamped := (bytes * (CapturedRequest * MirrorResult))%type.

Section result_line.
(** The text of the error of [http.NewRequest] or [http.Client.Do]. *)
Context (error_text : mirror_error → bytes).

(** [logResult] *)
Definition result_line (req : CapturedRequest) (r : MirrorResult) : bytes :=
  let req_line := r_Method r ++ str " " ++ r_Path r in
  let latency := str "  latency=" ++ latency_text (r_Latency r) in
  let status := str "  status=" ++ itoa (r_StatusCode r) in
  match r_Error r with
  | Some e => str "MIRROR NET-ERROR  " ++ req_line ++ latency ++ str "  err=" ++ error_text e ++
              str "  req_body=" ++ bodySnippet (Body req)
  | None =>
      let c := r_StatusCode r in
      if decide (200 ≤ c ∧ c < 300)%Z then
        str "MIRROR OK  " ++ req_line ++ status ++ latency ++ str "  resp=" ++
        bodySnippet (r_Body r)
      else if decide (400 ≤ c ∧ c < 500)%Z then
        str "MIRROR WARN 4xx  " ++ req_line ++ status ++ latency ++ str "  req_body=" ++
        bodySnippet (Body req) ++ str "  resp=" ++ bodySnippet (r_Body r)
      else if decide (500 ≤ c)%Z then
        str "MIRROR ERROR 5xx  " ++ req_line ++ status ++ latency ++ str "  req_body=" ++
        bodySnippet (Body req) ++ str "  resp=" ++ bodySnippet (r_Body r)
      else str "MIRROR UNEXPECTED  " ++ req_line ++ status ++ latency
  end.

(** Reading a line back by its tag. *)
Definition tags : list (bytes * counter) :=
  [(str "MIRROR NET-ERROR  ", mirrorsError); (str "MIRROR OK  ", mirrors2xx);
   (str "MIRROR WARN 4xx  ", mirrors4xx); (str "MIRROR ERROR 5xx  ", mirrors5xx)].

Definition line_counter (line : bytes) : option counter :=
  '(_, tc) ← list_find (λ tc, has_prefix line tc.1 = true) tags; Some tc.2.

(** The tag tells the counter, whatever follows it. *)
Lemma result_line_tag req r :
  ∃ tag rest, result_line req r = tag ++ rest ∧ (LF ∉ tag) ∧
    ∀ t, line_counter (tag ++ t) = outcome_counter r.
Proof.
  unfold result_line, outcome_counter. cbv zeta.
  destruct (r_Error r); [|repeat case_decide]; eexists _, _;
    (split; [reflexivity|]); (split; [by_compute|]); intros t; reflexivity.
Qed.

(** What the mirror logs and counts for a list of answers, in any order they
    come; each message has the stamp of its time. *)
Definition log_results (rs : list stamped) (st : agentStats) : bytes * agentStats :=
  (log_text ((λ x, (x.1, result_line x.2.1 x.2.2)) <$> rs),
   foldl (λ st x, logResult x.2.2 st) st rs).

(** The lines of a text with the tag of a counter behind their stamp. *)
Definition counts_for (c : counter) (line : bytes) : Prop :=
  line_counter (drop stamp_length line) = Some c.
#[local] Instance counts_for_dec c line : Decision (counts_for c line).
Proof. unfold counts_for. apply _. Defined.
Definition lines_with (c : counter) (text : bytes) : nat :=
  length (filter (counts_for c) (lines_of text)).

Lemma length_filter_cons {A} (P : A → Prop) `{∀ x, Decision (P x)} x l :
  length (filter P (x :: l)) = (if decide (P x) then 1 else 0) + length (filter P l).
Proof. rewrite filter_cons. by case_decide. Qed.

Definition answers_with (c : counter) (rs : list stamped) : nat :=
  length (filter (λ x, outcome_counter x.2.2 = Some c) rs).

(** No logged field contains a line break. *)
Definition unbroken (x : stamped) : Prop :=
  let '(req, r) := x.2 in
  (LF ∉ r_Method r) ∧ (LF ∉ r_Path r) ∧ (LF ∉ Body req) ∧ (LF ∉ r_Body r) ∧
  ∀ e, r_Error r = Some e → LF ∉ error_text e.

Lemma result_line_unbroken x : unbroken x → LF ∉ result_line x.2.1 x.2.2.
Proof.
  destruct x as [stamp [req r]]. intros (H1 & H2 & H3 & H4 & H5). cbn [fst snd] in *.
  pose proof (bodySnippet_unbroken _ H3). pose proof (bodySnippet_unbroken _ H4).
  pose proof (itoa_unbroken (r_StatusCode r)).
  pose proof (Duration_unbroken (Round (r_Latency r) Millisecond)).
  unfold result_line, latency_text. cbv zeta.
  destruct (r_Error r) as [e|]; [specialize (H5 e eq_refl)|repeat case_decide];
    rewrite !elem_of_app; intros Hin; destruct_or! Hin; try done; revert Hin; by_compute.
Qed.

(** The lines of one message: the first has its tag. *)
Lemma entry_lines stamp req r :
  is_stamp stamp →
  ∃ line more, lines_of (log_entry stamp (result_line req r)) = line :: more ∧
    line_counter (drop stamp_length line) = outcome_counter r ∧
    (LF ∉ result_line req r → more = []).
Proof.
  intros [Hl Hs]. destruct (result_line_tag req r) as (tag & rest & E & Ht & Hc).
  assert (∃ line more, lines_of (log_entry stamp (result_line req r)) = line :: more ∧
    (∃ t, line = stamp ++ tag ++ t) ∧ (LF ∉ result_line req r → more = []))
    as (line & more & E1 & (t & ->) & E2).
  { destruct (decide (LF ∈ result_line req r)) as [Hin|Hin].
    - unfold log_entry. rewrite E, <- (assoc_L (++)), (assoc_L (++) stamp tag).
      destruct (lines_of_behind (stamp ++ tag)
        (rest ++ (if decide (last (tag ++ rest) = Some LF) then [] else [LF])))
        as (t & more & ->).
      + rewrite elem_of_app. tauto.
      + rewrite E, elem_of_app in Hin. destruct Hin as [Hin|Hin]; [done|].
        destruct rest; [by apply elem_of_nil in Hin|done].
      + eexists _, more. split; [done|]. split; [exists t; by rewrite <- (assoc_L (++))|by rewrite <- E].
    - exists (stamp ++ result_line req r), []. split; [by apply entry_unbroken|].
      split; [exists rest; by rewrite E|done]. }
  exists (stamp ++ tag ++ t), more. split; [done|]. split; [|done].
  rewrite <- Hl, drop_app_length. apply Hc.
Qed.

(** C36. The log accounts for the counters: whatever the answers, each of the
    four outcome counters grows by the number of answers of its kind, and the
    text the log package writes for them has at least that many lines with its
    tag. It has exactly that many, and one line for each answer, when no logged
    method, path, body or error contains a line break; otherwise parts of a body
    can look like lines of their own ([log_line_forged]). *)
Theorem log_accounts rs st c :
  Forall (λ x, is_stamp x.1) rs →
  let '(text, st') := log_results rs st in
  wrap64 (load c st') = wrap64 (load c st + Z.of_nat (answers_with c rs)) ∧
  answers_with c rs ≤ lines_with c text ∧
  (Forall unbroken rs →
   lines_with c text = answers_with c rs ∧ length (lines_of text) = length rs).
Proof.
  intros Hs. unfold log_results. split.
  - clear Hs. revert st. induction rs as [|[stamp [req r]] rs IH]; intros st.
    { cbn. f_equal. lia. }
    cbn [foldl fst snd]. rewrite IH, logResult_counter. unfold answers_with. rewrite filter_cons.
    cbn [snd]. destruct (outcome_counter r) as [c'|]; [|by rewrite decide_False by done].
    destruct (decide (c' = c)) as [->|Hne].
    + rewrite decide_True, load_add_eq, wrap64_add_l by done. cbn [length]. f_equal. lia.
    + rewrite decide_False, load_add_ne by congruence. done.
  - unfold lines_with, answers_with, log_text. induction Hs as [|[stamp [req r]] rs Hx Hs IH]; [done|].
    cbn [fmap list_fmap concat uncurry fst snd].
    destruct (entry_lines stamp req r Hx) as (line & more & E & Hc & Hm).
    rewrite lines_of_app by apply entry_ends. rewrite E, filter_app, !length_app, !length_filter_cons.
    cbn [snd]. assert (counts_for c line ↔ outcome_counter r = Some c) as Hcount
      by (unfold counts_for; by rewrite Hc).
    rewrite (decide_ext (counts_for c line) (outcome_counter r = Some c) 1 0 Hcount).
    destruct IH as [IH1 IH2]. split; [lia|]. intros [Hu Hus]%Forall_cons.
    destruct (IH2 Hus) as [E1 E2].
    rewrite Hm by (by apply (result_line_unbroken (stamp, (req, r)))). rewrite E1, E2.
    cbn [filter list_filter length]. split; [lia|done].
Qed.
End result_line.

Definition demo_stamp : bytes := str "2024/05/06 07:08:09 ".
Definition demo_results : list stamped :=
  (λ r, (demo_stamp, (demo_captured, r))) <$>
    [mkResult (str "GET") (str "/b") 200 (str "{}") 2500000 None;
     mkResult (str "GET") (str "/b") 0 [] 0 (Some DoErr);
     mkResult (str "GET") (str "/b") 204 [] 1499999 None].

Example result_line_ex :
  result_line (λ _, str "refused") demo_captured
    (mkResult (str "GET") (str "/b") 200 (qstr "{'a' : 1}") 2500000 None) =
  qstr "MIRROR OK  GET /b  status=200  latency=3ms  resp={'a':1}".
Proof. vm_compute. reflexivity. Qed.

Theorem log_accounts_witness :
  let '(text, st') := log_results (λ _, str "refused") demo_results zero_stats in
  wrap64 (load mirrors2xx st') = wrap64 (load mirrors2xx zero_stats + 2) ∧
  lines_with mirrors2xx text = 2 ∧ length (lines_of text) = 3.
Proof.
  pose proof (log_accounts (λ _, str "refused") demo_results zero_stats mirrors2xx ltac:(by_compute)) as H.
  unfold log_results in *. destruct H as (H1 & _ & H2). split; [exact H1|]. apply H2.
  repeat apply Forall_cons_2; [..|apply Forall_nil_2];
    (split; [by_compute|]); (split; [by_compute|]); (split; [by_compute|]); (split; [by_compute|]);
    intros e He; vm_compute in He; injection He as <- || discriminate He; by_compute.
Defined.

(** The log does not tell who wrote a line: bodies are logged as they are, line
    breaks included, so a client whose request is answered with a client error
    can write any line it likes into the log of the agent, stamp and tag
    included. *)
Theorem log_line_forged error_text stamp line r req :
  let body := [LF] ++ line ++ [LF] in
  LF ∉ line → length line ≤ 250 → json_valid body = false → Body req = body →
  r_Error r = None → (400 ≤ r_StatusCode r < 500)%Z →
  line ∈ lines_of (log_entry stamp (result_line error_text req r)).
Proof.
  cbv zeta. intros Hn Hl Hj Hb He Hs. unfold result_line. cbv zeta.
  rewrite He, decide_False, decide_True by lia.
  assert (bodySnippet (Body req) = [LF] ++ line ++ [LF]) as ->.
  { unfold bodySnippet. rewrite Hb, Hj. cbv zeta.
    rewrite !decide_False by (rewrite !length_app; cbn [length]; lia). done. }
  unfold log_entry. set (last_break := if decide _ then _ else _). clearbody last_break.
  assert (∀ w t q s l u y z : bytes, w ++ (t ++ q ++ s ++ l ++ u ++ ([LF] ++ line ++ [LF]) ++ y) ++ z =
    ((w ++ t ++ q ++ s ++ l ++ u) ++ [LF]) ++ line ++ LF :: y ++ z)
    as -> by (intros; rewrite <- !(assoc_L (++)); cbn [app]; by rewrite <- ?(assoc_L (++))).
  rewrite lines_of_app by (eexists; reflexivity). rewrite (lines_of_line line) by done.
  rewrite elem_of_app, elem_of_cons. right. by left.
Qed.

Example forged_ex :
  let line := demo_stamp ++ str "MIRROR OK  GET /never-sent  status=200  latency=1ms  resp={}" in
  counts_for mirrors2xx line ∧ json_valid ([LF] ++ line ++ [LF]) = false ∧ length line ≤ 250 ∧ LF ∉ line.
Proof. cbv zeta. split; [vm_compute; reflexivity|]. by_compute. Qed.

(** A request that EWP rejects can so be read as a success: *)
Example forged_counts :
  let line := demo_stamp ++ str "MIRROR OK  GET /never-sent  status=200  latency=1ms  resp={}" in
  let req := mkRequest (str "GET") (str "/b") ∅ ([LF] ++ line ++ [LF]) [] in
  let rs := [(demo_stamp, (req, mkResult (str "GET") (str "/b") 404 [] 0 None))] in
  answers_with mirrors2xx rs = 0 ∧
  lines_with mirrors2xx (log_results (λ _, []) rs zero_stats).1 = 1.
Proof. vm_compute. done. Qed.

(** ** The tracker *)

(** After a call of [Feed] that assembled requests. *)
Definition assembled_line (ev : PktEvent) (reqs : list CapturedRequest) (snapshot : bytes) : bytes :=
  str "TCP assembled " ++ itoa (Z.of_nat (length reqs)) ++ str " request(s) from " ++
  ipStr (SrcIP ev) ++ str ":" ++ itoa (SrcPort ev) ++ str " (buf=" ++ itoa (len snapshot) ++
  str " bytes)".

(** [time.Since(s.lastSeen).Seconds()] *)
Definition fadd (x y : float64) : float64 := SFadd 53 1024 x y.
Definition Seconds (d : Z) : float64 :=
  fadd (of_int (Z.quot d second)) (fdiv (of_int (Z.rem d second)) (of_int second)).

(** [%.1f]: [percent] without its last byte. *)
Definition one_decimal_text (x : float64) : bytes := removelast (percent x).

(** A stream the reaper removes, [age] after its last byte. *)
Definition reaped_line (k : streamKey) (s : stream) (age : Z) : bytes :=
  str "WARN stream reaped (partial request lost): src=" ++ ipStr (srcIP k) ++ str ":" ++
  itoa (srcPort k) ++ str " dst=" ++ ipStr (dstIP k) ++ str ":" ++ itoa (dstPort k) ++
  str " buf=" ++ itoa (len (buf s)) ++ str " bytes age=" ++ one_decimal_text (Seconds age) ++
  str "s".

Example reaped_line_ex :
  reaped_line demo_key (mkStream (str "GET /") 0) 12340000000 =
  str "WARN stream reaped (partial request lost): src=1.0.0.0:3 dst=2.0.0.0:4 buf=5 bytes age=12.3s".
Proof. vm_compute. reflexivity. Qed.

Section quoted.
(** The [%q] form of a byte string. *)
Context (quoted : bytes → bytes).

Definition parse_error_text (e : parse_error) : bytes :=
  match e with
  | EmptyRequest => str "empty request"
  | MalformedRequestLine line => str "malformed request line: " ++ quoted line
  end.

(** [parseHTTPRequests], at an error behind [consumed] bytes. *)
Definition parse_error_line (consumed : Z) (e : parse_error) (rest : bytes) : bytes :=
  str "PARSE ERROR at offset " ++ itoa consumed ++ str ": " ++ parse_error_text e ++
  str " (first 64 bytes: " ++ quoted (truncate rest 64) ++ str ")".
End quoted.

(** ** Loading routes *)

(** [utf8.RuneCountInString] *)
Fixpoint rune_count (s : bytes) : nat :=
  match s with
  | b :: s1 =>
      if decide (bz b < 0x80)%Z then S (rune_count s1)
      else
        match s1 with
        | c :: s2 =>
            if utf8_2 b c then S (rune_count s2) else
            match s2 with
            | d :: s3 =>
                if utf8_3 b c d then S (rune_count s3) else
                match s3 with
                | e :: s4 =>
                    if utf8_4 b c d e then S (rune_count s4) else S (rune_count s1)
                | [] => S (rune_count s1)
                end
            | [] => S (rune_count s1)
            end
        | [] => S (rune_count s1)
        end
  | [] => 0
  end.

(** [%-30s] *)
Definition pad_right (w : nat) (s : bytes) : bytes := s ++ replicate (w - rune_count s) SP.

Definition rule_line (r : Route) : bytes :=
  str "  APIGEE " ++ pad_right 30 (Apigee r) ++ str "  →  EWP " ++ EWP r.

(** [loadRoutes]; [err_text] is the text of the decoder's error. *)
Definition loadRoutes_lines (err_text : bytes) (raw : bytes) : list bytes :=
  let raw := trim_space raw in
  if decide (raw = []) then [str "routes: no filter configured — mirroring all paths to EWP"]
  else
    match unmarshal_routes raw with
    | None => [str "routes: invalid JSON (" ++ err_text ++ str ") — keeping previous config"]
    | Some rs =>
        (str "routes: " ++ itoa (Z.of_nat (length rs)) ++
         str " rule(s) active (only these paths will be mirrored):") :: (rule_line <$> rs)
    end.

Example loadRoutes_lines_ex :
  loadRoutes_lines [] (qstr "[{'apigee':'/api/v1/products','ewp':'/p'}]") =
  [str "routes: 1 rule(s) active (only these paths will be mirrored):";
   str "  APIGEE /api/v1/products                →  EWP /p"].
Proof. vm_compute. reflexivity. Qed.

(** What start-up logs is what was loaded: without a previous table, the lines
    determine whether a filter is active, and how many rules it has. *)
Lemma loadRoutes_lines_active err_text raw :
  match loadRoutes raw None with
  | None => length (loadRoutes_lines err_text raw) = 1
  | Some rs => loadRoutes_lines err_text raw =
      (str "routes: " ++ itoa (Z.of_nat (length rs)) ++
       str " rule(s) active (only these paths will be mirrored):") :: (rule_line <$> rs)
  end.
Proof.
  unfold loadRoutes, loadRoutes_lines. cbv zeta. case_decide; [done|].
  by destruct (unmarshal_routes _).
Qed.

(** ** Start-up of the agent and its loader *)

(** [ReadEvents], for a record it skips. *)
Definition short_record_line (raw : bytes) : bytes :=
  str "short ring buffer record: " ++ itoa (len raw) ++ str " bytes (need at least " ++
  itoa pktEventHeaderSize ++ str ")".

Section startup.
(** The text of a library's error, [%q] of the interface name, and the error of
    [netlink.QdiscAdd]. *)
Context (lib_err quoted_iface qdisc_err : bytes).

Definition load_error_text (e : load_error) : bytes :=
  match e with
  | LoadSpecErr => str "load collection spec: " ++ lib_err
  | NewCollectionErr => str "new collection: " ++ lib_err
  | NoCfgMap => str "cfg_target_port map not found in BPF object"
  | PutErr => str "set target port: " ++ lib_err
  | NoRbMap => str "rb map not found in BPF object"
  | ReaderErr => str "ringbuf reader: " ++ lib_err
  | LinkErr _ => str "link " ++ quoted_iface ++ str ": " ++ lib_err
  | NoProgram => str "mirror_ingress program not found in BPF object"
  | FilterErr => str "tc filter add: " ++ lib_err
  end.

(** The lines of [NewLoader]; the interface is looked up before the queueing
    discipline is added, and one that exists already is no error. *)
Definition qdisc_line (env : load_env) : list bytes :=
  match qdisc env with
  | QdiscFailed => [str "warning: qdisc add: " ++ qdisc_err ++ str " (continuing)"]
  | _ => []
  end.

Definition NewLoader_lines (env : load_env) (iface : bytes) (r : load_error + Z) : list bytes :=
  match r with
  | inl (NoProgram | FilterErr) => qdisc_line env
  | inl _ => []
  | inr idx => qdisc_line env ++ [str "TC ingress hook attached on " ++ iface ++ str " (ifindex " ++
                              itoa idx ++ str ")"]
  end.

Definition starting_line (f : flags) : bytes :=
  str "mirror-agent starting: iface=" ++ f_iface f ++ str " port=" ++ itoa (f_port f) ++
  str " ewp=" ++ f_ewp f.
Definition attached_line (f : flags) : bytes :=
  str "eBPF attached — listening for HTTP on port " ++ itoa (f_port f) ++
  str ", mirroring to " ++ f_ewp f.

(** [main] up to its goroutines; [log.Fatalf] ends it. *)
Definition startup_lines (f : flags) (env : load_env) (routes_err : bytes) : list bytes :=
  let '(_, r) := NewLoader env (f_iface f) (u16 (f_port f)) in
  loadRoutes_lines routes_err (f_routes f) ++ [starting_line f] ++
  NewLoader_lines env (f_iface f) r ++
  [match r with
   | inl e => str "failed to load eBPF program: " ++ load_error_text e
   | inr _ => attached_line f
   end].

(** The last line tells whether start-up succeeded. *)
Lemma startup_lines_last f env routes_err :
  last (startup_lines f env routes_err) =
  Some match (startup f env).2 with
       | inl e => str "failed to load eBPF program: " ++ load_error_text e
       | inr _ => attached_line f
       end.
Proof.
  unfold startup_lines, startup. destruct (NewLoader _ _ _) as [calls [e|idx]]; cbn [snd];
    by rewrite !(assoc_L (++)), last_snoc.
Qed.
End startup.

(** The lines show the port of the flags, not the one the hook filters on: a
    number beyond sixteen bits is truncated without a word. *)
Example attached_port_ex :
  let f := mkFlags (str "eth0") 74626 (str "http://ewp:1") [] in
  attached_line f = str "eBPF attached — listening for HTTP on port 74626, mirroring to http://ewp:1"
  ∧ u16 (f_port f) = 9090%Z.
Proof. vm_compute. done. Qed.

(** [Loader.Close], when the filter cannot be removed. *)
Definition filter_del_line (err : bytes) : bytes := str "filter del: " ++ err.

(** ** The statistics printer *)

(** [startStatsPrinter]: at each of [n] ticks, [interval] apart, the summary of
    the counters at that time. *)
Definition stats_printer (interval start : Z) (counters_at : Z → agentStats) (n : nat)
    : list (Z * bytes) :=
  (λ i, let t := (start + Z.of_nat (S i) * interval)%Z in (t, printStats (counters_at t)))
    <$> seq 0 n.

(** ** The main programs *)

(** [ListenAndServe] only returns with an error, whose text is [err]. *)
Definition listen_addr (port : Z) : bytes := str ":" ++ itoa port.

Definition apigee_main (port : Z) (err : bytes) : list bytes :=
  [str "APIGEE simulator listening on " ++ listen_addr port; str "server error: " ++ err].
Definition ewp_main (port : Z) (err : bytes) : list bytes :=
  [str "EWP (Enterprise Web Proxy) simulator listening on " ++ listen_addr port;
   str "server error: " ++ err].

(** ** The simulators *)

Section requests.
(** [r.RemoteAddr] *)
Context (RemoteAddr : bytes).

Definition apigee_logRequest (r : Request) : bytes :=
  q_Method r ++ str " " ++ q_Path r ++ str " from " ++ RemoteAddr.

Definition apigee_logResponse (r : Request) (status latency : Z) : bytes :=
  q_Method r ++ str " " ++ q_Path r ++ str " -> " ++ itoa status ++ str " (" ++
  latency_text latency ++ str ")".

Definition ewp_logRequest (r : Request) : bytes :=
  (if Ewp.isMirrored r then str " [SHADOW]" else []) ++
  q_Method r ++ str " " ++ q_Path r ++ str " from " ++ RemoteAddr.
End requests.

(** The lines of [record]. *)
Definition record_lines (r : Request) (statusCode latency : Z) : list bytes :=
  let what := q_Method r ++ str " " ++ q_Path r ++ str " -> " ++ itoa statusCode ++ str " (" ++
              latency_text latency in
  if Ewp.isMirrored r then
    if decide (500 ≤ statusCode)%Z then
      [str "ERROR [SHADOW] " ++ what ++ str ") — internal error, check EWP logs"]
    else if decide (400 ≤ statusCode)%Z then
      [str "WARN  [SHADOW] " ++ what ++ str ") — client error"]
    else []
  else [].

(** Like the failures of the report, they cannot occur: every status that a
    handler records is a success. *)
Lemma record_lines_none h v r count code body latency :
  InFlight.answer h v r count = Ret (Some (code, body)) → record_lines r code latency = [].
Proof.
  intros E%InFlight.answer_success. unfold Ewp.passed_status in E. apply bool_decide_eq_true in E.
  unfold record_lines. cbv zeta. destruct (Ewp.isMirrored r); [|done].
  by rewrite !decide_False by lia.
Qed.
