(* ===== verification/Pipeline.v ===== *)
(** * From the wire to the report

    The components composed: the capture hook, the ring buffer, the decoder and
    the tracker, in any interleaving with its reaper and among other traffic,
    return the requests a client sent; the mirror replays them; the EWP simulator
    records them; the validation report counts them. *)

From Stdlib Require Import ZArith Lia.
From S2P Require Import Prelude GoLib Stats HttpParse Kernel Loader Tracker Json Routes Url.
From S2P Require Import Interleaving Connections Mirror Agent Float64 Server Transport Ewp.
From S2P Require Import Report InFlight.

(** ** From the wire to the requests *)

(** What the capture hook reads from a packet. *)
Definition flow_of (skb : sk_buff) : streamKey :=
  let f := frame skb in
  mkKey (word_at f (sizeof_ethhdr + 12)) (word_at f (sizeof_ethhdr + 16))
        (ntohs_at f (tcp_offset f)) (ntohs_at f (tcp_offset f + 2)).

Definition payload_of (skb : sk_buff) : bytes :=
  drop (Z.to_nat (payload_offset (frame skb))) (frame skb).

(** A packet of the flow [k] to the target port with a payload that fits a
    record and passes the packet heuristics, and a free slot for it. *)
Definition packet_ok (port : Z) (k : streamKey) (p : sk_buff * option bytes) : Prop :=
  matches port p.1 = true ∧ flow_of p.1 = k ∧
  (1 ≤ len (payload_of p.1) ≤ MAX_PAYLOAD_SIZE)%Z ∧
  accepted (payload_of p.1) = true ∧
  ∃ slot, p.2 = Some slot ∧ len slot = MAX_PAYLOAD_SIZE.

Section end_to_end.
Variable bpf_skb_load_bytes : sk_buff → Z → Z → option bytes.
Hypothesis load_bytes_spec : ∀ skb off n b,
  bpf_skb_load_bytes skb off n = Some b →
  b = take (Z.to_nat n) (drop (Z.to_nat off) (frame skb)) ∧ len b = n.
(** It fails only for ranges outside the packet. *)
Hypothesis load_bytes_total : ∀ skb off n,
  (0 ≤ off)%Z → (0 < n)%Z → (off + n ≤ len (frame skb))%Z →
  is_Some (bpf_skb_load_bytes skb off n).

Lemma payload_offset_nonneg f : (0 ≤ payload_offset f)%Z.
Proof.
  assert (∀ x, 0 ≤ Z.land x 0xF)%Z as Hland by (intros x; apply Z.land_nonneg; lia).
  pose proof (Hland (byte_at f sizeof_ethhdr)).
  pose proof (Hland (Z.shiftr (byte_at f (tcp_offset f + 12)) 4)).
  unfold payload_offset, tcp_header_len, tcp_offset at 1, ip_header_len, sizeof_ethhdr at 1. lia.
Qed.

(** The event a good packet becomes. *)
Lemma mirror_ingress_good m k p :
  packet_ok (cfg_target_port m) k p →
  ∃ ev, mirror_ingress bpf_skb_load_bytes m p.1 p.2 = submit ev (bump_matched m) ∧
    event_ok ev ∧ key_of (pkt_of_event ev) = k ∧ carries (pkt_of_event ev) (payload_of p.1).
Proof.
  destruct p as [skb r]. intros (Hm & Hk & Hl & Ha & slot & Hr & Hs).
  cbn [fst snd] in *. subst r. unfold mirror_ingress. rewrite Hm. cbv zeta.
  set (f := frame skb) in *. set (off := payload_offset f) in *.
  assert (0 ≤ off)%Z as Hoff by apply payload_offset_nonneg.
  assert (len (payload_of skb) = len f - off)%Z as El.
  { change (payload_of skb) with (drop (Z.to_nat off) f) in Hl |- *.
    unfold len in *. rewrite length_drop in *. lia. }
  rewrite decide_False by lia. unfold MAX_PAYLOAD_SIZE in *.
  rewrite decide_False by lia.
  pose proof (fill_event_ok _ load_bytes_spec skb (len f - off) slot) as Hok.
  eexists. split; [reflexivity|]. split; [apply Hok; unfold MAX_PAYLOAD_SIZE; lia|].
  unfold fill_event. fold f. fold off.
  destruct (load_bytes_total skb off (len f - off)) as [b Hb]; [lia|lia|fold f; lia|].
  rewrite Hb. apply load_bytes_spec in Hb as [-> Hb]. fold f in Hb |- *.
  assert (take (Z.to_nat (len f - off)) (drop (Z.to_nat off) f) = payload_of skb) as Ep.
  { unfold payload_of. fold f. fold off. apply take_ge. rewrite length_drop. unfold len in *. lia. }
  rewrite Ep in *. split; [exact Hk|]. unfold carries, segment, slice.
  cbn [pkt_of_event PayloadLen Payload payload_len payload].
  unfold u16. rewrite Z.mod_small by lia. split; [lia|]. split; [|done].
  rewrite <- El. set (L := payload_of skb) in *. clearbody L.
  assert (∀ X, take (Z.to_nat (len L)) (L ++ X) = L) as HT.
  { intros X. unfold len. rewrite Nat2Z.id. apply take_app_length. }
  rewrite HT, decide_True by (rewrite len_app; pose proof (len_nonneg L);
    pose proof (len_nonneg (drop (Z.to_nat (len L)) zero_payload)); lia).
  by rewrite Z.sub_0_r, drop_0, HT.
Qed.

(** Good packets are submitted one by one, and decoded to one event each. *)
Lemma capture_good m k pkts :
  Forall (packet_ok (cfg_target_port m) k) pkts →
  ∃ evs, rb (capture bpf_skb_load_bytes m pkts) = rb m ++ (encode_event <$> evs) ∧
    Forall event_ok evs ∧
    Forall2 (λ ev p, key_of (pkt_of_event ev) = k ∧ carries (pkt_of_event ev) (payload_of p.1))
      evs pkts.
Proof.
  intros HF. remember (cfg_target_port m) as port eqn:Ep. revert m Ep.
  induction HF as [|p pkts Hp _ IH]; intros m ->.
  { exists []. rewrite app_nil_r. auto. }
  destruct (mirror_ingress_good m k p Hp) as (ev & E & Hok & Hk & Hc).
  unfold capture. cbn [foldl]. rewrite E.
  destruct (IH (submit ev (bump_matched m)) eq_refl) as (evs & Erb & Hoks & H2).
  unfold capture in Erb. exists (ev :: evs). split; [|split; by constructor].
  rewrite Erb. cbn [submit rb bump_matched]. by rewrite <- (assoc_L (++)).
Qed.

Lemma delivered_encoded evs :
  Forall event_ok evs → delivered (Some <$> (encode_event <$> evs)) = pkt_of_event <$> evs.
Proof.
  induction 1 as [|ev evs Hok _ IH]; [done|].
  cbn [fmap list_fmap delivered]. rewrite decode_encode by done. cbn [app]. f_equal. apply IH.
Qed.

(** The tracker returns what was sent. *)
Lemma capture_returns port k pkts times xs t st :
  Forall (packet_ok port k) pkts →
  Forall message_ok xs →
  concat ((λ p, payload_of p.1) <$> pkts) = concat (text_of <$> xs) →
  length times = length pkts →
  t !! k = None →
  let m := capture bpf_skb_load_bytes (mkMaps port 0 0 []) pkts in
  ∃ t' st',
    feed_all (zip times (delivered (Some <$> rb m))) t st =
      Ret (set_src (ipStr (srcIP k)) <$> (captured_as <$> xs), t', st') ∧
    buffer_of t' k = [] ∧ ∀ k', k' ≠ k → t' !! k' = t !! k'.
Proof.
  intros Hp Hx Hc Ht Hk. cbv zeta.
  destruct (capture_good (mkMaps port 0 0 []) k pkts Hp) as (evs & -> & Hok & H2).
  cbn [rb app]. rewrite delivered_encoded by done.
  pose proof (parseHTTPRequests_parses _ st _ _ _ (parses_messages xs Hx)) as Hparse.
  cbn [stop_outcome] in Hparse. rewrite <- Hc in Hparse.
  assert (buffer_of t k = []) as E by (unfold buffer_of; by rewrite Hk).
  destruct (feed_all_buffer k (zip times (pkt_of_event <$> evs)) ((λ p, payload_of p.1) <$> pkts)
              t st (captured_as <$> xs) (len (concat ((λ p, payload_of p.1) <$> pkts)) - len [])%Z
              st st st st) as (t' & st' & Hf & Hb & Hfr & _); rewrite ?E.
  - clear -H2 Ht. revert times Ht. induction H2 as [|ev p evs pkts [H1 H2] _ IH];
      intros [|now times] Ht; try discriminate; cbn [fmap list_fmap zip zip_with];
      constructor; [done|]. apply IH. by injection Ht.
  - vm_compute. reflexivity.
  - exact Hparse.
  - exists t', st'. split; [exact Hf|]. split; [|done].
    rewrite Hb, E. apply drop_ge. unfold len. cbn [app length]. lia.
Qed.

(** ** Mixed traffic

    Now packets of any connections and ports arrive in any order, and the
    tracker runs concurrently with the reaper. *)

(** The payload of a packet on the flow [k] to the target port, or nothing. *)
Definition flow_payload (port : Z) (k : streamKey) (p : sk_buff * option bytes) : bytes :=
  if matches port p.1 && bool_decide (flow_of p.1 = k) then payload_of p.1 else [].

(** Slots have the size of a record; payload on the flow [k] fits one, passes
    the packet heuristics and finds a slot. Nothing is asked of other packets,
    nor of those without payload. *)
Definition packet_fine (port : Z) (k : streamKey) (p : sk_buff * option bytes) : Prop :=
  (∀ slot, p.2 = Some slot → len slot = MAX_PAYLOAD_SIZE) ∧
  (flow_payload port k p ≠ [] →
     (len (flow_payload port k p) ≤ MAX_PAYLOAD_SIZE)%Z ∧
     accepted (flow_payload port k p) = true ∧ is_Some p.2).

Lemma fill_event_key skb n slot :
  key_of (pkt_of_event (fill_event bpf_skb_load_bytes skb n slot)) = flow_of skb.
Proof. unfold fill_event. by destruct (bpf_skb_load_bytes _ _ _). Qed.

Lemma carries_bytes ev data : carries ev data → event_bytes (key_of ev) ev = data.
Proof.
  intros (Hl & Hs & Ha). unfold event_bytes, offered.
  rewrite Hs, Ha, bool_decide_eq_true_2 by done. cbn [andb]. by rewrite decide_True.
Qed.

Lemma other_bytes k ev : key_of ev ≠ k → event_bytes k ev = [].
Proof.
  intros Hk. unfold event_bytes, offered. destruct (segment ev); [|done].
  destruct (_ && _); [|done]. by rewrite decide_False.
Qed.

(** The events of one packet. *)
Lemma mirror_ingress_fine m k p :
  packet_fine (cfg_target_port m) k p →
  ∃ evs, let m' := mirror_ingress bpf_skb_load_bytes m p.1 p.2 in
    rb m' = rb m ++ (encode_event <$> evs) ∧ cfg_target_port m' = cfg_target_port m ∧
    Forall event_ok evs ∧
    concat (event_bytes k <$> (pkt_of_event <$> evs)) = flow_payload (cfg_target_port m) k p.
Proof.
  intros [Hslot Hf]. destruct (decide (flow_payload (cfg_target_port m) k p = [])) as [E|Hne].
  - rewrite E. clear Hf. destruct p as [skb r]. unfold flow_payload in E. cbn [fst snd] in *.
    pose proof (mirror_ingress_cases _ load_bytes_spec m skb r Hslot) as HC. cbv zeta in HC.
    destruct HC as [[Em ->]|[(Ee & Em & ->)|[(Ee & Em & -> & ->)|(Ee & Em & n & slot & Hok & Hev)]]].
    1-3: by exists []; cbn; rewrite app_nil_r.
    exists [fill_event bpf_skb_load_bytes skb n slot]. cbv zeta. rewrite Hev.
    cbn [fmap list_fmap concat]. rewrite app_nil_r.
    split; [done|]. split; [done|]. split; [by constructor|]. apply other_bytes.
    rewrite fill_event_key. intros Hk. rewrite Em, bool_decide_eq_true_2 in E by done.
    unfold is_empty_match in Ee. cbn [fst] in Ee. rewrite Em in Ee. cbn [andb] in *.
    apply bool_decide_eq_false in Ee. unfold payload_of in E.
    apply (f_equal length) in E. rewrite length_drop in E. cbn [length] in E.
    pose proof (payload_offset_nonneg (frame skb)). unfold len in Ee. lia.
  - destruct (Hf Hne) as (Hl & Ha & slot & Hs). unfold flow_payload in *.
    destruct (matches (cfg_target_port m) p.1) eqn:Em; [|done]. cbn [andb] in *.
    case_bool_decide as Hk; [|done].
    destruct (mirror_ingress_good m k p) as (ev & E & Hok & Hkey & Hc).
    { split; [done|]. split; [done|]. split.
      - split; [|done]. destruct (payload_of p.1); [done|]. unfold len. cbn [length]. lia.
      - split; [done|]. exists slot. split; [done|by apply Hslot]. }
    exists [ev]. cbv zeta. rewrite E. split; [done|]. split; [done|]. split; [by constructor|].
    cbn [fmap list_fmap concat]. rewrite app_nil_r, <- Hkey. by apply carries_bytes.
Qed.

Lemma capture_fine m k pkts :
  Forall (packet_fine (cfg_target_port m) k) pkts →
  ∃ evs, rb (capture bpf_skb_load_bytes m pkts) = rb m ++ (encode_event <$> evs) ∧
    Forall event_ok evs ∧
    concat (event_bytes k <$> (pkt_of_event <$> evs)) =
      concat (flow_payload (cfg_target_port m) k <$> pkts).
Proof.
  intros HF. remember (cfg_target_port m) as port eqn:Ep. revert m Ep.
  induction HF as [|p pkts Hp _ IH]; intros m ->.
  { exists []. rewrite app_nil_r. auto. }
  destruct (mirror_ingress_fine m k p Hp) as (evs1 & E1 & Ep1 & Hok1 & Hb1). cbv zeta in *.
  destruct (IH _ (eq_sym Ep1)) as (evs2 & E2 & Hok2 & Hb2).
  exists (evs1 ++ evs2). unfold capture in *. cbn [foldl].
  rewrite E2, E1, !fmap_app, concat_app, Hb1. split; [by rewrite <- (assoc_L (++))|].
  split; [by apply Forall_app|]. cbn [fmap list_fmap concat]. by f_equal.
Qed.

Lemma captured_requests d port k pkts xs ls s :
  Forall (packet_fine port k) pkts → Forall message_ok xs →
  concat (flow_payload port k <$> pkts) = concat (text_of <$> xs) →
  trace (tracker_step d) init_tracker ls s → kept k ls → pc s = Idle →
  events_of ls =
    delivered (Some <$> rb (capture bpf_skb_load_bytes (mkMaps port 0 0 []) pkts)) →
  returned_on k ls = set_src (ipStr (srcIP k)) <$> (captured_as <$> xs) ∧
  buffer_of (table s) k = [].
Proof.
  intros Hp Hx Hc Htr Hk Hpc He.
  destruct (capture_fine (mkMaps port 0 0 []) k pkts Hp) as (evs & E & Hok & Hb).
  rewrite E in He. cbn [rb app cfg_target_port] in *. rewrite delivered_encoded in He by done.
  destruct (interleaved_requests d init_tracker ls s k) as (rs & c & st & H1 & H2 & H3);
    [by split_and!|done..|].
  rewrite bytes_on_events, He, Hb, Hc in *.
  pose proof (parseHTTPRequests_parses _ zero_stats _ _ _ (parses_messages xs Hx)) as H.
  cbn [stop_outcome] in H. rewrite H in H1. simplify_eq. split; [done|].
  rewrite H3. apply drop_ge. unfold len. cbn [length]. lia.
Qed.

(** C1. Capture, end to end: packets of any connections arrive at the interface
    in any order, and the tracker runs concurrently with its reaper. Let one
    client send well-formed requests over one connection to the target port,
    cut into TCP segments at arbitrary places, each payload of at most 1500
    bytes, none dropped and each passing the packet heuristics. Then in every
    trace in which the read loop takes what the ring buffer delivers and the
    reaper does not remove that connection, the requests returned for it are
    exactly those requests, in order, marked with the client's address, and
    none of its bytes stay buffered. *)
Theorem capture_to_requests d port k pkts xs ls s :
  Forall (packet_fine port k) pkts → Forall message_ok xs →
  concat (flow_payload port k <$> pkts) = concat (text_of <$> xs) →
  trace (tracker_step d) init_tracker ls s → kept k ls → pc s = Idle →
  events_of ls =
    delivered (Some <$> rb (capture bpf_skb_load_bytes (mkMaps port 0 0 []) pkts)) →
  returned_on k ls = set_src (ipStr (srcIP k)) <$> (captured_as <$> xs) ∧
  buffer_of (table s) k = [].
Proof. apply captured_requests. Qed.
End end_to_end.

(** A post and a get in three segments. *)
Definition demo_messages : list message :=
  [mkMessage (str "POST") (str "/a") (str "HTTP/1.1") [(str "Content-Length", str "5")]
     (str "hello");
   mkMessage (str "GET") (str "/b") (str "HTTP/1.1") [(str "Host", str "apigee")] []].
Definition demo_text : bytes := concat (text_of <$> demo_messages).
Definition demo_segments : list bytes :=
  [take 20 demo_text; take 30 (drop 20 demo_text); drop 50 demo_text].
Definition demo_packets : list (sk_buff * option bytes) :=
  (λ d, (demo_skb d, Some zero_slot)) <$> demo_segments.
Definition demo_flow : streamKey := flow_of (demo_skb []).

Lemma load_bytes_model_total skb off n :
  (0 ≤ off)%Z → (0 < n)%Z → (off + n ≤ len (frame skb))%Z →
  is_Some (load_bytes_model skb off n).
Proof. intros ? ? ?. unfold load_bytes_model. rewrite decide_True by lia. by eexists. Qed.

Lemma demo_packets_ok : Forall (packet_ok 9090 demo_flow) demo_packets.
Proof.
  repeat apply Forall_cons_2; [..|apply Forall_nil_2];
    (split; [vm_compute; reflexivity|]); (split; [vm_compute; reflexivity|]);
    (split; [by_compute|]); (split; [vm_compute; reflexivity|]);
    exists zero_slot; (split; [reflexivity|vm_compute; reflexivity]).
Qed.


(** The same packets among an acknowledgement and a packet of another client. *)
Definition mixed_packets : list (sk_buff * option bytes) :=
  (demo_skb [], None) :: (mkSkb (demo_frame (str "x")) 20, None) :: demo_packets.
Definition mixed_events : list PktEvent :=
  delivered (Some <$> rb (capture load_bytes_model (mkMaps 9090 0 0 []) mixed_packets)).

Lemma mixed_packets_fine : Forall (packet_fine 9090 demo_flow) mixed_packets.
Proof.
  repeat apply Forall_cons_2; [..|apply Forall_nil_2];
    (split; [intros slot; intros [= <-] || intros [=]; vm_compute; reflexivity|]);
    intros Hne; try (exfalso; apply Hne; vm_compute; reflexivity);
    (split; [by_compute|]); (split; [vm_compute; reflexivity|]); by eexists.
Qed.

Lemma mixed_trace :
  ∃ ls s, trace (tracker_step None) init_tracker ls s ∧ events_of ls = mixed_events ∧
    untouched ls ∧ pc s = Idle.
Proof.
  destruct (feed_all ((λ ev, (0%Z, ev)) <$> mixed_events) ∅ zero_stats)
    as [[[reqs t'] st']|p] eqn:E; [|exfalso; revert E; vm_compute; discriminate].
  apply (feed_all_trace None) in E; [|apply Forall_forall; intros ev Hev|done].
  - destruct E as (ls & H1 & H2 & H3). by eexists ls, _.
  - revert ev Hev. rewrite <- Forall_forall. apply delivered_ok.
Qed.

Theorem capture_to_requests_witness :
  ∃ ls s, trace (tracker_step None) init_tracker ls s ∧
    returned_on demo_flow ls =
      set_src (ipStr (srcIP demo_flow)) <$> (captured_as <$> demo_messages) ∧
    buffer_of (table s) demo_flow = [].
Proof.
  destruct mixed_trace as (ls & s & H1 & H2 & H3 & H4). exists ls, s. split; [exact H1|].
  apply (capture_to_requests load_bytes_model load_bytes_model_spec load_bytes_model_total
           None 9090 demo_flow mixed_packets demo_messages ls s).
  - exact mixed_packets_fine.
  - by_compute.
  - vm_compute. reflexivity.
  - exact H1.
  - by apply untouched_kept.
  - exact H4.
  - exact H2.
Defined.

(** ** From the requests to the report *)

(** A path without escapes, query, fragment and control bytes. *)
Definition plain (t : bytes) : Prop :=
  (PERCENT ∉ t) ∧ (QUESTION ∉ t) ∧ (HASH ∉ t) ∧ existsb ctl_byte t = false.

#[export] Instance plain_dec t : Decision (plain t).
Proof. unfold plain. apply _. Defined.

(** A request that EWP serves with a success at the path [t]. *)
Definition served_at (method path body : bytes) : Prop :=
  ∃ h, mux_route mux method path = Handler h ∧ is_api h = true ∧ api_accepts h method body = true.

(** A message with a method, names and values that [http.Client] sends, and with
    no expectation. *)
Definition sends_well (x : message) : Prop :=
  m_method x ≠ [] ∧ forallb valid_header_byte (m_method x) = true ∧
  Forall (λ f, field_valid f.1 f.2) (m_fields x) ∧ unnamed Expect (m_fields x).

#[export] Instance sends_well_dec x : Decision (sends_well x).
Proof. unfold sends_well. apply _. Defined.

(** Its head is not too large for the server when it goes to the path [t]: two
    kilobytes are left for the host and the marks. *)
Definition head_fits (x : message) (t : bytes) : Prop :=
  (Z.of_nat (length (m_method x) + 3 * length t + fields_size (m_fields x)) + 2048
   ≤ DefaultMaxHeaderBytes)%Z.

#[export] Instance head_fits_dec x t : Decision (head_fits x t).
Proof. unfold head_fits. apply _. Defined.

(** A message the route table forwards to such a path. *)
Definition mirrorable (active : routes) (x : message) : Prop :=
  sends_well x ∧
  ∃ t, resolveRoute active (m_path x) = (SLASH :: t, true) ∧ plain t ∧
       head_fits x (SLASH :: t) ∧ served_at (m_method x) (SLASH :: t) (m_body x).

(** The key of the report that a message counts for. *)
Definition message_key (active : routes) (x : message) : bytes :=
  m_method x ++ str " " ++ (resolveRoute active (m_path x)).1.
Definition messages_to (active : routes) (k : bytes) (xs : list message) : nat :=
  length (filter (λ k', k' = k) (message_key active <$> xs)).

Definition captured_from (src : bytes) (x : message) : CapturedRequest :=
  mkRequest (m_method x) (m_path x) (headers_of (m_fields x)) (m_body x) src.

Lemma set_src_captured src (xs : list message) :
  set_src src <$> (captured_as <$> xs) = captured_from src <$> xs.
Proof. by rewrite <- list_fmap_compose. Qed.

(** The configured EWP: plain HTTP, to a host with a name of sane length. *)
Record ewp_address := mkAddress { ea_scheme : bytes; ea_host : bytes; ea_slashes : nat }.
Definition address_ok (e : ewp_address) : Prop :=
  scheme_ok (ea_scheme e) = true ∧ to_lower (ea_scheme e) = str "http" ∧
  host_ok (ea_host e) ∧ length (ea_host e) ≤ 1024.

#[export] Instance address_ok_dec e : Decision (address_ok e).
Proof. unfold address_ok. apply _. Defined.

Definition mirror_to (e : ewp_address) : HTTPMirror :=
  NewHTTPMirror (base_url (ea_scheme e) (ea_host e) (ea_slashes e)).

Section traffic.
Context (active : routes) (e : ewp_address) (He : address_ok e).

(** [r] is what EWP receives when the mirror sends [c], for some order of
    ranging over its headers. *)
Definition replays (c : CapturedRequest) (r : Request) : Prop :=
  ∃ order rq, order ≡ₚ map_to_list (Headers c) ∧
    wire_request order (mirror_to e) active c = Some rq ∧ arrives rq r.

(** What the mirror builds for a mirrorable message. *)
Lemma mirror_builds order ip x :
  mirrorable active x → order ≡ₚ map_to_list (headers_of (m_fields x)) →
  ∃ rq u, wire_request order (mirror_to e) active (captured_from (ipStr ip) x) = Some rq ∧
    (head_size rq ≤ DefaultMaxHeaderBytes)%Z ∧ rq_Header rq !! Expect = None ∧
    header_get (rq_Header rq) X_Mirror_Source = str "ebpf-mirror-agent" ∧
    rq_Method rq = m_method x ∧ default [] (rq_Body rq) = m_body x ∧
    ParseRequestURI (RequestURI (rq_URL rq)) = Some u ∧
    u_Path u = (resolveRoute active (m_path x)).1.
Proof.
  intros ((Hne & Hv & Hfs & Hex) & t & Er & (Hp & Hq & Hh & Hc) & Hfit & _) Ho.
  destruct He as (Hscheme & Hhttp & Hhost & Hlen).
  unfold wire_request. cbn [Path captured_from]. rewrite Er. cbn [negb fst snd].
  destruct (build_request_plain _ _ (ea_slashes e) Hscheme Hhost order (captured_from (ipStr ip) x) t)
    as (rq & E & Hs & Ehost & Hpath & _ & Hwf & Huri); try done.
  { rewrite existsb_app, Hc, orb_false_r. by apply scheme_no_ctl. }
  destruct (RequestURI_parse _ Hwf) as [raw Hu]. rewrite Hpath in Hu.
  destruct (ipStr_ok ip) as [Hip1 Hip2].
  destruct (request_taken _ _ (captured_from (ipStr ip) x) _ _ Ho E (header_valid_fields _ Hfs) Hip1 Hip2
    (headers_of_unnamed Expect _ eq_refl Hex)) as (H1 & H2 & H3 & H4).
  unfold mirror_to. rewrite E. cbn [mbind option_bind].
  rewrite decide_True by (split; [done|]; split; [by rewrite Ehost; apply Hhost|];
    rewrite Hs, Hhttp; by left).
  apply build_request_URL in E as (_ & _ & _ & Em & Eb).
  cbn [Method Body Headers captured_from] in *. rewrite decide_False in Em by done.
  exists rq. eexists. split; [done|]. rewrite header_size_fields in H2.
  split; [|split; [done|]; split; [done|]; split; [done|]].
  { unfold head_size, head_fits in *. rewrite Em, Ehost. cbn [length] in *. lia. }
  split; [by rewrite Eb; case_decide; destruct (m_body x); cbn in *; try lia|].
  split; [exact Hu|]. done.
Qed.

(** It always reaches EWP, as itself. *)
Lemma replays_exist ip x : mirrorable active x → ∃ r, replays (captured_from (ipStr ip) x) r.
Proof.
  intros Hx. destruct (mirror_builds (map_to_list (headers_of (m_fields x))) ip x Hx)
    as (rq & u & E & Hsz & Hex & Hmk & Hm & Hb & Hu & Hp); [done|].
  exists (mkReq (rq_Method rq) (u_Path u) (u_RawQuery u) (rq_Header rq) (default [] (rq_Body rq))).
  eexists _, rq. split; [reflexivity|]. split; [exact E|]. split; [done|]. split; [done|].
  split; [done|]. split; [by exists u|]. by split.
Qed.

Lemma replays_as ip x r :
  mirrorable active x → replays (captured_from (ipStr ip) x) r →
  isMirrored r = true ∧ q_Method r ++ str " " ++ q_Path r = message_key active x ∧
  served_at (q_Method r) (q_Path r) (q_Body r).
Proof.
  intros Hx (order & rq & Ho & E & _ & _ & Hm & (u & Hu & Hp & _) & Hmk & Hb).
  destruct (mirror_builds order ip x Hx Ho) as (rq' & u' & E' & _ & _ & Hmk' & Hm' & Hb' & Hu' & Hp').
  simplify_eq. unfold isMirrored, message_key.
  change (str "X-Mirror-Source") with X_Mirror_Source.
  rewrite Hmk, Hmk', Hm, Hm', Hp, Hp', Hb, Hb'. split; [done|]. split; [done|].
  destruct Hx as (_ & t & -> & _ & _ & Hs). exact Hs.
Qed.
End traffic.

(** ** From EWP to the report

    EWP has served the mirrored requests [rs], in any order and interleaving,
    and maybe answered any other requests and taken configurations in between. *)
Definition has_served (rs : list Request) (x : system) : Prop :=
  reachable system_init ewp_step x ∧ gos x = [] ∧ mirrored (arrived (history x)) ≡ₚ rs.

Definition to_record (r : Request) : Prop :=
  isMirrored r = true ∧ served_at (q_Method r) (q_Path r) (q_Body r).

Lemma mirrored_all rs : Forall to_record rs → mirrored rs = rs.
Proof.
  induction 1 as [|r rs [Hr _] _ IH]; [done|]. unfold mirrored in *. cbn [List.filter].
  by rewrite Hr, IH.
Qed.

(** The log is exactly those requests. *)
Lemma has_served_log rs x :
  Forall to_record rs → length rs ≤ log_limit → has_served rs x →
  path_key <$> validationLog (sim x) ≡ₚ request_key <$> rs.
Proof.
  intros Hrs Hl (Hx & Hg & Ha). destruct (system_complete x Hx) as [HA [_ HT]].
  assert (mirrored (turned_away (history x)) = []) as Et.
  { destruct (mirrored (turned_away (history x))) as [|r l] eqn:E; [done|]. exfalso.
    assert (r ∈ mirrored (turned_away (history x))) as Hr by (rewrite E; left).
    apply list_elem_of_In, List.filter_In in Hr as [Hr Hm]. rewrite <- list_elem_of_In in Hr.
    rewrite Forall_forall in HT. destruct (HT r Hr) as (Hin & h & Hh & Hacc).
    assert (r ∈ rs) as Hrs'.
    { rewrite <- Ha. apply list_elem_of_In, List.filter_In. by rewrite <- list_elem_of_In. }
    rewrite Forall_forall in Hrs. destruct (Hrs r Hrs') as [_ (h' & Hh' & _ & Hacc')].
    simplify_eq. congruence. }
  unfold accounted, keys in HA. rewrite Hg, Et in HA.
  specialize (HA ltac:(by rewrite Ha)). cbn in HA. rewrite app_nil_r in HA. by rewrite HA, Ha.
Qed.

(** Such a state exists: serve them one after the other. *)
Lemma has_served_exists rs : Forall to_record rs → ∃ x, has_served rs x.
Proof.
  intros H. assert (∃ s n, reachable system_init ewp_step (mkSystem s [] n) ∧ arrived n = rs)
    as (s & n & Hr & Ha); [|exists (mkSystem s [] n); split; [done|]; split; [done|];
       cbn [history]; by rewrite Ha, mirrored_all].
  induction rs as [|r rs IH] using rev_ind.
  - exists initial, (mkPast [] []). split; [by apply reach_init|done].
  - apply Forall_app in H as [Hrs H]. apply Forall_cons in H as [[_ (h & Hm & Ha & _)] _].
    destruct (IH Hrs) as (s & n & Hr & En).
    destruct (serve_arrives demo_env [] r s [] n h Hm Ha) as (n' & En' & Hrun).
    eexists _, n'. split; [eapply reachable_rtc, Hrun; exact Hr|by rewrite En', En].
Qed.

Lemma length_entries_key k es :
  length (entries_of k es) = length (filter (λ k', k' = k) (path_key <$> es)).
Proof.
  induction es as [|e es IH]; [done|]. cbn [entries_of List.filter fmap list_fmap].
  rewrite filter_cons. case_bool_decide; [rewrite decide_True by done|rewrite decide_False by done];
    cbn [length]; by rewrite <- IH.
Qed.

(** What a report says of the messages [xs]. *)
Definition reports (active : routes) (xs : list message) (rp : report) : Prop :=
  rp_total rp = Z.of_nat (length xs) ∧ rp_failed rp = 0%Z ∧
  (rp_ready_to_cut rp = true ↔ xs ≠ []) ∧
  ∀ k, match rp_by_path rp !! k with
       | Some ps => ps_Total ps = Z.of_nat (messages_to active k xs) ∧ ps_ReadyToCut ps = true
       | None => messages_to active k xs = 0
       end.

Lemma log_reports active xs es t :
  path_key <$> es ≡ₚ message_key active <$> xs → threshold_ok t →
  Forall (λ e, e_Passed e = true) es → length xs ≤ log_limit →
  reports active xs (validation_report es t).
Proof.
  intros Hk Ht Hp Hl.
  assert (length es = length xs) as El.
  { apply Permutation_length in Hk. by rewrite !length_fmap in Hk. }
  assert (es ≠ [] ↔ xs ≠ []) as Hne by (destruct es, xs; done).
  assert (rp_ready_to_cut (validation_report es t) = true ↔ es ≠ []) as Hready.
  { split; [by intros [? _]%ready_to_cut_spec|]. intros H. apply ready_of_passed; by rewrite ?El. }
  split; [cbn [rp_total validation_report]; lia|].
  split; [cbn [rp_failed validation_report]; rewrite (proj2 (filter_all _) Hp); lia|].
  split; [by rewrite <- Hne|].
  intros k. pose proof (report_path es t k) as H.
  assert (length (entries_of k es) = messages_to active k xs) as En.
  { rewrite length_entries_key. unfold messages_to. by rewrite Hk. }
  destruct (rp_by_path _ !! k) as [ps|] eqn:E; [|by rewrite H in En].
  cbv zeta in H. destruct H as (H1 & Hpos & _). split; [lia|].
  assert (es ≠ []) as Hes.
  { intros ->. cbn [entries_of List.filter length] in H1. lia. }
  apply Hready, ready_to_cut_spec in Hes as [_ Hall]. by apply (Hall k).
Qed.

Section traffic_in_any_order.
Context (active : routes) (e : ewp_address) (He : address_ok e).

Lemma replayed_to_record ip xs rs :
  Forall (mirrorable active) xs → Forall2 (replays active e) (captured_from (ipStr ip) <$> xs) rs →
  Forall to_record rs ∧ request_key <$> rs = message_key active <$> xs.
Proof.
  intros Hx H2. rewrite Forall2_fmap_l in H2. induction H2 as [|x r xs rs Hr _ IH].
  { split; [constructor|done]. }
  apply Forall_cons in Hx as [Hx Hxs]. destruct (IH Hxs) as [IH1 IH2].
  destruct (replays_as active e He ip x r Hx Hr) as (H1 & H2 & H3).
  split; [by constructor|]. cbn [fmap list_fmap]. rewrite IH2. by f_equal.
Qed.

Lemma replayed_in_any_order ip xs rs x :
  Forall (mirrorable active) xs → Forall2 (replays active e) (captured_from (ipStr ip) <$> xs) rs →
  length xs ≤ log_limit → has_served rs x →
  reports active xs (validationReportHandler (sim x)).
Proof.
  intros Hx H2 Hl Hs. destruct (replayed_to_record ip xs rs Hx H2) as [Hrs Hk].
  assert (length rs = length xs) as El by (by rewrite <- (length_fmap request_key), Hk, length_fmap).
  pose proof Hs as [(Hp & _ & Ht & _ & _)%system_invariant _].
  apply log_reports; [|done..]. rewrite <- Hk. apply has_served_log; [done|lia|done].
Qed.

Section end_to_end.
Context (bpf_skb_load_bytes : sk_buff → Z → Z → option bytes).
Hypothesis load_bytes_spec : ∀ skb off n b,
  bpf_skb_load_bytes skb off n = Some b →
  b = take (Z.to_nat n) (drop (Z.to_nat off) (frame skb)) ∧ len b = n.
Hypothesis load_bytes_total : ∀ skb off n,
  (0 ≤ off)%Z → (0 < n)%Z → (off + n ≤ len (frame skb))%Z →
  is_Some (bpf_skb_load_bytes skb off n).

(** C2. From the wire to the report: among any other packets, let a client send
    at most a thousand well-formed requests to APIGEE over one connection, in
    good segments. Let their methods, names and values be ones that an HTTP
    client sends, none of them have an [Expect] field, and their heads fit the
    server's limit; let the route table forward all of them to plain paths, and
    EWP serve each one's method at its path with a success (which it does not do
    for, say, a DELETE of its products). Then in every trace of the tracker -
    other connections and the reaper included, as long as it keeps this one -
    every request returned for the connection can be replayed to the configured
    EWP, and EWP can serve what arrives. Once it has - in any order, with its
    goroutines interleaved in any way, whatever threshold was configured and
    whatever was requested from it directly meanwhile - the validation report
    counts every one of the client's requests exactly once under its own method
    and path, reports no failure, and declares the migration ready exactly when
    there was a request at all. *)
Theorem traffic_reaches_report d port k pkts xs ls s :
  Forall (packet_fine port k) pkts → Forall message_ok xs →
  concat (flow_payload port k <$> pkts) = concat (text_of <$> xs) →
  Forall (mirrorable active) xs → length xs ≤ 1000 →
  trace (tracker_step d) init_tracker ls s → kept k ls → pc s = Idle →
  events_of ls =
    delivered (Some <$> rb (capture bpf_skb_load_bytes (mkMaps port 0 0 []) pkts)) →
  Forall (λ c, ∃ r, replays active e c r) (returned_on k ls) ∧
  ∀ rs, Forall2 (replays active e) (returned_on k ls) rs →
    (∃ x, has_served rs x) ∧
    ∀ x, has_served rs x → reports active xs (validationReportHandler (sim x)).
Proof.
  intros Hp Hx Hc Hm Hl Htr Hk Hpc Hev.
  destruct (captured_requests _ load_bytes_spec load_bytes_total d port k pkts xs ls s) as [-> _];
    [done..|].
  rewrite set_src_captured. split.
  - rewrite Forall_fmap. eapply Forall_impl; [exact Hm|]. intros x Hmx. by apply replays_exist.
  - intros rs H2. split.
    + destruct (replayed_to_record _ _ _ Hm H2) as [Hrs _]. by apply has_served_exists.
    + intros x Hs. by eapply replayed_in_any_order.
Qed.
End end_to_end.
End traffic_in_any_order.

(** A post for a user and a get for the catch-all, each rewritten by a rule of
    its own. *)
Definition demo_active : routes :=
  Some [mkRoute (str "/a") (str "/api/v1/users/a"); mkRoute (str "/") (str "/v2/")].

Lemma demo_mirrorable : Forall (mirrorable demo_active) demo_messages.
Proof.
  repeat apply Forall_cons_2; [..|apply Forall_nil_2];
    (split; [by_compute|]);
    eexists; (split; [vm_compute; reflexivity|]); (split; [by_compute|]); (split; [by_compute|]);
    [exists Users|exists Echo]; split_and!; vm_compute; reflexivity.
Qed.

(** What the conditions leave out: a field name with a space, which the client
    refuses to send, and a method EWP does not serve. *)
Example refused_field :
  let c := mkRequest (str "GET") (str "/b") (headers_of [(str "X Y", str "1")]) [] (str "1.0.0.0") in
  wire_request (map_to_list (Headers c)) (mirror_to (mkAddress (str "http") (str "h") 0)) None c = None.
Proof. vm_compute. reflexivity. Qed.

Example delete_not_served : ¬ served_at (str "DELETE") (str "/api/v1/products") [].
Proof.
  intros (h & Hm & _ & Ha). vm_compute in Hm. injection Hm as <-. vm_compute in Ha. discriminate.
Qed.

Lemma Forall_choice {A B} (P : A → B → Prop) l :
  Forall (λ a, ∃ b, P a b) l → ∃ l', Forall2 P l l'.
Proof.
  induction 1 as [|a l [b Hb] _ [l' IH]]; [exists []|exists (b :: l')]; by constructor.
Qed.

Definition demo_address : ewp_address := mkAddress (str "http") (str "ewp-sim:9091") 1.

Theorem traffic_reaches_report_witness :
  ∃ reqs rs x,
    Forall2 (replays demo_active demo_address) reqs rs ∧
    has_served rs x ∧ reports demo_active demo_messages (validationReportHandler (sim x)).
Proof.
  destruct mixed_trace as (ls & s & H1 & H2 & H3 & H4).
  destruct (traffic_reaches_report demo_active demo_address ltac:(by_compute)
              load_bytes_model load_bytes_model_spec load_bytes_model_total
              None 9090 demo_flow mixed_packets demo_messages ls s mixed_packets_fine
              ltac:(by_compute) ltac:(vm_compute; reflexivity) demo_mirrorable
              ltac:(vm_compute; lia) H1 (untouched_kept _ _ H3) H4 H2)
    as [Hr H].
  destruct (Forall_choice _ _ Hr) as [rs Hrs]. destruct (H rs Hrs) as [[x Hx] Hall].
  exists (returned_on demo_flow ls), rs, x. split; [exact Hrs|]. split; [exact Hx|]. by apply Hall.
Defined.
